(** * RealmPortal: the tree transformation engine of [RealmPortal.py]

    A shallow embedding of class [WoWUIMigrator] (module [RealmPortal.py])
    and of the parts of the Python runtime it calls ([posixpath],
    [pathlib], [os], [shutil], [re], the UTF-8 codec), followed by the
    properties of the engine that are established on it.

    Conventions of the embedding.
    - A Python [str] is a list of Unicode code points ([N]).
    - A Python [dict] is an association list in insertion order with
      unique keys; [d[k] = v] keeps the position of an existing key.
    - Exceptions are explicit: a computation ends with [Ret] or [Raise],
      and the state it has reached is kept in both cases.
    - Paths are POSIX paths ([os.sep] is [/]). *)

From Stdlib Require Import List NArith ZArith Bool Arith Lia.
From Stdlib Require Import String Ascii DecimalString.
From Stdlib Require Import Permutation Sorted.
Import ListNotations.

Set Implicit Arguments.
Set Warnings "-register-all".

(* ================================================================== *)
(** * Python strings *)

Definition str := list N.

(** A string literal of the source. *)
Definition lit (s : string) : str :=
  List.map N_of_ascii (list_ascii_of_string s).

Fixpoint str_eqb (a b : str) : bool :=
  match a, b with
  | [], [] => true
  | c :: a', d :: b' => N.eqb c d && str_eqb a' b'
  | _, _ => false
  end.

(** [s.startswith(p)] *)
Fixpoint startswith (s p : str) {struct p} : bool :=
  match p, s with
  | [], _ => true
  | c :: p', d :: s' => N.eqb c d && startswith s' p'
  | _ :: _, [] => false
  end.

(** [sub in s] *)
Fixpoint contains (s sub : str) : bool :=
  startswith s sub
  || match s with
     | [] => false
     | _ :: s' => contains s' sub
     end.

(** [s.endswith(p)] *)
Definition endswith (s p : str) : bool := startswith (rev s) (rev p).

Definition sep : N := 47.   (* os.sep, "/" *)
Definition dot : N := 46.   (* os.extsep, "." *)

(** [s.split(c)]: the segments between the occurrences of [c]. *)
Fixpoint split_on (c : N) (s : str) : list str :=
  match s with
  | [] => [[]]
  | d :: s' =>
      if N.eqb d c then [] :: split_on c s'
      else match split_on c s' with
           | h :: t => (d :: h) :: t
           | [] => [[d]]
           end
  end.

(** [sepr.join(parts)] *)
Fixpoint join_with (sepr : str) (parts : list str) : str :=
  match parts with
  | [] => []
  | [p] => p
  | p :: rest => p ++ sepr ++ join_with sepr rest
  end.

(** The text before and after the last occurrence of [c] in [s]
    ([s.rfind(c)]), when there is one. *)
Fixpoint rsplit_last (c : N) (s : str) : option (str * str) :=
  match s with
  | [] => None
  | d :: s' =>
      match rsplit_last c s' with
      | Some (b, a) => Some (d :: b, a)
      | None => if N.eqb d c then Some ([], s') else None
      end
  end.

(** [s.rstrip(c)] for a single character [c]. *)
Definition rstrip (c : N) (s : str) : str :=
  rev ((fix drop (r : str) : str :=
          match r with
          | d :: r' => if N.eqb d c then drop r' else r
          | [] => []
          end) (rev s)).

(** Python truthiness of an optional string argument ([None] and the
    empty string are false). *)
Definition truthy (o : option str) : bool :=
  match o with
  | Some (_ :: _) => true
  | _ => false
  end.

(** The decimal numeral of an integer, as [str(int)] prints it. *)
Definition str_of_int (z : Z) : str :=
  lit (NilEmpty.string_of_int (Z.to_int z)).

(* ------------------------------------------------------------------ *)
(** ** ASCII character classes *)

Definition is_ascii (c : N) : bool := N.ltb c 128.
Definition in_range (lo hi c : N) : bool := N.leb lo c && N.leb c hi.
Definition is_digit (c : N) : bool := in_range 48 57 c.
Definition is_octdigit (c : N) : bool := in_range 48 55 c.
Definition is_upper (c : N) : bool := in_range 65 90 c.
Definition is_lower (c : N) : bool := in_range 97 122 c.
Definition is_ascii_letter (c : N) : bool := is_upper c || is_lower c.
Definition ascii_lower (c : N) : N := if is_upper c then (c + 32)%N else c.

(** The Unicode character database of the interpreter, consulted for
    code points outside ASCII: which of them are word characters
    ([\w]), and which pairs (pattern character, text character) match
    under [re.IGNORECASE].  Nothing is assumed of it. *)
Class UnicodeDb := {
  uni_word : N -> bool;
  uni_ci_eq : N -> N -> bool
}.

(** A database without word characters or case pairs outside ASCII. *)
Definition ascii_db : UnicodeDb :=
  {| uni_word := fun _ => false; uni_ci_eq := N.eqb |}.

(* ================================================================== *)
(** * [posixpath] *)

(** [os.path.join(a, b)] *)
Definition os_path_join (a b : str) : str :=
  if startswith b [sep] then b
  else match a with
       | [] => b
       | _ => if endswith a [sep] then a ++ b else a ++ sep :: b
       end.

(** [os.path.join(a, b, c)] *)
Definition os_path_join3 (a b c : str) : str :=
  os_path_join (os_path_join a b) c.

(** [os.path.basename(p)] *)
Definition os_path_basename (p : str) : str :=
  match rsplit_last sep p with
  | Some (_, a) => a
  | None => p
  end.

(** [os.path.dirname(p)] *)
Definition os_path_dirname (p : str) : str :=
  match rsplit_last sep p with
  | Some (b, _) =>
      let head := b ++ [sep] in
      if forallb (N.eqb sep) head then head else rstrip sep head
  | None => []
  end.

(** [os.path.splitext(p)[1]]: the extension starts at the last dot of the
    last component, unless only dots precede it there. *)
Definition splitext_ext (p : str) : str :=
  match rsplit_last dot (os_path_basename p) with
  | Some (b, a) => if forallb (N.eqb dot) b then [] else dot :: a
  | None => []
  end.

(** [ext.lower()], on the ASCII letters.  No other code point lowers to
    a letter of an extension in [config_extensions]. *)
Definition str_lower (s : str) : str := List.map ascii_lower s.

(* ================================================================== *)
(** * [re]: the pattern [\b<escaped literal>\b] and [re.sub] *)

Section Regex.
Context {db : UnicodeDb}.

(** [\w] *)
Definition is_word (c : N) : bool :=
  if is_ascii c
  then is_ascii_letter c || is_digit c || N.eqb c 95
  else uni_word c.

(** A literal of the pattern against a character of the text under
    [re.IGNORECASE]. *)
Definition ci_eq (p c : N) : bool :=
  if is_ascii p && is_ascii c
  then N.eqb (ascii_lower p) (ascii_lower c)
  else uni_ci_eq p c.

Inductive re_item :=
| ReBoundary                (* \b *)
| ReLiteral (c : N).        (* an escaped character of the key *)

(** The pattern [rf'\b{re.escape(old_text)}\b']: [re.escape] makes every
    character of [old_text] stand for itself. *)
Definition word_pattern (old_text : str) : list re_item :=
  ReBoundary :: List.map ReLiteral old_text ++ [ReBoundary].

Definition word_opt (o : option N) : bool :=
  match o with
  | Some c => is_word c
  | None => false
  end.

(** [\b] between the character [prev] and the text [rest]. *)
Definition at_boundary (prev : option N) (rest : str) : bool :=
  xorb (word_opt prev) (word_opt (hd_error rest)).

(** Match the items at the current position; the result is the number of
    characters matched. *)
Fixpoint match_here (items : list re_item) (prev : option N) (rest : str)
  : option nat :=
  match items with
  | [] => Some 0
  | ReBoundary :: items' =>
      if at_boundary prev rest then match_here items' prev rest else None
  | ReLiteral p :: items' =>
      match rest with
      | c :: rest' =>
          if ci_eq p c
          then option_map S (match_here items' (Some c) rest')
          else None
      | [] => None
      end
  end.

(** The scan of [re.sub]: leftmost matches, left to right, without
    overlap; [skip] characters of the current match remain to be
    dropped.  After an empty match the next character is copied. *)
Fixpoint sub_scan (items : list re_item) (repl : str -> str)
         (prev : option N) (s : str) (skip : nat) : str :=
  match s with
  | [] =>
      match skip, match_here items prev [] with
      | 0, Some _ => repl []
      | _, _ => []
      end
  | c :: s' =>
      match skip with
      | S k => sub_scan items repl (Some c) s' k
      | 0 =>
          match match_here items prev s with
          | Some 0 => repl [] ++ c :: sub_scan items repl (Some c) s' 0
          | Some (S n) =>
              repl (firstn (S n) s) ++ sub_scan items repl (Some c) s' n
          | None => c :: sub_scan items repl (Some c) s' 0
          end
      end
  end.

End Regex.

(* ================================================================== *)
(** * Exceptions *)

Inductive errno := ENOENT | EEXIST | EACCES | ENOTDIR | EISDIR | ENOTEMPTY | EINVAL.

(** The exceptions the engine can meet; all derive from [Exception]. *)
Inductive exn :=
| OSError (e : errno)        (* FileNotFoundError, PermissionError, ... *)
| ShutilError                (* shutil.Error *)
| TemplateError              (* re.error or IndexError of a replacement template *)
| UnicodeEncodeError
| RecursionError.

Inductive outcome (A : Type) :=
| Ret (a : A)
| Raise (e : exn).
Arguments Ret {A} a.
Arguments Raise {A} e.

(* ================================================================== *)
(** * Replacement templates of [re.sub]

    [re.sub(pattern, repl, string)] takes a [repl] without backslash as
    it is and hands any other to the template parser before the scan
    starts (CPython 3.12, [re._parser.parse_template]); the pattern here
    has no group, so group 0 is the only valid reference. *)

Inductive token :=
| TChar (c : N)
| TEsc (c : N).              (* a backslash and the character after it *)

Definition backslash : N := 92.

(** The tokenizer; a backslash at the end is an error. *)
Fixpoint tokenize (s : str) : option (list token) :=
  match s with
  | [] => Some []
  | c :: s' =>
      if N.eqb c backslash
      then match s' with
           | [] => None
           | d :: s'' => option_map (cons (TEsc d)) (tokenize s'')
           end
      else option_map (cons (TChar c)) (tokenize s')
  end.

Inductive piece :=
| PLit (c : N)
| PGroup0.                   (* \g<0>: the whole match *)

Definition is_tchar (p : N -> bool) (t : token) : bool :=
  match t with
  | TChar c => p c
  | TEsc _ => false
  end.

(** A group name that is all ASCII decimal digits and denotes 0. *)
Definition names_group0 (name : list token) : bool :=
  match name with
  | [] => false
  | _ => forallb (is_tchar (N.eqb 48)) name
  end.

(** [ESCAPES] of [re._parser] *)
Definition escape_char (c : N) : option N :=
  if N.eqb c 97 then Some 7%N             (* \a *)
  else if N.eqb c 98 then Some 8%N        (* \b *)
  else if N.eqb c 102 then Some 12%N      (* \f *)
  else if N.eqb c 110 then Some 10%N      (* \n *)
  else if N.eqb c 114 then Some 13%N      (* \r *)
  else if N.eqb c 116 then Some 9%N       (* \t *)
  else if N.eqb c 118 then Some 11%N      (* \v *)
  else if N.eqb c backslash then Some backslash
  else None.

Definition octval (c : N) : N := (c - 48)%N.

(** [name] is [Some acc] while the name of a [\g<...>] is being read. *)
Fixpoint parse_tokens (name : option (list token)) (toks : list token)
  : option (list piece) :=
  match name with
  | Some acc =>
      match toks with
      | [] => None                                    (* missing > *)
      | t :: rest =>
          if is_tchar (N.eqb 62) t
          then if names_group0 acc
               then option_map (cons PGroup0) (parse_tokens None rest)
               else None                              (* no such group *)
          else parse_tokens (Some (acc ++ [t])) rest
      end
  | None =>
      match toks with
      | [] => Some []
      | TChar c :: rest => option_map (cons (PLit c)) (parse_tokens None rest)
      | TEsc c :: rest =>
          if N.eqb c 103 then                         (* \g *)
            match rest with
            | t :: rest' =>
                if is_tchar (N.eqb 60) t then parse_tokens (Some []) rest'
                else None                             (* missing < *)
            | [] => None
            end
          else if N.eqb c 48 then                     (* \0, \0o, \0oo *)
            match rest with
            | TChar d1 :: rest1 =>
                if is_octdigit d1 then
                  match rest1 with
                  | TChar d2 :: rest2 =>
                      if is_octdigit d2
                      then option_map
                             (cons (PLit (N.land (octval d1 * 8 + octval d2)%N 255)))
                             (parse_tokens None rest2)
                      else option_map (cons (PLit (octval d1)))
                             (parse_tokens None rest1)
                  | _ => option_map (cons (PLit (octval d1)))
                           (parse_tokens None rest1)
                  end
                else option_map (cons (PLit 0%N)) (parse_tokens None rest)
            | _ => option_map (cons (PLit 0%N)) (parse_tokens None rest)
            end
          else if is_digit c then                     (* \1 .. \9 *)
            match rest with
            | TChar d2 :: TChar d3 :: rest3 =>
                if is_octdigit c && is_octdigit d2 && is_octdigit d3
                then let v := (octval c * 64 + octval d2 * 8 + octval d3)%N in
                     if N.ltb 255 v then None         (* beyond 0o377 *)
                     else option_map (cons (PLit v)) (parse_tokens None rest3)
                else None                             (* invalid group reference *)
            | _ => None                               (* invalid group reference *)
            end
          else
            match escape_char c with
            | Some e => option_map (cons (PLit e)) (parse_tokens None rest)
            | None =>
                if is_ascii_letter c then None        (* bad escape *)
                else option_map (fun ps => PLit backslash :: PLit c :: ps)
                       (parse_tokens None rest)
            end
      end
  end.

Definition parse_template (repl : str) : option (list piece) :=
  if existsb (N.eqb backslash) repl
  then match tokenize repl with
       | Some toks => parse_tokens None toks
       | None => None
       end
  else Some (List.map PLit repl).

(** The text a match [m] is replaced with. *)
Definition expand (ps : list piece) (m : str) : str :=
  flat_map (fun p => match p with
                     | PLit c => [c]
                     | PGroup0 => m
                     end) ps.

Section Rewrite.
Context {db : UnicodeDb}.

(** [re.sub(rf'\b{re.escape(old_text)}\b', new_text, content,
            flags=re.IGNORECASE)] *)
Definition re_sub (old_text new_text content : str) : outcome str :=
  match parse_template new_text with
  | Some ps => Ret (sub_scan (word_pattern old_text) (expand ps) None content 0)
  | None => Raise TemplateError
  end.

End Rewrite.

(* ================================================================== *)
(** * Dictionaries and the identity mappings *)

Definition dict := list (str * str).

(** [d[k] = v] *)
Fixpoint dict_set (d : dict) (k v : str) : dict :=
  match d with
  | [] => [(k, v)]
  | (k', v') :: d' =>
      if str_eqb k' k then (k', v) :: d' else (k', v') :: dict_set d' k v
  end.

(** [d.get(k, default)] *)
Fixpoint dict_get (d : dict) (k default : str) : str :=
  match d with
  | [] => default
  | (k', v') :: d' => if str_eqb k' k then v' else dict_get d' k default
  end.

Definition keys (d : dict) : list str := List.map fst d.

(** [if old and new: mappings[old] = new] *)
Definition add_pair (old new : option str) (mappings : dict) : dict :=
  match old, new with
  | Some o, Some n => if truthy old && truthy new then dict_set mappings o n else mappings
  | _, _ => mappings
  end.

(** [WoWUIMigrator.get_folder_mappings]: account, realm, character. *)
Definition get_folder_mappings (old_realm new_realm old_char new_char
                                old_account new_account : option str) : dict :=
  let mappings := [] in
  let mappings := add_pair old_account new_account mappings in
  let mappings := add_pair old_realm new_realm mappings in
  let mappings := add_pair old_char new_char mappings in
  mappings.

(** [WoWUIMigrator.get_content_mappings]: realm, character, account. *)
Definition get_content_mappings (old_realm new_realm old_char new_char
                                 old_account new_account : option str) : dict :=
  let mappings := [] in
  let mappings := add_pair old_realm new_realm mappings in
  let mappings := add_pair old_char new_char mappings in
  let mappings := add_pair old_account new_account mappings in
  mappings.

(** [self.config_extensions] *)
Definition config_extensions : list str :=
  [lit ".lua"; lit ".txt"; lit ".toc"; lit ".xml"; lit ".wtf"].

Definition is_config_file (file_name : str) : bool :=
  existsb (str_eqb (str_lower (splitext_ext file_name))) config_extensions.

Section Substitution.
Context {db : UnicodeDb}.

(** The loop [for old_text, new_text in content_mappings.items()] of
    [update_file_contents]: every key is substituted into the text the
    previous keys have left. *)
Fixpoint apply_content_mappings (items : dict) (content : str) : outcome str :=
  match items with
  | [] => Ret content
  | (old_text, new_text) :: rest =>
      match re_sub old_text new_text content with
      | Ret content' => apply_content_mappings rest content'
      | Raise e => Raise e
      end
  end.

End Substitution.

(* ================================================================== *)
(** * The UTF-8 codec *)

Definition is_cont (b : N) : bool := in_range 128 191 b.

(** The second byte of a three- or four-byte sequence excludes overlong
    forms, surrogates and code points beyond U+10FFFF. *)
Definition second_ok (b0 b1 : N) : bool :=
  is_cont b1
  && negb (N.eqb b0 224 && N.ltb b1 160)
  && negb (N.eqb b0 237 && N.leb 160 b1)
  && negb (N.eqb b0 240 && N.ltb b1 144)
  && negb (N.eqb b0 244 && N.leb 144 b1).

Definition low6 (b : N) : N := (b - 128)%N.

(** [bytes.decode('utf-8', errors='ignore')]: an invalid start byte is
    dropped, an invalid continuation drops the bytes of the sequence
    read so far, a sequence cut by the end of the data is dropped. *)
Fixpoint decode_ignore (bs : list N) : str :=
  match bs with
  | [] => []
  | b0 :: t0 =>
      if N.ltb b0 128 then b0 :: decode_ignore t0
      else if N.ltb b0 194 then decode_ignore t0
      else if N.ltb b0 224 then
        match t0 with
        | [] => []
        | b1 :: t1 =>
            if is_cont b1
            then ((b0 - 192) * 64 + low6 b1)%N :: decode_ignore t1
            else decode_ignore t0
        end
      else if N.ltb b0 240 then
        match t0 with
        | [] => []
        | b1 :: t1 =>
            if second_ok b0 b1 then
              match t1 with
              | [] => []
              | b2 :: t2 =>
                  if is_cont b2
                  then ((b0 - 224) * 4096 + low6 b1 * 64 + low6 b2)%N
                       :: decode_ignore t2
                  else decode_ignore t1
              end
            else decode_ignore t0
        end
      else if N.ltb b0 245 then
        match t0 with
        | [] => []
        | b1 :: t1 =>
            if second_ok b0 b1 then
              match t1 with
              | [] => []
              | b2 :: t2 =>
                  if is_cont b2 then
                    match t2 with
                    | [] => []
                    | b3 :: t3 =>
                        if is_cont b3
                        then ((b0 - 240) * 262144 + low6 b1 * 4096
                              + low6 b2 * 64 + low6 b3)%N :: decode_ignore t3
                        else decode_ignore t2
                    end
                  else decode_ignore t1
              end
            else decode_ignore t0
        end
      else decode_ignore t0
  end.

(** [str.encode('utf-8')] of one code point; surrogates have no
    encoding. *)
Definition encode_char (c : N) : option (list N) :=
  if N.ltb c 128 then Some [c]
  else if N.ltb c 2048 then Some [192 + c / 64; 128 + c mod 64]%N
  else if N.ltb c 65536 then
    if in_range 55296 57343 c then None
    else Some [224 + c / 4096; 128 + (c / 64) mod 64; 128 + c mod 64]%N
  else if N.ltb c 1114112 then
    Some [240 + c / 262144; 128 + (c / 4096) mod 64;
          128 + (c / 64) mod 64; 128 + c mod 64]%N
  else None.

Fixpoint encode_utf8 (s : str) : option (list N) :=
  match s with
  | [] => Some []
  | c :: s' =>
      match encode_char c, encode_utf8 s' with
      | Some bs, Some rest => Some (bs ++ rest)
      | _, _ => None
      end
  end.

(** Universal newlines of a text file opened for reading. *)
Fixpoint universal_newlines (s : str) : str :=
  match s with
  | [] => []
  | c :: s' =>
      if N.eqb c 13
      then match s' with
           | d :: s'' => if N.eqb d 10 then 10%N :: universal_newlines s''
                         else 10%N :: universal_newlines s'
           | [] => [10%N]
           end
      else c :: universal_newlines s'
  end.

(* ================================================================== *)
(** * The file system

    A tree of directories and regular files (no links, one device).  The
    entries of a directory are kept in the order [os.scandir] lists
    them; a new entry comes last.  The order in which a file system
    lists the entries of a directory is its own: a list that is stated
    in a fixed order is the list for this order.  A file carries its
    permission to be read and to be written, and its bytes.
    Permissions of directories are not modelled: a call fails for what
    the tree holds only. *)

Inductive node :=
| File (readable writable : bool) (data : list N)
| Dir (entries : list (str * node)).

Definition entries_of := list (str * node).

Definition is_dir (n : node) : bool :=
  match n with
  | Dir _ => true
  | File _ _ _ => false
  end.

Fixpoint assoc (x : str) (es : list (str * node)) : option node :=
  match es with
  | [] => None
  | (y, c) :: es' => if str_eqb y x then Some c else assoc x es'
  end.

(** The node at a location, a list of entry names from the root. *)
Fixpoint get (p : list str) (n : node) : option node :=
  match p with
  | [] => Some n
  | x :: p' =>
      match n with
      | Dir es =>
          match assoc x es with
          | Some c => get p' c
          | None => None
          end
      | File _ _ _ => None
      end
  end.

(** Change the entry [x] of a directory: [f] receives the present node,
    if any, and returns the new one, if any. *)
Fixpoint alter (x : str) (f : option node -> option node)
         (es : list (str * node)) : list (str * node) :=
  match es with
  | [] =>
      match f None with
      | Some v => [(x, v)]
      | None => []
      end
  | (y, c) :: es' =>
      if str_eqb y x
      then match f (Some c) with
           | Some v => (y, v) :: es'
           | None => es'
           end
      else (y, c) :: alter x f es'
  end.

(** Change the node at a location whose parent directory exists; the
    root itself can be replaced but not removed. *)
Fixpoint alter_at (p : list str) (f : option node -> option node)
         (n : node) : node :=
  match p, n with
  | [], _ =>
      match f (Some n) with
      | Some v => v
      | None => n
      end
  | _, File _ _ _ => n
  | [x], Dir es => Dir (alter x f es)
  | x :: p', Dir es =>
      Dir (alter x (fun o => match o with
                             | Some c => Some (alter_at p' f c)
                             | None => None
                             end) es)
  end.

Definition put (p : list str) (v : node) : node -> node :=
  alter_at p (fun _ => Some v).

Definition del (p : list str) : node -> node :=
  alter_at p (fun _ => None).

(** [p] is a proper prefix of [q]. *)
Fixpoint below (p q : list str) : bool :=
  match p, q with
  | [], _ :: _ => true
  | x :: p', y :: q' => str_eqb x y && below p' q'
  | _, _ => false
  end.

Fixpoint loc_eqb (p q : list str) : bool :=
  match p, q with
  | [], [] => true
  | x :: p', y :: q' => str_eqb x y && loc_eqb p' q'
  | _, _ => false
  end.

(** The location a path names: relative paths start at the working
    directory, [.] and empty components are skipped, [..] is resolved
    lexically, which is the location the file system resolves it to
    when the components before it name directories. *)
Definition locate (cwd : list str) (path : str) : list str :=
  fold_left (fun acc comp =>
               if str_eqb comp [] || str_eqb comp [dot] then acc
               else if str_eqb comp [dot; dot] then removelast acc
               else acc ++ [comp])
            (split_on sep path)
            (if startswith path [sep] then [] else cwd).

Definition dir_names (es : list (str * node)) : list str :=
  List.map fst (filter (fun e => is_dir (snd e)) es).

Definition file_names (es : list (str * node)) : list str :=
  List.map fst (filter (fun e => negb (is_dir (snd e))) es).

(** [os.walk(top)], top-down, from the directory node at [top]. *)
Fixpoint walk_node (top : str) (n : node) : list (str * list str * list str) :=
  match n with
  | File _ _ _ => []
  | Dir es =>
      (top, dir_names es, file_names es)
      :: (fix subdirs (l : list (str * node)) :=
            match l with
            | [] => []
            | (name, c) :: l' => walk_node (os_path_join top name) c ++ subdirs l'
            end) es
  end.

(** [os.rename(src, dst)] on locations (POSIX [rename(2)]). *)
Definition rename_loc (s d : list str) (root : node) : outcome node :=
  match get s root with
  | None => Raise (OSError ENOENT)
  | Some sn =>
      match d with
      | [] => Raise (OSError EINVAL)
      | _ =>
          match get (removelast d) root with
          | None => Raise (OSError ENOENT)
          | Some (File _ _ _) => Raise (OSError ENOTDIR)
          | Some (Dir _) =>
              if loc_eqb s d then Ret root
              else if below s d then Raise (OSError EINVAL)
              else
                match sn, get d root with
                | _, None => Ret (put d sn (del s root))
                | File _ _ _, Some (File _ _ _) => Ret (put d sn (del s root))
                | File _ _ _, Some (Dir _) => Raise (OSError EISDIR)
                | Dir _, Some (File _ _ _) => Raise (OSError ENOTDIR)
                | Dir _, Some (Dir []) => Ret (put d sn (del s root))
                | Dir _, Some (Dir (_ :: _)) => Raise (OSError ENOTEMPTY)
                end
          end
      end
  end.

(** [os.makedirs(p)]: the directory and its missing parents are
    created; [p] must not exist. *)
Fixpoint make_path (p : list str) (leaf : node) : node :=
  match p with
  | [] => leaf
  | x :: p' => Dir [(x, make_path p' leaf)]
  end.

(** Put [leaf] at the free location [p], creating the missing parent
    directories. *)
Fixpoint graft (p : list str) (leaf : node) (n : node) : outcome node :=
  match p with
  | [] => Raise (OSError EEXIST)
  | x :: p' =>
      match n with
      | File _ _ _ => Raise (OSError ENOTDIR)
      | Dir es =>
          match assoc x es with
          | None => Ret (Dir (es ++ [(x, make_path p' leaf)]))
          | Some c =>
              match graft p' leaf c with
              | Ret c' => Ret (Dir (alter x (fun _ => Some c') es))
              | Raise e => Raise e
              end
          end
      end
  end.

(** What [shutil.copytree] copies of a tree: the files that can be
    read, with their permissions ([copy2]); the second component tells
    whether a file could not be copied. *)
Fixpoint copy_node (n : node) : node * bool :=
  match n with
  | File r w data => (n, negb r)
  | Dir es =>
      let fix copy_entries (l : list (str * node)) : list (str * node) * bool :=
        match l with
        | [] => ([], false)
        | (name, c) :: l' =>
            let (l2, bad2) := copy_entries l' in
            match c with
            | File r _ _ =>
                if r then ((name, c) :: l2, bad2) else (l2, true)
            | Dir _ =>
                let (c', bad1) := copy_node c in
                ((name, c') :: l2, bad1 || bad2)
            end
        end in
      let (es', bad) := copy_entries es in
      (Dir es', bad)
  end.

(* ================================================================== *)
(** * The state of a run *)

Inductive level := INFO | WARNING | ERROR.

(** The records written through [self.logger], one constructor per
    format string of the source. *)
Inductive message :=
| MsgCreatingCopy (copy_path : str)
| MsgWouldCreateCopy (copy_path : str)
| MsgMergingExisting (new_path : str)
| MsgMerged (dir_path new_path : str)
| MsgMergeFailed (dir_path new_path : str) (e : exn)
| MsgRenamed (dir_path new_path : str)
| MsgWouldRename (dir_path new_path : str)
| MsgBackedUp (target_item backup_name : str)
| MsgUpdatedFile (file_path : str)
| MsgWouldUpdateFile (file_path : str)
| MsgFileError (file_path : str) (e : exn)
| MsgStarting
| MsgOriginalPath (wtf_path : str)
| MsgRealm (old_realm new_realm : str)
| MsgCharacter (old_char new_char : str)
| MsgAccount (old_account new_account : str)
| MsgNotFound (wtf_path : str)
| MsgWorkingOn (working_path : str)
| MsgCompleted
| MsgFoldersRenamed (n : nat)
| MsgFilesUpdated (n : nat)
| MsgCopyCreatedAt (copy_path : str)
| MsgOriginalUnchanged (wtf_path : str)
| MsgMigrationFailed (e : exn).

(** The entries of [self.changes_made]. *)
Inductive change :=
| FolderChange (dir_path new_path : str)
| ContentChange (file_path : str).

(** A reading of the clock: [time.time()] and what
    [time.strftime("%Y%m%d_%H%M%S")] prints at that moment. *)
Record instant := { epoch : Z; local_stamp : str }.

Record state := {
  st_root : node;                  (* the directory [/] *)
  st_cwd : list str;               (* location of the working directory *)
  st_clock : nat -> instant;       (* the successive readings of the clock *)
  st_ticks : nat;                  (* readings taken so far *)
  st_depth : nat;                  (* frames left to [_merge_directories]
                                      before [RecursionError] *)
  st_log : list (level * message);
  st_changes : list change;        (* [self.changes_made] *)
  st_working : str                 (* [self.working_path] *)
}.

Definition with_root (r : node) (st : state) : state :=
  {| st_root := r; st_cwd := st_cwd st; st_clock := st_clock st;
     st_ticks := st_ticks st; st_depth := st_depth st; st_log := st_log st;
     st_changes := st_changes st; st_working := st_working st |}.

Definition with_ticks (k : nat) (st : state) : state :=
  {| st_root := st_root st; st_cwd := st_cwd st; st_clock := st_clock st;
     st_ticks := k; st_depth := st_depth st; st_log := st_log st;
     st_changes := st_changes st; st_working := st_working st |}.

Definition with_log (l : list (level * message)) (st : state) : state :=
  {| st_root := st_root st; st_cwd := st_cwd st; st_clock := st_clock st;
     st_ticks := st_ticks st; st_depth := st_depth st; st_log := l;
     st_changes := st_changes st; st_working := st_working st |}.

Definition with_changes (c : list change) (st : state) : state :=
  {| st_root := st_root st; st_cwd := st_cwd st; st_clock := st_clock st;
     st_ticks := st_ticks st; st_depth := st_depth st; st_log := st_log st;
     st_changes := c; st_working := st_working st |}.

Definition with_working (w : str) (st : state) : state :=
  {| st_root := st_root st; st_cwd := st_cwd st; st_clock := st_clock st;
     st_ticks := st_ticks st; st_depth := st_depth st; st_log := st_log st;
     st_changes := st_changes st; st_working := w |}.

(** ** Computations that read and change the state and may raise *)

Definition M (A : Type) : Type := state -> outcome A * state.

Definition ret {A} (a : A) : M A := fun st => (Ret a, st).

Definition raise {A} (e : exn) : M A := fun st => (Raise e, st).

Definition bind {A B} (m : M A) (k : A -> M B) : M B :=
  fun st =>
    match m st with
    | (Ret a, st') => k a st'
    | (Raise e, st') => (Raise e, st')
    end.

(** [try: m  except Exception as e: handler e] *)
Definition try_except {A} (m : M A) (handler : exn -> M A) : M A :=
  fun st =>
    match m st with
    | (Ret a, st') => (Ret a, st')
    | (Raise e, st') => handler e st'
    end.

Declare Scope monad_scope.
Delimit Scope monad_scope with monad.
Notation "x <- m ;; k" := (bind m (fun x => k))
  (at level 61, m at next level, right associativity) : monad_scope.
Notation "m ;; k" := (bind m (fun _ => k))
  (at level 61, right associativity) : monad_scope.
Local Open Scope monad_scope.

(** [for x in l: body x], left at the first exception. *)
Fixpoint for_each {A} (l : list A) (body : A -> M unit) : M unit :=
  match l with
  | [] => ret tt
  | x :: l' => body x ;; for_each l' body
  end.

Definition gets {A} (f : state -> A) : M A := fun st => (Ret (f st), st).

(** [self.logger.info], [.warning] and [.error]: the record is appended
    to [st_log], which stands for the two handlers of [__init__].  The
    file handler appends the record to the file [wow_ui_migration.log]
    of the working directory as well; the tree of a state does not
    follow the content of that file. *)
Definition log (lv : level) (m : message) : M unit :=
  fun st => (Ret tt, with_log (st_log st ++ [(lv, m)]) st).

Definition record_change (c : change) : M unit :=
  fun st => (Ret tt, with_changes (st_changes st ++ [c]) st).

Definition read_clock : M instant :=
  fun st => (Ret (st_clock st (st_ticks st)), with_ticks (S (st_ticks st)) st).

(** [int(time.time())] *)
Definition time_time : M Z := i <- read_clock ;; ret (epoch i).

(** [time.strftime("%Y%m%d_%H%M%S")] *)
Definition time_strftime : M str := i <- read_clock ;; ret (local_stamp i).

(** ** [os] and [shutil] on the state *)

Definition node_at (path : str) (st : state) : option node :=
  get (locate (st_cwd st) path) (st_root st).

(** [os.path.exists(path)], which returns [False] for every error of
    [os.stat].  It stands for [self.wtf_path.exists()] as well, which
    passes on the errors that do not tell that the path is missing
    (a name that is too long, a directory that cannot be searched). *)
Definition os_path_exists (path : str) : M bool :=
  gets (fun st => match node_at path st with
                  | Some _ => true
                  | None => false
                  end).

Definition os_path_isdir (path : str) : M bool :=
  gets (fun st => match node_at path st with
                  | Some (Dir _) => true
                  | _ => false
                  end).

Definition os_listdir (path : str) : M (list str) :=
  fun st => match node_at path st with
            | Some (Dir es) => (Ret (List.map fst es), st)
            | Some (File _ _ _) => (Raise (OSError ENOTDIR), st)
            | None => (Raise (OSError ENOENT), st)
            end.

Definition os_walk (top : str) : M (list (str * list str * list str)) :=
  gets (fun st => match node_at top st with
                  | Some n => walk_node top n
                  | None => []
                  end).

Definition os_rename (src dst : str) : M unit :=
  fun st =>
    match rename_loc (locate (st_cwd st) src) (locate (st_cwd st) dst)
                     (st_root st) with
    | Ret r => (Ret tt, with_root r st)
    | Raise e => (Raise e, st)
    end.

Definition os_rmdir (path : str) : M unit :=
  fun st =>
    match node_at path st with
    | Some (Dir []) =>
        match locate (st_cwd st) path with
        | [] => (Raise (OSError EINVAL), st)
        | p => (Ret tt, with_root (del p (st_root st)) st)
        end
    | Some (Dir (_ :: _)) => (Raise (OSError ENOTEMPTY), st)
    | Some (File _ _ _) => (Raise (OSError ENOTDIR), st)
    | None => (Raise (OSError ENOENT), st)
    end.

(** [shutil.copytree(src, dst)]: the entries of [src] are listed, [dst]
    is created with its missing parents, the tree is copied, and
    [shutil.Error] is raised at the end when a file could not be read.
    When [dst] lies in an existing subdirectory of [src] the copy
    descends into itself and does not end normally. *)
Definition copytree_loc (s d : list str) (root : node) : outcome unit * node :=
  match get s root with
  | None => (Raise (OSError ENOENT), root)
  | Some (File _ _ _) => (Raise (OSError ENOTDIR), root)
  | Some (Dir es as sn) =>
      let inside :=
        match skipn (List.length s) d with
        | x :: _ :: _ =>
            below s d && match assoc x es with
                         | Some (Dir _) => true
                         | _ => false
                         end
        | _ => false
        end in
      let (cp, bad) := copy_node sn in
      match graft d (if inside then Dir [] else cp) root with
      | Ret root' =>
          if inside then (Raise RecursionError, root')
          else if bad then (Raise ShutilError, root')
          else (Ret tt, root')
      | Raise e => (Raise e, root)
      end
  end.

Definition shutil_copytree (src dst : str) : M unit :=
  fun st =>
    let (r, root') := copytree_loc (locate (st_cwd st) src)
                                   (locate (st_cwd st) dst) (st_root st) in
    (r, with_root root' st).

(** [shutil.move(src, dst)]: into [dst] when it is a directory, else by
    [os.rename]; when [os.rename] fails a directory is copied and
    removed, and the copy of a file fails like the rename did. *)
Definition shutil_move (src dst : str) : M unit :=
  fun st =>
    let cwd := st_cwd st in
    let root := st_root st in
    let s := locate cwd src in
    let d := locate cwd dst in
    let go (real_dst : str) : outcome unit * state :=
      let rd := locate cwd real_dst in
      match rename_loc s rd root with
      | Ret r => (Ret tt, with_root r st)
      | Raise e =>
          match get s root with
          | Some (Dir _) =>
              if loc_eqb s d || below s d then (Raise ShutilError, st)
              else match copytree_loc s rd root with
                   | (Ret _, r) => (Ret tt, with_root (del s r) st)
                   | (Raise e', r) => (Raise e', with_root r st)
                   end
          | _ => (Raise e, st)
          end
      end in
    match get d root with
    | Some (Dir _) =>
        if loc_eqb s d then (Ret tt, st)
        else
          let real_dst := os_path_join dst (os_path_basename (rstrip sep src)) in
          match get (locate cwd real_dst) root with
          | Some _ => (Raise ShutilError, st)
          | None => go real_dst
          end
    | _ => go dst
    end.

(** [with open(path, 'r', encoding='utf-8', errors='ignore') as f:
      f.read()] *)
Definition read_text (path : str) : M str :=
  fun st =>
    match node_at path st with
    | Some (File true _ data) =>
        (Ret (universal_newlines (decode_ignore data)), st)
    | Some (File false _ _) => (Raise (OSError EACCES), st)
    | Some (Dir _) => (Raise (OSError EISDIR), st)
    | None => (Raise (OSError ENOENT), st)
    end.

(** [with open(path, 'w', encoding='utf-8') as f: f.write(content)]:
    opening truncates the file; the text is encoded when it is
    written. *)
Definition write_text (path : str) (content : str) : M unit :=
  fun st =>
    let p := locate (st_cwd st) path in
    let store (r : bool) : outcome unit * state :=
      match encode_utf8 content with
      | Some bs => (Ret tt, with_root (put p (File r true bs) (st_root st)) st)
      | None => (Raise UnicodeEncodeError,
                 with_root (put p (File r true []) (st_root st)) st)
      end in
    match get p (st_root st) with
    | Some (File r true _) => store r
    | Some (File _ false _) => (Raise (OSError EACCES), st)
    | Some (Dir _) => (Raise (OSError EISDIR), st)
    | None =>
        match get (removelast p) (st_root st) with
        | Some (Dir _) => store true
        | Some (File _ _ _) => (Raise (OSError ENOTDIR), st)
        | None => (Raise (OSError ENOENT), st)
        end
    end.

(* ================================================================== *)
(** * [pathlib.PurePosixPath] *)

Record pure_path := { pp_root : str; pp_parts : list str }.

(** [Path(s)] *)
Definition Path (s : str) : pure_path :=
  {| pp_root :=
       if startswith s [sep; sep] && negb (startswith s [sep; sep; sep])
       then [sep; sep]
       else if startswith s [sep] then [sep] else [];
     pp_parts :=
       filter (fun x => negb (str_eqb x [] || str_eqb x [dot]))
              (split_on sep s) |}.

(** [str(p)] *)
Definition path_str (p : pure_path) : str :=
  match pp_root p, pp_parts p with
  | [], [] => [dot]
  | r, parts => r ++ join_with [sep] parts
  end.

(** [p.parent] *)
Definition path_parent (p : pure_path) : pure_path :=
  match pp_parts p with
  | [] => p
  | parts => {| pp_root := pp_root p; pp_parts := removelast parts |}
  end.

(** [p / name] *)
Definition path_div (p : pure_path) (name : str) : pure_path :=
  let q := Path name in
  match pp_root q with
  | [] => {| pp_root := pp_root p; pp_parts := pp_parts p ++ pp_parts q |}
  | _ => q
  end.

(* ================================================================== *)
(** * [class WoWUIMigrator] *)

Record WoWUIMigrator := {
  wtf_path : pure_path;            (* [self.wtf_path] *)
  dry_run : bool                   (* [self.dry_run] *)
}.

(** [WoWUIMigrator(wtf_path, dry_run)] *)
Definition new_migrator (path : str) (dry : bool) : WoWUIMigrator :=
  {| wtf_path := Path path; dry_run := dry |}.

(** The state in which [__init__] leaves a run: nothing logged or
    changed yet, [self.working_path = self.wtf_path].  The file
    [wow_ui_migration.log] that the file handler opens in the working
    directory is not entered in the tree. *)
Definition initial_state (self : WoWUIMigrator) (root : node) (cwd : list str)
           (clock : nat -> instant) (depth : nat) : state :=
  {| st_root := root; st_cwd := cwd; st_clock := clock; st_ticks := 0;
     st_depth := depth; st_log := []; st_changes := [];
     st_working := path_str (wtf_path self) |}.

Definition underscore : str := lit "_".

(** [WoWUIMigrator.create_migration_copy] *)
Definition create_migration_copy (self : WoWUIMigrator)
           (old_realm new_realm : str) (old_char new_char : option str) : M str :=
  timestamp <- time_strftime ;;
  let copy_name_parts := [old_realm ++ lit "_to_" ++ new_realm] in
  let copy_name_parts :=
    match old_char, new_char with
    | Some oc, Some nc =>
        if truthy old_char && truthy new_char
        then copy_name_parts ++ [oc ++ lit "_to_" ++ nc]
        else copy_name_parts
    | _, _ => copy_name_parts
    end in
  let copy_name_parts := copy_name_parts ++ [timestamp] in
  let copy_name := join_with underscore copy_name_parts in
  let copy_path :=
    path_div (path_parent (wtf_path self)) (lit "WTF_migrated_" ++ copy_name) in
  (if negb (dry_run self)
   then log INFO (MsgCreatingCopy (path_str copy_path)) ;;
        shutil_copytree (path_str (wtf_path self)) (path_str copy_path) ;;
        (fun st => (Ret tt, with_working (path_str copy_path) st))
   else log INFO (MsgWouldCreateCopy (path_str copy_path))) ;;
  ret (path_str copy_path).

(** [_merge_directories]; [fuel] counts the frames that may still be
    entered. *)
Fixpoint _merge_directories (fuel : nat) (source_dir target_dir : str)
  : M unit :=
  match fuel with
  | 0 => raise RecursionError
  | S fuel' =>
      items <- os_listdir source_dir ;;
      for_each items (fun item =>
        let source_item := os_path_join source_dir item in
        let target_item := os_path_join target_dir item in
        source_is_dir <- os_path_isdir source_item ;;
        if source_is_dir then
          target_exists <- os_path_exists target_item ;;
          if target_exists
          then _merge_directories fuel' source_item target_item
          else shutil_move source_item target_item
        else
          target_exists <- os_path_exists target_item ;;
          (if target_exists then
             now <- time_time ;;
             let backup_name := target_item ++ lit ".backup_" ++ str_of_int now in
             shutil_move target_item backup_name ;;
             log INFO (MsgBackedUp target_item backup_name)
           else ret tt) ;;
          shutil_move source_item target_item) ;;
      remaining <- os_listdir source_dir ;;
      match remaining with
      | [] => os_rmdir source_dir
      | _ => ret tt
      end
  end.

(** The scope test of [rename_folders] on a directory [dir_name] found
    in [root]. *)
Definition rename_in_scope (working_path : str) (old_account : option str)
           (root dir_name : str) : bool :=
  let full_path := os_path_join root dir_name in
  match old_account with
  | Some account =>
      if truthy old_account then
        let account_path := os_path_join3 working_path (lit "Account") account in
        if negb (str_eqb full_path account_path
                 || startswith full_path (account_path ++ [sep]))
        then if negb (str_eqb dir_name account && contains root (lit "Account"))
             then false
             else true
        else true
      else true
  | None => true
  end.

(** The list [all_dirs] of [rename_folders] before it is sorted. *)
Definition collect_dirs (working_path : str) (old_account : option str)
           (walk : list (str * list str * list str)) : list (str * nat) :=
  flat_map (fun entry =>
              match entry with
              | (root, dirs, _) =>
                  flat_map (fun dir_name =>
                              if rename_in_scope working_path old_account root dir_name
                              then let full_path := os_path_join root dir_name in
                                   [(full_path, List.length (split_on sep full_path))]
                              else [])
                           dirs
              end) walk.

(** [all_dirs.sort(key=lambda x: x[1], reverse=True)]: by decreasing
    depth, entries of equal depth in their original order. *)
Fixpoint insert_by_depth (x : str * nat) (l : list (str * nat)) : list (str * nat) :=
  match l with
  | [] => [x]
  | y :: l' => if Nat.ltb (snd x) (snd y) then y :: insert_by_depth x l' else x :: l
  end.

Definition sort_deepest_first (l : list (str * nat)) : list (str * nat) :=
  fold_right insert_by_depth [] l.

(** The loop over [folder_mappings.items()] that looks up a directory
    name. *)
Fixpoint find_new_name (items : dict) (dir_name : str) : option str :=
  match items with
  | [] => None
  | (old_name, replacement) :: rest =>
      if str_eqb dir_name old_name then Some replacement
      else find_new_name rest dir_name
  end.

(** The path a directory is to be renamed to, when it is. *)
Definition rename_target (folder_mappings : dict) (dir_path : str) : option str :=
  let dir_name := os_path_basename dir_path in
  let parent_dir := os_path_dirname dir_path in
  match find_new_name folder_mappings dir_name with
  | Some new_name =>
      if truthy (Some new_name) && negb (str_eqb new_name dir_name)
      then Some (os_path_join parent_dir new_name)
      else None
  | None => None
  end.

(** One round of the second loop of [rename_folders]; the result is what
    the round appends to [renamed_folders]. *)
Definition rename_one (self : WoWUIMigrator) (folder_mappings : dict)
           (dir_path : str) : M (list (str * str)) :=
  match rename_target folder_mappings dir_path with
  | None => ret []
  | Some new_path =>
      done <-
        (if negb (dry_run self) then
           target_exists <- os_path_exists new_path ;;
           if target_exists then
             log WARNING (MsgMergingExisting new_path) ;;
             try_except
               (fuel <- gets st_depth ;;
                _merge_directories fuel dir_path new_path ;;
                log INFO (MsgMerged dir_path new_path) ;;
                ret true)
               (fun e => log ERROR (MsgMergeFailed dir_path new_path e) ;;
                         ret false)
           else
             os_rename dir_path new_path ;;
             log INFO (MsgRenamed dir_path new_path) ;;
             ret true
         else
           log INFO (MsgWouldRename dir_path new_path) ;;
           ret true) ;;
      if (done : bool) then
        record_change (FolderChange dir_path new_path) ;;
        ret [(dir_path, new_path)]
      else ret []
  end.

Fixpoint rename_each (self : WoWUIMigrator) (folder_mappings : dict)
         (all_dirs : list (str * nat)) : M (list (str * str)) :=
  match all_dirs with
  | [] => ret []
  | (dir_path, _) :: rest =>
      renamed <- rename_one self folder_mappings dir_path ;;
      more <- rename_each self folder_mappings rest ;;
      ret (renamed ++ more)
  end.

(** [WoWUIMigrator.rename_folders] *)
Definition rename_folders (self : WoWUIMigrator) (folder_mappings : dict)
           (old_account : option str) : M (list (str * str)) :=
  working_path <- gets st_working ;;
  walk <- os_walk working_path ;;
  let all_dirs := collect_dirs working_path old_account walk in
  let all_dirs := sort_deepest_first all_dirs in
  rename_each self folder_mappings all_dirs.

(** The scope test of [update_file_contents] on a directory [root] of
    the walk. *)
Definition rewrite_in_scope (working_path : str) (content_mappings : dict)
           (old_account : option str) (root : str) : bool :=
  match old_account with
  | Some account =>
      if truthy old_account then
        let account_path := os_path_join3 working_path (lit "Account") account in
        let new_account := dict_get content_mappings account account in
        let new_account_path :=
          os_path_join3 working_path (lit "Account") new_account in
        startswith root account_path
        || startswith root new_account_path
        || str_eqb root working_path
      else true
  | None => true
  end.

Definition lift {A} (o : outcome A) : M A := fun st => (o, st).

Section Engine.
Context {db : UnicodeDb}.

(** The body of the loop over [files] in [update_file_contents], for a
    file with a recognised extension; the result is what it appends to
    [updated_files]. *)
Definition update_one (self : WoWUIMigrator) (content_mappings : dict)
           (file_path : str) : M (list str) :=
  try_except
    (content <- read_text file_path ;;
     let original_content := content in
     content <- lift (apply_content_mappings content_mappings content) ;;
     if negb (str_eqb content original_content) then
       (if negb (dry_run self)
        then write_text file_path content ;;
             log INFO (MsgUpdatedFile file_path)
        else log INFO (MsgWouldUpdateFile file_path)) ;;
       record_change (ContentChange file_path) ;;
       ret [file_path]
     else ret [])
    (fun e => log ERROR (MsgFileError file_path e) ;; ret []).

Fixpoint update_files (self : WoWUIMigrator) (content_mappings : dict)
         (root : str) (files : list str) : M (list str) :=
  match files with
  | [] => ret []
  | file_name :: rest =>
      let file_path := os_path_join root file_name in
      updated <-
        (if is_config_file file_name
         then update_one self content_mappings file_path
         else ret []) ;;
      more <- update_files self content_mappings root rest ;;
      ret (updated ++ more)
  end.

Fixpoint update_each (self : WoWUIMigrator) (content_mappings : dict)
         (old_account : option str) (working_path : str)
         (walk : list (str * list str * list str)) : M (list str) :=
  match walk with
  | [] => ret []
  | (root, _, files) :: rest =>
      updated <-
        (if rewrite_in_scope working_path content_mappings old_account root
         then update_files self content_mappings root files
         else ret []) ;;
      more <- update_each self content_mappings old_account working_path rest ;;
      ret (updated ++ more)
  end.

(** [WoWUIMigrator.update_file_contents].  The walk only reads the
    names of the tree, which the pass does not change. *)
Definition update_file_contents (self : WoWUIMigrator) (content_mappings : dict)
           (old_account : option str) : M (list str) :=
  working_path <- gets st_working ;;
  walk <- os_walk working_path ;;
  update_each self content_mappings old_account working_path walk.

(** [WoWUIMigrator.migrate] *)
Definition migrate (self : WoWUIMigrator) (old_realm new_realm : str)
           (old_char new_char old_account new_account : option str) : M bool :=
  log INFO MsgStarting ;;
  log INFO (MsgOriginalPath (path_str (wtf_path self))) ;;
  log INFO (MsgRealm old_realm new_realm) ;;
  match old_char, new_char with
  | Some oc, Some nc =>
      if truthy old_char && truthy new_char
      then log INFO (MsgCharacter oc nc) else ret tt
  | _, _ => ret tt
  end ;;
  match old_account, new_account with
  | Some oa, Some na =>
      if truthy old_account && truthy new_account
      then log INFO (MsgAccount oa na) else ret tt
  | _, _ => ret tt
  end ;;
  found <- os_path_exists (path_str (wtf_path self)) ;;
  if negb found then
    log ERROR (MsgNotFound (path_str (wtf_path self))) ;;
    ret false
  else
    copy_path <- create_migration_copy self old_realm new_realm old_char new_char ;;
    working_path <- gets st_working ;;
    log INFO (MsgWorkingOn working_path) ;;
    try_except
      (let folder_mappings :=
         get_folder_mappings (Some old_realm) (Some new_realm)
                             old_char new_char old_account new_account in
       let content_mappings :=
         get_content_mappings (Some old_realm) (Some new_realm)
                              old_char new_char old_account new_account in
       renamed_folders <- rename_folders self folder_mappings old_account ;;
       updated_files <- update_file_contents self content_mappings old_account ;;
       log INFO MsgCompleted ;;
       log INFO (MsgFoldersRenamed (List.length renamed_folders)) ;;
       log INFO (MsgFilesUpdated (List.length updated_files)) ;;
       log INFO (MsgCopyCreatedAt copy_path) ;;
       log INFO (MsgOriginalUnchanged (path_str (wtf_path self))) ;;
       ret true)
      (fun e => log ERROR (MsgMigrationFailed e) ;; ret false).

End Engine.

(* ================================================================== *)
(** * [get_realm_and_character_info] and [main] *)

Local Open Scope monad_scope.

(** The child [Path.iterdir] yields for an entry: the entry name becomes
    the last part of the path as it is, without being parsed. *)
Definition path_child (p : pure_path) (name : str) : pure_path :=
  {| pp_root := pp_root p; pp_parts := pp_parts p ++ [name] |}.

(** [p.name] *)
Definition path_name (p : pure_path) : str := last (pp_parts p) [].

(** [p.exists()] *)
Definition path_exists (p : pure_path) : M bool := os_path_exists (path_str p).

(** [p.is_dir()] *)
Definition path_is_dir (p : pure_path) : M bool := os_path_isdir (path_str p).

(** [p.iterdir()] *)
Definition path_iterdir (p : pure_path) : M (list pure_path) :=
  names <- os_listdir (path_str p) ;;
  ret (List.map (path_child p) names).

(** The dictionary [info] of [get_realm_and_character_info]. *)
Record info := {
  realms : list str;               (* [info["realms"]] *)
  characters : list str;           (* [info["characters"]] *)
  accounts : list str              (* [info["accounts"]] *)
}.

Definition saved_variables : str := lit "SavedVariables".

(** [if x not in l: l.append(x)] *)
Definition append_new (x : str) (l : list str) : list str :=
  if existsb (str_eqb x) l then l else l ++ [x].

(** The loop [for char_item in item.iterdir()]. *)
Fixpoint scan_characters (items : list pure_path) (i : info) : M info :=
  match items with
  | [] => ret i
  | char_item :: rest =>
      is_directory <- path_is_dir char_item ;;
      let i :=
        if is_directory && negb (str_eqb (path_name char_item) saved_variables)
        then let char_name := path_name char_item in
             {| realms := realms i;
                characters := append_new char_name (characters i);
                accounts := accounts i |}
        else i in
      scan_characters rest i
  end.

(** The loop [for item in account_dir.iterdir()]. *)
Fixpoint scan_realms (items : list pure_path) (i : info) : M info :=
  match items with
  | [] => ret i
  | item :: rest =>
      is_directory <- path_is_dir item ;;
      i <- (if is_directory && negb (str_eqb (path_name item) saved_variables)
            then let realm_name := path_name item in
                 let i := {| realms := append_new realm_name (realms i);
                             characters := characters i;
                             accounts := accounts i |} in
                 char_items <- path_iterdir item ;;
                 scan_characters char_items i
            else ret i) ;;
      scan_realms rest i
  end.

(** The loop [for account_dir in account_path.iterdir()]. *)
Fixpoint scan_accounts (dirs : list pure_path) (i : info) : M info :=
  match dirs with
  | [] => ret i
  | account_dir :: rest =>
      is_directory <- path_is_dir account_dir ;;
      i <- (if is_directory
            then let i := {| realms := realms i;
                             characters := characters i;
                             accounts := accounts i ++ [path_name account_dir] |} in
                 items <- path_iterdir account_dir ;;
                 scan_realms items i
            else ret i) ;;
      scan_accounts rest i
  end.

(** [WoWUIMigrator.get_realm_and_character_info] *)
Definition get_realm_and_character_info (self : WoWUIMigrator) : M info :=
  let i := {| realms := []; characters := []; accounts := [] |} in
  let account_path := path_div (wtf_path self) (lit "Account") in
  found <- path_exists account_path ;;
  if negb found then ret i
  else
    account_dirs <- path_iterdir account_path ;;
    scan_accounts account_dirs i.

(** The arguments [argparse] hands to [main]; an option that is not
    given is [None]. *)
Record arguments := {
  arg_wtf_path : str;
  arg_old_realm : option str;
  arg_new_realm : option str;
  arg_old_char : option str;
  arg_new_char : option str;
  arg_old_account : option str;
  arg_new_account : option str;
  arg_dry_run : bool;
  arg_scan : bool
}.

(** How [main] ends: it returns after printing lines, [parser.error]
    leaves with a usage message, or an exception is not caught. *)
Inductive ending :=
| Printed (lines : list str)
| UsageError (message : str)
| Uncaught (e : exn).

(** [', '.join(found) if found else 'None'] *)
Definition found_or_none (found : list str) : str :=
  match found with
  | [] => lit "None"
  | _ => join_with (lit ", ") found
  end.

Definition or_empty (o : option str) : str :=
  match o with
  | Some s => s
  | None => []
  end.

Section Main.
Context {db : UnicodeDb}.

(** [main], from the parsed arguments, on the tree [root] with the
    working directory [cwd]. *)
Definition main (args : arguments) (root : node) (cwd : list str)
           (clock : nat -> instant) (depth : nat) : ending * state :=
  let migrator := new_migrator (arg_wtf_path args) (arg_dry_run args) in
  let st := initial_state migrator root cwd clock depth in
  if arg_scan args then
    match get_realm_and_character_info migrator st with
    | (Ret i, st') =>
        (Printed [10%N :: lit "=== WTF Folder Information ===";
                  lit "Accounts found: " ++ found_or_none (accounts i);
                  lit "Realms found: " ++ found_or_none (realms i);
                  lit "Characters found: " ++ found_or_none (characters i)],
         st')
    | (Raise e, st') => (Uncaught e, st')
    end
  else if negb (truthy (arg_old_realm args)) || negb (truthy (arg_new_realm args))
  then (UsageError
          (lit "--old-realm and --new-realm are required for migration operations"),
        st)
  else
    match migrate migrator (or_empty (arg_old_realm args))
                  (or_empty (arg_new_realm args))
                  (arg_old_char args) (arg_new_char args)
                  (arg_old_account args) (arg_new_account args) st with
    | (Ret success, st') =>
        (Printed [if (success : bool)
                  then lit "Migration completed successfully!"
                  else lit "Migration failed. Check the log for details."],
         st')
    | (Raise e, st') => (Uncaught e, st')
    end.

End Main.

(* ================================================================== *)
(** * Whole-word, case-insensitive substitution, as the specification
      words it *)

Section WholeWord.
Context {db : UnicodeDb}.

(** The character before the text that follows [occ]. *)
Fixpoint prev_after (prev : option N) (occ : str) : option N :=
  match occ with
  | [] => prev
  | c :: occ' => prev_after (Some c) occ'
  end.

(** [occ] is the key up to the case of its letters. *)
Fixpoint ci_match (key occ : str) : bool :=
  match key, occ with
  | [], [] => true
  | k :: key', c :: occ' => ci_eq k c && ci_match key' occ'
  | _, _ => false
  end.

(** A word boundary lies between two neighbouring positions of a text
    when exactly one of them holds a word character; the start and the
    end of the text count as positions without a word character. *)
Definition word_edge (before after : option N) : bool :=
  match before, after with
  | Some a, Some b => negb (Bool.eqb (is_word a) (is_word b))
  | Some a, None => is_word a
  | None, Some b => is_word b
  | None, None => false
  end.

(** The text [s], preceded by [prev], starts with an occurrence of the
    key that is delimited by word boundaries on both sides. *)
Definition whole_word_here (key : str) (prev : option N) (s : str) : bool :=
  let occ := firstn (List.length key) s in
  let rest := skipn (List.length key) s in
  Nat.leb (List.length key) (List.length s)
  && ci_match key occ
  && word_edge prev (hd_error s)
  && word_edge (prev_after prev occ) (hd_error rest).

(** The key has a whole-word occurrence somewhere in [s]. *)
Fixpoint occurs_in (key : str) (prev : option N) (s : str) : bool :=
  whole_word_here key prev s
  || match s with
     | [] => false
     | c :: s' => occurs_in key (Some c) s'
     end.



(** Every replacement of the entries is a valid template. *)
Definition templates_ok (m : dict) : bool :=
  forallb (fun e => match parse_template (snd e) with
                    | Some _ => true
                    | None => false
                    end) m.

(** No key of the entries occurs in the text. *)
Definition inactive (m : dict) (t : str) : Prop :=
  forall k v, In (k, v) m -> occurs_in k None t = false.

End WholeWord.

(* ================================================================== *)
(** * The order of the renaming pass *)

(** The path [q] lies below the directory [p]. *)
Definition descends_from (q p : str) : bool := startswith q (p ++ [sep]).

(** The directories the renaming pass has enumerated in a state. *)
Definition enumerated_dirs (old_account : option str) (st : state)
  : list (str * nat) :=
  collect_dirs (st_working st) old_account
               (match node_at (st_working st) st with
                | Some n => walk_node (st_working st) n
                | None => []
                end).

(** The order in which the renaming pass takes them. *)
Definition processing_order (old_account : option str) (st : state)
  : list (str * nat) :=
  sort_deepest_first (enumerated_dirs old_account st).

(** Not shallower: [y] may come after [x] in the pass. *)
Definition not_deeper (x y : str * nat) : Prop := snd y <= snd x.

(** The path of the directory reached from [top] through [names], as
    [os.walk] builds it. *)
Definition path_under (top : str) (names : list str) : str :=
  fold_left os_path_join names top.

(* ================================================================== *)
(** * The content-rewrite pass, file by file *)

(** Two nodes that hold the same file, or are both directories, or are
    both absent. *)
Definition same_file (a b : option node) : Prop :=
  match a, b with
  | Some (File r w d), Some (File r' w' d') => r = r' /\ w = w' /\ d = d'
  | Some (Dir _), Some (Dir _) => True
  | None, None => True
  | _, _ => False
  end.

(** The text [read_text] returns for the bytes of a file. *)
Definition text_of (data : list N) : str :=
  universal_newlines (decode_ignore data).

(** The bytes are the UTF-8 encoding of the text they decode to. *)
Definition valid_utf8 (data : list N) : bool :=
  match encode_utf8 (decode_ignore data) with
  | Some bs => str_eqb bs data
  | None => false
  end.

Definition log_error (file_path : str) (e : exn) (st : state) : state :=
  with_log (st_log st ++ [(ERROR, MsgFileError file_path e)]) st.

Definition note_update (dry : bool) (file_path : str) (st : state) : state :=
  let st1 := with_log (st_log st ++ [(INFO, if dry then MsgWouldUpdateFile file_path
                                            else MsgUpdatedFile file_path)]) st in
  with_changes (st_changes st1 ++ [ContentChange file_path]) st1.

Section PerFile.
Context {db : UnicodeDb}.

(** What [update_one] does, by the cases of the file and of the
    substitution: the paths it reports and the state it leaves. *)
Definition update_one_result (self : WoWUIMigrator) (content_mappings : dict)
           (file_path : str) (st : state) : list str * state :=
  let p := locate (st_cwd st) file_path in
  match get p (st_root st) with
  | Some (File true w data) =>
      match apply_content_mappings content_mappings (text_of data) with
      | Raise e => ([], log_error file_path e st)
      | Ret content =>
          if str_eqb content (text_of data) then ([], st)
          else if dry_run self then ([file_path], note_update true file_path st)
          else if w then
            match encode_utf8 content with
            | Some bs =>
                ([file_path],
                 note_update false file_path
                   (with_root (put p (File true true bs) (st_root st)) st))
            | None =>
                ([],
                 log_error file_path UnicodeEncodeError
                   (with_root (put p (File true true []) (st_root st)) st))
            end
          else ([], log_error file_path (OSError EACCES) st)
      end
  | Some (File false _ _) => ([], log_error file_path (OSError EACCES) st)
  | Some (Dir _) => ([], log_error file_path (OSError EISDIR) st)
  | None => ([], log_error file_path (OSError ENOENT) st)
  end.

(** The files the pass processes, in its order. *)
Definition rewrite_targets (working_path : str) (content_mappings : dict)
           (old_account : option str)
           (walk : list (str * list str * list str)) : list str :=
  flat_map (fun entry =>
              match entry with
              | (root, _, files) =>
                  if rewrite_in_scope working_path content_mappings old_account root
                  then List.map (os_path_join root) (filter is_config_file files)
                  else []
              end) walk.

(** The files of a state the pass processes. *)
Definition targets_of (content_mappings : dict) (old_account : option str)
           (st : state) : list str :=
  rewrite_targets (st_working st) content_mappings old_account
                  (match node_at (st_working st) st with
                   | Some n => walk_node (st_working st) n
                   | None => []
                   end).

(** [update_one_result] over a list of files. *)
Fixpoint run_updates (self : WoWUIMigrator) (content_mappings : dict)
         (paths : list str) (st : state) : list str * state :=
  match paths with
  | [] => ([], st)
  | file_path :: rest =>
      let (l1, st1) := update_one_result self content_mappings file_path st in
      let (l2, st2) := run_updates self content_mappings rest st1 in
      (l1 ++ l2, st2)
  end.

End PerFile.

Section AtRest.
Context {db : UnicodeDb}.

(** Processing the node changes nothing and reports nothing: it is no
    readable file, or it cannot be written, or the substitutions leave
    its text as it is (or fail). *)
Definition at_rest (self : WoWUIMigrator) (content_mappings : dict)
           (o : option node) : Prop :=
  match o with
  | Some (File true w data) =>
      (w = false /\ dry_run self = false)
      \/ match apply_content_mappings content_mappings (text_of data) with
         | Ret content => content = text_of data
         | Raise _ => True
         end
  | _ => True
  end.

End AtRest.

(** The walk from a location of a tree. *)
Definition walk_at (loc : list str) (top : str) (root : node)
  : list (str * list str * list str) :=
  match get loc root with
  | Some n => walk_node top n
  | None => []
  end.

(* ================================================================== *)
(** * Substitution of names, word by word *)

Section Words.
Context {db : UnicodeDb}.

(** A name: a non-empty run of word characters. *)
Definition is_name (s : str) : bool :=
  match s with
  | [] => false
  | _ => forallb is_word s
  end.

(** What the substitution of the key [k] by [v] makes of a word. *)
Definition rewrite_word (k v w : str) : str :=
  if ci_match k w then v else w.

(** The words of a text rewritten by [f], the rest kept; [acc] is the
    word being read. *)
Fixpoint map_words (f : str -> str) (acc : str) (s : str) : str :=
  match s with
  | [] =>
      match acc with
      | [] => []
      | _ => f acc
      end
  | c :: s' =>
      if is_word c then map_words f (acc ++ [c]) s'
      else match acc with
           | [] => c :: map_words f [] s'
           | _ => f acc ++ c :: map_words f [] s'
           end
  end.

(** What the entries of a mapping, applied in their order, make of a
    word. *)
Definition rewrite_chain (m : dict) (w : str) : str :=
  fold_left (fun w e => rewrite_word (fst e) (snd e) w) m w.

(** The characters a word character matches up to case are word
    characters. *)
Definition case_keeps_words : Prop :=
  forall p c, is_word p = true -> ci_eq p c = true -> is_word c = true.

(** Whatever a character of the key matches up to letter case is a
    word character. *)
Definition matches_words_only (k : str) : Prop :=
  forall p c, In p k -> ci_eq p c = true -> is_word c = true.

(** The keys of the mapping match word characters only. *)
Definition keys_match_words (m : dict) : Prop :=
  forall k v, In (k, v) m -> matches_words_only k.

(** No key of the mapping matches a replacement value of the mapping
    up to letter case. *)
Definition no_key_matches_a_value (m : dict) : Prop :=
  forall k v k' v', In (k, v) m -> In (k', v') m -> ci_match k v' = false.

(** Keys and replacements are names. *)
Definition names_only (m : dict) : Prop :=
  forall k v, In (k, v) m -> is_name k = true /\ is_name v = true.

(** Two entries do not interact: no word matches both keys, and the
    replacement of one does not match the key of the other. *)
Definition apart (x y : str * str) : Prop :=
  (forall w, ci_match (fst x) w = true -> ci_match (fst y) w = false)
  /\ ci_match (fst y) (snd x) = false
  /\ ci_match (fst x) (snd y) = false.

(** No two different entries of the mapping interact. *)
Definition independent (m : dict) : Prop :=
  forall x y, In x m -> In y m -> x <> y -> apart x y.

End Words.

(* ================================================================== *)
(** * Well-formed names and locations *)

(** An entry name of a directory: not empty, without separator, and
    neither [.] nor [..]. *)
Definition proper_name (x : str) : bool :=
  negb (str_eqb x []) && negb (existsb (N.eqb sep) x)
  && negb (str_eqb x [dot]) && negb (str_eqb x [dot; dot]).

(** Every entry of the tree has a proper name. *)
Fixpoint names_ok (n : node) : bool :=
  match n with
  | File _ _ _ => true
  | Dir es =>
      (fix all (l : list (str * node)) : bool :=
         match l with
         | [] => true
         | (x, c) :: l' => proper_name x && names_ok c && all l'
         end) es
  end.

(** One step of [locate]: what a component of a path does to the
    location reached so far. *)
Definition resolve (acc : list str) (comp : str) : list str :=
  if str_eqb comp [] || str_eqb comp [dot] then acc
  else if str_eqb comp [dot; dot] then removelast acc
  else acc ++ [comp].

(** Where the resolution of a path starts. *)
Definition origin (cwd : list str) (path : str) : list str :=
  if startswith path [sep] then [] else cwd.

(** The root of a path object is empty, [/] or [//]. *)
Definition root_ok (p : pure_path) : Prop :=
  pp_root p = [] \/ pp_root p = [sep] \/ pp_root p = [sep; sep].

(** The location [p] is the location [q] or lies below it. *)
Definition within (q p : list str) : Prop := exists r, p = q ++ r.

(** Neither location is the other or lies below it. *)
Definition apart_from (p q : list str) : Prop := ~ within p q /\ ~ within q p.

(** The entries [copy_node] copies of a directory. *)
Fixpoint copy_entries (l : list (str * node)) : list (str * node) * bool :=
  match l with
  | [] => ([], false)
  | (name, c) :: l' =>
      let (l2, bad2) := copy_entries l' in
      match c with
      | File r _ _ => if r then ((name, c) :: l2, bad2) else (l2, true)
      | Dir _ => let (c', bad1) := copy_node c in ((name, c') :: l2, bad1 || bad2)
      end
  end.

(** The file the logger appends its records to: [__init__] hands
    [logging] a [FileHandler('wow_ui_migration.log')], which opens the
    file of that name in the working directory.  The tree of a state
    does not follow the content of this file (the records are kept in
    [st_log]); the properties of the tree below are therefore stated
    for the locations apart from it. *)
Definition log_file (cwd : list str) : list str :=
  cwd ++ [lit "wow_ui_migration.log"].

(** No part of the path is [..], which [locate] resolves by the text of
    the path alone. *)
Definition upward_free (p : pure_path) : Prop :=
  Forall (fun x => x <> [dot; dot]) (pp_parts p).

(* ================================================================== *)
(** * Computations that stay below a location *)

(** A state a run can be in: the working directory is [cwd] and the
    entries of the tree have proper names. *)
Definition state_ok (cwd : list str) (st : state) : Prop :=
  st_cwd st = cwd /\ names_ok (st_root st) = true.

(** Between [st] and [st'] nothing has changed at the locations apart
    from [c], and the working path is the same. *)
Definition confined (c : list str) (st st' : state) : Prop :=
  st_working st' = st_working st
  /\ forall q, apart_from c q -> get q (st_root st') = get q (st_root st).

Definition anything {A} (a : A) : Prop := True.

(** Between [st] and [st'] the tree has changed within what [frame]
    allows, and the working path is the same. *)
Definition kept (frame : node -> node -> Prop) (st st' : state) : Prop :=
  st_working st' = st_working st /\ frame (st_root st) (st_root st').

(** Started in a state that is in order, the computation changes the
    tree within what [frame] allows, leaves a state that is in order,
    and a result it returns satisfies [Q]. *)
Definition keeps {A} (cwd : list str) (frame : node -> node -> Prop)
           (m : M A) (Q : A -> Prop) : Prop :=
  forall st res st',
    state_ok cwd st -> m st = (res, st') ->
    state_ok cwd st' /\ kept frame st st'
    /\ match res with
       | Ret a => Q a
       | Raise _ => True
       end.

(** Nothing has changed at the locations apart from [c]. *)
Definition unchanged_apart (c : list str) (root root' : node) : Prop :=
  forall q, apart_from c q -> get q root' = get q root.

(** A directory lies at the location of the tree. *)
Definition dir_at (root : node) (loc : list str) : bool :=
  match get loc root with
  | Some (Dir _) => true
  | _ => false
  end.

(** The directories outside the zone are directories still. *)
Definition dirs_outside (zone : list str -> Prop) (root root' : node) : Prop :=
  forall q, ~ zone q -> dir_at root q = true -> dir_at root' q = true.

(** The entries of the directory at [path] lie in the zone. *)
Definition zone_under (cwd : list str) (zone : list str -> Prop) (path : str)
  : Prop :=
  forall x, proper_name x = true -> zone (locate cwd path ++ [x]).

(** The location [l], and every location that is longer than [l]. *)
Definition at_or_deeper (l q : list str) : Prop :=
  q = l \/ List.length l < List.length q.

(** No directory of the tree lists a name twice. *)
Fixpoint distinct_names (n : node) : bool :=
  match n with
  | File _ _ _ => true
  | Dir es =>
      (fix all (l : list (str * node)) : bool :=
         match l with
         | [] => true
         | (x, c) :: l' =>
             negb (existsb (fun e => str_eqb (fst e) x) l')
             && distinct_names c && all l'
         end) es
  end.

(** The location of an enumerated directory. *)
Definition place (cwd : list str) (e : str * nat) : list str :=
  locate cwd (fst e).

(** The location of [y] is not longer than the location of [x]. *)
Definition not_longer (cwd : list str) (x y : str * nat) : Prop :=
  List.length (place cwd y) <= List.length (place cwd x).

(** The path of the entry is a proper name joined to a path. *)
Definition joined (e : str * nat) : Prop :=
  exists par name, fst e = os_path_join par name /\ proper_name name = true.

(** The walks below the entries of a directory, as [walk_node] chains
    them. *)
Fixpoint walk_entries (top : str) (l : list (str * node))
  : list (str * list str * list str) :=
  match l with
  | [] => []
  | (name, c) :: l' => walk_node (os_path_join top name) c ++ walk_entries top l'
  end.

(** A new name, when one is given, is a proper name. *)
Definition replacement_ok (new : option str) : Prop :=
  match new with
  | None | Some [] => True
  | Some x => proper_name x = true
  end.

(** The name and the path of the working copy for a reading
    [timestamp] of the clock, as [create_migration_copy] builds them. *)
Definition copy_name_of (old_realm new_realm : str) (old_char new_char : option str)
           (timestamp : str) : str :=
  let copy_name_parts := [old_realm ++ lit "_to_" ++ new_realm] in
  let copy_name_parts :=
    match old_char, new_char with
    | Some oc, Some nc =>
        if truthy old_char && truthy new_char
        then copy_name_parts ++ [oc ++ lit "_to_" ++ nc]
        else copy_name_parts
    | _, _ => copy_name_parts
    end in
  let copy_name_parts := copy_name_parts ++ [timestamp] in
  join_with underscore copy_name_parts.

Definition copy_path_of (self : WoWUIMigrator) (old_realm new_realm : str)
           (old_char new_char : option str) (timestamp : str) : pure_path :=
  path_div (path_parent (wtf_path self))
           (lit "WTF_migrated_"
            ++ copy_name_of old_realm new_realm old_char new_char timestamp).

(** The reading of the clock a state is about to give. *)
Definition next_stamp (st : state) : str := local_stamp (st_clock st (st_ticks st)).

(** The states differ in their logs at most. *)
Definition same_but_log (st st1 : state) : Prop :=
  st_root st1 = st_root st /\ st_cwd st1 = st_cwd st
  /\ st_clock st1 = st_clock st /\ st_ticks st1 = st_ticks st
  /\ st_depth st1 = st_depth st /\ st_changes st1 = st_changes st
  /\ st_working st1 = st_working st.

(** The state after the records [msgs] have been logged. *)
Definition logged (msgs : list (level * message)) (st : state) : state :=
  fold_left (fun s m => with_log (st_log s ++ [m]) s) msgs st.

(** The record [migrate] logs for a pair of names, when both are given. *)
Definition pair_record (old new : option str) (msg : str -> str -> message)
  : list (level * message) :=
  match old, new with
  | Some o, Some n => if truthy old && truthy new then [(INFO, msg o n)] else []
  | _, _ => []
  end.

(** The records with which [migrate] starts. *)
Definition opening_records (self : WoWUIMigrator) (old_realm new_realm : str)
           (old_char new_char old_account new_account : option str)
  : list (level * message) :=
  [(INFO, MsgStarting);
   (INFO, MsgOriginalPath (path_str (wtf_path self)));
   (INFO, MsgRealm old_realm new_realm)]
  ++ pair_record old_char new_char MsgCharacter
  ++ pair_record old_account new_account MsgAccount.

(** The records with which a completed migration ends. *)
Definition closing_records (self : WoWUIMigrator) (renamed updated : nat)
           (copy_path : str) : list (level * message) :=
  [(INFO, MsgCompleted);
   (INFO, MsgFoldersRenamed renamed);
   (INFO, MsgFilesUpdated updated);
   (INFO, MsgCopyCreatedAt copy_path);
   (INFO, MsgOriginalUnchanged (path_str (wtf_path self)))].

(* ================================================================== *)
(** * What a pass is to do, read off the state it starts in *)

(** The renames a pass over [dirs] is to make: one for every directory
    whose name is a key with another, non-empty replacement. *)
Definition planned_renames (m : dict) (dirs : list (str * nat)) : list (str * str) :=
  flat_map (fun d => match rename_target m (fst d) with
                     | Some new_path => [(fst d, new_path)]
                     | None => []
                     end) dirs.

Section Needs.
Context {db : UnicodeDb}.

(** The node is a readable file whose text the substitutions change. *)
Definition node_needs_update (m : dict) (o : option node) : bool :=
  match o with
  | Some (File true _ data) =>
      match apply_content_mappings m (text_of data) with
      | Ret content => negb (str_eqb content (text_of data))
      | Raise _ => false
      end
  | _ => false
  end.

(** The file at [file_path] is to be rewritten. *)
Definition needs_update (m : dict) (st : state) (file_path : str) : bool :=
  node_needs_update m (node_at file_path st).

End Needs.

(** The string holds no separator. *)
Definition no_separator (s : str) : Prop := existsb (N.eqb sep) s = false.

Definition none_or_no_separator (o : option str) : Prop :=
  match o with
  | Some s => no_separator s
  | None => True
  end.

(** The parts of a path object are not empty. *)
Definition parts_ok (p : pure_path) : Prop :=
  Forall (fun x => x <> []) (pp_parts p).

(** The same kind of node, with the same permissions if it is a file. *)
Definition same_entry (a b : option node) : Prop :=
  match a, b with
  | Some (File r w _), Some (File r' w' _) => r = r' /\ w = w'
  | Some (Dir _), Some (Dir _) => True
  | None, None => True
  | _, _ => False
  end.

(* ================================================================== *)
(** * The mappings as functions of the names given *)

(** The replacement of [k] by the first of the pairs that is given in
    full and whose old name is [k]. *)
Fixpoint first_given (pairs : list (option str * option str)) (k default : str)
  : str :=
  match pairs with
  | [] => default
  | (old, new) :: rest =>
      match old, new with
      | Some o, Some n =>
          if truthy old && truthy new && str_eqb o k then n
          else first_given rest k default
      | _, _ => first_given rest k default
      end
  end.

(** The two names, when both are given, differ. *)
Definition differ (a b : option str) : Prop :=
  match a, b with
  | Some x, Some y => x <> y
  | _, _ => True
  end.

(** The entry a pair of names contributes to a mapping: none unless
    both names are given and not empty. *)
Definition given (old new : option str) : dict :=
  match old, new with
  | Some o, Some n => if truthy old && truthy new then [(o, n)] else []
  | _, _ => []
  end.

(* ================================================================== *)
(** * Concrete trees and runs *)

(** An entry of a directory, its name written as a literal. *)
Definition entry (name : string) (n : node) : str * node := (lit name, n).

(** A readable and writable file with ASCII content. *)
Definition text_file (content : string) : node := File true true (lit content).

(** A clock that stands at 14 November 2023, 22:13:20 UTC. *)
Definition still_clock (_ : nat) : instant :=
  {| epoch := 1700000000; local_stamp := lit "20231114_221320" |}.

(** A state whose working tree is [working_path]. *)
Definition state_at (root : node) (working_path : string) : state :=
  {| st_root := root; st_cwd := []; st_clock := still_clock; st_ticks := 0;
     st_depth := 100; st_log := []; st_changes := [];
     st_working := lit working_path |}.

(** A text file with a byte that is no UTF-8: [Bob], 0xFF, ['s bag]. *)
Definition malformed_bytes : list N := lit "Bob" ++ [255%N] ++ lit "'s bag".

Definition malformed_tree : node :=
  Dir [entry "w" (Dir [entry "notes.txt" (File true true malformed_bytes)])].

(** A small WTF tree: a global configuration file and one account with
    a realm and a character. *)
Definition small_tree : node :=
  Dir [entry "WTF"
         (Dir [entry "Config.wtf" (text_file "SET realmName OldRealm");
               entry "Account"
                 (Dir [entry "ACC"
                         (Dir [entry "OldRealm"
                                 (Dir [entry "Char"
                                         (Dir [entry "layout.txt"
                                                 (text_file "Char of OldRealm")])])])])])].

Definition realm_and_character : dict :=
  [(lit "OldRealm", lit "NewRealm"); (lit "Char", lit "Hero")].

(** ** Two accounts whose names share a prefix, and a character named
       like the account *)

Definition scope_tree : node :=
  Dir [entry "WTF"
         (Dir [entry "Account"
                 (Dir [entry "BOB"
                         (Dir [entry "SavedVariables"
                                 (Dir [entry "ui.lua" (text_file "BOB on OldRealm")])]);
                       entry "BOBBY"
                         (Dir [entry "SavedVariables"
                                 (Dir [entry "ui.lua" (text_file "BOBBY on OldRealm")])]);
                       entry "OTHER"
                         (Dir [entry "OldRealm"
                                 (Dir [entry "BOB"
                                         (Dir [entry "notes.txt"
                                                 (text_file "OldRealm")])])])])])].

(** The two passes of a migration of realm OldRealm -> NewRealm and
    account BOB -> ALICE, filtered to the account BOB, on the working
    tree [/WTF]. *)
Definition scoped_rename : outcome (list (str * str)) * state :=
  rename_folders (new_migrator (lit "/WTF") false)
    (get_folder_mappings (Some (lit "OldRealm")) (Some (lit "NewRealm")) None None
                         (Some (lit "BOB")) (Some (lit "ALICE")))
    (Some (lit "BOB")) (state_at scope_tree "/WTF").

Definition scoped_rewrite : outcome (list str) * state :=
  @update_file_contents ascii_db (new_migrator (lit "/WTF") false)
    (get_content_mappings (Some (lit "OldRealm")) (Some (lit "NewRealm")) None None
                          (Some (lit "BOB")) (Some (lit "ALICE")))
    (Some (lit "BOB")) (snd scoped_rename).

(** ** Merges that meet a backup of the same second *)

Definition backup_tree : node :=
  Dir [entry "src" (Dir [entry "x.lua" (text_file "from the source")]);
       entry "dst" (Dir [entry "x.lua" (text_file "from the target");
                         entry "x.lua.backup_1700000000"
                               (text_file "an earlier backup")])].

Definition merge_over_backup : outcome unit * state :=
  _merge_directories 100 (lit "/src") (lit "/dst") (state_at backup_tree "/").

Definition three_realms : node :=
  Dir [entry "WTF"
         (Dir [entry "R1" (Dir [entry "x.lua" (text_file "from R1")]);
               entry "R2" (Dir [entry "x.lua" (text_file "from R2")]);
               entry "N" (Dir [entry "x.lua" (text_file "from N")])])].

(** The folder mapping of [--old-realm R1 --new-realm N --old-char R2
    --new-char N]. *)
Definition two_into_one : outcome (list (str * str)) * state :=
  rename_folders (new_migrator (lit "/WTF") false)
    (get_folder_mappings (Some (lit "R1")) (Some (lit "N"))
                         (Some (lit "R2")) (Some (lit "N")) None None)
    None (state_at three_realms "/WTF").

(** ** Runs of [migrate] *)

(** The tree of a user whose WTF folder is [/home/u/WTF]. *)
Definition home_tree (wtf : node) : node :=
  Dir [entry "home" (Dir [entry "u" (Dir [entry "WTF" wtf])])].

Definition plain_wtf : node :=
  Dir [entry "Config.wtf" (text_file "SET realmName OldRealm")].

(** [RealmPortal.py . --old-realm OldRealm --new-realm NewRealm], run in
    the WTF folder. *)
Definition migrate_in_place : outcome bool * state :=
  let self := new_migrator (lit ".") false in
  @migrate ascii_db self (lit "OldRealm") (lit "NewRealm") None None None None
    (initial_state self (home_tree plain_wtf) [lit "home"; lit "u"; lit "WTF"]
                   still_clock 100).

(** A WTF folder with a file that cannot be read. *)
Definition locked_wtf : node :=
  Dir [entry "Config.wtf" (text_file "SET realmName OldRealm");
       entry "Cache.txt" (File false true (lit "OldRealm"))].

(** [RealmPortal.py /home/u/WTF --old-realm OldRealm --new-realm
    NewRealm] on it. *)
Definition migrate_locked : outcome bool * state :=
  let self := new_migrator (lit "/home/u/WTF") false in
  @migrate ascii_db self (lit "OldRealm") (lit "NewRealm") None None None None
    (initial_state self (home_tree locked_wtf) [] still_clock 100).

(** The same command when the folder of the copy exists already. *)
Definition migrate_again : outcome bool * state :=
  let self := new_migrator (lit "/home/u/WTF") false in
  @migrate ascii_db self (lit "OldRealm") (lit "NewRealm") None None None None
    (initial_state self
       (Dir [entry "home"
               (Dir [entry "u"
                       (Dir [entry "WTF" plain_wtf;
                             entry "WTF_migrated_OldRealm_to_NewRealm_20231114_221320"
                                   (Dir [])])])])
       [] still_clock 100).

(** A WTF folder with one character, migrated with a new character name
    that is an absolute path into the folder itself. *)
Definition character_wtf : node :=
  Dir [entry "Account"
         (Dir [entry "ACC"
                 (Dir [entry "OldRealm"
                         (Dir [entry "Char"
                                 (Dir [entry "layout.txt" (text_file "Char")])])])])].

Definition migrate_absolute_name : outcome bool * state :=
  let self := new_migrator (lit "/home/u/WTF") false in
  @migrate ascii_db self (lit "OldRealm") (lit "NewRealm")
    (Some (lit "Char")) (Some (lit "/home/u/WTF/Account/ACC/OldRealm/Hero"))
    None None
    (initial_state self (home_tree character_wtf) [] still_clock 100).

(** The ASCII code points. *)
Definition ascii_table : list N := List.map N.of_nat (seq 0 128).


(** A working tree with a file that cannot be read. *)
Definition locked_tree : node :=
  Dir [entry "w" (Dir [entry "Cache.txt" (File false true (lit "OldRealm"));
                       entry "Config.wtf" (text_file "SET realmName OldRealm")])].

(** ** A realm name of two words *)

(** The content mapping of [--old-realm "Old Realm" --new-realm "New
    Realm" --old-char Big --new-char Old]. *)
Definition two_word_names : dict :=
  [(lit "Old Realm", lit "New Realm"); (lit "Big", lit "Old")].

Definition two_word_tree : node :=
  Dir [entry "w" (Dir [entry "notes.txt" (text_file "Big Realm")])].

Definition first_pass_on_two_words : outcome (list str) * state :=
  @update_file_contents ascii_db (new_migrator (lit "/w") false)
    two_word_names None (state_at two_word_tree "/w").

Definition second_pass_on_two_words : outcome (list str) * state :=
  @update_file_contents ascii_db (new_migrator (lit "/w") false)
    two_word_names None (snd first_pass_on_two_words).

(** ** Texts with a key inside a longer word and in several cases *)



(** ** A migration of a realm and a character *)

(** [RealmPortal.py /home/u/WTF --old-realm OldRealm --new-realm NewRealm
    --old-char Char --new-char Hero] *)
Definition migrate_home : outcome bool * state :=
  let self := new_migrator (lit "/home/u/WTF") false in
  @migrate ascii_db self (lit "OldRealm") (lit "NewRealm")
    (Some (lit "Char")) (Some (lit "Hero")) None None
    (initial_state self (home_tree character_wtf) [] still_clock 100).

(** The same command with [--dry-run]. *)
Definition migrate_home_dry : outcome bool * state :=
  let self := new_migrator (lit "/home/u/WTF") true in
  @migrate ascii_db self (lit "OldRealm") (lit "NewRealm")
    (Some (lit "Char")) (Some (lit "Hero")) None None
    (initial_state self (home_tree character_wtf) [] still_clock 100).

(** The same command on a path that does not exist. *)
Definition migrate_nowhere : outcome bool * state :=
  let self := new_migrator (lit "/home/u/Nowhere") false in
  @migrate ascii_db self (lit "OldRealm") (lit "NewRealm")
    (Some (lit "Char")) (Some (lit "Hero")) None None
    (initial_state self (home_tree character_wtf) [] still_clock 100).

(** ** A working tree beside another folder of the same shape *)

Definition kept_folder : node :=
  Dir [entry "OldRealm" (Dir [entry "notes.txt" (text_file "OldRealm")])].

Definition beside_tree : node :=
  Dir [entry "WTF"
         (Dir [entry "Config.wtf" (text_file "SET realmName OldRealm");
               entry "OldRealm" (Dir [entry "Char" (Dir [])])]);
       entry "Kept" kept_folder].

Definition rename_beside : outcome (list (str * str)) * state :=
  rename_folders (new_migrator (lit "/WTF") false) realm_and_character None
                 (state_at beside_tree "/WTF").

Definition rewrite_beside : outcome (list str) * state :=
  @update_file_contents ascii_db (new_migrator (lit "/WTF") false)
    realm_and_character None (state_at beside_tree "/WTF").

Definition rename_beside_dry : outcome (list (str * str)) * state :=
  rename_folders (new_migrator (lit "/WTF") true) realm_and_character None
                 (state_at beside_tree "/WTF").

Definition rewrite_beside_dry : outcome (list str) * state :=
  @update_file_contents ascii_db (new_migrator (lit "/WTF") true)
    realm_and_character None (state_at beside_tree "/WTF").

(** The copy step of [migrate_home]. *)
Definition copy_home : outcome str * state :=
  let self := new_migrator (lit "/home/u/WTF") false in
  create_migration_copy self (lit "OldRealm") (lit "NewRealm")
    (Some (lit "Char")) (Some (lit "Hero"))
    (initial_state self (home_tree character_wtf) [] still_clock 100).

(* ================================================================== *)
(** * Properties *)

Unset Implicit Arguments.

(** ** Strings *)

Lemma str_eqb_eq (a b : str) : str_eqb a b = true <-> a = b.
Proof.
  revert b; induction a as [|c a IH]; intros [|d b]; simpl; try easy.
  rewrite andb_true_iff, N.eqb_eq, IH. split.
  - intros [-> ->]; reflexivity.
  - intros H; injection H; auto.
Qed.

Lemma str_eqb_refl (a : str) : str_eqb a a = true.
Proof. apply str_eqb_eq; reflexivity. Qed.

Lemma str_eqb_neq (a b : str) : str_eqb a b = false <-> a <> b.
Proof.
  rewrite <- str_eqb_eq. destruct (str_eqb a b); split; congruence.
Qed.

(** ** The matcher against the specification's occurrences *)

Section RegexFacts.
Context {db : UnicodeDb}.

(** [\b] holds at a position exactly when a word boundary lies between
    its two neighbours. *)
Lemma at_boundary_edge (prev : option N) (s : str) :
  at_boundary prev s = word_edge prev (hd_error s).
Proof.
  unfold at_boundary, word_edge, word_opt.
  destruct prev as [a|], (hd_error s) as [b|]; try reflexivity.
  - destruct (is_word a), (is_word b); reflexivity.
  - destruct (is_word a); reflexivity.
Qed.

Lemma match_literals (key : str) : forall prev s,
  match_here (List.map ReLiteral key ++ [ReBoundary]) prev s
  = if Nat.leb (List.length key) (List.length s)
       && ci_match key (firstn (List.length key) s)
       && word_edge (prev_after prev (firstn (List.length key) s))
                    (hd_error (skipn (List.length key) s))
    then Some (List.length key) else None.
Proof.
  induction key as [|k key IH]; intros prev s; simpl.
  - rewrite at_boundary_edge. destruct (word_edge prev (hd_error s)); reflexivity.
  - destruct s as [|c s]; simpl; [reflexivity|].
    destruct (ci_eq k c); simpl;
      [|rewrite andb_false_r; reflexivity].
    rewrite IH.
    destruct (Nat.leb (List.length key) (List.length s)
              && ci_match key (firstn (List.length key) s)
              && word_edge (prev_after (Some c) (firstn (List.length key) s))
                           (hd_error (skipn (List.length key) s)));
      reflexivity.
Qed.

(** The compiled pattern matches exactly at the whole-word occurrences
    of the key, and consumes the length of the key. *)
Lemma match_here_whole_word (key : str) (prev : option N) (s : str) :
  match_here (word_pattern key) prev s
  = if whole_word_here key prev s then Some (List.length key) else None.
Proof.
  unfold word_pattern, whole_word_here. simpl match_here.
  rewrite match_literals, at_boundary_edge.
  destruct (word_edge prev (hd_error s));
    [|rewrite andb_false_r; reflexivity].
  rewrite andb_true_r. reflexivity.
Qed.

Lemma sub_scan_skip (items : list re_item) (repl : str -> str) (occ : str) :
  forall prev s,
    sub_scan items repl prev (occ ++ s) (List.length occ)
    = sub_scan items repl (prev_after prev occ) s 0.
Proof.
  induction occ as [|c occ IH]; intros prev s; simpl.
  - destruct s; reflexivity.
  - apply IH.
Qed.




(** Where the key does not occur, the scan copies the text. *)
Lemma sub_scan_no_occurrence (key : str) (repl : str -> str) :
  forall s prev,
    occurs_in key prev s = false ->
    sub_scan (word_pattern key) repl prev s 0 = s.
Proof.
  induction s as [|c s IH]; intros prev H; simpl in H;
    apply orb_false_iff in H; destruct H as [H1 H2].
  - cbn [sub_scan]. rewrite match_here_whole_word, H1. reflexivity.
  - cbn [sub_scan]. rewrite match_here_whole_word, H1.
    rewrite IH; auto.
Qed.

Lemma expand_literal (new_text m : str) :
  expand (List.map PLit new_text) m = new_text.
Proof.
  unfold expand. induction new_text as [|c t IH]; simpl; congruence.
Qed.


End RegexFacts.


(** ** Looking a directory name up in the folder mapping *)

Lemma find_new_name_spec (m : dict) (dir_name : str) :
  match find_new_name m dir_name with
  | Some new_name => In (dir_name, new_name) m
  | None => ~ In dir_name (keys m)
  end.
Proof.
  induction m as [|[k v] m IH]; simpl.
  - tauto.
  - destruct (str_eqb dir_name k) eqn:E.
    + apply str_eqb_eq in E. subst. now left.
    + apply str_eqb_neq in E.
      destruct (find_new_name m dir_name).
      * now right.
      * intros [H|H]; [congruence|tauto].
Qed.

Lemma rename_target_key (m : dict) (dir_path new_path : str) :
  rename_target m dir_path = Some new_path ->
  exists new_name,
    In (os_path_basename dir_path, new_name) m
    /\ new_name <> os_path_basename dir_path
    /\ new_path = os_path_join (os_path_dirname dir_path) new_name.
Proof.
  unfold rename_target. intros H.
  pose proof (find_new_name_spec m (os_path_basename dir_path)) as S.
  destruct (find_new_name m (os_path_basename dir_path)) as [n|]; [|discriminate].
  destruct (truthy (Some n) && negb (str_eqb n (os_path_basename dir_path))) eqn:E;
    [|discriminate].
  apply andb_true_iff in E. destruct E as [_ E].
  apply negb_true_iff, str_eqb_neq in E.
  exists n. repeat split; auto. congruence.
Qed.

Lemma rename_target_not_key (m : dict) (dir_path : str) :
  ~ In (os_path_basename dir_path) (keys m) -> rename_target m dir_path = None.
Proof.
  intros H. destruct (rename_target m dir_path) as [p|] eqn:E; [|reflexivity].
  apply rename_target_key in E. destruct E as (n & Hin & _).
  exfalso. apply H. unfold keys.
  change (os_path_basename dir_path) with (fst (os_path_basename dir_path, n)).
  now apply in_map.
Qed.

(** What a round of the renaming loop reports is a directory whose
    name the mapping has as a key. *)
Lemma rename_one_reports (self : WoWUIMigrator) (m : dict) (dir_path : str)
      (st st' : state) (l : list (str * str)) :
  rename_one self m dir_path st = (Ret l, st') ->
  forall d n, In (d, n) l -> d = dir_path /\ rename_target m dir_path = Some n.
Proof.
  unfold rename_one. destruct (rename_target m dir_path) as [new_path|] eqn:T.
  - unfold bind at 1.
    match goal with |- context [match ?c st with _ => _ end] => destruct (c st) as [[b|e] st1] end;
      [|discriminate].
    destruct b; [|intros H; injection H as <- _; intros ? ? []].
    unfold bind, record_change, ret. intros H. injection H as <- _.
    intros d n [H|[]]. injection H as <- <-. auto.
  - unfold ret. intros H. injection H as <- _. intros ? ? [].
Qed.

Lemma rename_each_reports (self : WoWUIMigrator) (m : dict) :
  forall (dirs : list (str * nat)) (st st' : state) (l : list (str * str)),
    rename_each self m dirs st = (Ret l, st') ->
    forall d n, In (d, n) l ->
      In d (List.map fst dirs) /\ rename_target m d = Some n.
Proof.
  induction dirs as [|[dir_path depth] dirs IH]; intros st st' l; simpl.
  - unfold ret. intros H. injection H as <- _. intros ? ? [].
  - unfold bind at 1.
    destruct (rename_one self m dir_path st) as [[l1|e] st1] eqn:E1; [|discriminate].
    unfold bind at 1.
    destruct (rename_each self m dirs st1) as [[l2|e] st2] eqn:E2; [|discriminate].
    unfold ret. intros H. injection H as <- _.
    intros d n Hin. apply in_app_or in Hin. destruct Hin as [Hin|Hin].
    + destruct (rename_one_reports _ _ _ _ _ _ E1 _ _ Hin) as [-> T]. auto.
    + destruct (IH _ _ _ E2 _ _ Hin). auto.
Qed.

(** C10 -- Directory renaming matches the keys of the folder mapping by
    exact, case-sensitive equality with the basename of the directory:
    the name looked up is found only as a key itself; a directory whose
    name is not a key (for instance because it differs from one in
    letter case) is left alone by its round of the loop, which changes
    nothing and reports nothing; every pair the pass reports is a
    directory whose basename is a key; "bob" is not renamed by the key
    "Bob", while the content substitution for "Bob" does rewrite
    "bob". *)
Theorem folder_names_match_case_sensitively {db : UnicodeDb} :
  (forall m dir_name,
     match find_new_name m dir_name with
     | Some new_name => In (dir_name, new_name) m
     | None => ~ In dir_name (keys m)
     end)
  /\ (forall self m dir_path st,
        ~ In (os_path_basename dir_path) (keys m) ->
        rename_one self m dir_path st = (Ret [], st))
  /\ (forall self m old_account st renamed st',
        rename_folders self m old_account st = (Ret renamed, st') ->
        forall d n, In (d, n) renamed -> In (os_path_basename d) (keys m))
  /\ rename_target [(lit "Bob", lit "Alice")] (lit "/w/Account/ACC/Realm/bob") = None
  /\ rename_target [(lit "Bob", lit "Alice")] (lit "/w/Account/ACC/Realm/Bob")
     = Some (lit "/w/Account/ACC/Realm/Alice")
  /\ ci_match (lit "Bob") (lit "bob") = true
  /\ re_sub (lit "Bob") (lit "Alice") (lit "bob") = Ret (lit "Alice").
Proof.
  split; [|split; [|split]].
  - apply find_new_name_spec.
  - intros self m dir_path st H. unfold rename_one.
    rewrite rename_target_not_key by exact H. reflexivity.
  - intros self m old_account st renamed st'. unfold rename_folders, bind, gets.
    intros H d n Hin.
    destruct (rename_each_reports _ _ _ _ _ _ H _ _ Hin) as [_ T].
    apply rename_target_key in T. destruct T as (n' & Hk & _).
    unfold keys. change (os_path_basename d) with (fst (os_path_basename d, n')).
    now apply in_map.
  - repeat split; vm_compute; reflexivity.
Qed.

Lemma folder_names_match_case_sensitively_witness :
  rename_one (new_migrator (lit "/WTF") false) [(lit "Char", lit "Hero")]
             (lit "/WTF/Account/ACC/OldRealm/char") (state_at small_tree "/WTF")
  = (Ret [], state_at small_tree "/WTF").
Proof.
  apply (proj1 (proj2 (@folder_names_match_case_sensitively ascii_db))).
  vm_compute. intros [H|[]]. discriminate H.
Defined.

(** ** The order of the content mapping *)

Section OrderFacts.
Context {db : UnicodeDb}.

Lemma re_sub_inactive (k v t : str) :
  occurs_in k None t = false ->
  re_sub k v t = match parse_template v with
                 | Some _ => Ret t
                 | None => Raise TemplateError
                 end.
Proof.
  intros H. unfold re_sub. destruct (parse_template v); [|reflexivity].
  rewrite sub_scan_no_occurrence by exact H. reflexivity.
Qed.

Lemma apply_inactive (m : dict) (t : str) :
  inactive m t ->
  apply_content_mappings m t
  = if templates_ok m then Ret t else Raise TemplateError.
Proof.
  induction m as [|[k v] m IH]; intros H; simpl; [reflexivity|].
  rewrite re_sub_inactive by (apply (H k v); now left).
  destruct (parse_template v); simpl; [|reflexivity].
  apply IH. intros k' v' Hin. apply (H k' v'). now right.
Qed.

Lemma apply_app (m1 m2 : dict) (t : str) :
  apply_content_mappings (m1 ++ m2) t
  = match apply_content_mappings m1 t with
    | Ret t1 => apply_content_mappings m2 t1
    | Raise e => Raise e
    end.
Proof.
  revert t; induction m1 as [|[k v] m1 IH]; intros t; simpl; [reflexivity|].
  destruct (re_sub k v t); [apply IH|reflexivity].
Qed.

Lemma templates_ok_app (m1 m2 : dict) :
  templates_ok (m1 ++ m2) = templates_ok m1 && templates_ok m2.
Proof. apply forallb_app. Qed.

Lemma templates_ok_perm (m m' : dict) :
  Permutation m m' -> templates_ok m = templates_ok m'.
Proof.
  induction 1 as [|x l l' P IH|x y l|l l' l'' P1 IH1 P2 IH2]; simpl.
  - reflexivity.
  - now rewrite IH.
  - rewrite !andb_assoc. f_equal. apply andb_comm.
  - congruence.
Qed.

(** With a single active entry the result is that entry's substitution,
    wherever the entry stands. *)
Lemma apply_single_active (before after : dict) (k v t : str) :
  inactive (before ++ after) t ->
  (forall t1, re_sub k v t = Ret t1 -> inactive (before ++ after) t1) ->
  apply_content_mappings (before ++ (k, v) :: after) t
  = if templates_ok (before ++ (k, v) :: after)
    then re_sub k v t else Raise TemplateError.
Proof.
  intros H0 H1.
  assert (Hb : inactive before t)
    by (intros k' v' Hin; apply (H0 k' v'), in_or_app; now left).
  rewrite apply_app, apply_inactive by exact Hb.
  rewrite templates_ok_app. destruct (templates_ok before); simpl; [|reflexivity].
  cbn [templates_ok forallb snd]. fold (templates_ok after).
  unfold re_sub in *. destruct (parse_template v) as [ps|] eqn:E; simpl;
    [|reflexivity].
  rewrite apply_inactive.
  - destruct (templates_ok after); reflexivity.
  - intros k' v' Hin. apply (H1 _ eq_refl k' v').
    apply in_or_app; now right.
Qed.

End OrderFacts.

(** With at most one active entry the order of the entries does not
    matter either, whatever the keys are. *)
Lemma order_irrelevant_with_one_active_key {db : UnicodeDb}
        (before after m' : dict) (k v t : str) :
  inactive (before ++ after) t ->
  (forall t1, re_sub k v t = Ret t1 -> inactive (before ++ after) t1) ->
  Permutation (before ++ (k, v) :: after) m' ->
  apply_content_mappings m' t
  = apply_content_mappings (before ++ (k, v) :: after) t.
Proof.
  intros H0 H1 P.
  assert (Hin : In (k, v) m').
  { eapply Permutation_in; [exact P|]. apply in_or_app; right; now left. }
  destruct (in_split _ _ Hin) as (b' & a' & ->).
  assert (P' : Permutation (before ++ after) (b' ++ a'))
    by (eapply Permutation_app_inv; exact P).
  rewrite !apply_single_active; auto.
  - rewrite (templates_ok_perm _ _ P). reflexivity.
  - intros k' v' Hin'. apply (H0 k' v').
    eapply Permutation_in; [symmetry; exact P'|exact Hin'].
  - intros t1 Ht k' v' Hin'. apply (H1 t1 Ht k' v').
    eapply Permutation_in; [symmetry; exact P'|exact Hin'].
Qed.

(** ** Mappings of names *)

Section WordFacts.
Context {db : UnicodeDb}.

Lemma is_name_inv (s : str) :
  is_name s = true -> s <> [] /\ forallb is_word s = true.
Proof. destruct s; [discriminate|]. simpl. intros H. split; [discriminate|exact H]. Qed.

(** At a literal of a name, a character that is no word character
    does not match. *)
Lemma literal_rejects_nonword (k : str) (p c : N) :
  matches_words_only k -> In p k -> is_word c = false -> ci_eq p c = false.
Proof.
  intros K Hp Hc. destruct (ci_eq p c) eqn:E; [|reflexivity].
  rewrite (K p c Hp E) in Hc. discriminate.
Qed.

Lemma matches_words_only_tail (p : N) (k : str) :
  matches_words_only (p :: k) -> matches_words_only k.
Proof. intros K q c Hq. apply K. now right. Qed.

(** The literals of a key of word characters against a word [w] that
    ends where [rest] begins. *)
Lemma match_literals_word (rest : str) :
  word_opt (hd_error rest) = false ->
  forall k w prev,
    matches_words_only k ->
    forallb is_word k = true -> forallb is_word w = true ->
    k <> [] \/ word_opt prev = true ->
    match_here (List.map ReLiteral k ++ [ReBoundary]) prev (w ++ rest)
    = if ci_match k w then Some (List.length k) else None.
Proof.
  intros Hrest. induction k as [|p k IH]; intros w prev K Hk Hw Hp.
  - destruct Hp as [Hp|Hp]; [congruence|].
    simpl. unfold at_boundary. rewrite Hp.
    destruct w as [|c w]; simpl.
    + rewrite Hrest. reflexivity.
    + simpl in Hw. apply andb_true_iff in Hw. destruct Hw as [Hc _].
      rewrite Hc. reflexivity.
  - simpl in Hk. apply andb_true_iff in Hk. destruct Hk as [Hp' Hk].
    destruct w as [|c w].
    + cbn [app List.map ci_match]. cbn [match_here].
      destruct rest as [|c rest]; [reflexivity|].
      simpl in Hrest.
      rewrite (literal_rejects_nonword (p :: k) p c K (or_introl eq_refl) Hrest).
      reflexivity.
    + simpl in Hw. apply andb_true_iff in Hw. destruct Hw as [Hc Hw].
      cbn [app List.map ci_match match_here].
      destruct (ci_eq p c); [|reflexivity].
      rewrite IH; eauto using matches_words_only_tail.
      destruct (ci_match k w); reflexivity.
Qed.

(** At the start of a word, the pattern matches when the whole word is
    the key up to case. *)
Lemma match_at_word_start (k w rest : str) (prev : option N) :
  matches_words_only k ->
  is_name k = true -> forallb is_word w = true -> w <> [] ->
  word_opt (hd_error rest) = false -> word_opt prev = false ->
  match_here (word_pattern k) prev (w ++ rest)
  = if ci_match k w then Some (List.length k) else None.
Proof.
  intros K Hk Hw Hne Hrest Hprev. apply is_name_inv in Hk. destruct Hk as [Hk1 Hk2].
  unfold word_pattern. cbn [match_here]. unfold at_boundary at 1. rewrite Hprev.
  destruct w as [|c w]; [congruence|].
  pose proof Hw as Hw'. simpl in Hw'. apply andb_true_iff in Hw'.
  destruct Hw' as [Hc _]. cbn [app hd_error word_opt]. rewrite Hc. cbn [xorb].
  change (c :: w ++ rest) with ((c :: w) ++ rest).
  apply match_literals_word; auto.
Qed.

Lemma match_inside_word (k s : str) (p c : N) :
  is_word p = true -> is_word c = true ->
  match_here (word_pattern k) (Some p) (c :: s) = None.
Proof.
  intros Hp Hc. unfold word_pattern. cbn [match_here]. unfold at_boundary.
  simpl. rewrite Hp, Hc. reflexivity.
Qed.

Lemma match_at_nonword (k s : str) (prev : option N) (c : N) :
  matches_words_only k ->
  is_name k = true -> is_word c = false ->
  match_here (word_pattern k) prev (c :: s) = None.
Proof.
  intros K Hk Hc. apply is_name_inv in Hk. destruct Hk as [Hk1 Hk2].
  unfold word_pattern. cbn [match_here].
  destruct (at_boundary prev (c :: s)); [|reflexivity].
  destruct k as [|p k]; [congruence|].
  simpl in Hk2. apply andb_true_iff in Hk2. destruct Hk2 as [Hp _].
  cbn [List.map app match_here].
  rewrite (literal_rejects_nonword (p :: k) p c K (or_introl eq_refl) Hc).
  reflexivity.
Qed.

Lemma match_at_end (k : str) (prev : option N) :
  k <> [] -> match_here (word_pattern k) prev [] = None.
Proof.
  intros Hk. unfold word_pattern. cbn [match_here].
  destruct (at_boundary prev []); [|reflexivity].
  destruct k; [congruence|reflexivity].
Qed.

(** The scan runs through the rest of a word without matching. *)
Lemma scan_inside_word (k : str) (repl : str -> str) (rest : str) :
  forall w p,
    is_word p = true -> forallb is_word w = true ->
    sub_scan (word_pattern k) repl (Some p) (w ++ rest) 0
    = w ++ sub_scan (word_pattern k) repl (prev_after (Some p) w) rest 0.
Proof.
  induction w as [|c w IH]; intros p Hp Hw; [reflexivity|].
  simpl in Hw. apply andb_true_iff in Hw. destruct Hw as [Hc Hw].
  cbn [app sub_scan]. rewrite match_inside_word by assumption.
  cbn [prev_after]. rewrite IH by assumption. reflexivity.
Qed.

Lemma ci_match_length (k w : str) :
  ci_match k w = true -> List.length k = List.length w.
Proof.
  revert w; induction k as [|p k IH]; intros [|c w]; simpl; try discriminate; auto.
  intros H. apply andb_true_iff in H. destruct H as [_ H]. f_equal. auto.
Qed.

(** The scan over a word at its start: the word is replaced when it is
    the key up to case, and kept otherwise. *)
Lemma scan_word (k v w rest : str) (prev : option N) :
  matches_words_only k ->
  is_name k = true -> forallb is_word w = true -> w <> [] ->
  word_opt (hd_error rest) = false -> word_opt prev = false ->
  sub_scan (word_pattern k) (fun _ => v) prev (w ++ rest) 0
  = rewrite_word k v w
    ++ sub_scan (word_pattern k) (fun _ => v) (prev_after prev w) rest 0.
Proof.
  intros K Hk Hw Hne Hrest Hprev.
  pose proof (match_at_word_start k w rest prev K Hk Hw Hne Hrest Hprev) as M.
  destruct w as [|c w]; [congruence|].
  simpl in Hw. apply andb_true_iff in Hw. destruct Hw as [Hc Hw].
  cbn [app sub_scan]. cbn [app] in M. rewrite M. unfold rewrite_word.
  destruct (ci_match k (c :: w)) eqn:E.
  - apply ci_match_length in E. rewrite E. cbn [List.length].
    rewrite sub_scan_skip. reflexivity.
  - rewrite scan_inside_word by assumption. reflexivity.
Qed.

(** ** The words of a text *)

Lemma map_words_run (f : str -> str) :
  forall w acc rest,
    forallb is_word w = true ->
    map_words f acc (w ++ rest) = map_words f (acc ++ w) rest.
Proof.
  induction w as [|c w IH]; intros acc rest Hw.
  - rewrite app_nil_r. reflexivity.
  - simpl in Hw. apply andb_true_iff in Hw. destruct Hw as [Hc Hw].
    cbn [app map_words]. rewrite Hc, IH by assumption.
    rewrite <- app_assoc. reflexivity.
Qed.

Lemma map_words_flush (f : str -> str) (acc rest : str) :
  acc <> [] -> word_opt (hd_error rest) = false ->
  map_words f acc rest = f acc ++ map_words f [] rest.
Proof.
  intros Ha Hr. destruct rest as [|c rest]; simpl in *.
  - destruct acc; [congruence|]. rewrite app_nil_r. reflexivity.
  - rewrite Hr. destruct acc; [congruence|reflexivity].
Qed.

Lemma map_words_word (f : str -> str) (w rest : str) :
  forallb is_word w = true -> w <> [] -> word_opt (hd_error rest) = false ->
  map_words f [] (w ++ rest) = f w ++ map_words f [] rest.
Proof.
  intros Hw Hne Hr. rewrite map_words_run by assumption.
  apply map_words_flush; assumption.
Qed.

Lemma map_words_nonword (f : str -> str) (c : N) (s : str) :
  is_word c = false -> map_words f [] (c :: s) = c :: map_words f [] s.
Proof. intros Hc. simpl. rewrite Hc. reflexivity. Qed.

(** A text that starts with a word character splits into its first
    word and the rest. *)
Lemma first_word (c : N) (s : str) :
  is_word c = true ->
  exists w rest,
    c :: s = w ++ rest /\ w <> [] /\ forallb is_word w = true
    /\ word_opt (hd_error rest) = false
    /\ List.length rest <= List.length s.
Proof.
  revert c. induction s as [|d s IH]; intros c Hc.
  - exists [c], []. simpl. rewrite Hc. repeat split; auto. discriminate.
  - destruct (is_word d) eqn:Hd.
    + destruct (IH d Hd) as (w & rest & E & Hne & Hw & Hr & Hl).
      exists (c :: w), rest. split; [simpl; congruence|].
      split; [discriminate|]. split; [simpl; rewrite Hc; exact Hw|].
      split; [exact Hr|simpl; lia].
    + exists [c], (d :: s). simpl. rewrite Hc, Hd.
      repeat split; auto. discriminate.
Qed.

(** The substitution of a name, as the scan does it, is the rewriting
    of the words of the text. *)
Lemma scan_is_map_words (k v : str) :
  matches_words_only k ->
  is_name k = true ->
  forall n s prev,
    List.length s <= n ->
    word_opt prev = false \/ word_opt (hd_error s) = false ->
    sub_scan (word_pattern k) (fun _ => v) prev s 0
    = map_words (rewrite_word k v) [] s.
Proof.
  intros K Hk. pose proof (is_name_inv k Hk) as [Hk1 _].
  induction n as [|n IH]; intros s prev Hn Hb.
  - destruct s; [|simpl in Hn; lia].
    cbn [sub_scan]. rewrite match_at_end by assumption. reflexivity.
  - destruct s as [|c s].
    + cbn [sub_scan]. rewrite match_at_end by assumption. reflexivity.
    + destruct (is_word c) eqn:Hc.
      * destruct Hb as [Hb|Hb]; [|simpl in Hb; congruence].
        destruct (first_word c s Hc) as (w & rest & E & Hne & Hw & Hr & Hl).
        rewrite E, scan_word, map_words_word by assumption.
        f_equal. apply IH; [simpl in Hn; lia|]. now right.
      * cbn [sub_scan]. rewrite match_at_nonword by assumption.
        rewrite map_words_nonword by assumption. f_equal.
        apply IH; [simpl in Hn; lia|]. left. exact Hc.
Qed.

Lemma map_words_head (g : str -> str) (s : str) :
  word_opt (hd_error s) = false ->
  word_opt (hd_error (map_words g [] s)) = false.
Proof.
  destruct s as [|c s]; simpl; [reflexivity|].
  intros Hc. rewrite Hc. simpl. exact Hc.
Qed.

(** Rewriting the words twice is rewriting them once, when the first
    rewriting turns words into names. *)
Lemma map_words_twice (f g : str -> str) :
  (forall w, is_name w = true -> is_name (g w) = true) ->
  forall n s,
    List.length s <= n ->
    map_words f [] (map_words g [] s) = map_words (fun w => f (g w)) [] s.
Proof.
  intros Hg. induction n as [|n IH]; intros s Hn.
  - destruct s; [reflexivity|simpl in Hn; lia].
  - destruct s as [|c s]; [reflexivity|].
    destruct (is_word c) eqn:Hc.
    + destruct (first_word c s Hc) as (w & rest & E & Hne & Hw & Hr & Hl).
      rewrite E.
      rewrite (map_words_word g), (map_words_word (fun w => f (g w)))
        by assumption.
      assert (Hgw : is_name (g w) = true).
      { apply Hg. destruct w; [congruence|exact Hw]. }
      apply is_name_inv in Hgw. destruct Hgw as [G1 G2].
      rewrite (map_words_word f); auto using map_words_head.
      f_equal. apply IH. simpl in Hn. lia.
    + rewrite (map_words_nonword g), (map_words_nonword (fun w => f (g w)))
        by assumption.
      rewrite (map_words_nonword f) by assumption. f_equal.
      apply IH. simpl in Hn. lia.
Qed.

Lemma name_has_no_backslash (v : str) :
  is_name v = true -> existsb (N.eqb backslash) v = false.
Proof.
  intros H. apply is_name_inv in H. destruct H as [_ H].
  induction v as [|c v IH]; [reflexivity|].
  simpl in H. apply andb_true_iff in H. destruct H as [Hc Hv].
  cbn [existsb]. rewrite IH by assumption. rewrite orb_false_r.
  destruct (N.eqb backslash c) eqn:E; [|reflexivity].
  apply N.eqb_eq in E. subst c. vm_compute in Hc. discriminate.
Qed.

Lemma sub_scan_ext (items : list re_item) (r1 r2 : str -> str) :
  (forall m, r1 m = r2 m) ->
  forall s prev skip,
    sub_scan items r1 prev s skip = sub_scan items r2 prev s skip.
Proof.
  intros H. induction s as [|c s IH]; intros prev skip; cbn [sub_scan].
  - rewrite H. reflexivity.
  - destruct skip; [|apply IH].
    destruct (match_here items prev (c :: s)) as [[|n]|];
      rewrite ?H, ?IH; reflexivity.
Qed.

Lemma re_sub_name (k v t : str) :
  matches_words_only k ->
  is_name k = true -> is_name v = true ->
  re_sub k v t = Ret (map_words (rewrite_word k v) [] t).
Proof.
  intros K Hk Hv. unfold re_sub, parse_template.
  rewrite name_has_no_backslash by assumption. f_equal.
  rewrite (sub_scan_ext _ _ (fun _ => v) (expand_literal v)).
  apply scan_is_map_words with (n := List.length t); auto.
Qed.

Lemma map_words_ext (f g : str -> str) :
  (forall w, f w = g w) ->
  forall s acc, map_words f acc s = map_words g acc s.
Proof.
  intros H. induction s as [|c s IH]; intros acc; cbn [map_words].
  - rewrite H. reflexivity.
  - rewrite !IH, H. reflexivity.
Qed.

Lemma rewrite_word_name (k v w : str) :
  is_name v = true -> is_name w = true -> is_name (rewrite_word k v w) = true.
Proof. unfold rewrite_word. destruct (ci_match k w); auto. Qed.

(** The substitutions of a mapping of names, one after the other, are
    the rewriting of the words of the text by the chain of the
    entries. *)
Lemma apply_names (m : dict) :
  keys_match_words m ->
  names_only m ->
  forall t,
    apply_content_mappings m t = Ret (map_words (rewrite_chain m) [] t).
Proof.
  induction m as [|[k v] m IH]; intros K Hm t.
  - simpl. f_equal. symmetry.
    assert (E : forall n s, List.length s <= n -> map_words (fun w => w) [] s = s).
    { induction n as [|n IHn]; intros s Hn.
      - destruct s; [reflexivity|simpl in Hn; lia].
      - destruct s as [|c s]; [reflexivity|].
        destruct (is_word c) eqn:Hc.
        + destruct (first_word c s Hc) as (w & rest & E & Hne & Hw & Hr & Hl).
          rewrite E, map_words_word by assumption. f_equal.
          apply IHn. simpl in Hn. lia.
        + rewrite map_words_nonword by assumption. f_equal.
          apply IHn. simpl in Hn. lia. }
    apply (E (List.length t)). lia.
  - destruct (Hm k v (or_introl eq_refl)) as [Hk Hv].
    cbn [apply_content_mappings].
    rewrite re_sub_name by (try assumption; apply (K k v); now left).
    rewrite IH;
      [|intros k' v' H; apply (K k' v'); now right
       |intros k' v' H; apply Hm; now right].
    f_equal.
    rewrite map_words_twice with (n := List.length t);
      [reflexivity| |lia].
    intros w Hw. now apply rewrite_word_name.
Qed.

Lemma entry_eq_dec (x y : str * str) : {x = y} + {x <> y}.
Proof. decide equality; apply list_eq_dec, N.eq_dec. Qed.

(** Two entries that are apart can be applied to a word in either
    order. *)
Lemma rewrite_word_swap (x y : str * str) (w : str) :
  apart x y ->
  rewrite_word (fst y) (snd y) (rewrite_word (fst x) (snd x) w)
  = rewrite_word (fst x) (snd x) (rewrite_word (fst y) (snd y) w).
Proof.
  intros (H1 & H2 & H3). unfold rewrite_word.
  destruct (ci_match (fst x) w) eqn:Ex.
  - rewrite (H1 w Ex), H2, Ex. reflexivity.
  - destruct (ci_match (fst y) w) eqn:Ey.
    + rewrite H3. reflexivity.
    + rewrite Ex. reflexivity.
Qed.

Lemma rewrite_chain_perm (m m' : dict) :
  Permutation m m' -> independent m ->
  forall w, rewrite_chain m w = rewrite_chain m' w.
Proof.
  unfold rewrite_chain.
  induction 1 as [|x l l' P IH|x y l|l l' l'' P1 IH1 P2 IH2]; intros I w.
  - reflexivity.
  - cbn [fold_left]. apply IH. intros a b Ha Hb. apply I; now right.
  - cbn [fold_left]. f_equal.
    destruct (entry_eq_dec y x) as [->|Hne]; [reflexivity|].
    apply rewrite_word_swap. apply I; [now left|right; now left|exact Hne].
  - rewrite IH1 by exact I. apply IH2.
    intros a b Ha Hb.
    apply I; (eapply Permutation_in; [apply Permutation_sym; exact P1|assumption]).
Qed.

(** ** A second application of a mapping of names *)

Lemma rewrite_chain_cons (k v : str) (m : dict) (w : str) :
  rewrite_chain ((k, v) :: m) w = rewrite_chain m (rewrite_word k v w).
Proof. reflexivity. Qed.

(** A word that no key matches goes through the chain as it is. *)
Lemma rewrite_chain_unmatched (m : dict) (x : str) :
  (forall k v, In (k, v) m -> ci_match k x = false) -> rewrite_chain m x = x.
Proof.
  induction m as [|[k v] m IH]; intros H; [reflexivity|].
  rewrite rewrite_chain_cons. unfold rewrite_word.
  rewrite (H k v (or_introl eq_refl)). apply IH.
  intros k' v' Hin. apply (H k' v'). now right.
Qed.

(** What the chain makes of a word is matched by no key, when no key
    matches a replacement value: the word has stayed as it was, matched
    by no key, or it has become a replacement value at the first key
    that matched, and has stayed that value. *)
Lemma rewrite_chain_settles (M : dict) :
  no_key_matches_a_value M ->
  forall m pre w,
    M = pre ++ m ->
    (forall k v, In (k, v) pre -> ci_match k w = false) ->
    forall k v, In (k, v) M -> ci_match k (rewrite_chain m w) = false.
Proof.
  intros HM. induction m as [|[k1 v1] m IH]; intros pre w E Hpre k v Hin.
  - rewrite app_nil_r in E. subst pre. apply (Hpre k v Hin).
  - assert (H1 : In (k1, v1) M) by (subst M; apply in_or_app; right; now left).
    rewrite rewrite_chain_cons. unfold rewrite_word.
    destruct (ci_match k1 w) eqn:C.
    + rewrite rewrite_chain_unmatched.
      * apply (HM k v k1 v1 Hin H1).
      * intros k' v' Hin'. apply (HM k' v' k1 v1); [|exact H1].
        subst M. apply in_or_app. right. now right.
    + apply (IH (pre ++ [(k1, v1)]) w) with (v := v).
      * subst M. rewrite <- app_assoc. reflexivity.
      * intros k' v' Hin'. apply in_app_or in Hin'.
        destruct Hin' as [H|[H|[]]]; [eauto|]. injection H as <- <-. exact C.
      * exact Hin.
Qed.

Lemma rewrite_chain_idem (m : dict) (w : str) :
  no_key_matches_a_value m ->
  rewrite_chain m (rewrite_chain m w) = rewrite_chain m w.
Proof.
  intros H. apply rewrite_chain_unmatched. intros k v Hin.
  apply (rewrite_chain_settles m H m [] w eq_refl) with (v := v);
    [intros ? ? []|exact Hin].
Qed.

Lemma rewrite_chain_name (m : dict) :
  names_only m ->
  forall w, is_name w = true -> is_name (rewrite_chain m w) = true.
Proof.
  induction m as [|[k v] m IH]; intros Hm w Hw; [exact Hw|].
  rewrite rewrite_chain_cons. apply IH; [intros k' v' H; apply Hm; now right|].
  apply rewrite_word_name; [apply (Hm k v); now left|exact Hw].
Qed.

(** The text a mapping of names has produced is left as it is by a
    second application, when no key matches a replacement value. *)
Lemma apply_names_idem (m : dict) (t out : str) :
  keys_match_words m -> names_only m -> no_key_matches_a_value m ->
  apply_content_mappings m t = Ret out ->
  apply_content_mappings m out = Ret out.
Proof.
  intros K Hn H E. rewrite apply_names in E by assumption. injection E as <-.
  rewrite apply_names by assumption. f_equal.
  rewrite map_words_twice with (n := List.length t);
    [|apply rewrite_chain_name; exact Hn|lia].
  apply map_words_ext. intros w. apply rewrite_chain_idem, H.
Qed.

Lemma is_word_not_cr : is_word 13 = false.
Proof. reflexivity. Qed.

Lemma word_has_no_cr (w : str) :
  forallb is_word w = true -> existsb (N.eqb 13) w = false.
Proof.
  induction w as [|c w IH]; [reflexivity|]. cbn [forallb existsb].
  intros H. apply andb_true_iff in H. destruct H as [Hc Hw].
  rewrite (IH Hw), orb_false_r. destruct (N.eqb 13 c) eqn:E; [|reflexivity].
  apply N.eqb_eq in E. subst c. rewrite is_word_not_cr in Hc. discriminate.
Qed.

(** Rewriting words into names brings no carriage return into a text. *)
Lemma map_words_no_cr (f : str -> str) :
  (forall w, is_name w = true -> is_name (f w) = true) ->
  forall n s,
    List.length s <= n ->
    existsb (N.eqb 13) s = false ->
    existsb (N.eqb 13) (map_words f [] s) = false.
Proof.
  intros Hf. induction n as [|n IH]; intros s Hn Hs.
  - destruct s; [reflexivity|simpl in Hn; lia].
  - destruct s as [|c s]; [reflexivity|].
    destruct (is_word c) eqn:Hc.
    + destruct (first_word c s Hc) as (w & rest & E & Hne & Hw & Hr & Hl).
      rewrite E in Hs |- *. rewrite map_words_word by assumption.
      rewrite existsb_app in *. apply orb_false_iff in Hs. destruct Hs as [_ Hs].
      rewrite (IH rest) by (try exact Hs; simpl in Hn; lia).
      rewrite orb_false_r. apply word_has_no_cr.
      assert (Hfw : is_name (f w) = true)
        by (apply Hf; destruct w; [congruence|exact Hw]).
      apply is_name_inv in Hfw. apply Hfw.
    + rewrite map_words_nonword by assumption.
      cbn [existsb] in *. apply orb_false_iff in Hs. destruct Hs as [H1 H2].
      rewrite H1. apply IH; [simpl in Hn; lia|exact H2].
Qed.

End WordFacts.


Lemma in_ascii_table (c : N) : is_ascii c = true -> In c ascii_table.
Proof.
  unfold is_ascii, ascii_table. intros H. apply N.ltb_lt in H.
  apply in_map_iff. exists (N.to_nat c). split; [apply N2Nat.id|].
  apply in_seq. lia.
Qed.

Lemma ascii_db_keeps_words : @case_keeps_words ascii_db.
Proof.
  assert (T : forallb (fun p =>
                forallb (fun c =>
                  implb (@is_word ascii_db p && @ci_eq ascii_db p c)
                        (@is_word ascii_db c)) ascii_table) ascii_table = true)
    by (vm_compute; reflexivity).
  intros p c Hp Hc.
  destruct (is_ascii p) eqn:Ap.
  - destruct (is_ascii c) eqn:Ac.
    + rewrite forallb_forall in T. specialize (T p (in_ascii_table p Ap)).
      rewrite forallb_forall in T. specialize (T c (in_ascii_table c Ac)).
      rewrite Hp, Hc in T. exact T.
    + unfold ci_eq in Hc. rewrite Ap, Ac in Hc. simpl in Hc.
      apply N.eqb_eq in Hc. congruence.
  - unfold is_word in Hp. rewrite Ap in Hp. discriminate.
Qed.

Lemma keys_of_names_match_words {db : UnicodeDb} (m : dict) :
  case_keeps_words -> names_only m -> keys_match_words m.
Proof.
  intros K Hn k v Hin p c Hp E. apply (K p c); [|exact E].
  destruct (Hn k v Hin) as [Hk _]. apply is_name_inv in Hk. destruct Hk as [_ Hk].
  rewrite forallb_forall in Hk. apply Hk, Hp.
Qed.

(** C7 (as amended) -- The substitutions are chained: each key is
    substituted into the text left by the entries before it, in the
    insertion order of the mapping.  The final text is the same for
    every order of the entries when the keys and the replacements are
    names (non-empty runs of word characters), whatever a character of
    a key matches up to letter case is a word character, and no two
    entries interact: no word matches the keys of both up to letter
    case, and the replacement of one does not match the key of the
    other. *)
Theorem order_of_independent_names_is_irrelevant {db : UnicodeDb}
        (m m' : dict) (t : str) :
  names_only m ->
  keys_match_words m ->
  independent m ->
  Permutation m m' ->
  apply_content_mappings m' t = apply_content_mappings m t.
Proof.
  intros Hn K Hi P.
  rewrite !apply_names; auto.
  - f_equal. apply map_words_ext. intros w. symmetry.
    now apply rewrite_chain_perm.
  - intros k v H. apply (K k v). eapply Permutation_in; [symmetry; exact P|exact H].
  - intros k v H. apply Hn. eapply Permutation_in; [symmetry; exact P|exact H].
Qed.


Lemma order_of_independent_names_is_irrelevant_witness :
  @apply_content_mappings ascii_db
    [(lit "ACC", lit "ACC2"); (lit "Char", lit "Hero"); (lit "OldRealm", lit "NewRealm")]
    (lit "Char of OldRealm, account ACC")
  = @apply_content_mappings ascii_db
      [(lit "OldRealm", lit "NewRealm"); (lit "Char", lit "Hero"); (lit "ACC", lit "ACC2")]
      (lit "Char of OldRealm, account ACC").
Proof.
  assert (Hn : @names_only ascii_db
                 [(lit "OldRealm", lit "NewRealm"); (lit "Char", lit "Hero");
                  (lit "ACC", lit "ACC2")])
    by (intros k v [H|[H|[H|[]]]]; injection H as <- <-; split;
        vm_compute; reflexivity).
  apply (@order_of_independent_names_is_irrelevant ascii_db).
  - exact Hn.
  - exact (keys_of_names_match_words _ ascii_db_keeps_words Hn).
  - intros x y Hx Hy Hne.
    assert (L : forall k1 k2 w,
               List.length k1 <> List.length k2 ->
               @ci_match ascii_db k1 w = true -> @ci_match ascii_db k2 w = false).
    { intros k1 k2 w Hl H1. destruct (@ci_match ascii_db k2 w) eqn:H2; [|reflexivity].
      apply ci_match_length in H1. apply ci_match_length in H2. congruence. }
    destruct Hx as [<-|[<-|[<-|[]]]]; destruct Hy as [<-|[<-|[<-|[]]]];
      try congruence;
      (split; [intros w; apply L; vm_compute; discriminate
              |split; vm_compute; reflexivity]).
  - apply perm_trans with
      [(lit "Char", lit "Hero"); (lit "OldRealm", lit "NewRealm"); (lit "ACC", lit "ACC2")].
    + apply perm_swap.
    + apply perm_trans with
        [(lit "Char", lit "Hero"); (lit "ACC", lit "ACC2"); (lit "OldRealm", lit "NewRealm")].
      * apply perm_skip, perm_swap.
      * apply perm_swap.
Defined.

(** C7 (as stated) fails: with the realm pair Alpha -> Beta and the
    character pair Beta -> Gamma, the insertion order of
    [get_content_mappings] turns the text "Alpha" into "Gamma", and the
    same two entries in the other order turn it into "Beta". *)
Lemma order_of_keys_changes_the_text :
  get_content_mappings (Some (lit "Alpha")) (Some (lit "Beta"))
                       (Some (lit "Beta")) (Some (lit "Gamma")) None None
  = [(lit "Alpha", lit "Beta"); (lit "Beta", lit "Gamma")]
  /\ Permutation [(lit "Alpha", lit "Beta"); (lit "Beta", lit "Gamma")]
                 [(lit "Beta", lit "Gamma"); (lit "Alpha", lit "Beta")]
  /\ @apply_content_mappings ascii_db
       [(lit "Alpha", lit "Beta"); (lit "Beta", lit "Gamma")] (lit "Alpha")
     = Ret (lit "Gamma")
  /\ @apply_content_mappings ascii_db
       [(lit "Beta", lit "Gamma"); (lit "Alpha", lit "Beta")] (lit "Alpha")
     = Ret (lit "Beta")
  /\ lit "Gamma" <> lit "Beta".
Proof.
  split; [vm_compute; reflexivity|].
  split; [apply perm_swap|].
  split; [vm_compute; reflexivity|].
  split; [vm_compute; reflexivity|].
  vm_compute. discriminate.
Qed.

(** ** The renaming pass goes deepest first *)

Lemma startswith_app (q p : str) :
  startswith q p = true <-> exists r, q = p ++ r.
Proof.
  revert q; induction p as [|c p IH]; intros q; simpl.
  - split; [intros _; now exists q|reflexivity].
  - destruct q as [|d q].
    + split; [discriminate|intros [r H]; discriminate].
    + rewrite andb_true_iff, N.eqb_eq, IH. split.
      * intros [-> [r ->]]. now exists r.
      * intros [r H]. injection H as -> ->. split; [reflexivity|now exists r].
Qed.

Lemma split_on_nonempty (c : N) (s : str) : split_on c s <> [].
Proof.
  destruct s as [|d s]; simpl; [discriminate|].
  destruct (N.eqb d c); [discriminate|].
  destruct (split_on c s); discriminate.
Qed.

Lemma split_on_length_cons (c d : N) (s : str) :
  List.length (split_on c (d :: s))
  = if N.eqb d c then S (List.length (split_on c s))
    else List.length (split_on c s).
Proof.
  simpl. destruct (N.eqb d c); [reflexivity|].
  pose proof (split_on_nonempty c s).
  destruct (split_on c s); [congruence|reflexivity].
Qed.

Lemma split_on_length_pos (c : N) (s : str) : 1 <= List.length (split_on c s).
Proof.
  induction s as [|d s IH]; [simpl; lia|].
  rewrite split_on_length_cons. destruct (N.eqb d c); lia.
Qed.

Lemma split_on_length_app (c : N) (a b : str) :
  List.length (split_on c (a ++ c :: b))
  = List.length (split_on c a) + List.length (split_on c b).
Proof.
  induction a as [|d a IH].
  - cbn [app]. rewrite split_on_length_cons, N.eqb_refl. reflexivity.
  - cbn [app]. rewrite !split_on_length_cons.
    destruct (N.eqb d c); lia.
Qed.

(** A path below a directory has more segments than the directory. *)
Lemma descendant_is_deeper (q p : str) :
  descends_from q p = true ->
  List.length (split_on sep p) < List.length (split_on sep q).
Proof.
  unfold descends_from. intros H. apply startswith_app in H.
  destruct H as [r ->]. rewrite <- app_assoc. cbn [app].
  rewrite split_on_length_app.
  pose proof (split_on_length_pos sep r). lia.
Qed.

Lemma insert_by_depth_perm (x : str * nat) (l : list (str * nat)) :
  Permutation (x :: l) (insert_by_depth x l).
Proof.
  induction l as [|y l IH]; simpl; [reflexivity|].
  destruct (Nat.ltb (snd x) (snd y)); [|reflexivity].
  eapply perm_trans; [apply perm_swap|]. now apply perm_skip.
Qed.

Lemma sort_deepest_first_perm (l : list (str * nat)) :
  Permutation l (sort_deepest_first l).
Proof.
  induction l as [|x l IH]; simpl; [constructor|].
  eapply perm_trans; [|apply insert_by_depth_perm]. now apply perm_skip.
Qed.

Lemma insert_by_depth_sorted (x : str * nat) (l : list (str * nat)) :
  StronglySorted not_deeper l -> StronglySorted not_deeper (insert_by_depth x l).
Proof.
  induction 1 as [|y l S IH F]; simpl.
  - repeat constructor.
  - destruct (Nat.ltb (snd x) (snd y)) eqn:E.
    + apply Nat.ltb_lt in E. constructor; [exact IH|].
      eapply Permutation_Forall; [apply insert_by_depth_perm|].
      constructor; [unfold not_deeper; lia|exact F].
    + apply Nat.ltb_ge in E. constructor; [now constructor|].
      constructor; [exact E|].
      eapply Forall_impl; [|exact F]. unfold not_deeper. intros; lia.
Qed.

Lemma sort_deepest_first_sorted (l : list (str * nat)) :
  StronglySorted not_deeper (sort_deepest_first l).
Proof.
  induction l as [|x l IH]; simpl; [constructor|].
  now apply insert_by_depth_sorted.
Qed.

Lemma sorted_later_not_deeper (l1 l2 : list (str * nat)) (x : str * nat) :
  StronglySorted not_deeper (l1 ++ x :: l2) -> Forall (not_deeper x) l2.
Proof.
  induction l1 as [|y l1 IH]; simpl; intros H.
  - now inversion H.
  - inversion H; auto.
Qed.

Lemma collect_dirs_depths (w : str) (acct : option str)
      (walk : list (str * list str * list str)) :
  Forall (fun x => snd x = List.length (split_on sep (fst x)))
         (collect_dirs w acct walk).
Proof.
  unfold collect_dirs. apply Forall_forall. intros [p d] Hin.
  apply in_flat_map in Hin. destruct Hin as ([[root dirs] files] & _ & Hin).
  apply in_flat_map in Hin. destruct Hin as (dir_name & _ & Hin).
  destruct (rename_in_scope w acct root dir_name); [|destruct Hin].
  destruct Hin as [H|[]]. injection H as <- <-. reflexivity.
Qed.

(** The walk reaches every directory below its top, under the path that
    joins the names on the way. *)
Lemma walk_node_complete : forall (names : list str) (top : str) (n : node) es,
  get names n = Some (Dir es) ->
  In (path_under top names, dir_names es, file_names es) (walk_node top n).
Proof.
  induction names as [|x names IH]; intros top n es H.
  - simpl in H. injection H as ->. simpl. now left.
  - simpl in H. destruct n as [|es0]; [discriminate|].
    destruct (assoc x es0) as [c|] eqn:A; [|discriminate].
    cbn [walk_node]. right. cbn [path_under fold_left].
    specialize (IH (os_path_join top x) c es H).
    revert A. generalize es0 at 1 2. intros l A.
    induction l as [|[y c'] l IHl]; [discriminate|].
    simpl in A. apply in_or_app.
    destruct (str_eqb y x) eqn:E.
    + apply str_eqb_eq in E. injection A as ->. subst y. now left.
    + right. auto.
Qed.

Lemma get_app (a b : list str) : forall n,
  get (a ++ b) n = match get a n with
                   | Some m => get b m
                   | None => None
                   end.
Proof.
  induction a as [|x a IH]; intros n; simpl; [reflexivity|].
  destruct n as [|es]; [reflexivity|].
  destruct (assoc x es); [apply IH|reflexivity].
Qed.

Lemma assoc_dir_names (x : str) (es es' : list (str * node)) :
  assoc x es = Some (Dir es') -> In x (dir_names es).
Proof.
  unfold dir_names. induction es as [|[y c] es IH]; simpl; [discriminate|].
  destruct (str_eqb y x) eqn:E.
  - intros H. injection H as ->. apply str_eqb_eq in E. subst. simpl. now left.
  - intros H. destruct (is_dir c); simpl; auto.
Qed.

Lemma enumerated_dirs_complete (st : state) (n : node) (names : list str)
      (x : str) (es : list (str * node)) :
  node_at (st_working st) st = Some n ->
  get (names ++ [x]) n = Some (Dir es) ->
  In (os_path_join (path_under (st_working st) names) x)
     (List.map fst (enumerated_dirs None st)).
Proof.
  intros Hn Hg. unfold enumerated_dirs. rewrite Hn.
  rewrite get_app in Hg.
  destruct (get names n) as [[|es0]|] eqn:G; try discriminate.
  simpl in Hg. destruct (assoc x es0) as [c|] eqn:A; [|discriminate].
  injection Hg as ->.
  pose proof (walk_node_complete names (st_working st) n es0 G) as W.
  apply in_map_iff.
  exists (os_path_join (path_under (st_working st) names) x,
          List.length (split_on sep (os_path_join (path_under (st_working st) names) x))).
  split; [reflexivity|].
  unfold collect_dirs. apply in_flat_map.
  eexists; split; [exact W|]. apply in_flat_map.
  exists x; split; [eapply assoc_dir_names; exact A|].
  simpl. now left.
Qed.

(** ** The UTF-8 codec and the newlines of text files *)

Lemma decode_one (b0 : N) (t : list N) :
  (b0 < 128)%N -> decode_ignore (b0 :: t) = b0 :: decode_ignore t.
Proof. intros H. cbn [decode_ignore]. apply N.ltb_lt in H. rewrite H. reflexivity. Qed.

Lemma decode_two (b0 b1 : N) (t : list N) :
  (194 <= b0 < 224)%N -> is_cont b1 = true ->
  decode_ignore (b0 :: b1 :: t)
  = ((b0 - 192) * 64 + low6 b1)%N :: decode_ignore t.
Proof.
  intros [H1 H2] C. cbn [decode_ignore].
  replace (N.ltb b0 128) with false by (symmetry; apply N.ltb_ge; lia).
  replace (N.ltb b0 194) with false by (symmetry; apply N.ltb_ge; lia).
  replace (N.ltb b0 224) with true by (symmetry; apply N.ltb_lt; lia).
  rewrite C. reflexivity.
Qed.

Lemma decode_three (b0 b1 b2 : N) (t : list N) :
  (224 <= b0 < 240)%N -> second_ok b0 b1 = true -> is_cont b2 = true ->
  decode_ignore (b0 :: b1 :: b2 :: t)
  = ((b0 - 224) * 4096 + low6 b1 * 64 + low6 b2)%N :: decode_ignore t.
Proof.
  intros [H1 H2] S C. cbn [decode_ignore].
  replace (N.ltb b0 128) with false by (symmetry; apply N.ltb_ge; lia).
  replace (N.ltb b0 194) with false by (symmetry; apply N.ltb_ge; lia).
  replace (N.ltb b0 224) with false by (symmetry; apply N.ltb_ge; lia).
  replace (N.ltb b0 240) with true by (symmetry; apply N.ltb_lt; lia).
  rewrite S, C. reflexivity.
Qed.

Lemma decode_four (b0 b1 b2 b3 : N) (t : list N) :
  (240 <= b0 < 245)%N -> second_ok b0 b1 = true -> is_cont b2 = true ->
  is_cont b3 = true ->
  decode_ignore (b0 :: b1 :: b2 :: b3 :: t)
  = ((b0 - 240) * 262144 + low6 b1 * 4096 + low6 b2 * 64 + low6 b3)%N
    :: decode_ignore t.
Proof.
  intros [H1 H2] S C2 C3. cbn [decode_ignore].
  replace (N.ltb b0 128) with false by (symmetry; apply N.ltb_ge; lia).
  replace (N.ltb b0 194) with false by (symmetry; apply N.ltb_ge; lia).
  replace (N.ltb b0 224) with false by (symmetry; apply N.ltb_ge; lia).
  replace (N.ltb b0 240) with false by (symmetry; apply N.ltb_ge; lia).
  replace (N.ltb b0 245) with true by (symmetry; apply N.ltb_lt; lia).
  rewrite S, C2, C3. reflexivity.
Qed.

Lemma is_cont_spec (b : N) : (128 <= b <= 191)%N -> is_cont b = true.
Proof.
  intros [H1 H2]. unfold is_cont, in_range. apply andb_true_iff.
  split; apply N.leb_le; assumption.
Qed.

Lemma second_ok_spec (b0 b1 : N) :
  (128 <= b1 <= 191)%N ->
  (b0 = 224 -> 160 <= b1)%N -> (b0 = 237 -> b1 < 160)%N ->
  (b0 = 240 -> 144 <= b1)%N -> (b0 = 244 -> b1 < 144)%N ->
  second_ok b0 b1 = true.
Proof.
  intros C H1 H2 H3 H4. unfold second_ok. rewrite (is_cont_spec b1 C).
  cbn [andb]. rewrite !andb_true_iff, !negb_true_iff, !andb_false_iff.
  repeat split.
  - destruct (N.eq_dec b0 224) as [E|E];
      [right; apply N.ltb_ge; auto|left; apply N.eqb_neq; exact E].
  - destruct (N.eq_dec b0 237) as [E|E];
      [right; apply N.leb_gt; auto|left; apply N.eqb_neq; exact E].
  - destruct (N.eq_dec b0 240) as [E|E];
      [right; apply N.ltb_ge; auto|left; apply N.eqb_neq; exact E].
  - destruct (N.eq_dec b0 244) as [E|E];
      [right; apply N.leb_gt; auto|left; apply N.eqb_neq; exact E].
Qed.

Lemma decode_encoded_char (c : N) (bs rest : list N) :
  encode_char c = Some bs -> decode_ignore (bs ++ rest) = c :: decode_ignore rest.
Proof.
  unfold encode_char, in_range.
  replace (c / 4096)%N with (c / 64 / 64)%N by (rewrite N.Div0.div_div; reflexivity).
  replace (c / 262144)%N with (c / 64 / 64 / 64)%N
    by (rewrite !N.Div0.div_div; reflexivity).
  pose proof (N.div_mod c 64 ltac:(lia)) as D1.
  pose proof (N.mod_lt c 64 ltac:(lia)) as M1.
  set (q1 := (c / 64)%N) in *. set (r1 := (c mod 64)%N) in *.
  pose proof (N.div_mod q1 64 ltac:(lia)) as D2.
  pose proof (N.mod_lt q1 64 ltac:(lia)) as M2.
  set (q2 := (q1 / 64)%N) in *. set (r2 := (q1 mod 64)%N) in *.
  pose proof (N.div_mod q2 64 ltac:(lia)) as D3.
  pose proof (N.mod_lt q2 64 ltac:(lia)) as M3.
  set (q3 := (q2 / 64)%N) in *. set (r3 := (q2 mod 64)%N) in *.
  clearbody q1 r1 q2 r2 q3 r3.
  destruct (N.ltb c 128) eqn:L1.
  - apply N.ltb_lt in L1. intros H. injection H as <-.
    apply decode_one, L1.
  - apply N.ltb_ge in L1. destruct (N.ltb c 2048) eqn:L2.
    + apply N.ltb_lt in L2. intros H.
      assert (Hb : bs = [(192 + q1)%N; (128 + r1)%N]) by congruence. subst bs.
      change ([(192 + q1)%N; (128 + r1)%N] ++ rest)
        with ((192 + q1)%N :: (128 + r1)%N :: rest).
      rewrite decode_two; [|lia|apply is_cont_spec; lia].
      unfold low6. f_equal. lia.
    + apply N.ltb_ge in L2. destruct (N.ltb c 65536) eqn:L3.
      * apply N.ltb_lt in L3.
        destruct (N.leb 55296 c && N.leb c 57343) eqn:S; [discriminate|].
        intros H.
        assert (Hb : bs = [(224 + q2)%N; (128 + r2)%N; (128 + r1)%N]) by congruence.
        subst bs.
        assert (Sr : (c < 55296 \/ 57343 < c)%N).
        { apply andb_false_iff in S. destruct S as [S|S]; apply N.leb_gt in S; lia. }
        change ([(224 + q2)%N; (128 + r2)%N; (128 + r1)%N] ++ rest)
          with ((224 + q2)%N :: (128 + r2)%N :: (128 + r1)%N :: rest).
        rewrite decode_three;
          [|lia|apply second_ok_spec; lia|apply is_cont_spec; lia].
        unfold low6. f_equal. lia.
      * apply N.ltb_ge in L3. destruct (N.ltb c 1114112) eqn:L4; [|discriminate].
        apply N.ltb_lt in L4. intros H.
        assert (Hb : bs = [(240 + q3)%N; (128 + r3)%N; (128 + r2)%N; (128 + r1)%N])
          by congruence.
        subst bs.
        change ([(240 + q3)%N; (128 + r3)%N; (128 + r2)%N; (128 + r1)%N] ++ rest)
          with ((240 + q3)%N :: (128 + r3)%N :: (128 + r2)%N :: (128 + r1)%N :: rest).
        rewrite decode_four;
          [|lia|apply second_ok_spec; lia|apply is_cont_spec; lia
           |apply is_cont_spec; lia].
        unfold low6. f_equal. lia.
Qed.

Lemma decode_encode (s : str) (bs : list N) :
  encode_utf8 s = Some bs -> decode_ignore bs = s.
Proof.
  revert bs. induction s as [|c s IH]; intros bs; cbn [encode_utf8].
  - intros H. injection H as <-. reflexivity.
  - destruct (encode_char c) as [b|] eqn:Ec; [|discriminate].
    destruct (encode_utf8 s) as [r|]; [|discriminate].
    intros H. injection H as <-. rewrite (decode_encoded_char c b r Ec).
    rewrite (IH r eq_refl). reflexivity.
Qed.


(** A text without carriage return is read as it is. *)
Lemma universal_newlines_fixed (s : str) :
  existsb (N.eqb 13) s = false -> universal_newlines s = s.
Proof.
  induction s as [|c s IH]; [reflexivity|]. cbn [existsb]. intros H.
  apply orb_false_iff in H. destruct H as [H1 H2].
  cbn [universal_newlines]. rewrite N.eqb_sym in H1. rewrite H1.
  f_equal. apply IH, H2.
Qed.

Lemma universal_newlines_cons (c : N) (s : str) :
  universal_newlines (c :: s)
  = if N.eqb c 13
    then match s with
         | d :: s'' => if N.eqb d 10 then 10%N :: universal_newlines s''
                       else 10%N :: universal_newlines s
         | [] => [10%N]
         end
    else c :: universal_newlines s.
Proof. destruct s; reflexivity. Qed.

(** The text read from a file holds no carriage return. *)
Lemma universal_newlines_no_cr : forall (n : nat) (s : str),
  List.length s <= n -> existsb (N.eqb 13) (universal_newlines s) = false.
Proof.
  induction n as [|n IH]; intros s Hn.
  - destruct s; [reflexivity|simpl in Hn; lia].
  - destruct s as [|c s]; [reflexivity|]. rewrite universal_newlines_cons.
    simpl in Hn. destruct (N.eqb c 13) eqn:E.
    + destruct s as [|d s'']; [reflexivity|].
      destruct (N.eqb d 10); cbn [existsb]; change (N.eqb 13 10) with false;
        cbn [orb]; apply IH; simpl in *; lia.
    + cbn [existsb]. rewrite N.eqb_sym, E. cbn [orb]. apply IH. lia.
Qed.

Lemma text_of_no_cr (data : list N) : existsb (N.eqb 13) (text_of data) = false.
Proof. unfold text_of. eapply universal_newlines_no_cr. reflexivity. Qed.

(** The text of a file is the text that was written to it, when that
    text holds no carriage return. *)
Lemma text_of_written (out : str) (bs : list N) :
  existsb (N.eqb 13) out = false -> encode_utf8 out = Some bs -> text_of bs = out.
Proof.
  intros H E. unfold text_of. rewrite (decode_encode _ _ E).
  apply universal_newlines_fixed, H.
Qed.

(** ** The file system: what writing a file leaves alone *)

Lemma assoc_alter_other (x y : str) (f : option node -> option node)
      (es : list (str * node)) :
  x <> y -> assoc y (alter x f es) = assoc y es.
Proof.
  intros Hxy. induction es as [|[z c] es IH]; simpl.
  - destruct (f None); simpl; [|reflexivity].
    destruct (str_eqb x y) eqn:E; [apply str_eqb_eq in E; congruence|reflexivity].
  - destruct (str_eqb z x) eqn:Ezx.
    + apply str_eqb_eq in Ezx. subst z.
      destruct (str_eqb x y) eqn:E; [apply str_eqb_eq in E; congruence|].
      destruct (f (Some c)); simpl; [rewrite E|]; reflexivity.
    + simpl. destruct (str_eqb z y); [reflexivity|exact IH].
Qed.

Lemma assoc_alter_same (x : str) (f : option node -> option node)
      (es : list (str * node)) (c c' : node) :
  assoc x es = Some c -> f (Some c) = Some c' ->
  assoc x (alter x f es) = Some c'.
Proof.
  intros A F. induction es as [|[z d] es IH]; simpl in *; [discriminate|].
  destruct (str_eqb z x) eqn:E.
  - injection A as ->. rewrite F. simpl. rewrite E. reflexivity.
  - simpl. rewrite E. auto.
Qed.

(** [alter_at] one level down. *)
Lemma alter_at_cons (x : str) (p : list str) (f : option node -> option node)
      (es : list (str * node)) :
  alter_at (x :: p) f (Dir es)
  = Dir (alter x (fun o => match p with
                           | [] => f o
                           | _ => match o with
                                  | Some c => Some (alter_at p f c)
                                  | None => None
                                  end
                           end) es).
Proof. destruct p; reflexivity. Qed.

Lemma same_file_refl (a : option node) : same_file a a.
Proof. destruct a as [[]|]; simpl; auto. Qed.

(** Writing the file at [p] leaves every other file as it is, keeps the
    directories directories and creates nothing. *)
Lemma put_file_frame (v_r v_w : bool) (v_d : list N) :
  forall (p q : list str) (root : node) r w d,
    get p root = Some (File r w d) ->
    q <> p ->
    same_file (get q (put p (File v_r v_w v_d) root)) (get q root).
Proof.
  unfold put. induction p as [|x p IH]; intros q root r w d G Hq.
  - simpl in G. injection G as ->. simpl.
    destruct q; [congruence|exact I].
  - destruct root as [|es]; [discriminate|]. simpl in G.
    destruct (assoc x es) as [c|] eqn:A; [|discriminate].
    rewrite alter_at_cons.
    destruct q as [|y q]; [exact I|].
    cbn [get].
    destruct (str_eqb x y) eqn:E.
    + apply str_eqb_eq in E. subst y.
      destruct p as [|x' p].
      * simpl in G. injection G as ->.
        rewrite (assoc_alter_same _ _ _ _ (File v_r v_w v_d) A eq_refl), A.
        destruct q; [congruence|]. exact I.
      * rewrite (assoc_alter_same _ _ _ _ _ A eq_refl), A.
        apply (IH q c r w d G). congruence.
    + apply str_eqb_neq in E. rewrite assoc_alter_other by exact E.
      apply same_file_refl.
Qed.

Lemma get_put_file_same (v : node) :
  forall (p : list str) (root : node) r w d,
    get p root = Some (File r w d) ->
    get p (put p v root) = Some v.
Proof.
  unfold put. induction p as [|x p IH]; intros root r w d G; [reflexivity|].
  destruct root as [|es]; [discriminate|]. simpl in G.
  destruct (assoc x es) as [c|] eqn:A; [|discriminate].
  rewrite alter_at_cons. cbn [get].
  destruct p as [|x' p].
  - rewrite (assoc_alter_same _ _ _ _ v A eq_refl). reflexivity.
  - rewrite (assoc_alter_same _ _ _ _ _ A eq_refl).
    apply (IH c r w d G).
Qed.

(** ** Writing a file keeps the names of the tree *)

Lemma alter_file_names (x : str) (g : option node -> option node)
      (es : list (str * node)) (c c' : node) :
  assoc x es = Some c -> g (Some c) = Some c' -> is_dir c' = is_dir c ->
  dir_names (alter x g es) = dir_names es
  /\ file_names (alter x g es) = file_names es.
Proof.
  intros A G K. unfold dir_names, file_names.
  induction es as [|[y d] es IH]; simpl in *; [discriminate|].
  destruct (str_eqb y x) eqn:E.
  - injection A as ->. rewrite G. simpl. rewrite K.
    destruct (is_dir c); simpl; auto.
  - specialize (IH A). destruct IH as [IH1 IH2]. simpl.
    destruct (is_dir d); simpl; rewrite ?IH1, ?IH2; auto.
Qed.

Lemma put_keeps_kind (v_r v_w : bool) (v_d : list N) :
  forall (p : list str) (n : node) r w d,
    get p n = Some (File r w d) ->
    is_dir (put p (File v_r v_w v_d) n) = is_dir n.
Proof.
  unfold put. intros [|x p] n r w d G.
  - simpl in G. injection G as ->. reflexivity.
  - destruct n as [|es]; [discriminate|]. rewrite alter_at_cons. reflexivity.
Qed.

Lemma put_step (v : node) (x : str) (p : list str) (c : node) :
  (fun o : option node =>
     match p with
     | [] => (fun _ : option node => Some v) o
     | _ :: _ => match o with
                 | Some c0 => Some (alter_at p (fun _ => Some v) c0)
                 | None => None
                 end
     end) (Some c) = Some (put p v c).
Proof. destruct p; reflexivity. Qed.

Lemma walk_put_file (v_r v_w : bool) (v_d : list N) :
  forall (p : list str) (top : str) (n : node) r w d,
    get p n = Some (File r w d) ->
    walk_node top (put p (File v_r v_w v_d) n) = walk_node top n.
Proof.
  induction p as [|x p IH]; intros top n r w d G.
  - simpl in G. injection G as ->. reflexivity.
  - destruct n as [|es]; [discriminate|]. simpl in G.
    destruct (assoc x es) as [c|] eqn:A; [|discriminate].
    unfold put. rewrite alter_at_cons. cbn [walk_node].
    set (g := fun o : option node => _).
    assert (Hg : g (Some c) = Some (put p (File v_r v_w v_d) c))
      by (subst g; destruct p; reflexivity).
    destruct (alter_file_names x g es c _ A Hg (put_keeps_kind _ _ _ _ _ _ _ _ G))
      as [-> ->].
    f_equal.
    clear -A Hg IH G. revert A.
    induction es as [|[y c0] es IHes]; intros A; [discriminate|].
    simpl in A. cbn [alter].
    destruct (str_eqb y x) eqn:E.
    + injection A as ->. rewrite Hg. f_equal. eapply IH; eauto.
    + f_equal. auto.
Qed.

Lemma walk_at_put_file (v_r v_w : bool) (v_d : list N) (top : str) :
  forall (loc p : list str) (root : node) r w d,
    get p root = Some (File r w d) ->
    walk_at loc top (put p (File v_r v_w v_d) root) = walk_at loc top root.
Proof.
  unfold walk_at. induction loc as [|y loc IH]; intros p root r w d G.
  - cbn [get]. eapply walk_put_file; eauto.
  - destruct p as [|x p].
    + simpl in G. injection G as ->. reflexivity.
    + destruct root as [|es]; [discriminate|]. simpl in G.
      destruct (assoc x es) as [c|] eqn:A; [|discriminate].
      unfold put. rewrite alter_at_cons. cbn [get].
      destruct (str_eqb x y) eqn:E.
      * apply str_eqb_eq in E. subst y.
        rewrite (assoc_alter_same _ _ _ _ _ A (put_step _ x p c)), A.
        eapply IH; eauto.
      * apply str_eqb_neq in E. rewrite assoc_alter_other by exact E.
        reflexivity.
Qed.

(** ** The content-rewrite pass *)

Section RewriteFacts.
Context {db : UnicodeDb}.

Lemma update_one_cases (self : WoWUIMigrator) (m : dict) (file_path : str)
      (st : state) :
  update_one self m file_path st
  = (Ret (fst (update_one_result self m file_path st)),
     snd (update_one_result self m file_path st)).
Proof.
  unfold update_one, update_one_result, try_except, bind, read_text, lift,
    node_at, text_of.
  destruct (get (locate (st_cwd st) file_path) (st_root st)) as [[r w data|es]|] eqn:G;
    try reflexivity.
  destruct r; [|reflexivity].
  destruct (apply_content_mappings m (universal_newlines (decode_ignore data)))
    as [content|e]; [|reflexivity].
  destruct (str_eqb content (universal_newlines (decode_ignore data)));
    [reflexivity|]. cbn [negb].
  destruct (dry_run self); cbn [negb]; [reflexivity|].
  unfold write_text, bind. rewrite G.
  destruct w; [|reflexivity].
  destruct (encode_utf8 content); reflexivity.
Qed.


(** The root a step leaves is the one it found, or that root with the
    file written, which was readable and writable. *)
Lemma update_one_root (self : WoWUIMigrator) (m : dict) (fp : str) (st : state) :
  let st' := snd (update_one_result self m fp st) in
  st_cwd st' = st_cwd st /\ st_working st' = st_working st
  /\ st_changes st' = st_changes st
                      ++ List.map ContentChange (fst (update_one_result self m fp st))
  /\ (st_root st' = st_root st
      \/ exists data bs,
           get (locate (st_cwd st) fp) (st_root st) = Some (File true true data)
           /\ dry_run self = false
           /\ st_root st' = put (locate (st_cwd st) fp) (File true true bs) (st_root st)).
Proof.
  unfold update_one_result.
  destruct (get (locate (st_cwd st) fp) (st_root st)) as [[r w data|es]|] eqn:G;
    try (simpl; rewrite ?app_nil_r; auto; fail).
  destruct r; [|simpl; rewrite app_nil_r; auto].
  destruct (apply_content_mappings m (text_of data)) as [content|e];
    [|simpl; rewrite app_nil_r; auto].
  destruct (str_eqb content (text_of data)); [simpl; rewrite app_nil_r; auto|].
  destruct (dry_run self) eqn:Dry; [simpl; auto|].
  destruct w; [|simpl; rewrite app_nil_r; auto].
  destruct (encode_utf8 content) as [bs|]; simpl; rewrite ?app_nil_r;
    repeat split; auto; right; eauto.
Qed.

Lemma update_one_protects (self : WoWUIMigrator) (m : dict) (fp : str)
      (st : state) (q : list str) (r w : bool) (d : list N) :
  get q (st_root st) = Some (File r w d) -> r && w = false ->
  get q (st_root (snd (update_one_result self m fp st))) = Some (File r w d).
Proof.
  intros G P.
  destruct (update_one_root self m fp st) as (_ & _ & _ & [E|(data & bs & G' & _ & E)]);
    rewrite E; [exact G|].
  assert (Hq : q <> locate (st_cwd st) fp).
  { intros ->. rewrite G in G'. injection G' as -> -> _. discriminate. }
  pose proof (put_file_frame true true bs _ q _ _ _ _ G' Hq) as F.
  rewrite G in F. unfold same_file in F.
  destruct (get q (put (locate (st_cwd st) fp) (File true true bs) (st_root st)))
    as [[r' w' d'|]|]; try contradiction.
  destruct F as (-> & -> & ->). reflexivity.
Qed.

Lemma update_one_reports (self : WoWUIMigrator) (m : dict) (fp fp' : str)
      (st : state) :
  In fp' (fst (update_one_result self m fp st)) ->
  fp' = fp
  /\ exists w data,
       get (locate (st_cwd st) fp) (st_root st) = Some (File true w data)
       /\ (w = true \/ dry_run self = true).
Proof.
  unfold update_one_result.
  destruct (get (locate (st_cwd st) fp) (st_root st)) as [[r w data|es]|] eqn:G;
    try (simpl; tauto).
  destruct r; [|simpl; tauto].
  destruct (apply_content_mappings m (text_of data)) as [content|e]; [|simpl; tauto].
  destruct (str_eqb content (text_of data)); [simpl; tauto|].
  destruct (dry_run self) eqn:Dry.
  - simpl. intros [<-|[]]. eauto 6.
  - destruct w; [|simpl; tauto].
    destruct (encode_utf8 content); simpl; [|tauto].
    intros [<-|[]]. eauto 6.
Qed.

Lemma run_updates_app (self : WoWUIMigrator) (m : dict) (a b : list str) :
  forall st,
    run_updates self m (a ++ b) st
    = let (l1, st1) := run_updates self m a st in
      let (l2, st2) := run_updates self m b st1 in
      (l1 ++ l2, st2).
Proof.
  induction a as [|fp a IH]; intros st; simpl.
  - destruct (run_updates self m b st); reflexivity.
  - destruct (update_one_result self m fp st) as [l1 st1].
    rewrite IH. destruct (run_updates self m a st1) as [l2 st2].
    destruct (run_updates self m b st2) as [l3 st3].
    rewrite app_assoc. reflexivity.
Qed.

Lemma update_files_run (self : WoWUIMigrator) (m : dict) (root : str) :
  forall files st,
    update_files self m root files st
    = (Ret (fst (run_updates self m
                   (List.map (os_path_join root) (filter is_config_file files)) st)),
       snd (run_updates self m
              (List.map (os_path_join root) (filter is_config_file files)) st)).
Proof.
  induction files as [|f files IH]; intros st; [reflexivity|].
  cbn [update_files filter]. unfold bind at 1.
  destruct (is_config_file f).
  - rewrite update_one_cases. cbn [List.map run_updates].
    destruct (update_one_result self m (os_path_join root f) st) as [l1 st1].
    cbn [fst snd]. unfold bind at 1. rewrite IH.
    destruct (run_updates self m _ st1) as [l2 st2]. reflexivity.
  - unfold ret at 1. unfold bind at 1. rewrite IH.
    destruct (run_updates self m _ st) as [l2 st2]. reflexivity.
Qed.

Lemma update_each_run (self : WoWUIMigrator) (m : dict) (acct : option str)
      (w : str) :
  forall walk st,
    update_each self m acct w walk st
    = (Ret (fst (run_updates self m (rewrite_targets w m acct walk) st)),
       snd (run_updates self m (rewrite_targets w m acct walk) st)).
Proof.
  induction walk as [|[[root dirs] files] walk IH]; intros st; [reflexivity|].
  cbn [update_each rewrite_targets flat_map]. unfold bind at 1.
  fold (rewrite_targets w m acct walk).
  rewrite run_updates_app.
  destruct (rewrite_in_scope w m acct root).
  - rewrite update_files_run.
    destruct (run_updates self m _ st) as [l1 st1]. cbn [fst snd].
    unfold bind at 1. rewrite IH.
    destruct (run_updates self m _ st1) as [l2 st2]. reflexivity.
  - unfold ret at 1. cbn [run_updates]. unfold bind at 1. rewrite IH.
    destruct (run_updates self m _ st) as [l2 st2]. reflexivity.
Qed.

Lemma run_updates_facts (self : WoWUIMigrator) (m : dict) :
  forall paths st,
    st_cwd (snd (run_updates self m paths st)) = st_cwd st
    /\ st_working (snd (run_updates self m paths st)) = st_working st
    /\ st_changes (snd (run_updates self m paths st))
       = st_changes st ++ List.map ContentChange (fst (run_updates self m paths st))
    /\ incl (fst (run_updates self m paths st)) paths
    /\ (forall q r w d,
          get q (st_root st) = Some (File r w d) -> r && w = false ->
          get q (st_root (snd (run_updates self m paths st))) = Some (File r w d)).
Proof.
  induction paths as [|fp paths IH]; intros st.
  - simpl. rewrite app_nil_r. repeat split; auto. apply incl_refl.
  - cbn [run_updates].
    pose proof (update_one_root self m fp st) as (Cw1 & W1 & Ch1 & _).
    pose proof (update_one_protects self m fp st) as P1.
    pose proof (fun x => update_one_reports self m fp x st) as R1.
    destruct (update_one_result self m fp st) as [l1 st1]. cbn [fst snd] in *.
    specialize (IH st1). destruct (run_updates self m paths st1) as [l2 st2].
    cbn [fst snd] in *. destruct IH as (Cw2 & W2 & Ch2 & I2 & P2).
    repeat split; try congruence.
    + rewrite Ch2, Ch1, map_app, app_assoc. reflexivity.
    + intros x Hx. apply in_app_or in Hx. destruct Hx as [Hx|Hx].
      * left. symmetry. apply (R1 x Hx).
      * right. auto.
    + intros q r w d G P. eapply P2; eauto.
Qed.

Lemma run_updates_skips (self : WoWUIMigrator) (m : dict) (fp : str) (r w : bool)
      (d : list N) :
  (r = false \/ (w = false /\ dry_run self = false)) ->
  forall paths st,
    get (locate (st_cwd st) fp) (st_root st) = Some (File r w d) ->
    ~ In fp (fst (run_updates self m paths st)).
Proof.
  intros Hp. induction paths as [|fp' paths IH]; intros st G; [simpl; tauto|].
  cbn [run_updates].
  pose proof (update_one_root self m fp' st) as (Cw1 & _).
  pose proof (update_one_protects self m fp' st (locate (st_cwd st) fp) r w d G) as P1.
  pose proof (update_one_reports self m fp' fp st) as R1.
  destruct (update_one_result self m fp' st) as [l1 st1]. cbn [fst snd] in *.
  specialize (IH st1). destruct (run_updates self m paths st1) as [l2 st2].
  cbn [fst snd] in *. intros Hin. apply in_app_or in Hin. destruct Hin as [Hin|Hin].
  - destruct (R1 Hin) as (-> & w' & data & G' & Hw).
    rewrite G in G'. injection G' as -> -> _.
    destruct Hp as [Hp|[Hp1 Hp2]]; [discriminate|].
    destruct Hw; congruence.
  - apply IH; [|exact Hin]. rewrite Cw1. apply P1.
    destruct Hp as [->|[-> _]]; [reflexivity|apply andb_false_r].
Qed.

Lemma occurs_in_nil (k : str) : occurs_in k None [] = false.
Proof.
  simpl. unfold whole_word_here, word_edge. simpl.
  rewrite andb_false_r. reflexivity.
Qed.

Lemma at_rest_inactive (self : WoWUIMigrator) (m : dict) (r w : bool)
      (data : list N) :
  inactive m (text_of data) -> at_rest self m (Some (File r w data)).
Proof.
  intros H. destruct r; simpl; [|exact I]. right.
  rewrite apply_inactive by exact H. destruct (templates_ok m); auto.
Qed.

Lemma at_rest_same_file (self : WoWUIMigrator) (m : dict) (a b : option node) :
  same_file a b -> at_rest self m b -> at_rest self m a.
Proof.
  destruct a as [[r w d|]|], b as [[r' w' d'|]|]; simpl; try tauto.
  intros (-> & -> & ->). auto.
Qed.

(** A file at rest is left as it is. *)
Lemma update_one_at_rest (self : WoWUIMigrator) (m : dict) (fp : str) (st : state) :
  at_rest self m (node_at fp st) ->
  fst (update_one_result self m fp st) = []
  /\ st_root (snd (update_one_result self m fp st)) = st_root st
  /\ st_changes (snd (update_one_result self m fp st)) = st_changes st.
Proof.
  unfold at_rest, update_one_result, node_at.
  destruct (get (locate (st_cwd st) fp) (st_root st)) as [[r w data|es]|];
    try (intros; simpl; auto; fail).
  destruct r; [|intros; simpl; auto].
  intros [[-> Dry]|H].
  - rewrite Dry. destruct (apply_content_mappings m (text_of data)) as [s|e]; simpl; auto.
    destruct (str_eqb s (text_of data)); simpl; auto.
  - destruct (apply_content_mappings m (text_of data)) as [content|e]; simpl; auto.
    subst content. rewrite str_eqb_refl. simpl; auto.
Qed.

(** After a step the file is at rest, unless the step reports it. *)
Lemma update_one_settles (self : WoWUIMigrator) (m : dict) (fp : str) (st : state) :
  at_rest self m (node_at fp (snd (update_one_result self m fp st)))
  \/ fst (update_one_result self m fp st) = [fp].
Proof.
  pose proof (update_one_root self m fp st) as (C & _).
  unfold node_at. rewrite C. clear C.
  unfold update_one_result.
  destruct (get (locate (st_cwd st) fp) (st_root st)) as [[r w data|es]|] eqn:G;
    try (left; simpl; rewrite G; exact I).
  destruct r; [|left; simpl; rewrite G; exact I].
  destruct (apply_content_mappings m (text_of data)) as [content|e] eqn:A.
  - destruct (str_eqb content (text_of data)) eqn:E.
    + left. simpl. rewrite G. simpl. right. rewrite A.
      apply str_eqb_eq; exact E.
    + destruct (dry_run self) eqn:Dry; [right; reflexivity|].
      destruct w.
      * destruct (encode_utf8 content) as [bs|]; [right; reflexivity|].
        left. simpl. rewrite (get_put_file_same _ _ _ _ _ _ G).
        apply at_rest_inactive. intros k v _. apply occurs_in_nil.
      * left. simpl. rewrite G. simpl. left. auto.
  - left. simpl. rewrite G. simpl. right. rewrite A. exact I.
Qed.


(** The pass is the file-by-file processing of its targets; it ends
    normally. *)
Lemma update_file_contents_run (self : WoWUIMigrator) (m : dict)
      (acct : option str) (st : state) :
  update_file_contents self m acct st
  = (Ret (fst (run_updates self m (targets_of m acct st) st)),
     snd (run_updates self m (targets_of m acct st) st)).
Proof.
  unfold update_file_contents, bind, gets, os_walk, targets_of.
  apply update_each_run.
Qed.

Lemma loc_eq_dec (a b : list str) : {a = b} + {a <> b}.
Proof. apply list_eq_dec, list_eq_dec, N.eq_dec. Qed.

Lemma run_updates_walk (self : WoWUIMigrator) (m : dict) (loc : list str)
      (top : str) :
  forall paths st,
    walk_at loc top (st_root (snd (run_updates self m paths st)))
    = walk_at loc top (st_root st).
Proof.
  induction paths as [|fp paths IH]; intros st; [reflexivity|].
  cbn [run_updates].
  pose proof (update_one_root self m fp st) as (_ & _ & _ & R).
  destruct (update_one_result self m fp st) as [l1 st1]. cbn [fst snd] in *.
  specialize (IH st1). destruct (run_updates self m paths st1) as [l2 st2].
  cbn [fst snd] in *. rewrite IH.
  destruct R as [->|(data & bs & G & _ & ->)]; [reflexivity|].
  eapply walk_at_put_file; eauto.
Qed.

Lemma run_updates_at_rest (self : WoWUIMigrator) (m : dict) :
  forall paths st,
    (forall fp, In fp paths -> at_rest self m (node_at fp st)) ->
    fst (run_updates self m paths st) = []
    /\ st_root (snd (run_updates self m paths st)) = st_root st
    /\ st_changes (snd (run_updates self m paths st)) = st_changes st.
Proof.
  induction paths as [|fp paths IH]; intros st H; [simpl; auto|].
  cbn [run_updates].
  pose proof (update_one_at_rest self m fp st (H fp (or_introl eq_refl)))
    as (L & R & Ch).
  pose proof (update_one_root self m fp st) as (C & _).
  destruct (update_one_result self m fp st) as [l1 st1]. cbn [fst snd] in *.
  assert (H1 : forall x, In x paths -> at_rest self m (node_at x st1)).
  { intros x Hx. unfold node_at. rewrite C, R. apply H. now right. }
  specialize (IH st1 H1). destruct (run_updates self m paths st1) as [l2 st2].
  cbn [fst snd] in *. destruct IH as (L2 & R2 & Ch2).
  subst. repeat split; congruence.
Qed.

Lemma targets_of_walk_at (m : dict) (acct : option str) (st : state) :
  targets_of m acct st
  = rewrite_targets (st_working st) m acct
      (walk_at (locate (st_cwd st) (st_working st)) (st_working st) (st_root st)).
Proof. reflexivity. Qed.

Section SecondPass.
Variables (self : WoWUIMigrator) (m : dict).
Hypothesis real_run : dry_run self = false.
Hypothesis rewritten_rests :
  forall data out bs,
    apply_content_mappings m (text_of data) = Ret out ->
    encode_utf8 out = Some bs ->
    apply_content_mappings m (text_of bs) = Ret (text_of bs).

(** After a step the file is at rest. *)
Lemma update_one_rests (fp : str) (st : state) :
  at_rest self m (node_at fp (snd (update_one_result self m fp st))).
Proof.
  pose proof (update_one_root self m fp st) as (C & _).
  unfold node_at. rewrite C. clear C.
  unfold update_one_result.
  destruct (get (locate (st_cwd st) fp) (st_root st)) as [[r w data|es]|] eqn:G;
    try (simpl; rewrite G; exact I).
  destruct r; [|simpl; rewrite G; exact I].
  destruct (apply_content_mappings m (text_of data)) as [content|e] eqn:A.
  - destruct (str_eqb content (text_of data)) eqn:E.
    + simpl. rewrite G. simpl. right. rewrite A. apply str_eqb_eq; exact E.
    + rewrite real_run. destruct w.
      * destruct (encode_utf8 content) as [bs|] eqn:En; simpl;
          rewrite (get_put_file_same _ _ _ _ _ _ G).
        -- simpl. right. rewrite (rewritten_rests _ _ _ A En). reflexivity.
        -- apply at_rest_inactive. intros k v _. apply occurs_in_nil.
      * simpl. rewrite G. simpl. left. auto.
  - simpl. rewrite G. simpl. right. rewrite A. exact I.
Qed.

(** A step leaves a file at rest that was at rest. *)
Lemma update_one_keeps_rest (fp x : str) (st : state) :
  at_rest self m (node_at x st) ->
  at_rest self m (node_at x (snd (update_one_result self m fp st))).
Proof.
  intros A.
  destruct (loc_eq_dec (locate (st_cwd st) x) (locate (st_cwd st) fp)) as [E|E].
  - pose proof (update_one_rests fp st) as R.
    pose proof (update_one_root self m fp st) as (C & _).
    unfold node_at in *. rewrite C in *. rewrite E. exact R.
  - pose proof (update_one_root self m fp st) as (C & _ & _ & R).
    unfold node_at in *. rewrite C.
    destruct R as [R|(data & bs & G & _ & R)]; rewrite R; [exact A|].
    eapply at_rest_same_file; [|exact A].
    eapply put_file_frame; eauto.
Qed.

Lemma run_updates_rests :
  forall paths st processed,
    (forall x, In x processed -> at_rest self m (node_at x st)) ->
    forall x, In x (processed ++ paths) ->
              at_rest self m (node_at x (snd (run_updates self m paths st))).
Proof.
  induction paths as [|fp paths IH]; intros st processed Inv x Hx.
  - rewrite app_nil_r in Hx. apply Inv, Hx.
  - cbn [run_updates].
    pose proof (update_one_rests fp st) as R.
    pose proof (fun y => update_one_keeps_rest fp y st) as Kp.
    destruct (update_one_result self m fp st) as [l1 st1]. cbn [fst snd] in *.
    specialize (IH st1 (processed ++ [fp])).
    destruct (run_updates self m paths st1) as [l2 st2]. cbn [fst snd] in *.
    apply IH.
    + intros y Hy. apply in_app_or in Hy. destruct Hy as [Hy|[<-|[]]]; auto.
    + rewrite <- app_assoc. exact Hx.
Qed.

End SecondPass.

(** The text a mapping of names has left in a file is left as it is by
    the mapping, when no key matches a replacement value. *)
Lemma names_rewritten_rest (m : dict) (data : list N) (out : str) (bs : list N) :
  names_only m -> keys_match_words m -> no_key_matches_a_value m ->
  apply_content_mappings m (text_of data) = Ret out ->
  encode_utf8 out = Some bs ->
  apply_content_mappings m (text_of bs) = Ret (text_of bs).
Proof.
  intros Hn K H A En.
  assert (Hcr : existsb (N.eqb 13) out = false).
  { pose proof A as A'. rewrite apply_names in A' by assumption.
    injection A' as <-.
    apply map_words_no_cr with (n := List.length (text_of data));
      [apply rewrite_chain_name; exact Hn|lia|apply text_of_no_cr]. }
  rewrite (text_of_written _ _ Hcr En).
  eapply apply_names_idem; eauto.
Qed.

End RewriteFacts.


(** C8 (as amended) -- Outside a dry run the content-rewrite pass is
    idempotent when the keys and the replacement values are names
    (non-empty runs of word characters), whatever a character of a key
    matches up to letter case is a word character, and no key matches a
    replacement value up to letter case: the pass completes, and a
    second pass with the same mapping over the files it has left
    reports zero updated files, changes no file (the log file apart,
    to which it appends the errors it logs) and adds nothing to the
    change record. *)
Theorem rewrite_pass_is_idempotent_for_names {db : UnicodeDb}
        (self : WoWUIMigrator) (content_mappings : dict)
        (old_account : option str) (st : state) :
  dry_run self = false ->
  names_only content_mappings ->
  keys_match_words content_mappings ->
  no_key_matches_a_value content_mappings ->
  exists updated_files st1 st2,
    update_file_contents self content_mappings old_account st
    = (Ret updated_files, st1)
    /\ update_file_contents self content_mappings old_account st1 = (Ret [], st2)
    /\ (forall q, apart_from (log_file (st_cwd st)) q ->
                  get q (st_root st2) = get q (st_root st1))
    /\ st_changes st2 = st_changes st1.
Proof.
  intros Real Hn K H. rewrite update_file_contents_run.
  set (paths := targets_of content_mappings old_account st).
  pose proof (run_updates_facts self content_mappings paths st) as (C & W & _).
  pose proof (run_updates_walk self content_mappings
                (locate (st_cwd st) (st_working st)) (st_working st) paths st)
    as Wk.
  pose proof (run_updates_rests self content_mappings Real
                (fun data out bs =>
                   names_rewritten_rest content_mappings data out bs Hn K H)
                paths st [] ltac:(intros ? [])) as Rest.
  destruct (run_updates self content_mappings paths st) as [l st1].
  cbn [fst snd] in *. exists l, st1.
  assert (T : targets_of content_mappings old_account st1 = paths).
  { unfold paths. rewrite !targets_of_walk_at, C, W, Wk. reflexivity. }
  rewrite update_file_contents_run, T.
  destruct (run_updates_at_rest self content_mappings paths st1 Rest)
    as (L & R & Ch).
  eexists. rewrite L. split; [reflexivity|]. split; [reflexivity|].
  split; [intros q _; rewrite R; reflexivity|exact Ch].
Qed.

Lemma rewrite_pass_is_idempotent_for_names_witness :
  exists updated_files st1 st2,
    @update_file_contents ascii_db (new_migrator (lit "/WTF") false)
      realm_and_character None (state_at small_tree "/WTF")
    = (Ret updated_files, st1)
    /\ @update_file_contents ascii_db (new_migrator (lit "/WTF") false)
         realm_and_character None st1
       = (Ret [], st2)
    /\ (forall q,
          apart_from (log_file (st_cwd (state_at small_tree "/WTF"))) q ->
          get q (st_root st2) = get q (st_root st1))
    /\ st_changes st2 = st_changes st1.
Proof.
  assert (Hn : @names_only ascii_db realm_and_character)
    by (intros k v [E|[E|[]]]; injection E as <- <-; split;
        vm_compute; reflexivity).
  apply (@rewrite_pass_is_idempotent_for_names ascii_db
           (new_migrator (lit "/WTF") false) realm_and_character None
           (state_at small_tree "/WTF") eq_refl Hn
           (keys_of_names_match_words _ ascii_db_keeps_words Hn)).
  intros k v k' v' [E|[E|[]]] [E'|[E'|[]]]; injection E as <- <-;
    injection E' as <- <-; vm_compute; reflexivity.
Defined.

(** C8 (as stated) fails: that no key occurs in a replacement value is
    not enough.  With the realm pair "Old Realm" -> "New Realm" and the
    character pair "Big" -> "Old" no key occurs, as a whole word up to
    letter case, in a replacement value; the first pass turns the text
    "Big Realm" into "Old Realm", where the first key matches the
    replacement value together with the word that follows it, and the
    second pass rewrites the file again, to "New Realm", and reports
    it. *)
Lemma second_pass_rewrites_again :
  get_content_mappings (Some (lit "Old Realm")) (Some (lit "New Realm"))
                       (Some (lit "Big")) (Some (lit "Old")) None None
  = two_word_names
  /\ forallb (fun key =>
                forallb (fun value =>
                           negb (@occurs_in ascii_db (fst key) None (snd value)))
                        two_word_names)
             two_word_names = true
  /\ node_at (lit "/w/notes.txt") (state_at two_word_tree "/w")
     = Some (text_file "Big Realm")
  /\ fst first_pass_on_two_words = Ret [lit "/w/notes.txt"]
  /\ node_at (lit "/w/notes.txt") (snd first_pass_on_two_words)
     = Some (text_file "Old Realm")
  /\ fst second_pass_on_two_words = Ret [lit "/w/notes.txt"]
  /\ node_at (lit "/w/notes.txt") (snd second_pass_on_two_words)
     = Some (text_file "New Realm").
Proof. repeat split; vm_compute; reflexivity. Qed.

(** C9 (as amended) -- Undecodable bytes raise no error: they are
    dropped when a file is read, and the file is processed like any
    other.  A file that cannot be opened for reading, or cannot be
    opened for writing once its text has changed, raises a per-file
    error that is caught and logged; that file is left unchanged and is
    not reported.  No per-file failure aborts the pass: for every
    state, mapping and filter it completes and returns the list of the
    files it updated, each of them a file of the pass, which is also
    what it appends to the change record. *)
Theorem rewrite_pass_survives_file_failures {db : UnicodeDb}
        (self : WoWUIMigrator) (content_mappings : dict)
        (old_account : option str) (st : state) :
  exists updated_files st',
    update_file_contents self content_mappings old_account st
    = (Ret updated_files, st')
    /\ st_changes st' = st_changes st ++ List.map ContentChange updated_files
    /\ incl updated_files (targets_of content_mappings old_account st)
    /\ (forall q r w d,
          get q (st_root st) = Some (File r w d) -> r && w = false ->
          get q (st_root st') = Some (File r w d))
    /\ (forall file_path r w d,
          node_at file_path st = Some (File r w d) ->
          r = false \/ (w = false /\ dry_run self = false) ->
          ~ In file_path updated_files)
    /\ (forall file_path s w d,
          node_at file_path s = Some (File false w d) ->
          update_one self content_mappings file_path s
          = (Ret [], log_error file_path (OSError EACCES) s))
    /\ (forall file_path s d content,
          node_at file_path s = Some (File true false d) ->
          dry_run self = false ->
          apply_content_mappings content_mappings (text_of d) = Ret content ->
          content <> text_of d ->
          update_one self content_mappings file_path s
          = (Ret [], log_error file_path (OSError EACCES) s))
    /\ (forall file_path s w d,
          node_at file_path s = Some (File true w d) ->
          read_text file_path s = (Ret (text_of d), s)).
Proof.
  rewrite update_file_contents_run.
  pose proof (run_updates_facts self content_mappings
                (targets_of content_mappings old_account st) st)
    as (_ & _ & Ch & I & P).
  pose proof (fun fp r w d H =>
                run_updates_skips self content_mappings fp r w d H
                  (targets_of content_mappings old_account st) st) as S.
  destruct (run_updates self content_mappings
              (targets_of content_mappings old_account st) st) as [l st'].
  cbn [fst snd] in *. exists l, st'.
  split; [reflexivity|]. split; [exact Ch|]. split; [exact I|].
  split; [exact P|]. split; [|split; [|split]].
  - intros file_path r w d G H. eapply S; eauto.
  - intros file_path s w d G. rewrite update_one_cases.
    unfold update_one_result. unfold node_at in G. rewrite G. reflexivity.
  - intros file_path s d content G Dry A Hne. rewrite update_one_cases.
    unfold update_one_result. unfold node_at in G. rewrite G, A, Dry.
    apply str_eqb_neq in Hne. rewrite Hne. reflexivity.
  - intros file_path s w d G. unfold read_text. rewrite G. reflexivity.
Qed.

Lemma rewrite_pass_survives_file_failures_witness :
  exists updated_files st',
    @update_file_contents ascii_db (new_migrator (lit "/w") false)
      [(lit "OldRealm", lit "NewRealm")] None (state_at locked_tree "/w")
    = (Ret updated_files, st')
    /\ ~ In (lit "/w/Cache.txt") updated_files
    /\ get [lit "w"; lit "Cache.txt"] (st_root st')
       = Some (File false true (lit "OldRealm")).
Proof.
  destruct (@rewrite_pass_survives_file_failures ascii_db
              (new_migrator (lit "/w") false) [(lit "OldRealm", lit "NewRealm")]
              None (state_at locked_tree "/w"))
    as (l & st' & E & _ & _ & P & S & _).
  exists l, st'. split; [exact E|]. split.
  - apply (S _ false true (lit "OldRealm")); [vm_compute; reflexivity|now left].
  - apply P; reflexivity.
Defined.

(** C9 (as stated) fails: a file holding the byte 0xFF, which is no
    UTF-8, raises no error and is not skipped; the byte is dropped, the
    key is substituted, and the file is written back and reported. *)
Lemma malformed_file_is_rewritten :
  valid_utf8 malformed_bytes = false
  /\ fst (@update_file_contents ascii_db (new_migrator (lit "/w") false)
            [(lit "Bob", lit "Alice")] None (state_at malformed_tree "/w"))
     = Ret [lit "/w/notes.txt"]
  /\ st_root (snd (@update_file_contents ascii_db (new_migrator (lit "/w") false)
                     [(lit "Bob", lit "Alice")] None (state_at malformed_tree "/w")))
     = Dir [entry "w" (Dir [entry "notes.txt" (text_file "Alice's bag")])]
  /\ st_log (snd (@update_file_contents ascii_db (new_migrator (lit "/w") false)
                    [(lit "Bob", lit "Alice")] None (state_at malformed_tree "/w")))
     = [(INFO, MsgUpdatedFile (lit "/w/notes.txt"))].
Proof. repeat split; vm_compute; reflexivity. Qed.

(** ** Runs of the whole migration *)

Lemma bind_raises {A B} (m : M A) (k : A -> M B) (st : state) (e : exn) :
  fst (bind m k st) = Raise e ->
  fst (m st) = Raise e
  \/ exists a, fst (m st) = Ret a /\ fst (k a (snd (m st))) = Raise e.
Proof.
  unfold bind. destruct (m st) as [[a|e'] st']; simpl; intros H.
  - right. exists a. auto.
  - left. congruence.
Qed.

Lemma guarded_never_raises {A} (m : M A) (h : exn -> M A) :
  (forall e st, exists a, fst (h e st) = Ret a) ->
  forall st, exists a, fst (try_except m h st) = Ret a.
Proof.
  intros H st. unfold try_except. destruct (m st) as [[a|e] st']; simpl; eauto.
Qed.

(** [migrate] lets an exception pass only when it is the copy that
    raised it. *)
Lemma migrate_raises_only_from_copy {db : UnicodeDb} (self : WoWUIMigrator)
      (old_realm new_realm : str)
      (old_char new_char old_account new_account : option str) (st : state)
      (e : exn) :
  fst (migrate self old_realm new_realm old_char new_char old_account new_account st)
  = Raise e ->
  exists st0,
    fst (create_migration_copy self old_realm new_realm old_char new_char st0)
    = Raise e.
Proof.
  unfold migrate. intros H.
  apply bind_raises in H. destruct H as [H|(? & _ & H)]; [discriminate|].
  apply bind_raises in H. destruct H as [H|(? & _ & H)]; [discriminate|].
  apply bind_raises in H. destruct H as [H|(? & _ & H)]; [discriminate|].
  apply bind_raises in H. destruct H as [H|(? & _ & H)].
  { destruct old_char, new_char; try discriminate.
    destruct (truthy _ && truthy _); discriminate. }
  apply bind_raises in H. destruct H as [H|(? & _ & H)].
  { destruct old_account, new_account; try discriminate.
    destruct (truthy _ && truthy _); discriminate. }
  apply bind_raises in H. destruct H as [H|(found & _ & H)]; [discriminate|].
  destruct (negb found).
  { apply bind_raises in H. destruct H as [H|(? & _ & H)]; discriminate. }
  apply bind_raises in H. destruct H as [H|(copy_path & _ & H)]; [eauto|].
  apply bind_raises in H. destruct H as [H|(? & _ & H)]; [discriminate|].
  apply bind_raises in H. destruct H as [H|(? & _ & H)]; [discriminate|].
  match type of H with
  | fst (try_except ?m ?h ?s) = _ =>
      destruct (guarded_never_raises m h) with (st := s) as [b Hb]
  end.
  - intros e0 s0. eexists. reflexivity.
  - congruence.
Qed.

(** C4 -- [migrate] calls [create_migration_copy] before it enters its
    [try] block: an exception of [shutil.copytree] passes through
    [migrate] instead of being logged and turned into [False].  A tree
    with a file that cannot be read makes the copy raise
    [shutil.Error], an existing folder of the copy's name makes it
    raise [FileExistsError], and [migrate] ends with that exception.
    Every exception raised after the copy is caught: [migrate] lets an
    exception pass only when the copy raised it. *)
Theorem copy_failure_escapes_migrate :
  fst migrate_locked = Raise ShutilError
  /\ fst migrate_again = Raise (OSError EEXIST)
  /\ (forall (db : UnicodeDb) self old_realm new_realm old_char new_char
             old_account new_account st e,
        fst (migrate self old_realm new_realm old_char new_char
                     old_account new_account st) = Raise e ->
        exists st0,
          fst (create_migration_copy self old_realm new_realm old_char new_char st0)
          = Raise e).
Proof.
  split; [vm_compute; reflexivity|].
  split; [vm_compute; reflexivity|].
  intros. eapply migrate_raises_only_from_copy; eauto.
Qed.

(** C1 -- The copy is made at [wtf_path.parent / "WTF_migrated_..."],
    and the parent of the path [.] is [.] itself: run in the WTF
    folder on the path [.], the migration succeeds and leaves the
    working copy inside the original tree, which has gained a
    directory and a file.  A new name that is an absolute path makes
    [os.path.join] drop the directory of the copy: the character
    folder of the copy is renamed to a path of the original tree,
    which has gained the directory [Hero]. *)
Theorem original_tree_gains_entries :
  fst migrate_in_place = Ret true
  /\ st_working (snd migrate_in_place)
     = lit "WTF_migrated_OldRealm_to_NewRealm_20231114_221320"
  /\ get [lit "home"; lit "u"; lit "WTF"] (st_root (snd migrate_in_place))
     = Some (Dir [entry "Config.wtf" (text_file "SET realmName OldRealm");
                  entry "WTF_migrated_OldRealm_to_NewRealm_20231114_221320"
                    (Dir [entry "Config.wtf"
                                (text_file "SET realmName NewRealm")])])
  /\ fst migrate_absolute_name = Ret true
  /\ get [lit "home"; lit "u"; lit "WTF"] (st_root (snd migrate_absolute_name))
     = Some (Dir [entry "Account"
                    (Dir [entry "ACC"
                            (Dir [entry "OldRealm"
                                    (Dir [entry "Char"
                                            (Dir [entry "layout.txt"
                                                    (text_file "Char")]);
                                          entry "Hero"
                                            (Dir [entry "layout.txt"
                                                    (text_file "Char")])])])])]).
Proof. repeat split; vm_compute; reflexivity. Qed.

(** C2 -- The backup of a colliding target file is made by
    [shutil.move] to the name [<file>.backup_<seconds>], whatever is
    there: a backup of the same second is overwritten.  Merging [/src]
    into [/dst], which holds [x.lua] and a backup of [x.lua] of the
    current second, ends normally with the content of that backup
    gone; in one renaming pass that merges [R1] and then [R2] into
    [N] within a second, the second merge overwrites the backup of
    the first, and the content [N] had is gone. *)
Theorem backup_of_the_same_second_is_lost :
  fst merge_over_backup = Ret tt
  /\ st_root (snd merge_over_backup)
     = Dir [entry "dst"
              (Dir [entry "x.lua.backup_1700000000" (text_file "from the target");
                    entry "x.lua" (text_file "from the source")])]
  /\ fst two_into_one = Ret [(lit "/WTF/R1", lit "/WTF/N"); (lit "/WTF/R2", lit "/WTF/N")]
  /\ st_root (snd two_into_one)
     = Dir [entry "WTF"
              (Dir [entry "N"
                      (Dir [entry "x.lua.backup_1700000000" (text_file "from R1");
                            entry "x.lua" (text_file "from R2")])])].
Proof. repeat split; vm_compute; reflexivity. Qed.

(** C6 -- With the account filter BOB, the renaming pass keeps the
    directory [BOB] of another account's realm (its name is the
    account's and its parent path contains "Account") and renames it,
    and the rewriting pass processes the files of the account BOBBY
    (its path starts with the path of BOB) and rewrites them: both
    lie outside the path of the account BOB, outside the path of the
    new account and not at the root of the tree. *)
Theorem account_filter_lets_other_accounts_through :
  fst scoped_rename
  = Ret [(lit "/WTF/Account/OTHER/OldRealm/BOB", lit "/WTF/Account/OTHER/OldRealm/ALICE");
         (lit "/WTF/Account/BOB", lit "/WTF/Account/ALICE")]
  /\ fst scoped_rewrite
     = Ret [lit "/WTF/Account/BOBBY/SavedVariables/ui.lua";
            lit "/WTF/Account/ALICE/SavedVariables/ui.lua"]
  /\ node_at (lit "/WTF/Account/BOBBY/SavedVariables/ui.lua") (snd scoped_rewrite)
     = Some (text_file "BOBBY on NewRealm")
  /\ node_at (lit "/WTF/Account/BOBBY/SavedVariables/ui.lua")
             (state_at scope_tree "/WTF")
     = Some (text_file "BOBBY on OldRealm")
  /\ descends_from (lit "/WTF/Account/BOBBY/SavedVariables") (lit "/WTF/Account/BOB")
     = false
  /\ descends_from (lit "/WTF/Account/OTHER/OldRealm/BOB") (lit "/WTF/Account/BOB")
     = false
  /\ rename_in_scope (lit "/WTF") (Some (lit "BOB"))
                     (lit "/WTF/Account/OTHER/OldRealm") (lit "BOB") = true
  /\ rewrite_in_scope (lit "/WTF") [(lit "BOB", lit "ALICE")] (Some (lit "BOB"))
                      (lit "/WTF/Account/BOBBY/SavedVariables") = true.
Proof. repeat split; vm_compute; reflexivity. Qed.

(** ** Paths and the locations they name *)

Lemma split_on_app (c : N) (a b : str) :
  split_on c (a ++ c :: b) = split_on c a ++ split_on c b.
Proof.
  induction a as [|d a IH]; cbn [app split_on].
  - rewrite N.eqb_refl. reflexivity.
  - destruct (N.eqb d c); [rewrite IH; reflexivity|].
    rewrite IH. pose proof (split_on_nonempty c a).
    destruct (split_on c a); [congruence|reflexivity].
Qed.

Lemma split_on_none (c : N) (s : str) :
  existsb (N.eqb c) s = false -> split_on c s = [s].
Proof.
  induction s as [|d s IH]; [reflexivity|]. cbn [existsb split_on].
  intros H. apply orb_false_iff in H. destruct H as [H1 H2].
  rewrite N.eqb_sym, H1, (IH H2). reflexivity.
Qed.

Lemma locate_fold (cwd : list str) (path : str) :
  locate cwd path = fold_left resolve (split_on sep path) (origin cwd path).
Proof. reflexivity. Qed.

Lemma proper_name_inv (x : str) :
  proper_name x = true ->
  x <> [] /\ existsb (N.eqb sep) x = false /\ x <> [dot] /\ x <> [dot; dot].
Proof.
  unfold proper_name. rewrite !andb_true_iff, !negb_true_iff, !str_eqb_neq.
  tauto.
Qed.

Lemma resolve_proper (acc : list str) (x : str) :
  proper_name x = true -> resolve acc x = acc ++ [x].
Proof.
  intros H. apply proper_name_inv in H. destruct H as (H1 & _ & H3 & H4).
  unfold resolve. apply str_eqb_neq in H1, H3, H4. rewrite H1, H3, H4.
  reflexivity.
Qed.

Lemma proper_not_absolute (x : str) :
  proper_name x = true -> startswith x [sep] = false.
Proof.
  intros H. apply proper_name_inv in H. destruct H as (H1 & H2 & _).
  destruct x as [|c x]; [congruence|]. cbn [existsb] in H2.
  apply orb_false_iff in H2. destruct H2 as [H2 _].
  cbn [startswith]. rewrite H2. reflexivity.
Qed.

Lemma startswith_app_l (a b : str) (p : N) :
  a <> [] -> startswith (a ++ b) [p] = startswith a [p].
Proof. destruct a; [congruence|reflexivity]. Qed.

Lemma endswith_sep (a : str) :
  endswith a [sep] = true -> exists a', a = a' ++ [sep].
Proof.
  unfold endswith. intros H. apply startswith_app in H. destruct H as [r H].
  exists (rev r). rewrite <- (rev_involutive a), H. simpl. reflexivity.
Qed.

Lemma fold_resolve_snoc_empty (l : list (list N)) (acc : list str) :
  fold_left resolve (l ++ [[]]) acc = fold_left resolve l acc.
Proof. rewrite fold_left_app. reflexivity. Qed.

Lemma origin_app (cwd : list str) (a b : str) :
  a <> [] -> origin cwd (a ++ b) = origin cwd a.
Proof. destruct a; [congruence|reflexivity]. Qed.

(** Joining a proper name to a path names the entry of that name in the
    directory the path names. *)
Lemma locate_join (cwd : list str) (a b : str) :
  proper_name b = true ->
  locate cwd (os_path_join a b) = locate cwd a ++ [b].
Proof.
  intros Hb. pose proof (proper_not_absolute b Hb) as Hs.
  pose proof (proper_name_inv b Hb) as (_ & Hn & _ & _).
  unfold os_path_join. rewrite Hs.
  destruct a as [|c a].
  - rewrite !locate_fold. unfold origin. rewrite Hs.
    rewrite (split_on_none _ _ Hn). cbn. apply resolve_proper, Hb.
  - assert (Hne : c :: a <> []) by discriminate.
    destruct (endswith (c :: a) [sep]) eqn:E.
    + rewrite !locate_fold, (origin_app cwd _ b Hne).
      set (o := origin cwd (c :: a)).
      apply endswith_sep in E. destruct E as [a' E]. rewrite E.
      rewrite <- app_assoc. cbn [app].
      rewrite split_on_app, (split_on_none _ _ Hn).
      replace (a' ++ [sep]) with (a' ++ sep :: []) by reflexivity.
      rewrite split_on_app. cbn [split_on].
      rewrite !fold_left_app. cbn [fold_left].
      rewrite resolve_proper by exact Hb. reflexivity.
    + rewrite !locate_fold.
      rewrite (origin_app cwd (c :: a) (sep :: b) Hne).
      rewrite split_on_app, (split_on_none _ _ Hn), fold_left_app.
      cbn [fold_left]. apply resolve_proper, Hb.
Qed.

Lemma rsplit_last_none (c : N) (s : str) :
  existsb (N.eqb c) s = false -> rsplit_last c s = None.
Proof.
  induction s as [|d s IH]; [reflexivity|]. cbn [existsb rsplit_last].
  intros H. apply orb_false_iff in H. destruct H as [H1 H2].
  rewrite (IH H2), N.eqb_sym, H1. reflexivity.
Qed.

Lemma rsplit_last_app (c : N) (a b : str) :
  existsb (N.eqb c) b = false -> rsplit_last c (a ++ c :: b) = Some (a, b).
Proof.
  intros H. induction a as [|d a IH]; cbn [app rsplit_last].
  - rewrite (rsplit_last_none _ _ H), N.eqb_refl. reflexivity.
  - rewrite IH. reflexivity.
Qed.

(** The last component of a path that ends in a proper name is that
    name. *)
Lemma basename_join (a b : str) :
  proper_name b = true -> os_path_basename (os_path_join a b) = b.
Proof.
  intros Hb. pose proof (proper_not_absolute b Hb) as Hs.
  pose proof (proper_name_inv b Hb) as (_ & Hn & _ & _).
  unfold os_path_join, os_path_basename. rewrite Hs.
  destruct a as [|c a].
  - rewrite (rsplit_last_none _ _ Hn). reflexivity.
  - destruct (endswith (c :: a) [sep]) eqn:E.
    + apply endswith_sep in E. destruct E as [a' ->].
      rewrite <- app_assoc. cbn [app]. rewrite (rsplit_last_app _ _ _ Hn).
      reflexivity.
    + rewrite (rsplit_last_app _ _ _ Hn). reflexivity.
Qed.

Lemma rstrip_snoc (c d : N) (x : str) :
  rstrip c (x ++ [d]) = if N.eqb d c then rstrip c x else x ++ [d].
Proof.
  unfold rstrip. rewrite rev_unit. destruct (N.eqb d c); [reflexivity|].
  cbn [rev]. rewrite rev_involutive. reflexivity.
Qed.

Lemma endswith_snoc (x : str) (d c : N) :
  endswith (x ++ [d]) [c] = N.eqb c d.
Proof. unfold endswith. rewrite rev_unit. cbn. apply andb_true_r. Qed.

Lemma forallb_snoc {A} (f : A -> bool) (l : list A) (x : A) :
  forallb f (l ++ [x]) = forallb f l && f x.
Proof. rewrite forallb_app. cbn. rewrite andb_true_r. reflexivity. Qed.

Lemma locate_trailing_sep (cwd : list str) (x : str) :
  x <> [] -> locate cwd (x ++ [sep]) = locate cwd x.
Proof.
  intros Hx. rewrite !locate_fold, (origin_app cwd x [sep] Hx).
  replace (x ++ [sep]) with (x ++ sep :: []) by reflexivity.
  rewrite split_on_app, fold_left_app. reflexivity.
Qed.

(** Stripping the trailing separators of a path that does not consist
    of separators keeps the location it names. *)
Lemma locate_rstrip (cwd : list str) (a : str) :
  forallb (N.eqb sep) a = false -> locate cwd (rstrip sep a) = locate cwd a.
Proof.
  induction a as [|d x IH] using rev_ind; [discriminate|].
  rewrite forallb_snoc, rstrip_snoc. intros H.
  destruct (N.eqb d sep) eqn:E; [|reflexivity].
  apply N.eqb_eq in E. subst d. rewrite N.eqb_refl, andb_true_r in H.
  rewrite (IH H). symmetry. apply locate_trailing_sep.
  intros ->. discriminate.
Qed.

(** The directory part of a path that ends in a proper name names the
    directory the name was joined to. *)
Lemma locate_dirname_join (cwd : list str) (a b : str) :
  proper_name b = true ->
  locate cwd (os_path_dirname (os_path_join a b)) = locate cwd a.
Proof.
  intros Hb. pose proof (proper_not_absolute b Hb) as Hs.
  pose proof (proper_name_inv b Hb) as (_ & Hn & _ & _).
  unfold os_path_join, os_path_dirname. rewrite Hs.
  destruct a as [|c a].
  - rewrite (rsplit_last_none _ _ Hn). reflexivity.
  - destruct (endswith (c :: a) [sep]) eqn:E.
    + apply endswith_sep in E. destruct E as [a' E]. rewrite E.
      rewrite <- app_assoc. cbn [app]. rewrite (rsplit_last_app _ _ _ Hn).
      cbv zeta.
      destruct (forallb (N.eqb sep) (a' ++ [sep])) eqn:F; [reflexivity|].
      apply locate_rstrip, F.
    + rewrite (rsplit_last_app _ _ _ Hn). cbv zeta.
      destruct (exists_last (l := c :: a) ltac:(discriminate)) as (x & d & Hx).
      rewrite Hx in *. rewrite endswith_snoc in E.
      rewrite forallb_snoc. cbn [forallb]. rewrite andb_true_r.
      rewrite forallb_snoc, E, andb_false_r.
      rewrite rstrip_snoc, N.eqb_refl, rstrip_snoc, N.eqb_sym, E. reflexivity.
Qed.

(** ** Trees with proper names, and what a change at a location leaves
       alone *)

Lemma names_ok_dir (es : list (str * node)) :
  names_ok (Dir es)
  = forallb (fun e => proper_name (fst e) && names_ok (snd e)) es.
Proof.
  induction es as [|[x c] es IH]; [reflexivity|].
  cbn [forallb fst snd]. rewrite <- IH. reflexivity.
Qed.

Lemma names_ok_assoc (es : list (str * node)) (x : str) (c : node) :
  names_ok (Dir es) = true -> assoc x es = Some c ->
  proper_name x = true /\ names_ok c = true.
Proof.
  rewrite names_ok_dir. induction es as [|[y d] es IH]; [discriminate|].
  cbn [forallb assoc fst snd]. rewrite !andb_true_iff. intros [[H1 H2] H3].
  destruct (str_eqb y x) eqn:E.
  - apply str_eqb_eq in E. subst y. intros H. injection H as <-. auto.
  - auto.
Qed.

Lemma names_ok_get : forall (p : list str) (n c : node),
  names_ok n = true -> get p n = Some c -> names_ok c = true.
Proof.
  induction p as [|x p IH]; intros n c H G.
  - simpl in G. injection G as <-. exact H.
  - destruct n as [|es]; [discriminate|]. simpl in G.
    destruct (assoc x es) as [d|] eqn:A; [|discriminate].
    destruct (names_ok_assoc _ _ _ H A) as [_ Hd]. eauto.
Qed.

Lemma names_ok_listing (es : list (str * node)) :
  names_ok (Dir es) = true ->
  Forall (fun x => proper_name x = true) (List.map fst es).
Proof.
  rewrite names_ok_dir, forallb_forall. intros H.
  apply Forall_forall. intros x Hx. apply in_map_iff in Hx.
  destruct Hx as ([y c] & <- & Hin). apply H in Hin.
  apply andb_true_iff in Hin. tauto.
Qed.

Lemma within_refl (p : list str) : within p p.
Proof. exists []. symmetry. apply app_nil_r. Qed.

Lemma within_nil (q : list str) : within [] q.
Proof. now exists q. Qed.

Lemma within_app (c r : list str) : within c (c ++ r).
Proof. now exists r. Qed.

Lemma within_trans (a b c : list str) : within a b -> within b c -> within a c.
Proof. intros [r ->] [s ->]. exists (r ++ s). symmetry. apply app_assoc. Qed.

Lemma within_cons (x y : str) (p q : list str) :
  within (x :: p) (y :: q) <-> x = y /\ within p q.
Proof.
  split.
  - intros [r H]. injection H as -> ->. split; [reflexivity|now exists r].
  - intros [-> [r ->]]. now exists r.
Qed.

(** Two locations below a common one are comparable, or apart in the
    same way. *)
Lemma within_chain (a b q : list str) :
  within a q -> within b q -> within a b \/ within b a.
Proof.
  revert b q. induction a as [|x a IH]; intros b q Ha Hb.
  - left. apply within_nil.
  - destruct b as [|y b]; [right; apply within_nil|].
    destruct q as [|z q]; [destruct Ha as [r Hr]; discriminate|].
    apply within_cons in Ha, Hb. destruct Ha as [-> Ha]. destruct Hb as [-> Hb].
    destruct (IH b q Ha Hb) as [H|H]; [left|right]; apply within_cons; auto.
Qed.

Lemma apart_from_below (c p q : list str) :
  within c p -> apart_from c q -> apart_from p q.
Proof.
  intros Hp [H1 H2]. split.
  - intros H. apply H1. eapply within_trans; eauto.
  - intros H. destruct (within_chain c q p Hp H); tauto.
Qed.

Lemma assoc_alter_none (x : str) (g : option node -> option node)
      (es : list (str * node)) :
  assoc x es = None -> g None = None -> alter x g es = es.
Proof.
  intros A G. induction es as [|[y c] es IH]; simpl in *; [rewrite G; reflexivity|].
  destruct (str_eqb y x); [discriminate|]. rewrite IH by exact A. reflexivity.
Qed.

(** A change at a location is not seen from the locations apart from
    it. *)
Lemma get_alter_at_apart (f : option node -> option node) :
  forall (p q : list str) (n : node),
    apart_from p q -> get q (alter_at p f n) = get q n.
Proof.
  induction p as [|x p IH]; intros q n [H1 H2].
  - destruct H1. apply within_nil.
  - destruct q as [|y q]; [destruct H2; apply within_nil|].
    destruct n as [|es]; [destruct p; reflexivity|].
    rewrite alter_at_cons. cbn [get].
    destruct (str_eqb x y) eqn:E.
    + apply str_eqb_eq in E. subst y.
      assert (Hpq : apart_from p q).
      { split; intros H; [apply H1|apply H2]; apply within_cons; auto. }
      destruct p as [|x' p]; [destruct Hpq as [Hpq _]; destruct Hpq; apply within_nil|].
      destruct (assoc x es) as [c|] eqn:A.
      * rewrite (assoc_alter_same _ _ _ _ _ A eq_refl). apply IH, Hpq.
      * rewrite assoc_alter_none by (exact A || reflexivity). rewrite A.
        reflexivity.
    + apply str_eqb_neq in E. rewrite assoc_alter_other by exact E. reflexivity.
Qed.

Lemma names_ok_alter (x : str) (g : option node -> option node)
      (es : list (str * node)) :
  names_ok (Dir es) = true ->
  (forall c v, assoc x es = Some c -> g (Some c) = Some v -> names_ok v = true) ->
  (forall v, assoc x es = None -> g None = Some v ->
             proper_name x = true /\ names_ok v = true) ->
  names_ok (Dir (alter x g es)) = true.
Proof.
  rewrite !names_ok_dir. induction es as [|[y c] es IH]; intros H G1 G2.
  - cbn [alter]. pose proof (fun v => G2 v eq_refl) as G2'.
    destruct (g None) as [v|]; [|reflexivity].
    destruct (G2' v eq_refl) as [P V]. cbn. rewrite P, V. reflexivity.
  - cbn [forallb fst snd] in H. apply andb_true_iff in H. destruct H as [H H'].
    apply andb_true_iff in H. destruct H as [Hy Hc].
    cbn [alter assoc] in *. destruct (str_eqb y x) eqn:E.
    + pose proof (fun v => G1 c v eq_refl) as G1'.
      destruct (g (Some c)) as [v|]; [|exact H'].
      cbn [forallb fst snd]. rewrite Hy, H', (G1' v eq_refl). reflexivity.
    + cbn [forallb fst snd]. rewrite Hy, Hc. cbn [andb].
      apply IH; auto.
Qed.

(** A change that puts well-named trees at a properly named location
    keeps the names of the tree proper. *)
Lemma names_ok_alter_at (f : option node -> option node) :
  (forall o v, match o with Some c => names_ok c = true | None => True end ->
               f o = Some v -> names_ok v = true) ->
  forall (p : list str) (n : node),
    names_ok n = true ->
    Forall (fun x => proper_name x = true) p ->
    names_ok (alter_at p f n) = true.
Proof.
  intros Hf. induction p as [|x p IH]; intros n H P.
  - cbn [alter_at]. destruct (f (Some n)) as [v|] eqn:F; [|exact H].
    eapply (Hf (Some n)); eauto.
  - destruct n as [|es]; [destruct p; reflexivity|]. rewrite alter_at_cons.
    inversion P as [|? ? Px Pp]; subst.
    apply names_ok_alter; [exact H| |].
    + intros c v A G. destruct (names_ok_assoc _ _ _ H A) as [_ Hc].
      destruct p as [|x' p].
      * eapply (Hf (Some c)); eauto.
      * injection G as <-. apply IH; auto.
    + intros v A G. destruct p as [|x' p]; [|discriminate].
      split; [exact Px|]. apply (Hf None v I G).
Qed.

Lemma names_ok_put (p : list str) (v n : node) :
  names_ok n = true -> names_ok v = true ->
  Forall (fun x => proper_name x = true) p ->
  names_ok (put p v n) = true.
Proof.
  intros. apply names_ok_alter_at; auto. intros o w _ E. injection E as <-. auto.
Qed.

Lemma names_ok_del (p : list str) (n : node) :
  names_ok n = true ->
  Forall (fun x => proper_name x = true) p ->
  names_ok (del p n) = true.
Proof. intros. apply names_ok_alter_at; auto. discriminate. Qed.

(** Induction on a tree, with the property at hand for every entry of a
    directory. *)
Lemma node_induction (P : node -> Prop) :
  (forall r w d, P (File r w d)) ->
  (forall es, Forall (fun e => P (snd e)) es -> P (Dir es)) ->
  forall n, P n.
Proof.
  intros HF HD. fix IH 1. intros [r w d|es]; [apply HF|]. apply HD.
  induction es as [|[x c] es IHes]; constructor; [apply IH|exact IHes].
Qed.

Lemma split_on_no_sep (c : N) (s : str) :
  Forall (fun comp => existsb (N.eqb c) comp = false) (split_on c s).
Proof.
  induction s as [|d s IH]; cbn [split_on]; [repeat constructor|].
  destruct (N.eqb d c) eqn:E; [constructor; [reflexivity|exact IH]|].
  pose proof (split_on_nonempty c s).
  destruct (split_on c s) as [|h t]; [congruence|].
  inversion IH; subst. constructor; [|assumption].
  cbn [existsb]. rewrite N.eqb_sym, E. assumption.
Qed.

Lemma Forall_removelast {A} (P : A -> Prop) (l : list A) :
  Forall P l -> Forall P (removelast l).
Proof.
  induction 1 as [|x l Hx Hl IH]; [constructor|].
  cbn [removelast]. destruct l; [constructor|]. constructor; assumption.
Qed.

Lemma resolve_keeps_proper (acc : list str) (comp : str) :
  Forall (fun x => proper_name x = true) acc ->
  existsb (N.eqb sep) comp = false ->
  Forall (fun x => proper_name x = true) (resolve acc comp).
Proof.
  intros Ha Hc. unfold resolve.
  destruct (str_eqb comp []) eqn:E1; [exact Ha|].
  destruct (str_eqb comp [dot]) eqn:E2; [exact Ha|]. cbn [orb].
  destruct (str_eqb comp [dot; dot]) eqn:E3; [apply Forall_removelast, Ha|].
  apply Forall_app. split; [exact Ha|]. constructor; [|constructor].
  unfold proper_name. rewrite E1, E2, E3, Hc. reflexivity.
Qed.

(** The components of a location are proper names. *)
Lemma locate_proper (cwd : list str) (path : str) :
  Forall (fun x => proper_name x = true) cwd ->
  Forall (fun x => proper_name x = true) (locate cwd path).
Proof.
  intros Hc. rewrite locate_fold.
  assert (Ho : Forall (fun x => proper_name x = true) (origin cwd path)).
  { unfold origin. destruct (startswith path [sep]); [constructor|exact Hc]. }
  revert Ho. generalize (origin cwd path).
  pose proof (split_on_no_sep sep path) as Hs. revert Hs.
  generalize (split_on sep path). intros l Hs.
  induction Hs as [|comp l Hcomp Hl IH]; intros acc Ha; [exact Ha|].
  cbn [fold_left]. apply IH. apply resolve_keeps_proper; assumption.
Qed.

Lemma names_ok_make_path (leaf : node) : forall p,
  Forall (fun x => proper_name x = true) p -> names_ok leaf = true ->
  names_ok (make_path p leaf) = true.
Proof.
  induction p as [|x p IH]; intros P L; [exact L|].
  inversion P; subst. cbn [make_path]. rewrite names_ok_dir. cbn.
  rewrite IH by assumption. rewrite andb_true_r. rewrite andb_true_r. assumption.
Qed.

Lemma assoc_app_none (x : str) (es es' : list (str * node)) :
  assoc x es = None -> assoc x (es ++ es') = assoc x es'.
Proof.
  induction es as [|[y c] es IH]; [reflexivity|]. simpl.
  destruct (str_eqb y x); [discriminate|exact IH].
Qed.

Lemma assoc_app_some (x : str) (es es' : list (str * node)) (c : node) :
  assoc x es = Some c -> assoc x (es ++ es') = Some c.
Proof.
  induction es as [|[y d] es IH]; [discriminate|]. simpl.
  destruct (str_eqb y x); [auto|exact IH].
Qed.

Lemma assoc_snoc_other (x y : str) (es : list (str * node)) (v : node) :
  x <> y -> assoc y (es ++ [(x, v)]) = assoc y es.
Proof.
  intros Hxy. induction es as [|[z c] es IH]; simpl.
  - apply str_eqb_neq in Hxy. rewrite Hxy. reflexivity.
  - destruct (str_eqb z y); [reflexivity|exact IH].
Qed.

Lemma get_make_path_apart (leaf : node) : forall p q,
  apart_from p q -> get q (make_path p leaf) = None.
Proof.
  induction p as [|x p IH]; intros q [H1 H2]; [destruct H1; apply within_nil|].
  destruct q as [|y q]; [destruct H2; apply within_nil|].
  cbn [make_path get assoc]. destruct (str_eqb x y) eqn:E; [|reflexivity].
  apply str_eqb_eq in E. subst y. apply IH.
  split; intros H; [apply H1|apply H2]; apply within_cons; auto.
Qed.

Lemma get_make_path (leaf : node) : forall p, get p (make_path p leaf) = Some leaf.
Proof.
  induction p as [|x p IH]; [reflexivity|].
  cbn [make_path get assoc]. rewrite str_eqb_refl. exact IH.
Qed.

Lemma names_ok_graft (leaf : node) : forall p n n',
  names_ok n = true -> names_ok leaf = true ->
  Forall (fun x => proper_name x = true) p ->
  graft p leaf n = Ret n' -> names_ok n' = true.
Proof.
  induction p as [|x p IH]; intros n n' H L P G; [discriminate|].
  inversion P as [|? ? Px Pp]; subst.
  destruct n as [|es]; [discriminate|]. cbn [graft] in G.
  destruct (assoc x es) as [c|] eqn:A.
  - destruct (graft p leaf c) as [c'|e] eqn:Gc; [|discriminate].
    injection G as <-. destruct (names_ok_assoc _ _ _ H A) as [_ Hc].
    apply names_ok_alter; [exact H| |].
    + intros c0 v _ E. injection E as <-. eapply IH; eauto.
    + intros v A'. congruence.
  - injection G as <-. rewrite names_ok_dir in *. rewrite forallb_app, H.
    cbn. rewrite Px, names_ok_make_path by assumption. reflexivity.
Qed.

(** A new tree put at a free location is not seen from the locations
    apart from it. *)
Lemma get_graft_apart (leaf : node) : forall p q n n',
  graft p leaf n = Ret n' -> apart_from p q -> get q n' = get q n.
Proof.
  induction p as [|x p IH]; intros q n n' G [H1 H2]; [discriminate|].
  destruct q as [|y q]; [destruct H2; apply within_nil|].
  destruct n as [|es]; [discriminate|]. cbn [graft] in G.
  assert (Hpq : x = y -> apart_from p q).
  { intros ->. split; intros H; [apply H1|apply H2]; apply within_cons; auto. }
  destruct (assoc x es) as [c|] eqn:A.
  - destruct (graft p leaf c) as [c'|e] eqn:Gc; [|discriminate].
    injection G as <-. cbn [get].
    destruct (str_eqb x y) eqn:E.
    + apply str_eqb_eq in E. subst y.
      rewrite (assoc_alter_same _ _ _ _ c' A eq_refl), A. eapply IH; eauto.
    + apply str_eqb_neq in E. rewrite assoc_alter_other by exact E. reflexivity.
  - injection G as <-. cbn [get].
    destruct (str_eqb x y) eqn:E.
    + apply str_eqb_eq in E. subst y.
      rewrite (assoc_app_none _ _ _ A), A. cbn [assoc]. rewrite str_eqb_refl.
      apply get_make_path_apart; auto.
    + apply str_eqb_neq in E. rewrite assoc_snoc_other by exact E. reflexivity.
Qed.

(** The new tree is found at the location it was put at. *)
Lemma get_graft (leaf : node) : forall p n n',
  graft p leaf n = Ret n' -> get p n' = Some leaf.
Proof.
  induction p as [|x p IH]; intros n n' G; [discriminate|].
  destruct n as [|es]; [discriminate|]. cbn [graft] in G.
  destruct (assoc x es) as [c|] eqn:A.
  - destruct (graft p leaf c) as [c'|e] eqn:Gc; [|discriminate].
    injection G as <-. cbn [get].
    rewrite (assoc_alter_same _ _ _ _ c' A eq_refl). eauto.
  - injection G as <-. cbn [get].
    rewrite (assoc_app_none _ _ _ A). cbn [assoc]. rewrite str_eqb_refl.
    apply get_make_path.
Qed.

Lemma copy_node_dir (es : list (str * node)) :
  copy_node (Dir es) = (Dir (fst (copy_entries es)), snd (copy_entries es)).
Proof.
  change (copy_node (Dir es))
    with (let (es', bad) := copy_entries es in (Dir es', bad)).
  destruct (copy_entries es); reflexivity.
Qed.

(** The copy of a tree has the names of the tree. *)
Lemma names_ok_copy_node : forall n,
  names_ok n = true -> names_ok (fst (copy_node n)) = true.
Proof.
  induction n as [r w d|es IH] using node_induction; intros H; [exact H|].
  rewrite copy_node_dir. cbn [fst]. rewrite names_ok_dir in *.
  induction es as [|[x c] es IHes]; [reflexivity|].
  inversion IH as [|? ? Hc Hes]; subst. cbn [forallb fst snd] in H.
  apply andb_true_iff in H. destruct H as [H H'].
  apply andb_true_iff in H. destruct H as [Px Hn].
  specialize (IHes Hes H'). cbn [snd] in Hc. specialize (Hc Hn).
  cbn [copy_entries]. destruct (copy_entries es) as [l2 bad2]. cbn [fst] in IHes.
  destruct c as [r w d|es0].
  - destruct r; cbn [fst]; [|exact IHes].
    cbn [forallb fst snd]. rewrite Px, IHes. reflexivity.
  - destruct (copy_node (Dir es0)) as [c' bad1]. cbn [fst] in *.
    cbn [forallb fst snd]. rewrite Px, Hc, IHes. reflexivity.
Qed.

(** A copy that met no unreadable file is the tree itself. *)
Lemma copy_node_faithful : forall n,
  snd (copy_node n) = false -> fst (copy_node n) = n.
Proof.
  induction n as [r w d|es IH] using node_induction; intros H; [reflexivity|].
  rewrite copy_node_dir in *. cbn [fst snd] in *. f_equal.
  induction es as [|[x c] es IHes]; [reflexivity|].
  inversion IH as [|? ? Hc Hes]; subst. cbn [snd] in Hc.
  cbn [copy_entries] in *. destruct (copy_entries es) as [l2 bad2].
  cbn [fst snd] in *.
  destruct c as [r w d|es0].
  - destruct r; cbn [fst snd] in *; [|discriminate].
    rewrite (IHes Hes H). reflexivity.
  - destruct (copy_node (Dir es0)) as [c' bad1]. cbn [fst snd] in *.
    apply orb_false_iff in H. destruct H as [H1 H2].
    rewrite (Hc H1), (IHes Hes H2). reflexivity.
Qed.

(** ** Path objects and the locations they name *)

Lemma Path_proper (x : str) :
  proper_name x = true -> Path x = {| pp_root := []; pp_parts := [x] |}.
Proof.
  intros H. pose proof (proper_not_absolute x H) as Hs.
  pose proof (proper_name_inv x H) as (H1 & H2 & H3 & _).
  unfold Path. rewrite (split_on_none _ _ H2), Hs.
  replace (startswith x [sep; sep]) with false
    by (destruct x as [|ch x]; [reflexivity|]; cbn [startswith] in *;
        destruct (N.eqb sep ch); [discriminate|reflexivity]).
  cbn [andb filter]. apply str_eqb_neq in H1, H3. rewrite H1, H3. reflexivity.
Qed.

Lemma path_div_proper (p : pure_path) (x : str) :
  proper_name x = true -> path_div p x = path_child p x.
Proof. intros H. unfold path_div. rewrite (Path_proper x H). reflexivity. Qed.

Lemma join_with_snoc (s : str) (parts : list str) (x : str) :
  parts <> [] -> join_with s (parts ++ [x]) = join_with s parts ++ s ++ x.
Proof.
  induction parts as [|y parts IH]; [congruence|]. intros _.
  destruct parts as [|z parts]; [reflexivity|].
  change (join_with s ((y :: z :: parts) ++ [x]))
    with (y ++ s ++ join_with s ((z :: parts) ++ [x])).
  rewrite IH by discriminate.
  change (join_with s (y :: z :: parts)) with (y ++ s ++ join_with s (z :: parts)).
  rewrite <- !app_assoc. reflexivity.
Qed.

Lemma join_with_nonempty (s : str) (parts : list str) :
  parts <> [] -> Forall (fun x => x <> []) parts -> join_with s parts <> [].
Proof.
  destruct parts as [|y parts]; [congruence|]. intros _ H. inversion H; subst.
  destruct y; [congruence|]. destruct parts; discriminate.
Qed.

Lemma locate_snoc (cwd : list str) (s x : str) :
  s <> [] -> proper_name x = true ->
  locate cwd (s ++ sep :: x) = locate cwd s ++ [x].
Proof.
  intros Hs Hx. pose proof (proper_name_inv x Hx) as (_ & Hn & _).
  rewrite !locate_fold, (origin_app cwd s (sep :: x) Hs).
  rewrite split_on_app, (split_on_none _ _ Hn), fold_left_app.
  cbn [fold_left]. apply resolve_proper, Hx.
Qed.

Lemma path_str_parts (root y : str) (parts : list str) :
  path_str {| pp_root := root; pp_parts := y :: parts |}
  = root ++ join_with [sep] (y :: parts).
Proof. unfold path_str. cbn [pp_root pp_parts]. destruct root; reflexivity. Qed.

(** The child of a path object names the entry of that name in the
    directory the path names. *)
Lemma locate_path_child (cwd : list str) (p : pure_path) (x : str) :
  root_ok p -> parts_ok p -> proper_name x = true ->
  locate cwd (path_str (path_child p x)) = locate cwd (path_str p) ++ [x].
Proof.
  intros Hr Hp Hx. destruct p as [root parts]. unfold root_ok, parts_ok in *.
  cbn [pp_root pp_parts] in *. unfold path_child. cbn [pp_root pp_parts].
  destruct parts as [|y parts].
  - assert (J : os_path_join root x = root ++ x).
    { unfold os_path_join. rewrite (proper_not_absolute x Hx).
      destruct Hr as [->|[->| ->]]; reflexivity. }
    transitivity (locate cwd (os_path_join root x)).
    + f_equal. rewrite J. destruct Hr as [->|[->| ->]]; reflexivity.
    + rewrite locate_join by exact Hx.
      destruct Hr as [->|[->| ->]]; reflexivity.
  - change ((y :: parts) ++ [x]) with (y :: (parts ++ [x])).
    rewrite !path_str_parts.
    change (y :: (parts ++ [x])) with ((y :: parts) ++ [x]).
    rewrite join_with_snoc by discriminate.
    rewrite app_assoc. cbn [app]. apply locate_snoc; [|exact Hx].
    pose proof (join_with_nonempty [sep] (y :: parts) ltac:(discriminate) Hp).
    destruct root; [assumption|discriminate].
Qed.

Lemma path_parent_child (p : pure_path) (ps : list str) (w : str) :
  pp_parts p = ps ++ [w] ->
  path_parent p = {| pp_root := pp_root p; pp_parts := ps |}
  /\ p = path_child (path_parent p) w.
Proof.
  intros H. destruct p as [root parts]. cbn [pp_parts pp_root] in *. subst parts.
  unfold path_parent. cbn [pp_parts pp_root].
  destruct (ps ++ [w]) eqn:E; [destruct ps; discriminate|]. rewrite <- E.
  rewrite removelast_last. split; reflexivity.
Qed.

Lemma apart_from_siblings (l : list str) (a b : str) :
  a <> b -> apart_from (l ++ [a]) (l ++ [b]).
Proof.
  intros Hab. split; intros [r H]; rewrite <- app_assoc in H;
    apply app_inv_head in H; destruct r; injection H; congruence.
Qed.

(** What [Path] keeps of a string: components without separator that
    are neither empty nor [.]. *)
Lemma Path_parts (s : str) :
  Forall (fun x => existsb (N.eqb sep) x = false /\ x <> [] /\ x <> [dot])
         (pp_parts (Path s)).
Proof.
  unfold Path. cbn [pp_parts]. apply Forall_forall. intros x Hx.
  apply filter_In in Hx. destruct Hx as [Hin Hf].
  apply negb_true_iff, orb_false_iff in Hf. destruct Hf as [H1 H2].
  apply str_eqb_neq in H1, H2.
  pose proof (split_on_no_sep sep s) as Hs. rewrite Forall_forall in Hs.
  auto.
Qed.

Lemma Path_root_ok (s : str) : root_ok (Path s).
Proof.
  unfold root_ok, Path. cbn [pp_root].
  destruct (startswith s [sep; sep] && negb (startswith s [sep; sep; sep])); auto.
  destruct (startswith s [sep]); auto.
Qed.

Lemma Path_parts_ok (s : str) : parts_ok (Path s).
Proof.
  unfold parts_ok. eapply Forall_impl; [|apply Path_parts]. cbv beta. tauto.
Qed.

Lemma existsb_join_with (c : N) (s : str) (parts : list str) :
  existsb (N.eqb c) s = false ->
  Forall (fun x => existsb (N.eqb c) x = false) parts ->
  existsb (N.eqb c) (join_with s parts) = false.
Proof.
  intros Hs. induction 1 as [|x parts Hx Hp IH]; [reflexivity|].
  destruct parts as [|y parts]; [exact Hx|].
  change (join_with s (x :: y :: parts)) with (x ++ s ++ join_with s (y :: parts)).
  rewrite !existsb_app, Hx, Hs, IH. reflexivity.
Qed.

(** The name of the working copy is a proper name when the names and
    the reading of the clock it is made of hold no separator. *)
Lemma copy_name_proper (old_realm new_realm : str) (old_char new_char : option str)
      (timestamp : str) :
  no_separator old_realm -> no_separator new_realm ->
  none_or_no_separator old_char -> none_or_no_separator new_char ->
  no_separator timestamp ->
  proper_name (lit "WTF_migrated_"
               ++ copy_name_of old_realm new_realm old_char new_char timestamp)
  = true.
Proof.
  unfold no_separator. intros H1 H2 H3 H4 H5.
  assert (N : existsb (N.eqb sep)
                (copy_name_of old_realm new_realm old_char new_char timestamp)
              = false).
  { unfold copy_name_of. apply existsb_join_with; [reflexivity|].
    assert (R : existsb (N.eqb sep) (old_realm ++ lit "_to_" ++ new_realm) = false)
      by (rewrite !existsb_app, H1, H2; reflexivity).
    destruct old_char as [oc|], new_char as [nc|]; cbn [none_or_no_separator] in *;
      try (repeat constructor; assumption).
    destruct (truthy (Some oc) && truthy (Some nc));
      repeat constructor; try assumption.
    rewrite !existsb_app, H3, H4. reflexivity. }
  assert (L : 13 <= List.length
                     (lit "WTF_migrated_"
                      ++ copy_name_of old_realm new_realm old_char new_char timestamp)).
  { rewrite length_app. cbn. lia. }
  unfold proper_name. rewrite existsb_app, N.
  rewrite !andb_true_iff, !negb_true_iff, !str_eqb_neq.
  repeat split; try reflexivity; intros E; rewrite E in L; cbn in L; lia.
Qed.

(** ** Computations that stay within a zone of the tree *)

Lemma confined_refl (c : list str) (st : state) : confined c st st.
Proof. split; auto. Qed.

Lemma confined_trans (c : list str) (st1 st2 st3 : state) :
  confined c st1 st2 -> confined c st2 st3 -> confined c st1 st3.
Proof.
  intros [W1 F1] [W2 F2]. split; [congruence|].
  intros q Hq. rewrite F2, F1; auto.
Qed.

Lemma walk_node_dir (top : str) (es : list (str * node)) :
  walk_node top (Dir es)
  = (top, dir_names es, file_names es) :: walk_entries top es.
Proof.
  cbn [walk_node]. f_equal.
  induction es as [|[x ch] es IH]; [reflexivity|].
  cbn [walk_entries]. rewrite <- IH. reflexivity.
Qed.

Lemma in_walk_entries (top : str) (es : list (str * node))
      (e : str * list str * list str) :
  In e (walk_entries top es) ->
  exists name ch, In (name, ch) es /\ In e (walk_node (os_path_join top name) ch).
Proof.
  induction es as [|[x ch] es IH]; [intros []|]. cbn [walk_entries].
  intros H. apply in_app_or in H. destruct H as [H|H].
  - exists x, ch. split; [now left|exact H].
  - destruct (IH H) as (name & ch' & Hin & Hw). exists name, ch'.
    split; [now right|exact Hw].
Qed.

Lemma filter_names_proper (es : list (str * node)) (f : str * node -> bool) :
  names_ok (Dir es) = true ->
  Forall (fun x => proper_name x = true) (List.map fst (filter f es)).
Proof.
  intros H. apply names_ok_listing in H. rewrite Forall_forall in *.
  intros x Hx. apply H. apply in_map_iff in Hx. destruct Hx as (e & <- & He).
  apply filter_In in He. apply in_map. tauto.
Qed.

(** The directories a walk reports are reached from its top through
    proper names, and the names it lists are proper names. *)
Lemma walk_node_paths : forall (n : node),
  names_ok n = true ->
  forall top root dirs files,
    In (root, dirs, files) (walk_node top n) ->
    exists names,
      Forall (fun x => proper_name x = true) names
      /\ root = path_under top names
      /\ Forall (fun x => proper_name x = true) dirs
      /\ Forall (fun x => proper_name x = true) files.
Proof.
  induction n as [r w d|es IH] using node_induction; intros Hn top root dirs files Hin;
    [destruct Hin|].
  rewrite walk_node_dir in Hin. destruct Hin as [Hin|Hin].
  - injection Hin as <- <- <-. exists []. repeat split.
    + constructor.
    + apply filter_names_proper, Hn.
    + apply filter_names_proper, Hn.
  - apply in_walk_entries in Hin. destruct Hin as (name & ch & Hes & Hw).
    rewrite Forall_forall in IH. specialize (IH _ Hes). cbn [snd] in IH.
    rewrite names_ok_dir, forallb_forall in Hn. specialize (Hn _ Hes).
    cbn [fst snd] in Hn. apply andb_true_iff in Hn. destruct Hn as [Pn Hc].
    destruct (IH Hc _ _ _ _ Hw) as (names & Pnames & -> & Pd & Pf).
    exists (name :: names). repeat split; auto.
Qed.

(** A zone is a set of locations that is closed under going down; a
    frame is what a change within the zone keeps of the tree. *)
Section Frames.
Variable cwd : list str.
Variable zone : list str -> Prop.
Variable frame : node -> node -> Prop.
Hypothesis cwd_proper : Forall (fun x => proper_name x = true) cwd.
Hypothesis zone_below : forall p r, zone p -> zone (p ++ r).
Hypothesis frame_refl : forall root, frame root root.
Hypothesis frame_trans :
  forall a b d, frame a b -> frame b d -> frame a d.
Hypothesis frame_alter :
  forall p f root, zone p -> frame root (alter_at p f root).
Hypothesis frame_graft :
  forall d leaf root r,
    zone d -> graft d leaf root = Ret r -> frame root r.

Lemma kept_refl (st : state) : kept frame st st.
Proof. split; auto. Qed.

Lemma kept_trans (st1 st2 st3 : state) :
  kept frame st1 st2 -> kept frame st2 st3 -> kept frame st1 st3.
Proof. intros [W1 F1] [W2 F2]. split; [congruence|eauto]. Qed.

Lemma kw_ret {A} (a : A) (Q : A -> Prop) : Q a -> keeps cwd frame (ret a) Q.
Proof.
  intros HQ st res st' Hok E. injection E as <- <-.
  auto using kept_refl.
Qed.

Lemma kw_raise {A} (e : exn) (Q : A -> Prop) : keeps cwd frame (raise e) Q.
Proof.
  intros st res st' Hok E. injection E as <- <-. auto using kept_refl.
Qed.

Lemma kw_bind {A B} (m : M A) (k : A -> M B) (Q : A -> Prop) (Q' : B -> Prop) :
  keeps cwd frame m Q ->
  (forall a, Q a -> keeps cwd frame (k a) Q') ->
  keeps cwd frame (bind m k) Q'.
Proof.
  intros Hm Hk st res st' Hok E. unfold bind in E.
  destruct (m st) as [[a|e] st1] eqn:Em;
    destruct (Hm _ _ _ Hok Em) as (Hok1 & F1 & HQ).
  - destruct (Hk a HQ _ _ _ Hok1 E) as (Hok2 & F2 & HQ').
    eauto using kept_trans.
  - injection E as <- <-. auto.
Qed.

Lemma kw_weaken {A} (m : M A) (Q Q' : A -> Prop) :
  keeps cwd frame m Q -> (forall a, Q a -> Q' a) -> keeps cwd frame m Q'.
Proof.
  intros Hm HQ st res st' Hok E. destruct (Hm _ _ _ Hok E) as (H1 & H2 & H3).
  split; [exact H1|]. split; [exact H2|]. destruct res; auto.
Qed.

Lemma kw_try {A} (m : M A) (h : exn -> M A) (Q : A -> Prop) :
  keeps cwd frame m Q ->
  (forall e, keeps cwd frame (h e) Q) ->
  keeps cwd frame (try_except m h) Q.
Proof.
  intros Hm Hh st res st' Hok E. unfold try_except in E.
  destruct (m st) as [[a|e] st1] eqn:Em;
    destruct (Hm _ _ _ Hok Em) as (Hok1 & F1 & HQ).
  - injection E as <- <-. auto.
  - destruct (Hh e _ _ _ Hok1 E) as (Hok2 & F2 & HQ').
    eauto using kept_trans.
Qed.

Lemma kw_for_each {A} (l : list A) (body : A -> M unit) :
  (forall x, In x l -> keeps cwd frame (body x) anything) ->
  keeps cwd frame (for_each l body) anything.
Proof.
  induction l as [|x l IH]; intros H; cbn [for_each].
  - apply kw_ret. exact I.
  - eapply kw_bind; [apply H; now left|]. intros _ _. apply IH.
    intros y Hy. apply H. now right.
Qed.

(** A computation that leaves the tree, the working directory and the
    working path as they are. *)
Lemma kw_still {A} (m : M A) (Q : A -> Prop) :
  (forall st, st_root (snd (m st)) = st_root st
              /\ st_cwd (snd (m st)) = st_cwd st
              /\ st_working (snd (m st)) = st_working st
              /\ match fst (m st) with
                 | Ret a => state_ok cwd st -> Q a
                 | Raise _ => True
                 end) ->
  keeps cwd frame m Q.
Proof.
  intros H st res st' [Hc Hn] E. specialize (H st). rewrite E in H.
  cbn [fst snd] in H. destruct H as (R & C & W & HQ).
  split; [split; congruence|]. split; [split; [exact W|rewrite R; auto]|].
  destruct res; auto. apply HQ. split; auto.
Qed.

Lemma kw_log (lv : level) (msg : message) :
  keeps cwd frame (log lv msg) anything.
Proof. apply kw_still. intros st. cbn. repeat split. Qed.

Lemma kw_record_change (ch : change) :
  keeps cwd frame (record_change ch) anything.
Proof. apply kw_still. intros st. cbn. repeat split. Qed.

Lemma kw_gets {A} (f : state -> A) : keeps cwd frame (gets f) anything.
Proof. apply kw_still. intros st. cbn. repeat split. Qed.

Lemma kw_time_time : keeps cwd frame time_time anything.
Proof. apply kw_still. intros st. cbn. repeat split. Qed.

Lemma kw_exists (path : str) : keeps cwd frame (os_path_exists path) anything.
Proof. apply kw_gets. Qed.

Lemma kw_isdir (path : str) : keeps cwd frame (os_path_isdir path) anything.
Proof. apply kw_gets. Qed.

(** The names a listing returns are proper. *)
Lemma kw_listdir (path : str) :
  keeps cwd frame (os_listdir path)
               (Forall (fun x => proper_name x = true)).
Proof.
  apply kw_still. intros st. unfold os_listdir.
  destruct (node_at path st) as [[r w d|es]|] eqn:G; cbn; repeat split.
  intros [_ Hn]. apply names_ok_listing.
  eapply names_ok_get; [exact Hn|exact G].
Qed.

Lemma kept_root (st : state) (r : node) :
  frame (st_root st) r -> kept frame st (with_root r st).
Proof. intros H. split; [reflexivity|exact H]. Qed.

Lemma frame_put_del (s d : list str) (v root : node) :
  zone s -> zone d -> frame root (put d v (del s root)).
Proof.
  intros Hs Hd. unfold put, del.
  eapply frame_trans; apply frame_alter; assumption.
Qed.

(** What a successful [rename] leaves. *)
Lemma rename_loc_cases (s d : list str) (root r : node) :
  rename_loc s d root = Ret r ->
  r = root \/ exists sn, get s root = Some sn /\ r = put d sn (del s root).
Proof.
  unfold rename_loc. destruct (get s root) as [sn|]; [|discriminate].
  destruct d as [|x d]; [discriminate|].
  destruct (get (removelast (x :: d)) root) as [[|es]|]; try discriminate.
  destruct (loc_eqb s (x :: d)); [intros H; injection H; auto|].
  destruct (below s (x :: d)); [discriminate|].
  destruct sn as [r0 w0 d0|es0], (get (x :: d) root) as [[r1 w1 d1|[|e1 es1]]|];
    try discriminate; intros H; injection H as <-; right; eauto.
Qed.

Lemma rename_loc_confined (s d : list str) (root r : node) :
  names_ok root = true ->
  Forall (fun x => proper_name x = true) s ->
  Forall (fun x => proper_name x = true) d ->
  zone s -> zone d ->
  rename_loc s d root = Ret r ->
  names_ok r = true /\ frame root r.
Proof.
  intros Hn Ps Pd Hs Hd E. apply rename_loc_cases in E.
  destruct E as [->|(sn & G & ->)]; [auto|]. split.
  - apply names_ok_put; auto; [apply names_ok_del; auto|].
    eapply names_ok_get; eauto.
  - apply frame_put_del; auto.
Qed.

Lemma kw_rename (src dst : str) :
  zone (locate cwd src) -> zone (locate cwd dst) ->
  keeps cwd frame (os_rename src dst) anything.
Proof.
  intros Hs Hd st res st' [Hc Hn] E. unfold os_rename in E. rewrite Hc in E.
  destruct (rename_loc (locate cwd src) (locate cwd dst) (st_root st))
    as [r|e] eqn:R; injection E as <- <-.
  - destruct (rename_loc_confined _ _ _ _ Hn (locate_proper _ _ cwd_proper)
                (locate_proper _ _ cwd_proper) Hs Hd R) as [Hr Hf].
    split; [split; auto|]. split; [apply kept_root, Hf|exact I].
  - split; [split; auto|]. split; [apply kept_refl|exact I].
Qed.

Lemma kw_rmdir (path : str) :
  zone (locate cwd path) ->
  keeps cwd frame (os_rmdir path) anything.
Proof.
  intros Hp st res st' [Hc Hn] E. unfold os_rmdir, node_at in E. rewrite Hc in E.
  assert (Same : state_ok cwd st /\ kept frame st st /\ True)
    by (split; [split; auto|split; [apply kept_refl|exact I]]).
  destruct (get (locate cwd path) (st_root st)) as [[r w d|[|e es]]|];
    try (injection E as <- <-; exact Same).
  destruct (locate cwd path) as [|x p] eqn:L;
    [injection E as <- <-; exact Same|].
  injection E as <- <-. rewrite <- L in *. split; [split; [exact Hc|]|].
  - apply names_ok_del; auto. apply locate_proper, cwd_proper.
  - split; [|exact I]. apply kept_root. unfold del. apply frame_alter, Hp.
Qed.

Lemma copytree_loc_kept (s d : list str) (root root' : node)
      (res : outcome unit) :
  names_ok root = true ->
  Forall (fun x => proper_name x = true) d ->
  zone d ->
  copytree_loc s d root = (res, root') ->
  names_ok root' = true /\ frame root root'.
Proof.
  intros Hn Pd Hd E. unfold copytree_loc in E.
  destruct (get s root) as [[r w dt|es]|] eqn:G;
    try (injection E as <- <-; auto; fail).
  set (inside := match skipn (List.length s) d with
                 | x :: _ :: _ => _
                 | _ => false
                 end) in E.
  pose proof (names_ok_copy_node (Dir es) (names_ok_get _ _ _ Hn G)) as Hcp.
  destruct (copy_node (Dir es)) as [cp bad]. cbn [fst] in Hcp.
  destruct (graft d (if inside then Dir [] else cp) root) as [r1|e] eqn:Gr.
  - assert (names_ok r1 = true /\ frame root r1) as H.
    { split.
      - eapply names_ok_graft; [exact Hn| |exact Pd|exact Gr].
        destruct inside; [reflexivity|exact Hcp].
      - eapply frame_graft; [exact Hd|exact Gr]. }
    destruct inside; [injection E as <- <-; exact H|].
    destruct bad; injection E as <- <-; exact H.
  - injection E as <- <-. auto.
Qed.

(** The rename, or the copy and removal, by which [shutil.move] moves
    [s] to [rd]. *)
Lemma move_step_kept (st st' : state) (s rd : list str) (inside : bool)
      (res : outcome unit) :
  state_ok cwd st ->
  Forall (fun x => proper_name x = true) s ->
  Forall (fun x => proper_name x = true) rd ->
  zone s -> zone rd ->
  match rename_loc s rd (st_root st) with
  | Ret r => (Ret tt, with_root r st)
  | Raise e =>
      match get s (st_root st) with
      | Some (Dir _) =>
          if inside then (Raise ShutilError, st)
          else match copytree_loc s rd (st_root st) with
               | (Ret _, r) => (Ret tt, with_root (del s r) st)
               | (Raise e', r) => (Raise e', with_root r st)
               end
      | _ => (Raise e, st)
      end
  end = (res, st') ->
  state_ok cwd st' /\ kept frame st st'.
Proof.
  intros [Hc Hn] Ps Prd Hs Hrd E.
  assert (Same : state_ok cwd st /\ kept frame st st)
    by (split; [split; auto|apply kept_refl]).
  destruct (rename_loc s rd (st_root st)) as [r|e] eqn:R.
  - injection E as <- <-.
    destruct (rename_loc_confined _ _ _ _ Hn Ps Prd Hs Hrd R) as [Hr Hf].
    split; [split; auto|apply kept_root, Hf].
  - destruct (get s (st_root st)) as [[r w dt|es]|];
      try (injection E as <- <-; exact Same).
    destruct inside; [injection E as <- <-; exact Same|].
    destruct (copytree_loc s rd (st_root st)) as [[u|e'] r] eqn:C;
      destruct (copytree_loc_kept _ _ _ _ _ Hn Prd Hrd C) as [Hr Hf];
      injection E as <- <-.
    + split; [split; [exact Hc|apply names_ok_del; auto]|].
      apply kept_root. cbn [st_root]. eapply frame_trans; [exact Hf|].
      unfold del. apply frame_alter, Hs.
    + split; [split; auto|apply kept_root, Hf].
Qed.

Lemma kw_move (src dst : str) :
  zone (locate cwd src) -> zone (locate cwd dst) ->
  zone (locate cwd (os_path_join dst (os_path_basename (rstrip sep src)))) ->
  keeps cwd frame (shutil_move src dst) anything.
Proof.
  intros Hs Hd Hrd st res st' Hok E.
  assert (Same : state_ok cwd st /\ kept frame st st)
    by (split; [exact Hok|apply kept_refl]).
  enough (state_ok cwd st' /\ kept frame st st') as [H1 H2]
      by (split; [exact H1|]; split; [exact H2|]; destruct res; exact I).
  pose proof Hok as [Hc Hn].
  unfold shutil_move in E. rewrite Hc in E. cbv zeta in E.
  pose proof (locate_proper cwd src cwd_proper) as Ps.
  pose proof (locate_proper cwd dst cwd_proper) as Pd.
  destruct (get (locate cwd dst) (st_root st)) as [[r w dt|es]|].
  - exact (move_step_kept st st' _ _ _ res Hok Ps Pd Hs Hd E).
  - destruct (loc_eqb (locate cwd src) (locate cwd dst));
      [injection E as <- <-; exact Same|].
    destruct (get (locate cwd (os_path_join dst (os_path_basename (rstrip sep src))))
                  (st_root st));
      [injection E as <- <-; exact Same|].
    exact (move_step_kept st st' _ _ _ res Hok Ps
             (locate_proper cwd _ cwd_proper) Hs Hrd E).
  - exact (move_step_kept st st' _ _ _ res Hok Ps Pd Hs Hd E).
Qed.

Lemma join_suffix (a b : str) :
  proper_name b = true -> exists x, os_path_join a b = x ++ b.
Proof.
  intros Hb. unfold os_path_join. rewrite (proper_not_absolute b Hb).
  destruct a as [|ch a]; [now exists []|].
  destruct (endswith (ch :: a) [sep]); [now exists (ch :: a)|].
  exists ((ch :: a) ++ [sep]). rewrite <- app_assoc. reflexivity.
Qed.

Lemma rstrip_join (a b : str) :
  proper_name b = true -> rstrip sep (os_path_join a b) = os_path_join a b.
Proof.
  intros Hb. destruct (join_suffix a b Hb) as [x ->].
  pose proof (proper_name_inv b Hb) as (Hne & Hn & _).
  destruct (exists_last Hne) as (b0 & d & ->).
  rewrite app_assoc, rstrip_snoc.
  rewrite existsb_app in Hn. apply orb_false_iff in Hn. destruct Hn as [_ Hn].
  cbn [existsb] in Hn. rewrite orb_false_r in Hn. rewrite N.eqb_sym, Hn.
  reflexivity.
Qed.

Lemma join_app (a b s : str) :
  proper_name b = true -> os_path_join a (b ++ s) = os_path_join a b ++ s.
Proof.
  intros Hb. pose proof (proper_not_absolute b Hb) as Hs.
  pose proof (proper_name_inv b Hb) as (Hne & _).
  unfold os_path_join.
  replace (startswith (b ++ s) [sep]) with (startswith b [sep])
    by (destruct b; [congruence|reflexivity]).
  rewrite Hs. destruct a as [|ch a]; [reflexivity|].
  destruct (endswith (ch :: a) [sep]).
  - rewrite app_assoc. reflexivity.
  - rewrite <- !app_assoc. reflexivity.
Qed.

Lemma digits_no_sep (d : Decimal.uint) :
  existsb (N.eqb sep) (lit (NilEmpty.string_of_uint d)) = false.
Proof. induction d; cbn; auto. Qed.

Lemma str_of_int_no_sep (z : Z) : existsb (N.eqb sep) (str_of_int z) = false.
Proof.
  unfold str_of_int. destruct (Z.to_int z) as [d|d]; cbn [NilEmpty.string_of_int].
  - apply digits_no_sep.
  - cbn. apply digits_no_sep.
Qed.

(** The name of a backup is a proper name. *)
Lemma backup_name_proper (item : str) (now : Z) :
  proper_name item = true ->
  proper_name (item ++ lit ".backup_" ++ str_of_int now) = true.
Proof.
  intros Hi. pose proof (proper_name_inv item Hi) as (Hne & Hn & _).
  assert (L : 8 <= List.length (item ++ lit ".backup_" ++ str_of_int now)).
  { rewrite !length_app. cbn. lia. }
  unfold proper_name. rewrite !existsb_app, Hn, str_of_int_no_sep.
  rewrite !andb_true_iff, !negb_true_iff, !str_eqb_neq.
  repeat split; try reflexivity; intros E; rewrite E in L; cbn in L; lia.
Qed.

Lemma zone_join (a b : str) :
  zone (locate cwd a) -> proper_name b = true ->
  zone (locate cwd (os_path_join a b)).
Proof.
  intros Ha Hb. rewrite locate_join by exact Hb. apply zone_below, Ha.
Qed.

(** Moving an entry [item] from one place of the zone to another. *)
Lemma kw_move_item (src item dst : str) :
  zone (locate cwd src) -> proper_name item = true ->
  zone (locate cwd dst) ->
  rstrip sep src = src -> os_path_basename src = item ->
  keeps cwd frame (shutil_move src dst) anything.
Proof.
  intros Hs Hi Hd E1 E2. apply kw_move; [exact Hs|exact Hd|].
  rewrite E1, E2. apply zone_join; auto.
Qed.

Lemma zone_under_zone (path : str) :
  zone (locate cwd path) -> zone_under cwd zone path.
Proof. intros H x _. apply zone_below, H. Qed.

(** A merge works at the source, below it, and below the target. *)
Lemma kw_merge : forall (fuel : nat) (source_dir target_dir : str),
  zone (locate cwd source_dir) -> zone_under cwd zone target_dir ->
  keeps cwd frame (_merge_directories fuel source_dir target_dir) anything.
Proof.
  induction fuel as [|fuel IH]; intros s t Hs Ht; cbn [_merge_directories].
  - apply kw_raise.
  - eapply kw_bind; [apply kw_listdir|]. intros items Hitems.
    eapply kw_bind.
    + apply kw_for_each. intros item Hin.
      rewrite Forall_forall in Hitems. specialize (Hitems item Hin).
      pose proof (zone_join s item Hs Hitems) as Hsi.
      assert (Hti : zone (locate cwd (os_path_join t item)))
        by (rewrite locate_join by exact Hitems; apply Ht, Hitems).
      assert (Mv : forall src,
                 zone (locate cwd src) -> rstrip sep src = src ->
                 os_path_basename src = item ->
                 keeps cwd frame (shutil_move src (os_path_join t item)) anything)
        by (intros src H1 H2 H3; apply (kw_move_item src item); assumption).
      eapply kw_bind; [apply kw_isdir|]. intros [|] _.
      * eapply kw_bind; [apply kw_exists|]. intros [|] _.
        -- apply IH; [assumption|apply zone_under_zone, Hti].
        -- apply Mv; [assumption|apply rstrip_join|apply basename_join];
             exact Hitems.
      * eapply kw_bind; [apply kw_exists|]. intros target_exists _.
        eapply kw_bind with (Q := anything).
        -- destruct target_exists; [|apply kw_ret; exact I].
           eapply kw_bind; [apply kw_time_time|]. intros now _.
           eapply kw_bind; [|intros _ _; apply kw_log].
           pose proof (backup_name_proper item now Hitems) as Hb.
           apply (kw_move_item _ item);
             [exact Hti|exact Hitems| |apply rstrip_join|apply basename_join];
             try exact Hitems.
           rewrite <- join_app by exact Hitems.
           rewrite locate_join by exact Hb. apply Ht, Hb.
        -- intros _ _.
           apply Mv; [assumption|apply rstrip_join|apply basename_join];
             exact Hitems.
    + intros _ _. eapply kw_bind; [apply kw_listdir|]. intros remaining _.
      destruct remaining; [apply kw_rmdir; exact Hs|apply kw_ret; exact I].
Qed.

(** The merge of one round, with its handler. *)
Lemma kw_merge_step (dir_path new_path : str) :
  zone (locate cwd dir_path) -> zone_under cwd zone new_path ->
  keeps cwd frame
        (try_except
           (fuel <- gets st_depth ;;
            _merge_directories fuel dir_path new_path ;;
            log INFO (MsgMerged dir_path new_path) ;;
            ret true)
           (fun e => log ERROR (MsgMergeFailed dir_path new_path e) ;;
                     ret false))
        anything.
Proof.
  intros Hs Ht. apply kw_try.
  - eapply kw_bind; [apply kw_gets|]. intros fuel _.
    eapply kw_bind; [apply kw_merge; assumption|]. intros _ _.
    eapply kw_bind; [apply kw_log|]. intros _ _. apply kw_ret. exact I.
  - intros e. eapply kw_bind; [apply kw_log|]. intros _ _.
    apply kw_ret. exact I.
Qed.

Lemma find_new_name_in (m : dict) (dir_name new_name : str) :
  find_new_name m dir_name = Some new_name -> In (dir_name, new_name) m.
Proof.
  induction m as [|[k v] m IH]; [discriminate|]. cbn [find_new_name].
  destruct (str_eqb dir_name k) eqn:E.
  - apply str_eqb_eq in E. subst k. intros H. injection H as ->. now left.
  - intros H. right. auto.
Qed.

(** The new path of a directory of the zone lies in the zone. *)
Lemma rename_target_zone (m : dict) (root name new_path : str) :
  Forall (fun e => proper_name (snd e) = true) m ->
  zone (locate cwd root) -> proper_name name = true ->
  rename_target m (os_path_join root name) = Some new_path ->
  zone (locate cwd new_path).
Proof.
  intros Hm Hr Hn. unfold rename_target.
  destruct (find_new_name m _) as [new_name|] eqn:F; [|discriminate].
  destruct (truthy (Some new_name) && negb (str_eqb new_name _)); [|discriminate].
  intros H. injection H as <-.
  apply find_new_name_in in F. rewrite Forall_forall in Hm.
  specialize (Hm _ F). cbn [snd] in Hm.
  rewrite locate_join by exact Hm.
  rewrite locate_dirname_join by exact Hn.
  apply zone_below, Hr.
Qed.

Lemma kw_rename_one (self : WoWUIMigrator) (m : dict) (root name : str) :
  Forall (fun e => proper_name (snd e) = true) m ->
  zone (locate cwd root) -> proper_name name = true ->
  keeps cwd frame (rename_one self m (os_path_join root name)) anything.
Proof.
  intros Hm Hr Hn. unfold rename_one.
  destruct (rename_target m (os_path_join root name)) as [new_path|] eqn:T;
    [|apply kw_ret; exact I].
  pose proof (rename_target_zone _ _ _ _ Hm Hr Hn T) as Hnew.
  pose proof (zone_join root name Hr Hn) as Hdir.
  eapply kw_bind with (Q := anything).
  - destruct (negb (dry_run self)).
    + eapply kw_bind; [apply kw_exists|]. intros [|] _.
      * eapply kw_bind; [apply kw_log|]. intros _ _.
        apply kw_try.
        -- eapply kw_bind; [apply kw_gets|]. intros fuel _.
           eapply kw_bind;
             [apply kw_merge; [assumption|apply zone_under_zone; assumption]|].
           intros _ _.
           eapply kw_bind; [apply kw_log|]. intros _ _. apply kw_ret. exact I.
        -- intros e. eapply kw_bind; [apply kw_log|]. intros _ _.
           apply kw_ret. exact I.
      * eapply kw_bind; [apply kw_rename; assumption|]. intros _ _.
        eapply kw_bind; [apply kw_log|]. intros _ _. apply kw_ret. exact I.
    + eapply kw_bind; [apply kw_log|]. intros _ _. apply kw_ret. exact I.
  - intros [|] _; [|apply kw_ret; exact I].
    eapply kw_bind; [apply kw_record_change|]. intros _ _. apply kw_ret. exact I.
Qed.

Lemma kw_rename_each (self : WoWUIMigrator) (m : dict) (all_dirs : list (str * nat)) :
  Forall (fun e => proper_name (snd e) = true) m ->
  Forall (fun d => exists root name,
                     fst d = os_path_join root name
                     /\ zone (locate cwd root) /\ proper_name name = true)
         all_dirs ->
  keeps cwd frame (rename_each self m all_dirs) anything.
Proof.
  intros Hm Hd. induction Hd as [|[dir_path depth] rest (root & name & E & Hr & Hn) _ IH];
    cbn [rename_each]; [apply kw_ret; exact I|].
  cbn [fst] in E. subst dir_path.
  eapply kw_bind; [apply kw_rename_one; assumption|]. intros renamed _.
  eapply kw_bind; [exact IH|]. intros more _. apply kw_ret. exact I.
Qed.

Lemma locate_path_under : forall (names : list str) (top : str),
  Forall (fun x => proper_name x = true) names ->
  locate cwd (path_under top names) = locate cwd top ++ names.
Proof.
  unfold path_under.
  induction names as [|x names IH]; intros top P; cbn [fold_left].
  - symmetry. apply app_nil_r.
  - inversion P; subst. rewrite IH by assumption.
    rewrite locate_join by assumption. rewrite <- app_assoc. reflexivity.
Qed.

(** Every directory of the walk from a path of the zone lies in the
    zone. *)
Lemma walk_roots_zone (st : state) (w root : str) (dirs files : list str) :
  state_ok cwd st -> zone (locate cwd w) ->
  In (root, dirs, files) (match node_at w st with
                          | Some n => walk_node w n
                          | None => []
                          end) ->
  zone (locate cwd root)
  /\ Forall (fun x => proper_name x = true) dirs
  /\ Forall (fun x => proper_name x = true) files.
Proof.
  intros [Hc Hn] Hw Hin. destruct (node_at w st) as [n|] eqn:G; [|destruct Hin].
  unfold node_at in G.
  destruct (walk_node_paths n (names_ok_get _ _ _ Hn G) _ _ _ _ Hin)
    as (names & Pn & -> & Pd & Pf).
  rewrite locate_path_under by exact Pn.
  repeat split; auto.
Qed.

Lemma rename_folders_kept (self : WoWUIMigrator) (m : dict)
      (old_account : option str) (st st' : state)
      (res : outcome (list (str * str))) :
  Forall (fun e => proper_name (snd e) = true) m ->
  state_ok cwd st -> zone (locate cwd (st_working st)) ->
  rename_folders self m old_account st = (res, st') ->
  state_ok cwd st' /\ kept frame st st'.
Proof.
  intros Hm Hok Hw E.
  change (rename_each self m (processing_order old_account st) st = (res, st')) in E.
  enough (keeps cwd frame
            (rename_each self m (processing_order old_account st)) anything) as K
      by (destruct (K _ _ _ Hok E) as (? & ? & _); auto).
  apply kw_rename_each; [exact Hm|].
  unfold processing_order.
  eapply Permutation_Forall; [apply sort_deepest_first_perm|].
  apply Forall_forall. intros [p d] Hin. unfold enumerated_dirs, collect_dirs in Hin.
  apply in_flat_map in Hin. destruct Hin as ([[root dirs] files] & Hwalk & Hin).
  apply in_flat_map in Hin. destruct Hin as (dir_name & Hd & Hin).
  destruct (rename_in_scope _ _ _ _); [|destruct Hin].
  destruct Hin as [Hin|[]]. injection Hin as <- <-.
  destruct (walk_roots_zone st _ _ _ _ Hok Hw Hwalk) as (Hr & Pd & _).
  rewrite Forall_forall in Pd. exists root, dir_name. auto.
Qed.

Section Passes.
Context {db : UnicodeDb}.

Lemma run_updates_kept (self : WoWUIMigrator) (m : dict) :
  forall (paths : list str) (st : state),
    state_ok cwd st ->
    Forall (fun fp => zone (locate cwd fp)) paths ->
    state_ok cwd (snd (run_updates self m paths st))
    /\ kept frame st (snd (run_updates self m paths st)).
Proof.
  induction paths as [|fp paths IH]; intros st Hok P;
    [split; [exact Hok|apply kept_refl]|].
  inversion P as [|? ? Hfp Hrest]; subst. cbn [run_updates].
  pose proof (update_one_root self m fp st) as (Cw & W & _ & R).
  destruct (update_one_result self m fp st) as [l1 st1]. cbn [fst snd] in *.
  assert (H1 : state_ok cwd st1 /\ kept frame st st1).
  { destruct Hok as [Hc Hn]. destruct R as [R|(data & bs & G & _ & R)].
    - split; [split; congruence|]. split; [exact W|rewrite R; apply frame_refl].
    - rewrite Hc in *. split; [split; [congruence|]|].
      + rewrite R. apply names_ok_put; auto. apply locate_proper, cwd_proper.
      + split; [exact W|]. rewrite R. unfold put. apply frame_alter, Hfp. }
  destruct H1 as [Hok1 F1]. specialize (IH st1 Hok1 Hrest).
  destruct (run_updates self m paths st1) as [l2 st2]. cbn [fst snd] in *.
  destruct IH as [Hok2 F2]. eauto using kept_trans.
Qed.

Lemma update_file_contents_kept (self : WoWUIMigrator) (m : dict)
      (old_account : option str) (st st' : state) (res : outcome (list str)) :
  state_ok cwd st -> zone (locate cwd (st_working st)) ->
  update_file_contents self m old_account st = (res, st') ->
  state_ok cwd st' /\ kept frame st st'.
Proof.
  intros Hok Hw E. rewrite update_file_contents_run in E.
  injection E as _ <-. apply run_updates_kept; [exact Hok|].
  apply Forall_forall. intros fp Hin. unfold targets_of, rewrite_targets in Hin.
  apply in_flat_map in Hin. destruct Hin as ([[root dirs] files] & Hwalk & Hin).
  destruct (rewrite_in_scope _ _ _ _); [|destruct Hin].
  apply in_map_iff in Hin. destruct Hin as (f & <- & Hf).
  apply filter_In in Hf. destruct Hf as [Hf _].
  destruct (walk_roots_zone st _ _ _ _ Hok Hw Hwalk) as (Hr & _ & Pf).
  rewrite Forall_forall in Pf. apply zone_join; auto.
Qed.

End Passes.

End Frames.

(** ** What lies apart from a location *)

Section Confinement.
Variables cwd c : list str.
Hypothesis cwd_proper : Forall (fun x => proper_name x = true) cwd.

Lemma within_below (p r : list str) : within c p -> within c (p ++ r).
Proof. intros H. eapply within_trans; [exact H|apply within_app]. Qed.

Lemma unchanged_refl (root : node) : unchanged_apart c root root.
Proof. intros q _. reflexivity. Qed.

Lemma unchanged_trans (a b d : node) :
  unchanged_apart c a b -> unchanged_apart c b d -> unchanged_apart c a d.
Proof. intros F1 F2 q Hq. rewrite F2, F1; auto. Qed.

Lemma unchanged_alter (p : list str) (f : option node -> option node)
      (root : node) :
  within c p -> unchanged_apart c root (alter_at p f root).
Proof.
  intros Hp q Hq. apply get_alter_at_apart. eauto using apart_from_below.
Qed.

Lemma unchanged_graft (d : list str) (leaf root r : node) :
  within c d -> graft d leaf root = Ret r -> unchanged_apart c root r.
Proof.
  intros Hd G q Hq. eapply get_graft_apart; [exact G|].
  eauto using apart_from_below.
Qed.

Lemma copytree_loc_confined (s d : list str) (root root' : node)
      (res : outcome unit) :
  names_ok root = true ->
  Forall (fun x => proper_name x = true) d ->
  within c d ->
  copytree_loc s d root = (res, root') ->
  names_ok root' = true
  /\ forall q, apart_from c q -> get q root' = get q root.
Proof.
  exact (copytree_loc_kept (within c) (unchanged_apart c) unchanged_refl
           unchanged_graft s d root root' res).
Qed.

Lemma rename_folders_confined (self : WoWUIMigrator) (m : dict)
      (old_account : option str) (st st' : state)
      (res : outcome (list (str * str))) :
  Forall (fun e => proper_name (snd e) = true) m ->
  state_ok cwd st -> within c (locate cwd (st_working st)) ->
  rename_folders self m old_account st = (res, st') ->
  state_ok cwd st' /\ confined c st st'.
Proof.
  exact (rename_folders_kept cwd (within c) (unchanged_apart c) cwd_proper
           within_below unchanged_refl unchanged_trans unchanged_alter
           unchanged_graft self m old_account st st' res).
Qed.

Lemma update_file_contents_confined {db : UnicodeDb} (self : WoWUIMigrator)
      (m : dict) (old_account : option str) (st st' : state)
      (res : outcome (list str)) :
  state_ok cwd st -> within c (locate cwd (st_working st)) ->
  update_file_contents self m old_account st = (res, st') ->
  state_ok cwd st' /\ confined c st st'.
Proof.
  exact (update_file_contents_kept cwd (within c) (unchanged_apart c) cwd_proper
           within_below unchanged_refl unchanged_trans unchanged_alter
           self m old_account st st' res).
Qed.

End Confinement.

(** ** The run of [migrate], step by step *)

Lemma same_but_log_refl (st : state) : same_but_log st st.
Proof. repeat split. Qed.

Lemma same_but_log_trans (a b d : state) :
  same_but_log a b -> same_but_log b d -> same_but_log a d.
Proof. unfold same_but_log. intuition congruence. Qed.

Lemma same_but_log_with_log (st : state) (l : list (level * message)) :
  same_but_log st (with_log l st).
Proof. repeat split. Qed.

Lemma bind_run {A B} (m : M A) (k : A -> M B) (st st1 : state) (a : A) :
  m st = (Ret a, st1) -> bind m k st = k a st1.
Proof. intros E. unfold bind. rewrite E. reflexivity. Qed.

(** What [create_migration_copy] does in a dry run: it reads the clock
    and logs the path it would copy to. *)
Lemma create_migration_copy_dry (self : WoWUIMigrator) (old_realm new_realm : str)
      (old_char new_char : option str) (st : state) :
  dry_run self = true ->
  create_migration_copy self old_realm new_realm old_char new_char st
  = (Ret (path_str (copy_path_of self old_realm new_realm old_char new_char
                                 (next_stamp st))),
     with_log (st_log st
               ++ [(INFO, MsgWouldCreateCopy
                            (path_str (copy_path_of self old_realm new_realm
                                                    old_char new_char
                                                    (next_stamp st))))])
              (with_ticks (S (st_ticks st)) st)).
Proof.
  intros Dry. unfold create_migration_copy, bind, time_strftime, read_clock, bind.
  cbn [ret]. rewrite Dry. reflexivity.
Qed.

(** What it does otherwise: the copy, at the path built from the clock. *)
Lemma create_migration_copy_real (self : WoWUIMigrator) (old_realm new_realm : str)
      (old_char new_char : option str) (st : state) :
  dry_run self = false ->
  let copy_path := path_str (copy_path_of self old_realm new_realm old_char
                                          new_char (next_stamp st)) in
  let st1 := with_log (st_log st ++ [(INFO, MsgCreatingCopy copy_path)])
                      (with_ticks (S (st_ticks st)) st) in
  create_migration_copy self old_realm new_realm old_char new_char st
  = match copytree_loc (locate (st_cwd st) (path_str (wtf_path self)))
                       (locate (st_cwd st) copy_path) (st_root st) with
    | (Ret _, root') => (Ret copy_path, with_working copy_path (with_root root' st1))
    | (Raise e, root') => (Raise e, with_root root' st1)
    end.
Proof.
  intros Dry. unfold create_migration_copy, bind, time_strftime, read_clock, bind.
  cbn [ret]. rewrite Dry. cbn [negb]. unfold log, shutil_copytree.
  cbn [st_cwd st_root with_log with_ticks].
  fold (next_stamp st). fold (copy_name_of old_realm new_realm old_char new_char (next_stamp st)).
  fold (copy_path_of self old_realm new_realm old_char new_char (next_stamp st)).
  destruct (copytree_loc _ _ (st_root st)) as [[u|e] root']; reflexivity.
Qed.

Lemma same_but_log_logged (msgs : list (level * message)) : forall st,
  same_but_log st (logged msgs st).
Proof.
  unfold logged. induction msgs as [|m msgs IH]; intros st; cbn [fold_left].
  - apply same_but_log_refl.
  - eapply same_but_log_trans; [|apply IH]. apply same_but_log_with_log.
Qed.

Lemma logged_app (a b : list (level * message)) (st : state) :
  logged (a ++ b) st = logged b (logged a st).
Proof. unfold logged. apply fold_left_app. Qed.

Lemma bind_log {B} (lv : level) (msg : message) (k : unit -> M B) (st : state) :
  bind (log lv msg) k st = k tt (logged [(lv, msg)] st).
Proof. reflexivity. Qed.

Lemma bind_gets {A B} (f : state -> A) (k : A -> M B) (st : state) :
  bind (gets f) k st = k (f st) st.
Proof. reflexivity. Qed.

Section MigrateRun.
Context {db : UnicodeDb}.

(** [migrate], by the outcome of each of its steps. *)
Lemma migrate_run (self : WoWUIMigrator) (old_realm new_realm : str)
      (old_char new_char old_account new_account : option str) (st : state) :
  migrate self old_realm new_realm old_char new_char old_account new_account st
  = let st1 := logged (opening_records self old_realm new_realm old_char new_char
                                       old_account new_account) st in
    match node_at (path_str (wtf_path self)) st1 with
    | None =>
        (Ret false, logged [(ERROR, MsgNotFound (path_str (wtf_path self)))] st1)
    | Some _ =>
        match create_migration_copy self old_realm new_realm old_char new_char st1 with
        | (Raise e, st2) => (Raise e, st2)
        | (Ret copy_path, st2) =>
            let st3 := logged [(INFO, MsgWorkingOn (st_working st2))] st2 in
            match rename_folders self
                    (get_folder_mappings (Some old_realm) (Some new_realm)
                                         old_char new_char old_account new_account)
                    old_account st3 with
            | (Raise e, st4) =>
                (Ret false, logged [(ERROR, MsgMigrationFailed e)] st4)
            | (Ret renamed_folders, st4) =>
                match update_file_contents self
                        (get_content_mappings (Some old_realm) (Some new_realm)
                                              old_char new_char old_account
                                              new_account)
                        old_account st4 with
                | (Raise e, st5) =>
                    (Ret false, logged [(ERROR, MsgMigrationFailed e)] st5)
                | (Ret updated_files, st5) =>
                    (Ret true,
                     logged (closing_records self (List.length renamed_folders)
                                             (List.length updated_files) copy_path)
                            st5)
                end
            end
        end
    end.
Proof.
  cbv zeta. unfold migrate. rewrite !bind_log.
  assert (E1 : forall (old new : option str) msg (s : state),
             match old, new with
             | Some o, Some n =>
                 if truthy old && truthy new then log INFO (msg o n) else ret tt
             | _, _ => ret tt
             end s = (Ret tt, logged (pair_record old new msg) s)).
  { intros [o|] [n|] msg s; try reflexivity. unfold pair_record.
    destruct (truthy (Some o) && truthy (Some n)); reflexivity. }
  rewrite (bind_run _ _ _ _ tt (E1 old_char new_char MsgCharacter _)).
  rewrite (bind_run _ _ _ _ tt (E1 old_account new_account MsgAccount _)).
  match goal with
  | |- bind _ _ ?s = _ =>
      assert (Hst : logged (opening_records self old_realm new_realm old_char
                                            new_char old_account new_account) st
                    = s)
        by (unfold opening_records; rewrite !logged_app; reflexivity);
        rewrite Hst; generalize s; clear Hst
  end.
  intros st1. unfold os_path_exists. rewrite bind_gets.
  destruct (node_at (path_str (wtf_path self)) st1) as [n|]; [|reflexivity].
  cbn [negb]. unfold bind at 1.
  destruct (create_migration_copy self old_realm new_realm old_char new_char st1)
    as [[copy_path|e] st2]; [|reflexivity].
  rewrite bind_gets, bind_log.
  unfold try_except. unfold bind at 1.
  destruct (rename_folders _ _ _ _) as [[renamed|e] st4]; [|reflexivity].
  unfold bind at 1.
  destruct (update_file_contents _ _ _ _) as [[updated|e] st5]; reflexivity.
Qed.

End MigrateRun.


(** ** Dry runs *)

Lemma rename_one_dry (self : WoWUIMigrator) (m : dict) (dir_path : str)
      (depth : nat) (st : state) :
  dry_run self = true ->
  exists st',
    rename_one self m dir_path st
    = (Ret (planned_renames m [(dir_path, depth)]), st')
    /\ st_root st' = st_root st /\ st_cwd st' = st_cwd st
    /\ st_working st' = st_working st
    /\ st_changes st'
       = st_changes st
         ++ List.map (fun p => FolderChange (fst p) (snd p))
                     (planned_renames m [(dir_path, depth)]).
Proof.
  intros Dry. unfold rename_one, planned_renames. cbn [flat_map fst].
  destruct (rename_target m dir_path) as [new_path|].
  - rewrite Dry. cbn [negb]. eexists. split; [reflexivity|].
    cbn. repeat split.
  - eexists. split; [reflexivity|]. cbn. rewrite app_nil_r. repeat split.
Qed.

Lemma planned_renames_cons (m : dict) (d : str * nat) (dirs : list (str * nat)) :
  planned_renames m (d :: dirs) = planned_renames m [d] ++ planned_renames m dirs.
Proof. unfold planned_renames. cbn [flat_map]. rewrite app_nil_r. reflexivity. Qed.

Lemma rename_each_dry (self : WoWUIMigrator) (m : dict) :
  dry_run self = true ->
  forall (dirs : list (str * nat)) (st : state),
  exists st',
    rename_each self m dirs st = (Ret (planned_renames m dirs), st')
    /\ st_root st' = st_root st /\ st_cwd st' = st_cwd st
    /\ st_working st' = st_working st
    /\ st_changes st'
       = st_changes st
         ++ List.map (fun p => FolderChange (fst p) (snd p)) (planned_renames m dirs).
Proof.
  intros Dry. induction dirs as [|[dir_path depth] dirs IH]; intros st.
  - exists st. cbn. rewrite app_nil_r. repeat split.
  - destruct (rename_one_dry self m dir_path depth st Dry)
      as (st1 & E1 & R1 & C1 & W1 & Ch1).
    destruct (IH st1) as (st2 & E2 & R2 & C2 & W2 & Ch2).
    exists st2. cbn [rename_each]. rewrite (bind_run _ _ _ _ _ E1).
    rewrite (bind_run _ _ _ _ _ E2).
    rewrite (planned_renames_cons m (dir_path, depth) dirs).
    split; [reflexivity|]. repeat split; try congruence.
    rewrite Ch2, Ch1, map_app, app_assoc. reflexivity.
Qed.

Section DryRewrite.
Context {db : UnicodeDb}.

Lemma same_file_needs (m : dict) (a b : option node) :
  same_file a b -> node_needs_update m a = node_needs_update m b.
Proof.
  destruct a as [[r w d|es]|], b as [[r' w' d'|es']|]; simpl; try tauto.
  intros (-> & -> & ->). reflexivity.
Qed.

Lemma same_file_trans (a b d : option node) :
  same_file a b -> same_file b d -> same_file a d.
Proof.
  destruct a as [[? ? ?|?]|], b as [[? ? ?|?]|], d as [[? ? ?|?]|]; simpl;
    try tauto.
  intros (-> & -> & ->) (-> & -> & ->). auto.
Qed.

(** One file of the pass: what it reports needed an update, and so did
    the file it writes. *)
Lemma update_one_step (self : WoWUIMigrator) (m : dict) (fp : str) (st : state) :
  let l := fst (update_one_result self m fp st) in
  let st1 := snd (update_one_result self m fp st) in
  st_cwd st1 = st_cwd st /\ st_working st1 = st_working st
  /\ (st_root st1 = st_root st
      \/ (dry_run self = false /\ needs_update m st fp = true
          /\ exists r w d bs,
               get (locate (st_cwd st) fp) (st_root st) = Some (File r w d)
               /\ st_root st1
                  = put (locate (st_cwd st) fp) (File true true bs) (st_root st)))
  /\ l = (if dry_run self
          then if needs_update m st fp then [fp] else []
          else l)
  /\ forall fp', In fp' l -> fp' = fp /\ needs_update m st fp = true.
Proof.
  cbv zeta. unfold update_one_result, needs_update, node_needs_update, node_at.
  assert (Quiet : forall (msgs : state) (b : bool),
            b = false ->
            st_cwd msgs = st_cwd st -> st_working msgs = st_working st ->
            st_root msgs = st_root st ->
            st_cwd msgs = st_cwd st /\ st_working msgs = st_working st
            /\ (st_root msgs = st_root st
                \/ (dry_run self = false /\ b = true
                    /\ exists r w d bs,
                         get (locate (st_cwd st) fp) (st_root st) = Some (File r w d)
                         /\ st_root msgs
                            = put (locate (st_cwd st) fp) (File true true bs)
                                  (st_root st)))
            /\ [] = (if dry_run self then if b then [fp] else [] else [])
            /\ forall fp', In fp' (@nil str) -> fp' = fp /\ b = true).
  { intros msgs b -> Hc Hw Hr. split; [exact Hc|]. split; [exact Hw|].
    split; [left; exact Hr|]. split; [destruct (dry_run self); reflexivity|].
    intros ? []. }
  destruct (get (locate (st_cwd st) fp) (st_root st)) as [[r w data|es]|] eqn:G;
    try (apply Quiet; reflexivity).
  destruct r; [|apply Quiet; reflexivity].
  destruct (apply_content_mappings m (text_of data)) as [content|e];
    [|apply Quiet; reflexivity].
  destruct (str_eqb content (text_of data)); [apply Quiet; reflexivity|].
  cbn [negb]. destruct (dry_run self) eqn:Dry.
  - cbn [fst snd]. split; [reflexivity|]. split; [reflexivity|].
    split; [left; reflexivity|]. split; [reflexivity|].
    intros fp' [<-|[]]. auto.
  - destruct w.
    + destruct (encode_utf8 content) as [bs|]; cbn [fst snd];
        (split; [reflexivity|]); (split; [reflexivity|]);
        (split; [right; split; [reflexivity|]; split; [reflexivity|];
                 exists true, true, data; eexists; split; reflexivity|]);
        (split; [reflexivity|]).
      * intros fp' [<-|[]]. auto.
      * intros ? [].
    + cbn [fst snd]. split; [reflexivity|]. split; [reflexivity|].
      split; [left; reflexivity|]. split; [reflexivity|]. intros ? [].
Qed.

Lemma run_updates_dry (self : WoWUIMigrator) (m : dict) :
  dry_run self = true ->
  forall (paths : list str) (st : state),
    fst (run_updates self m paths st) = filter (needs_update m st) paths
    /\ st_root (snd (run_updates self m paths st)) = st_root st
    /\ st_cwd (snd (run_updates self m paths st)) = st_cwd st
    /\ st_working (snd (run_updates self m paths st)) = st_working st.
Proof.
  intros Dry. induction paths as [|fp paths IH]; intros st; [cbn; auto|].
  cbn [run_updates filter].
  pose proof (update_one_step self m fp st) as (C1 & W1 & R1 & L1 & _).
  rewrite Dry in *.
  destruct (update_one_result self m fp st) as [l1 st1]. cbn [fst snd] in *.
  destruct R1 as [R1|(? & _)]; [|discriminate].
  specialize (IH st1).
  destruct (run_updates self m paths st1) as [l2 st2]. cbn [fst snd] in *.
  destruct IH as (L2 & R2 & C2 & W2).
  assert (N : forall x, needs_update m st1 x = needs_update m st x).
  { intros x. unfold needs_update, node_at. rewrite C1, R1. reflexivity. }
  repeat split; try congruence.
  rewrite L2, L1, (filter_ext _ _ N).
  destruct (needs_update m st fp); reflexivity.
Qed.

(** Every file a pass reports needed an update in the state the pass
    started in. *)
Lemma run_updates_needed (self : WoWUIMigrator) (m : dict) (st0 : state) :
  forall (paths : list str) (st : state),
    st_cwd st = st_cwd st0 ->
    (forall q, same_file (get q (st_root st)) (get q (st_root st0))
               \/ node_needs_update m (get q (st_root st0)) = true) ->
    forall fp, In fp (fst (run_updates self m paths st)) ->
               needs_update m st0 fp = true.
Proof.
  induction paths as [|fp paths IH]; intros st Hc Inv x Hx; [destruct Hx|].
  cbn [run_updates] in Hx.
  pose proof (update_one_step self m fp st) as (C1 & _ & R1 & _ & L1).
  destruct (update_one_result self m fp st) as [l1 st1]. cbn [fst snd] in *.
  assert (Now : needs_update m st fp = true -> needs_update m st0 fp = true).
  { unfold needs_update, node_at. rewrite Hc. intros H.
    destruct (Inv (locate (st_cwd st0) fp)) as [S|S]; [|exact S].
    rewrite <- (same_file_needs m _ _ S). exact H. }
  assert (Inv1 : forall q, same_file (get q (st_root st1)) (get q (st_root st0))
                           \/ node_needs_update m (get q (st_root st0)) = true).
  { destruct R1 as [->|(_ & N & r & w & d & bs & G & ->)]; [exact Inv|].
    intros q. destruct (loc_eq_dec q (locate (st_cwd st) fp)) as [->|Hq].
    - right. specialize (Now N). unfold needs_update, node_at in Now.
      rewrite Hc. exact Now.
    - destruct (Inv q) as [S|S]; [left|right; exact S].
      eapply same_file_trans; [|exact S].
      eapply put_file_frame; eauto. }
  specialize (IH st1 (eq_trans C1 Hc) Inv1).
  destruct (run_updates self m paths st1) as [l2 st2]. cbn [fst snd] in *.
  apply in_app_or in Hx. destruct Hx as [Hx|Hx]; [|auto].
  destruct (L1 x Hx) as [-> N]. auto.
Qed.

End DryRewrite.

(** ** The rounds of the renaming pass *)

(** *** Directories that a change leaves directories *)

Lemma dir_at_alter_at (f : option node -> option node) :
  forall (p q : list str) (n : node),
    ~ within p q -> dir_at n q = true -> dir_at (alter_at p f n) q = true.
Proof.
  unfold dir_at.
  induction p as [|x p IH]; intros q n H D; [destruct H; apply within_nil|].
  destruct n as [r w d|es]; [destruct p; exact D|].
  rewrite alter_at_cons. destruct q as [|y q]; [reflexivity|].
  cbn [get] in *. destruct (str_eqb x y) eqn:E.
  - apply str_eqb_eq in E. subst y.
    destruct (assoc x es) as [c|] eqn:A; [|discriminate].
    assert (Hpq : ~ within p q) by (intros W; apply H, within_cons; auto).
    destruct p as [|x' p]; [destruct Hpq; apply within_nil|].
    rewrite (assoc_alter_same _ _ _ _ _ A eq_refl). apply IH; assumption.
  - apply str_eqb_neq in E. rewrite assoc_alter_other by exact E. exact D.
Qed.

Lemma dir_at_graft (leaf : node) :
  forall (p q : list str) (n n' : node),
    graft p leaf n = Ret n' -> ~ within p q ->
    dir_at n q = true -> dir_at n' q = true.
Proof.
  unfold dir_at.
  induction p as [|x p IH]; intros q n n' G H D; [discriminate|].
  destruct n as [r w d|es]; [discriminate|]. cbn [graft] in G.
  destruct q as [|y q].
  - destruct (assoc x es) as [c|]; [|injection G as <-; reflexivity].
    destruct (graft p leaf c); [injection G as <-; reflexivity|discriminate].
  - cbn [get] in D.
    destruct (assoc y es) as [cy|] eqn:Ay; [|discriminate].
    destruct (assoc x es) as [c|] eqn:A.
    + destruct (graft p leaf c) as [c'|e] eqn:Gc; [|discriminate].
      injection G as <-. cbn [get].
      destruct (str_eqb x y) eqn:E.
      * apply str_eqb_eq in E. subst y.
        rewrite (assoc_alter_same _ _ _ _ c' A eq_refl).
        rewrite A in Ay. injection Ay as <-.
        eapply IH; [exact Gc| |exact D].
        intros W. apply H, within_cons. auto.
      * apply str_eqb_neq in E. rewrite assoc_alter_other by exact E.
        rewrite Ay. exact D.
    + injection G as <-. cbn [get].
      rewrite (assoc_app_some _ _ _ _ Ay). exact D.
Qed.

Section DirsKept.
Variable zone : list str -> Prop.
Hypothesis zone_below : forall p r, zone p -> zone (p ++ r).

Lemma dirs_outside_refl (root : node) : dirs_outside zone root root.
Proof. intros q _ D. exact D. Qed.

Lemma dirs_outside_trans (a b d : node) :
  dirs_outside zone a b -> dirs_outside zone b d -> dirs_outside zone a d.
Proof. intros F1 F2 q Hq D. apply F2, F1; assumption. Qed.

Lemma dirs_outside_alter (p : list str) (f : option node -> option node)
      (root : node) :
  zone p -> dirs_outside zone root (alter_at p f root).
Proof.
  intros Hp q Hq D. apply dir_at_alter_at; [|exact D].
  intros [r ->]. apply Hq, zone_below, Hp.
Qed.

Lemma dirs_outside_graft (d : list str) (leaf root r : node) :
  zone d -> graft d leaf root = Ret r -> dirs_outside zone root r.
Proof.
  intros Hd G q Hq D. eapply dir_at_graft; [exact G| |exact D].
  intros [s ->]. apply Hq, zone_below, Hd.
Qed.

End DirsKept.

Lemma at_or_deeper_below (l p r : list str) :
  at_or_deeper l p -> at_or_deeper l (p ++ r).
Proof.
  intros [->|H].
  - destruct r as [|x r]; [left; apply app_nil_r|].
    right. rewrite length_app. cbn. lia.
  - right. rewrite length_app. lia.
Qed.

(** *** Locations of siblings *)

Lemma loc_eqb_eq (p q : list str) : loc_eqb p q = true <-> p = q.
Proof.
  revert q. induction p as [|x p IH]; intros [|y q]; cbn; try easy.
  rewrite andb_true_iff, str_eqb_eq, IH. split.
  - intros [-> ->]. reflexivity.
  - intros H. injection H as -> ->. auto.
Qed.

Lemma below_longer (p q : list str) :
  below p q = true -> List.length p < List.length q.
Proof.
  revert q. induction p as [|x p IH]; intros [|y q]; cbn; try easy; [lia|].
  rewrite andb_true_iff. intros [_ H]. apply IH in H. lia.
Qed.

Lemma get_snoc_parent (p : list str) (x : str) (root c : node) :
  get (p ++ [x]) root = Some c -> exists es, get p root = Some (Dir es).
Proof.
  rewrite get_app. destruct (get p root) as [[r w d|es]|]; try discriminate.
  eauto.
Qed.

Lemma assoc_alter_put (x : str) (v : node) (es : list (str * node)) :
  assoc x (alter x (fun _ => Some v) es) = Some v.
Proof.
  induction es as [|[y c] es IH]; cbn.
  - rewrite str_eqb_refl. reflexivity.
  - destruct (str_eqb y x) eqn:E; cbn; rewrite E; [reflexivity|exact IH].
Qed.

(** A node put into a directory is found there. *)
Lemma get_put_child (v : node) (x : str) : forall (p : list str) (root : node),
  dir_at root p = true -> get (p ++ [x]) (put (p ++ [x]) v root) = Some v.
Proof.
  unfold dir_at, put.
  induction p as [|y p IH]; intros root D.
  - cbn [get] in D. destruct root as [|es]; [discriminate|].
    cbn [app]. rewrite alter_at_cons. cbn [get].
    rewrite assoc_alter_put. reflexivity.
  - cbn [get] in D. destruct root as [|es]; [discriminate|].
    destruct (assoc y es) as [c|] eqn:A; [|discriminate].
    cbn [app].
    assert (E : alter_at (y :: p ++ [x]) (fun _ => Some v) (Dir es)
                = Dir (alter y (fun o => match o with
                                         | Some c0 =>
                                             Some (alter_at (p ++ [x])
                                                            (fun _ => Some v) c0)
                                         | None => None
                                         end) es))
      by (destruct p; reflexivity).
    rewrite E. cbn [get]. rewrite (assoc_alter_same _ _ _ _ _ A eq_refl).
    apply IH, D.
Qed.

(** Renaming a directory to a free name beside it. *)
Lemma rename_loc_beside (p : list str) (name new_name : str)
      (es : list (str * node)) (root : node) :
  get (p ++ [name]) root = Some (Dir es) ->
  new_name <> name ->
  get (p ++ [new_name]) root = None ->
  rename_loc (p ++ [name]) (p ++ [new_name]) root
  = Ret (put (p ++ [new_name]) (Dir es) (del (p ++ [name]) root)).
Proof.
  intros G Hne Gn. unfold rename_loc. rewrite G.
  destruct (p ++ [new_name]) as [|z t] eqn:Z; [destruct p; discriminate|].
  rewrite <- Z in Gn |- *. rewrite removelast_last.
  destruct (get_snoc_parent _ _ _ _ G) as [es0 ->].
  destruct (loc_eqb (p ++ [name]) (p ++ [new_name])) eqn:E.
  { apply loc_eqb_eq, app_inv_head in E. congruence. }
  destruct (below (p ++ [name]) (p ++ [new_name])) eqn:B.
  { apply below_longer in B. rewrite !length_app in B. cbn in B. lia. }
  rewrite Gn. reflexivity.
Qed.

(** *** One round *)

Lemma try_returns {A} (m : M A) (h : exn -> M A) (st st' : state)
      (res : outcome A) :
  (forall e s, exists a s', h e s = (Ret a, s')) ->
  try_except m h st = (res, st') -> exists a, res = Ret a.
Proof.
  intros H. unfold try_except. destruct (m st) as [[a|e] s].
  - intros E. injection E as <- _. eauto.
  - destruct (H e s) as (a & s' & ->). intros E. injection E as <- _. eauto.
Qed.

Lemma rename_target_beside (cwd : list str) (m : dict)
      (par name new_path : str) :
  Forall (fun e => proper_name (snd e) = true) m ->
  proper_name name = true ->
  rename_target m (os_path_join par name) = Some new_path ->
  exists new_name,
    proper_name new_name = true /\ new_name <> name
    /\ locate cwd new_path = locate cwd par ++ [new_name].
Proof.
  intros Hm Hn. unfold rename_target. rewrite basename_join by exact Hn.
  destruct (find_new_name m name) as [new_name|] eqn:F; [|discriminate].
  destruct (str_eqb new_name name) eqn:E;
    [rewrite andb_false_r; discriminate|].
  destruct (truthy (Some new_name)); [|discriminate]. cbn [andb negb].
  intros H. injection H as <-.
  apply find_new_name_in in F. rewrite Forall_forall in Hm.
  specialize (Hm _ F). cbn [snd] in Hm.
  exists new_name. split; [exact Hm|]. split; [apply str_eqb_neq, E|].
  rewrite locate_join by exact Hm.
  rewrite locate_dirname_join by exact Hn. reflexivity.
Qed.

Section Rounds.
Variable cwd : list str.
Hypothesis cwd_proper : Forall (fun x => proper_name x = true) cwd.

(** The merge of a round leaves the directories that are neither its
    source nor deeper than it directories. *)
Lemma merge_step_dirs (dir_path new_path : str) (l : list str) :
  locate cwd dir_path = l ->
  List.length (locate cwd new_path) = List.length l ->
  keeps cwd (dirs_outside (at_or_deeper l))
        (try_except
           (fuel <- gets st_depth ;;
            _merge_directories fuel dir_path new_path ;;
            log INFO (MsgMerged dir_path new_path) ;;
            ret true)
           (fun e => log ERROR (MsgMergeFailed dir_path new_path e) ;;
                     ret false))
        anything.
Proof.
  intros Hl Hlen.
  apply (kw_merge_step cwd (at_or_deeper l) (dirs_outside (at_or_deeper l))
           cwd_proper (at_or_deeper_below l)
           (dirs_outside_refl _)
           (dirs_outside_trans _)
           (dirs_outside_alter _ (at_or_deeper_below l))
           (dirs_outside_graft _ (at_or_deeper_below l))).
  - left. exact Hl.
  - intros x _. right. rewrite length_app, Hlen. cbn. lia.
Qed.

(** A round on a path that names a directory returns; the directories
    at other locations that are not longer are directories after it;
    and when the new path is free, the directory is moved there. *)
Lemma rename_one_round (self : WoWUIMigrator) (m : dict) (par name : str)
      (st : state) (es : list (str * node)) :
  Forall (fun e => proper_name (snd e) = true) m ->
  state_ok cwd st -> proper_name name = true ->
  node_at (os_path_join par name) st = Some (Dir es) ->
  exists now st',
    rename_one self m (os_path_join par name) st = (Ret now, st')
    /\ state_ok cwd st'
    /\ (forall q,
          q <> locate cwd (os_path_join par name) ->
          List.length q <= List.length (locate cwd (os_path_join par name)) ->
          dir_at (st_root st) q = true -> dir_at (st_root st') q = true)
    /\ (dry_run self = false ->
        forall new_path,
          rename_target m (os_path_join par name) = Some new_path ->
          node_at new_path st = None ->
          now = [(os_path_join par name, new_path)]
          /\ st_root st'
             = put (locate cwd new_path) (Dir es)
                   (del (locate cwd (os_path_join par name)) (st_root st))
          /\ node_at new_path st' = Some (Dir es)).
Proof.
  intros Hm [Hc Hn] Pn G. unfold node_at in G. rewrite Hc in G.
  set (dir_path := os_path_join par name) in *.
  assert (L : locate cwd dir_path = locate cwd par ++ [name])
    by (apply locate_join, Pn).
  unfold rename_one.
  destruct (rename_target m dir_path) as [new_path|] eqn:T.
  2:{ exists [], st. split; [reflexivity|]. split; [split; assumption|].
      split; [auto|]. intros _ new_path H. discriminate. }
  destruct (rename_target_beside cwd _ _ _ _ Hm Pn T)
    as (new_name & Pnew & Hne & Lnew).
  destruct (dry_run self) eqn:Dry; cbn [negb].
  { eexists. eexists. split; [reflexivity|]. cbn.
    split; [split; assumption|]. split; [auto|]. discriminate. }
  assert (Pl : Forall (fun x => proper_name x = true) (locate cwd par))
    by (apply locate_proper, cwd_proper).
  match goal with
  | |- exists now st', bind ?inner ?k st = _ /\ _ =>
      assert (Hin : exists (done : bool) st1,
                 inner st = (Ret done, st1) /\ state_ok cwd st1
                 /\ (forall q,
                       q <> locate cwd dir_path ->
                       List.length q <= List.length (locate cwd dir_path) ->
                       dir_at (st_root st) q = true ->
                       dir_at (st_root st1) q = true)
                 /\ (node_at new_path st = None ->
                     done = true
                     /\ st_root st1
                        = put (locate cwd new_path) (Dir es)
                              (del (locate cwd dir_path) (st_root st))
                     /\ st_cwd st1 = cwd))
  end.
  { unfold os_path_exists. rewrite bind_gets.
    destruct (node_at new_path st) as [tn|] eqn:Gn.
    - (* the target exists: merge *)
      rewrite bind_log.
      set (st1 := logged [(WARNING, MsgMergingExisting new_path)] st).
      assert (Hok1 : state_ok cwd st1) by (split; assumption).
      assert (Hlen : List.length (locate cwd new_path)
                     = List.length (locate cwd dir_path))
        by (rewrite L, Lnew, !length_app; reflexivity).
      destruct (try_except _ _ st1) as [res st2] eqn:E.
      destruct (merge_step_dirs dir_path new_path _ eq_refl Hlen
                                st1 res st2 Hok1 E) as (Hok2 & [_ F] & _).
      apply try_returns in E.
      2:{ intros e s. eexists. eexists. reflexivity. }
      destruct E as [done ->]. exists done, st2.
      split; [reflexivity|]. split; [exact Hok2|].
      split; [|discriminate].
      intros q Hq Hl D. apply F; [|exact D].
      intros [->|Hlt]; [congruence|lia].
    - (* the target is free: rename *)
      unfold node_at in Gn. rewrite Hc in Gn.
      rewrite L in G. rewrite Lnew in Gn.
      pose proof (rename_loc_beside _ _ _ _ _ G Hne Gn) as R.
      assert (E1 : os_rename dir_path new_path st
                   = (Ret tt,
                      with_root (put (locate cwd par ++ [new_name]) (Dir es)
                                     (del (locate cwd par ++ [name]) (st_root st)))
                                st))
        by (unfold os_rename; rewrite Hc, L, Lnew, R; reflexivity).
      rewrite (bind_run _ _ _ _ _ E1).
      eexists. eexists. split; [reflexivity|]. cbn.
      split; [split; [exact Hc|]|split; [|intros _; split; [|split]]].
      + apply names_ok_put.
        * apply names_ok_del; [exact Hn|].
          apply Forall_app. split; [exact Pl|repeat constructor; exact Pn].
        * eapply names_ok_get; [exact Hn|exact G].
        * apply Forall_app. split; [exact Pl|repeat constructor; exact Pnew].
      + intros q Hq Hl D. rewrite L in Hq, Hl.
        rewrite length_app in Hl. cbn in Hl.
        unfold put, del. apply dir_at_alter_at; [|apply dir_at_alter_at].
        * intros [r ->]. destruct r as [|x r].
          -- rewrite app_nil_r in D. unfold dir_at in D. rewrite Gn in D.
             discriminate.
          -- rewrite !length_app in Hl. cbn in Hl. lia.
        * intros [r ->].
          destruct r as [|x r]; [rewrite app_nil_r in Hq; congruence|].
          rewrite !length_app in Hl. cbn in Hl. lia.
        * exact D.
      + reflexivity.
      + rewrite L, Lnew. reflexivity.
      + exact Hc. }
  destruct Hin as (done & st1 & Ein & Hok1 & Fr & Eff).
  rewrite (bind_run _ _ _ _ _ Ein).
  assert (Found : st_root st1
                  = put (locate cwd new_path) (Dir es)
                        (del (locate cwd dir_path) (st_root st)) ->
                  st_cwd st1 = cwd ->
                  get (locate cwd new_path) (st_root st1) = Some (Dir es)).
  { intros -> _. rewrite Lnew. apply get_put_child.
    unfold del. apply dir_at_alter_at.
    - intros [r Hr]. apply (f_equal (@List.length _)) in Hr.
      rewrite L, !length_app in Hr. cbn in Hr. lia.
    - rewrite L in G. destruct (get_snoc_parent _ _ _ _ G) as [es0 G0].
      unfold dir_at. rewrite G0. reflexivity. }
  destruct done.
  - eexists. eexists. split; [reflexivity|]. cbn.
    split; [exact Hok1|]. split; [exact Fr|].
    intros _ np Hnp Free. injection Hnp as <-.
    destruct (Eff Free) as (_ & R1 & C1).
    split; [reflexivity|]. split; [exact R1|].
    unfold node_at. cbn. rewrite C1. apply Found; assumption.
  - exists [], st1. split; [reflexivity|].
    split; [exact Hok1|]. split; [exact Fr|].
    intros _ np Hnp Free. injection Hnp as <-.
    destruct (Eff Free) as (D1 & _). discriminate.
Qed.

End Rounds.

(** *** Trees without double names *)

Lemma distinct_names_cons (x : str) (c : node) (es : list (str * node)) :
  distinct_names (Dir ((x, c) :: es))
  = negb (existsb (fun e => str_eqb (fst e) x) es)
    && distinct_names c && distinct_names (Dir es).
Proof. reflexivity. Qed.

Lemma listed_name (es : list (str * node)) (x : str) (c : node) :
  In (x, c) es -> existsb (fun e => str_eqb (fst e) x) es = true.
Proof.
  intros Hin. apply existsb_exists. exists (x, c).
  split; [exact Hin|apply str_eqb_refl].
Qed.

Lemma distinct_names_entry (es : list (str * node)) (x : str) (c : node) :
  distinct_names (Dir es) = true -> In (x, c) es ->
  assoc x es = Some c /\ distinct_names c = true.
Proof.
  induction es as [|[y d] es IH]; [intros _ []|].
  rewrite distinct_names_cons, !andb_true_iff, negb_true_iff.
  intros [[H1 H2] H3] [E|Hin].
  - injection E as -> ->. cbn [assoc]. rewrite str_eqb_refl. auto.
  - cbn [assoc]. destruct (str_eqb y x) eqn:E; [|auto].
    apply str_eqb_eq in E. subst y.
    rewrite (listed_name _ _ _ Hin) in H1. discriminate.
Qed.

Lemma distinct_names_keys (es : list (str * node)) :
  distinct_names (Dir es) = true -> NoDup (List.map fst es).
Proof.
  induction es as [|[y d] es IH]; [constructor|].
  rewrite distinct_names_cons, !andb_true_iff, negb_true_iff.
  intros [[H1 H2] H3]. cbn [List.map fst]. constructor; [|auto].
  intros Hin. apply in_map_iff in Hin. destruct Hin as ([z c] & E & Hin).
  cbn in E. subst z. rewrite (listed_name _ _ _ Hin) in H1. discriminate.
Qed.

Lemma assoc_in (x : str) (es : list (str * node)) (c : node) :
  assoc x es = Some c -> In (x, c) es.
Proof.
  induction es as [|[y d] es IH]; [discriminate|]. cbn [assoc].
  destruct (str_eqb y x) eqn:E.
  - apply str_eqb_eq in E. subst y. intros H. injection H as ->. now left.
  - intros H. right. auto.
Qed.

Lemma distinct_names_get : forall (p : list str) (n c : node),
  distinct_names n = true -> get p n = Some c -> distinct_names c = true.
Proof.
  induction p as [|x p IH]; intros n c H G.
  - cbn in G. injection G as <-. exact H.
  - destruct n as [|es]; [discriminate|]. cbn [get] in G.
    destruct (assoc x es) as [d|] eqn:A; [|discriminate].
    apply assoc_in in A. destruct (distinct_names_entry _ _ _ H A) as [_ Hd].
    eauto.
Qed.

Lemma NoDup_map_filter {A B} (f : A -> B) (g : A -> bool) (l : list A) :
  NoDup (List.map f l) -> NoDup (List.map f (filter g l)).
Proof.
  induction l as [|a l IH]; [auto|]. cbn [List.map filter].
  intros H. inversion H as [|? ? Hn Hl]; subst.
  destruct (g a); [|auto]. cbn [List.map]. constructor; [|auto].
  intros Hin. apply Hn. apply in_map_iff in Hin.
  destruct Hin as (b & E & Hb). apply filter_In in Hb.
  apply in_map_iff. exists b. tauto.
Qed.

(** *** What the pass has enumerated *)

Lemma collect_dirs_app (w : str) (acct : option str)
      (a b : list (str * list str * list str)) :
  collect_dirs w acct (a ++ b) = collect_dirs w acct a ++ collect_dirs w acct b.
Proof. unfold collect_dirs. apply flat_map_app. Qed.

Lemma collect_dirs_cons (w : str) (acct : option str)
      (t : str * list str * list str) (walk : list (str * list str * list str)) :
  collect_dirs w acct (t :: walk)
  = collect_dirs w acct [t] ++ collect_dirs w acct walk.
Proof. apply (collect_dirs_app w acct [t] walk). Qed.

Lemma in_collect_one (w : str) (acct : option str) (root : str)
      (dirs files : list str) (e : str * nat) :
  In e (collect_dirs w acct [(root, dirs, files)]) ->
  exists d, In d dirs /\ fst e = os_path_join root d.
Proof.
  unfold collect_dirs. cbn [flat_map]. rewrite app_nil_r. intros Hin.
  apply in_flat_map in Hin. destruct Hin as (d & Hd & Hin).
  destruct (rename_in_scope _ _ _ _); [|destruct Hin].
  destruct Hin as [<-|[]]. exists d. auto.
Qed.

Lemma in_collect_entries (w : str) (acct : option str) (top : str)
      (es : list (str * node)) (e : str * nat) :
  In e (collect_dirs w acct (walk_entries top es)) ->
  exists name ch,
    In (name, ch) es
    /\ In e (collect_dirs w acct (walk_node (os_path_join top name) ch)).
Proof.
  induction es as [|[x c] es IH]; [intros []|].
  cbn [walk_entries]. rewrite collect_dirs_app. intros Hin.
  apply in_app_or in Hin. destruct Hin as [Hin|Hin].
  - exists x, c. split; [now left|exact Hin].
  - destruct (IH Hin) as (name & ch & H1 & H2). exists name, ch.
    split; [now right|exact H2].
Qed.

Lemma in_dir_names (es : list (str * node)) (d : str) :
  In d (dir_names es) -> exists es', In (d, Dir es') es.
Proof.
  unfold dir_names. intros Hin. apply in_map_iff in Hin.
  destruct Hin as ([x c] & E & Hin). cbn in E. subst x.
  apply filter_In in Hin. destruct Hin as [Hin D].
  destruct c as [|es']; [discriminate|]. eauto.
Qed.

(** Every enumerated path is reached from the top of the walk through
    proper names, and names a directory. *)
Lemma enumerated_are_dirs : forall (n : node),
  names_ok n = true -> distinct_names n = true ->
  forall w acct top e,
    In e (collect_dirs w acct (walk_node top n)) ->
    exists r,
      Forall (fun x => proper_name x = true) r /\ r <> []
      /\ fst e = path_under top r /\ dir_at n r = true.
Proof.
  induction n as [r0 w0 d0|es IH] using node_induction;
    intros Hn Hd w acct top e Hin; [destruct Hin|].
  rewrite walk_node_dir, collect_dirs_cons in Hin.
  apply in_app_or in Hin. destruct Hin as [Hin|Hin].
  - apply in_collect_one in Hin. destruct Hin as (d & Hin & E).
    apply in_dir_names in Hin. destruct Hin as [es' Hin].
    destruct (distinct_names_entry _ _ _ Hd Hin) as [A _].
    destruct (names_ok_assoc _ _ _ Hn A) as [Pd _].
    exists [d]. split; [repeat constructor; exact Pd|].
    split; [discriminate|]. split; [exact E|].
    unfold dir_at. cbn [get]. rewrite A. reflexivity.
  - apply in_collect_entries in Hin. destruct Hin as (name & ch & Hes & Hin).
    destruct (distinct_names_entry _ _ _ Hd Hes) as [A Hdc].
    destruct (names_ok_assoc _ _ _ Hn A) as [Pn Hnc].
    rewrite Forall_forall in IH.
    destruct (IH _ Hes Hnc Hdc _ _ _ _ Hin) as (r & Pr & Hne & E & D).
    exists (name :: r). split; [constructor; assumption|].
    split; [discriminate|]. split; [exact E|].
    unfold dir_at in *. cbn [get]. rewrite A. exact D.
Qed.

Section Enumeration.
Variable cwd : list str.

Lemma place_enumerated (n : node) (w : str) (acct : option str) (top : str)
      (e : str * nat) :
  names_ok n = true -> distinct_names n = true ->
  In e (collect_dirs w acct (walk_node top n)) ->
  exists x r,
    Forall (fun y => proper_name y = true) (x :: r)
    /\ place cwd e = locate cwd top ++ x :: r.
Proof.
  intros Hn Hd Hin.
  destruct (enumerated_are_dirs n Hn Hd _ _ _ _ Hin) as (r & Pr & Hne & E & _).
  destruct r as [|x r]; [congruence|]. exists x, r. split; [exact Pr|].
  unfold place. rewrite E. apply locate_path_under, Pr.
Qed.

(** No location is enumerated twice. *)
Lemma enumerated_places_distinct : forall (n : node),
  names_ok n = true -> distinct_names n = true ->
  forall w acct top,
    NoDup (List.map (place cwd) (collect_dirs w acct (walk_node top n))).
Proof.
  induction n as [r0 w0 d0|es IH] using node_induction;
    intros Hn Hd w acct top; [constructor|].
  rewrite walk_node_dir, collect_dirs_cons, map_app.
  assert (Top : forall e,
             In e (collect_dirs w acct [(top, dir_names es, file_names es)]) ->
             exists d, In d (dir_names es) /\ proper_name d = true
                       /\ place cwd e = locate cwd top ++ [d]).
  { intros e Hin. apply in_collect_one in Hin. destruct Hin as (d & Hin & E).
    exists d. split; [exact Hin|].
    pose proof (filter_names_proper es (fun e => is_dir (snd e)) Hn) as P.
    rewrite Forall_forall in P. specialize (P _ Hin).
    split; [exact P|]. unfold place. rewrite E. apply locate_join, P. }
  assert (Sub : forall es' e,
             (forall x c, In (x, c) es' -> In (x, c) es) ->
             In e (collect_dirs w acct (walk_entries top es')) ->
             exists name x r,
               In name (List.map fst es')
               /\ place cwd e = locate cwd top ++ name :: x :: r).
  { intros es' e Hsub Hin. apply in_collect_entries in Hin.
    destruct Hin as (name & ch & Hes & Hin).
    destruct (distinct_names_entry _ _ _ Hd (Hsub _ _ Hes)) as [A Hdc].
    destruct (names_ok_assoc _ _ _ Hn A) as [Pn Hnc].
    destruct (place_enumerated _ _ _ _ _ Hnc Hdc Hin) as (x & r & _ & E).
    exists name, x, r. split; [apply in_map_iff; exists (name, ch); auto|].
    rewrite E, locate_join by exact Pn. rewrite <- app_assoc. reflexivity. }
  apply NoDup_app.
  - (* the directories of the top *)
    unfold collect_dirs. cbn [flat_map]. rewrite app_nil_r.
    assert (K : NoDup (dir_names es))
      by (apply NoDup_map_filter, distinct_names_keys, Hd).
    pose proof (filter_names_proper es (fun e => is_dir (snd e)) Hn) as P.
    fold (dir_names es) in P. revert K P.
    generalize (dir_names es). intros dirs.
    induction dirs as [|d dirs IHd]; intros K P; [constructor|].
    inversion K as [|? ? Kn Kd]; subst. inversion P as [|? ? Pd Pds]; subst.
    cbn [flat_map]. rewrite map_app. apply NoDup_app; [|auto|].
    + destruct (rename_in_scope _ _ _ _);
        [apply NoDup_cons; [intros []|constructor]|constructor].
    + intros q Hq Hin.
      destruct (rename_in_scope _ _ _ _); [|destruct Hq].
      destruct Hq as [<-|[]]. unfold place in Hin. cbn [fst] in Hin.
      apply in_map_iff in Hin. destruct Hin as (e & E & Hin).
      apply in_flat_map in Hin. destruct Hin as (d' & Hd' & Hin).
      destruct (rename_in_scope _ _ _ _); [|destruct Hin].
      destruct Hin as [<-|[]]. unfold place in E. cbn [fst] in E.
      rewrite Forall_forall in Pds.
      rewrite !locate_join in E by auto.
      apply app_inv_head in E. injection E as ->. contradiction.
  - (* the directories below the entries *)
    assert (Hsub : forall x c, In (x, c) es -> In (x, c) es) by auto.
    assert (Kes : NoDup (List.map fst es)) by (apply distinct_names_keys, Hd).
    revert Hsub Kes. generalize es at 1 3 4. intros es' Hsub Kes.
    induction es' as [|[x c] es' IHes]; [constructor|].
    cbn [walk_entries]. rewrite collect_dirs_app, map_app.
    cbn [List.map fst] in Kes. inversion Kes as [|? ? Kx Krest]; subst.
    assert (Hin : In (x, c) es) by (apply Hsub; now left).
    destruct (distinct_names_entry _ _ _ Hd Hin) as [A Hdc].
    destruct (names_ok_assoc _ _ _ Hn A) as [Pn Hnc].
    apply NoDup_app.
    + rewrite Forall_forall in IH. apply (IH _ Hin); assumption.
    + apply IHes; [intros; apply Hsub; now right|exact Krest].
    + intros q Hq1 Hq2.
      apply in_map_iff in Hq1. destruct Hq1 as (e1 & E1 & H1).
      apply in_map_iff in Hq2. destruct Hq2 as (e2 & E2 & H2).
      destruct (place_enumerated _ _ _ _ _ Hnc Hdc H1) as (y & r & _ & F1).
      destruct (Sub es' e2 (fun a b H => Hsub a b (or_intror H)) H2)
        as (name & y2 & r2 & Hname & F2).
      rewrite locate_join in F1 by exact Pn. rewrite <- app_assoc in F1.
      rewrite <- E2, F2 in E1. rewrite F1 in E1.
      apply app_inv_head in E1. injection E1 as -> _. contradiction.
  - intros q Hq1 Hq2.
    apply in_map_iff in Hq1. destruct Hq1 as (e1 & E1 & H1).
    apply in_map_iff in Hq2. destruct Hq2 as (e2 & E2 & H2).
    destruct (Top e1 H1) as (d & _ & _ & F1).
    destruct (Sub es e2 (fun a b H => H) H2) as (name & y & r & _ & F2).
    rewrite <- E2, F2, F1 in E1. apply app_inv_head in E1. discriminate.
Qed.

End Enumeration.

(** *** The number of segments of an enumerated path *)

Lemma proper_no_trailing_sep (a x : str) :
  proper_name x = true -> endswith (a ++ x) [sep] = false.
Proof.
  intros Hx. pose proof (proper_name_inv x Hx) as (Hne & Hn & _).
  destruct (exists_last Hne) as (x0 & d & ->).
  rewrite app_assoc, endswith_snoc.
  rewrite existsb_app in Hn. apply orb_false_iff in Hn. destruct Hn as [_ Hn].
  cbn [existsb] in Hn. rewrite orb_false_r in Hn. exact Hn.
Qed.

Lemma segments_join_join (a x b : str) :
  proper_name x = true -> proper_name b = true ->
  List.length (split_on sep (os_path_join (os_path_join a x) b))
  = S (List.length (split_on sep (os_path_join a x))).
Proof.
  intros Hx Hb. destruct (join_suffix a x Hx) as [s E]. rewrite E.
  pose proof (proper_name_inv x Hx) as (Hne & _).
  pose proof (proper_name_inv b Hb) as (_ & Hnb & _).
  unfold os_path_join at 1. rewrite (proper_not_absolute b Hb).
  rewrite (proper_no_trailing_sep s x Hx).
  destruct (s ++ x) as [|c t] eqn:Z;
    [apply app_eq_nil in Z; destruct Z; congruence|].
  rewrite split_on_length_app, (split_on_none _ _ Hnb). cbn. lia.
Qed.

Lemma segments_join_any (top x y : str) :
  proper_name x = true -> proper_name y = true ->
  List.length (split_on sep (os_path_join top x))
  = List.length (split_on sep (os_path_join top y)).
Proof.
  intros Hx Hy.
  pose proof (proper_name_inv x Hx) as (_ & Hnx & _).
  pose proof (proper_name_inv y Hy) as (_ & Hny & _).
  unfold os_path_join.
  rewrite (proper_not_absolute x Hx), (proper_not_absolute y Hy).
  destruct top as [|c t].
  - rewrite (split_on_none _ _ Hnx), (split_on_none _ _ Hny). reflexivity.
  - destruct (endswith (c :: t) [sep]) eqn:E.
    + apply endswith_sep in E. destruct E as [t' ->].
      rewrite <- !app_assoc. cbn [app].
      rewrite !split_on_length_app, (split_on_none _ _ Hnx),
        (split_on_none _ _ Hny). reflexivity.
    + rewrite !split_on_length_app, (split_on_none _ _ Hnx),
        (split_on_none _ _ Hny). reflexivity.
Qed.

Lemma segments_fold (r : list str) : forall (a x : str),
  proper_name x = true -> Forall (fun y => proper_name y = true) r ->
  List.length (split_on sep (fold_left os_path_join r (os_path_join a x)))
  = List.length (split_on sep (os_path_join a x)) + List.length r.
Proof.
  induction r as [|b r IH]; intros a x Hx P; cbn [fold_left List.length];
    [lia|].
  inversion P as [|? ? Hb Pr]; subst.
  rewrite (IH _ _ Hb Pr), (segments_join_join a x b Hx Hb). lia.
Qed.

(** Below one top, the path with more names has more segments. *)
Lemma segments_compare (top : str) (r1 r2 : list str) :
  Forall (fun y => proper_name y = true) r1 -> r1 <> [] ->
  Forall (fun y => proper_name y = true) r2 -> r2 <> [] ->
  List.length (split_on sep (path_under top r1)) + List.length r2
  = List.length (split_on sep (path_under top r2)) + List.length r1.
Proof.
  intros P1 N1 P2 N2.
  destruct r1 as [|x1 r1]; [congruence|]. destruct r2 as [|x2 r2]; [congruence|].
  inversion P1; subst. inversion P2; subst. unfold path_under.
  cbn [fold_left List.length]. rewrite !segments_fold by assumption.
  rewrite (segments_join_any top x1 x2) by assumption. lia.
Qed.

(** *** The pass, round after round *)

Lemma rename_each_app (self : WoWUIMigrator) (m : dict)
      (a b : list (str * nat)) : forall (st st1 st2 : state) done more,
  rename_each self m a st = (Ret done, st1) ->
  rename_each self m b st1 = (Ret more, st2) ->
  rename_each self m (a ++ b) st = (Ret (done ++ more), st2).
Proof.
  induction a as [|[p d] a IH]; intros st st1 st2 done more Ea Eb.
  - cbn in Ea. injection Ea as <- <-. exact Eb.
  - cbn [rename_each app] in *. unfold bind at 1 in Ea. unfold bind at 1.
    destruct (rename_one self m p st) as [[now|e] s1]; [|discriminate].
    unfold bind at 1 in Ea. unfold bind at 1.
    destruct (rename_each self m a s1) as [[rest|e] s2] eqn:Er; [|discriminate].
    cbn in Ea. injection Ea as <- <-.
    rewrite (IH _ _ _ _ _ Er Eb). cbn. rewrite app_assoc. reflexivity.
Qed.

(** The rounds are taken in the order of the list: the pass over a
    list is the pass over its first part followed, in the state that
    one leaves, by the pass over the rest. *)
Lemma rename_each_seq (self : WoWUIMigrator) (m : dict)
      (a b : list (str * nat)) : forall (st : state),
  rename_each self m (a ++ b) st
  = (done <- rename_each self m a ;;
     more <- rename_each self m b ;;
     ret (done ++ more)) st.
Proof.
  induction a as [|[p d] a IH]; intros st.
  - cbn [app rename_each]. unfold bind, ret.
    destruct (rename_each self m b st) as [[more|e] s]; reflexivity.
  - cbn [app rename_each]. unfold bind, ret in *.
    destruct (rename_one self m p st) as [[now|e] s1]; [|reflexivity].
    rewrite IH.
    destruct (rename_each self m a s1) as [[done|e] s2]; [|reflexivity].
    destruct (rename_each self m b s2) as [[more|e] s3]; [|reflexivity].
    rewrite app_assoc. reflexivity.
Qed.

Lemma NoDup_app_disjoint {A} (l1 l2 : list A) (a : A) :
  NoDup (l1 ++ l2) -> In a l1 -> In a l2 -> False.
Proof.
  induction l1 as [|x l1 IH]; [intros _ []|]. cbn [app]. intros N H1 H2.
  inversion N as [|? ? Nx Nl]; subst. destruct H1 as [->|H1]; [|auto].
  apply Nx, in_or_app. now right.
Qed.

Lemma sorted_weaken {A} (R R' : A -> A -> Prop) (P : A -> Prop) (l : list A) :
  (forall a b, P a -> P b -> R a b -> R' a b) ->
  Forall P l -> StronglySorted R l -> StronglySorted R' l.
Proof.
  intros H F S. induction S as [|a l S IH Ha]; [constructor|].
  inversion F as [|? ? Pa Pl]; subst. constructor; [auto|].
  rewrite Forall_forall in *. intros b Hb. apply H; auto.
Qed.

Lemma sorted_app_inv {A} (R : A -> A -> Prop) (l1 l2 : list A) :
  StronglySorted R (l1 ++ l2) ->
  StronglySorted R l1 /\ StronglySorted R l2
  /\ forall a b, In a l1 -> In b l2 -> R a b.
Proof.
  induction l1 as [|x l1 IH]; cbn [app]; intros S.
  - split; [constructor|]. split; [exact S|]. intros a b [].
  - inversion S as [|? ? S' F]; subst. destruct (IH S') as (S1 & S2 & H).
    rewrite Forall_forall in F.
    split; [constructor; [exact S1|]|split; [exact S2|]].
    + apply Forall_forall. intros b Hb. apply F, in_or_app. now left.
    + intros a b [<-|Ha] Hb; [apply F, in_or_app; now right|auto].
Qed.

Section Pass.
Variable cwd : list str.
Hypothesis cwd_proper : Forall (fun x => proper_name x = true) cwd.
Variable self : WoWUIMigrator.
Variable m : dict.
Hypothesis m_proper : Forall (fun e => proper_name (snd e) = true) m.

(** One round on an entry of the list that names a directory. *)
Lemma round_on_entry (e : str * nat) (st : state) :
  state_ok cwd st -> joined e ->
  dir_at (st_root st) (place cwd e) = true ->
  exists es now st',
    node_at (fst e) st = Some (Dir es)
    /\ rename_one self m (fst e) st = (Ret now, st')
    /\ state_ok cwd st'
    /\ (forall q,
          q <> place cwd e ->
          List.length q <= List.length (place cwd e) ->
          dir_at (st_root st) q = true -> dir_at (st_root st') q = true)
    /\ (dry_run self = false ->
        forall new_path,
          rename_target m (fst e) = Some new_path ->
          node_at new_path st = None ->
          now = [(fst e, new_path)]
          /\ st_root st'
             = put (locate cwd new_path) (Dir es)
                   (del (place cwd e) (st_root st))
          /\ node_at new_path st' = Some (Dir es)).
Proof.
  intros Hok (par & name & E & Pn) D. unfold place in *. rewrite E in *.
  assert (G : exists es, node_at (os_path_join par name) st = Some (Dir es)).
  { unfold dir_at in D. unfold node_at. destruct Hok as [-> _].
    destruct (get _ _) as [[|es]|]; try discriminate. eauto. }
  destruct G as [es G]. exists es.
  destruct (rename_one_round cwd cwd_proper self m par name st es
              m_proper Hok Pn G) as (now & st' & H).
  exists now, st'. split; [exact G|exact H].
Qed.

(** The rounds over a list of directories at distinct locations, none
    longer than the ones before it: every round returns, and finds
    its directory. *)
Lemma rename_each_rounds : forall (l : list (str * nat)) (st : state),
  state_ok cwd st -> Forall joined l ->
  StronglySorted (not_longer cwd) l ->
  NoDup (List.map (place cwd) l) ->
  Forall (fun e => dir_at (st_root st) (place cwd e) = true) l ->
  exists done st',
    rename_each self m l st = (Ret done, st')
    /\ state_ok cwd st'
    /\ forall q,
         ~ In q (List.map (place cwd) l) ->
         (forall e, In e l -> List.length q <= List.length (place cwd e)) ->
         dir_at (st_root st) q = true -> dir_at (st_root st') q = true.
Proof.
  induction l as [|e l IH]; intros st Hok J S N D.
  - exists [], st. split; [reflexivity|]. split; [exact Hok|auto].
  - inversion J as [|? ? Je Jl]; subst. inversion S as [|? ? Sl Se]; subst.
    inversion N as [|? ? Ne Nl]; subst. inversion D as [|? ? De Dl]; subst.
    destruct (round_on_entry e st Hok Je De)
      as (es & now & st1 & _ & E1 & Hok1 & F1 & _).
    assert (D1 : Forall (fun e' => dir_at (st_root st1) (place cwd e') = true) l).
    { rewrite Forall_forall in *. intros e' Hin. apply F1.
      - intros Eq. apply Ne. rewrite <- Eq. apply in_map, Hin.
      - apply (Se e' Hin).
      - apply Dl, Hin. }
    destruct (IH st1 Hok1 Jl Sl Nl D1) as (more & st2 & E2 & Hok2 & F2).
    exists (now ++ more), st2. split; [|split; [exact Hok2|]].
    + destruct e as [p d]. cbn [rename_each fst] in *.
      rewrite (bind_run _ _ _ _ _ E1), (bind_run _ _ _ _ _ E2). reflexivity.
    + intros q Hq Hl Dq. apply F2.
      * intros Hin. apply Hq. right. exact Hin.
      * intros e' Hin. apply Hl. now right.
      * apply F1; [|apply Hl; now left|exact Dq].
        intros ->. apply Hq. now left.
Qed.

(** What the pass has enumerated in a state whose tree lists no name
    twice: directories of the tree, at distinct locations. *)
Lemma enumerated_in_order (old_account : option str) (st : state) :
  state_ok cwd st -> distinct_names (st_root st) = true ->
  Forall joined (processing_order old_account st)
  /\ StronglySorted (not_longer cwd) (processing_order old_account st)
  /\ NoDup (List.map (place cwd) (processing_order old_account st))
  /\ Forall (fun e => dir_at (st_root st) (place cwd e) = true)
            (processing_order old_account st).
Proof.
  intros [Hc Hn] Hd.
  set (w := st_working st).
  assert (Item : Forall (fun e =>
                           exists r,
                             Forall (fun x => proper_name x = true) r
                             /\ r <> [] /\ fst e = path_under w r
                             /\ dir_at (st_root st) (locate cwd w ++ r) = true
                             /\ snd e = List.length (split_on sep (fst e)))
                        (enumerated_dirs old_account st)).
  { apply Forall_forall. intros e Hin.
    pose proof (collect_dirs_depths w old_account
                  (match node_at w st with
                   | Some n => walk_node w n
                   | None => []
                   end)) as Dp.
    rewrite Forall_forall in Dp. specialize (Dp e Hin).
    unfold enumerated_dirs in Hin. fold w in Hin.
    destruct (node_at w st) as [n|] eqn:G; [|destruct Hin].
    unfold node_at in G. rewrite Hc in G.
    destruct (enumerated_are_dirs n (names_ok_get _ _ _ Hn G)
                (distinct_names_get _ _ _ Hd G) _ _ _ _ Hin)
      as (r & Pr & Hne & E & D).
    exists r. repeat split; auto.
    unfold dir_at in *. rewrite get_app, G. exact D. }
  assert (Nd : NoDup (List.map (place cwd) (enumerated_dirs old_account st))).
  { unfold enumerated_dirs. fold w.
    destruct (node_at w st) as [n|] eqn:G; [|constructor].
    unfold node_at in G. rewrite Hc in G.
    apply enumerated_places_distinct;
      [eapply names_ok_get|eapply distinct_names_get]; eassumption. }
  assert (Item' : Forall (fun e =>
                            exists r,
                              Forall (fun x => proper_name x = true) r
                              /\ r <> [] /\ fst e = path_under w r
                              /\ dir_at (st_root st) (locate cwd w ++ r) = true
                              /\ snd e = List.length (split_on sep (fst e)))
                         (processing_order old_account st))
    by (eapply Permutation_Forall; [apply sort_deepest_first_perm|exact Item]).
  split; [|split; [|split]].
  - eapply Forall_impl; [|exact Item'].
    intros e (r & Pr & Hne & E & _).
    destruct (exists_last Hne) as (r0 & x & ->).
    apply Forall_app in Pr. destruct Pr as [_ Px]. inversion Px; subst.
    exists (path_under w r0), x. split; [|assumption].
    rewrite E. unfold path_under. rewrite fold_left_app. reflexivity.
  - eapply sorted_weaken; [|exact Item'|apply sort_deepest_first_sorted].
    intros a b (ra & Pa & Na & Ea & _ & Da) (rb & Pb & Nb & Eb & _ & Db) R.
    unfold not_deeper in R. unfold not_longer, place.
    rewrite Ea, Eb, !locate_path_under, !length_app by assumption.
    rewrite Da, Db, Ea, Eb in R.
    pose proof (segments_compare w ra rb Pa Na Pb Nb). lia.
  - eapply Permutation_NoDup; [|exact Nd].
    apply Permutation_map, sort_deepest_first_perm.
  - eapply Forall_impl; [|exact Item'].
    intros e (r & Pr & _ & E & D & _). unfold place.
    rewrite E, locate_path_under by exact Pr. exact D.
Qed.

(** The pass at any of its rounds: the rounds before it have returned,
    the directory of the round is a directory still, the round
    returns, the directories yet to come are directories after it, and
    the rounds after it return. *)
Lemma renaming_rounds (old_account : option str) (st : state)
      (earlier later : list (str * nat)) (p : str) (dp : nat) :
  state_ok cwd st -> distinct_names (st_root st) = true ->
  processing_order old_account st = earlier ++ (p, dp) :: later ->
  exists done st_k es now st_k1 more st',
    rename_each self m earlier st = (Ret done, st_k)
    /\ node_at p st_k = Some (Dir es)
    /\ rename_one self m p st_k = (Ret now, st_k1)
    /\ (dry_run self = false ->
        forall new_path,
          rename_target m p = Some new_path ->
          node_at new_path st_k = None ->
          now = [(p, new_path)]
          /\ forall q,
               get (locate cwd new_path ++ q) (st_root st_k1)
               = get (locate cwd p ++ q) (st_root st_k))
    /\ Forall (fun e => dir_at (st_root st_k1) (place cwd e) = true) later
    /\ rename_each self m later st_k1 = (Ret more, st')
    /\ rename_folders self m old_account st = (Ret (done ++ now ++ more), st').
Proof.
  intros Hok Hd E.
  destruct (enumerated_in_order old_account st Hok Hd) as (J & S & N & D).
  rewrite E in J, S, N, D.
  apply Forall_app in J. destruct J as [J1 J2].
  inversion J2 as [|? ? Jp J3]; subst.
  apply sorted_app_inv in S. destruct S as (S1 & S2 & S12).
  inversion S2 as [|? ? S3 Sp]; subst.
  rewrite map_app in N. cbn [List.map] in N.
  pose proof (NoDup_app_remove_r _ _ N) as N1.
  pose proof (NoDup_app_remove_l _ _ N) as N2.
  inversion N2 as [|? ? Np3 N3]; subst.
  apply Forall_app in D. destruct D as [D1 D2].
  inversion D2 as [|? ? Dp D3]; subst.
  destruct (rename_each_rounds earlier st Hok J1 S1 N1 D1)
    as (done & st_k & E1 & Hok_k & F1).
  assert (Keep : forall e, In e ((p, dp) :: later) ->
                   dir_at (st_root st) (place cwd e) = true ->
                   dir_at (st_root st_k) (place cwd e) = true).
  { intros e Hin De. apply F1; [| |exact De].
    - intros Hq. apply (NoDup_app_disjoint _ _ _ N Hq).
      apply (in_map (place cwd)) in Hin. exact Hin.
    - intros a Ha. apply (S12 a e Ha Hin). }
  assert (Dpk : dir_at (st_root st_k) (place cwd (p, dp)) = true)
    by (apply Keep; [now left|exact Dp]).
  destruct (round_on_entry (p, dp) st_k Hok_k Jp Dpk)
    as (es & now & st_k1 & G & E2 & Hok_k1 & F2 & Eff).
  cbn [fst] in *.
  assert (D3k : Forall (fun e => dir_at (st_root st_k1) (place cwd e) = true)
                       later).
  { rewrite Forall_forall in *. intros e Hin. apply F2.
    - intros Eq. apply Np3. rewrite <- Eq. apply in_map, Hin.
    - apply (Sp e Hin).
    - apply Keep; [now right|apply D3, Hin]. }
  destruct (rename_each_rounds later st_k1 Hok_k1 J3 S3 N3 D3k)
    as (more & st' & E3 & _ & _).
  exists done, st_k, es, now, st_k1, more, st'.
  split; [exact E1|]. split; [exact G|]. split; [exact E2|].
  split; [|split; [exact D3k|split; [exact E3|]]].
  { intros Real new_path T Free.
    destruct (Eff Real new_path T Free) as (En & _ & Gn).
    split; [exact En|]. intros q.
    unfold node_at in G, Gn.
    destruct Hok_k as [Ck _]. destruct Hok_k1 as [Ck1 _].
    rewrite Ck in G. rewrite Ck1 in Gn.
    rewrite !get_app, G, Gn. reflexivity. }
  change (rename_each self m (processing_order old_account st) st
          = (Ret (done ++ now ++ more), st')).
  rewrite E. apply (rename_each_app self m earlier _ st st_k st' done _ E1).
  cbn [rename_each].
  rewrite (bind_run _ _ _ _ _ E2), (bind_run _ _ _ _ _ E3). reflexivity.
Qed.

End Pass.

(** ** What [migrate] leaves alone *)

Lemma state_ok_same_but_log (cwd : list str) (st st1 : state) :
  same_but_log st st1 -> state_ok cwd st -> state_ok cwd st1.
Proof. unfold same_but_log, state_ok. intuition congruence. Qed.

Lemma confined_same_but_log (c : list str) (st st1 : state) :
  same_but_log st st1 -> confined c st st1.
Proof.
  unfold same_but_log, confined. intros (R & _ & _ & _ & _ & _ & W).
  split; [exact W|]. intros. congruence.
Qed.

(** The copy step changes the tree at the copy only, and makes the copy
    the working path; in a dry run it changes neither. *)
Lemma create_migration_copy_confined (cwd : list str) (self : WoWUIMigrator)
      (old_realm new_realm : str) (old_char new_char : option str)
      (st st' : state) (copy_path : str) :
  Forall (fun x => proper_name x = true) cwd ->
  state_ok cwd st ->
  create_migration_copy self old_realm new_realm old_char new_char st
  = (Ret copy_path, st') ->
  state_ok cwd st'
  /\ copy_path = path_str (copy_path_of self old_realm new_realm old_char new_char
                                        (next_stamp st))
  /\ (if dry_run self
      then st_working st' = st_working st /\ st_root st' = st_root st
      else st_working st' = copy_path
           /\ forall q, apart_from (locate cwd copy_path) q ->
                        get q (st_root st') = get q (st_root st)).
Proof.
  intros Pc [Hc Hn] E. destruct (dry_run self) eqn:Dry.
  - rewrite create_migration_copy_dry in E by exact Dry.
    injection E as <- <-. repeat split; auto.
  - rewrite create_migration_copy_real in E by exact Dry. cbv zeta in E.
    rewrite Hc in E.
    destruct (copytree_loc _ _ (st_root st)) as [[u|e] root'] eqn:C; [|discriminate].
    injection E as <- <-.
    destruct (copytree_loc_confined _ _ _ _ _ _ Hn (locate_proper _ _ Pc)
                (within_refl _) C) as [Hn' F].
    repeat split; auto.
Qed.

Section Isolation.
Context {db : UnicodeDb}.

Lemma folder_mappings_proper (old_realm new_realm old_char new_char
                              old_account new_account : option str) :
  replacement_ok new_realm -> replacement_ok new_char ->
  replacement_ok new_account ->
  Forall (fun e => proper_name (snd e) = true)
         (get_folder_mappings old_realm new_realm old_char new_char
                              old_account new_account).
Proof.
  assert (S : forall (m : dict) k v,
             Forall (fun e => proper_name (snd e) = true) m ->
             proper_name v = true ->
             Forall (fun e => proper_name (snd e) = true) (dict_set m k v)).
  { induction m as [|[k' v'] m IH]; intros k v Hm Hv; cbn [dict_set].
    - repeat constructor. exact Hv.
    - inversion Hm; subst. destruct (str_eqb k' k); constructor; auto. }
  assert (A : forall old new (m : dict),
             replacement_ok new ->
             Forall (fun e => proper_name (snd e) = true) m ->
             Forall (fun e => proper_name (snd e) = true) (add_pair old new m)).
  { intros [o|] [n|] m Hr Hm; cbn [add_pair]; auto.
    destruct (truthy (Some o) && truthy (Some n)) eqn:T; auto.
    apply S; auto. apply andb_true_iff in T. destruct T as [_ T].
    destruct n; [discriminate|exact Hr]. }
  intros H1 H2 H3. unfold get_folder_mappings. cbv zeta.
  repeat (apply A; auto).
Qed.

(** Whatever [migrate] changes when it returns lies at the working path
    it ends with, or below; unless it is a dry run or the folder is
    missing, that path is the path of the copy, which was made. *)
Lemma migrate_confined (self : WoWUIMigrator) (old_realm new_realm : str)
      (old_char new_char old_account new_account : option str)
      (st st' : state) (ok : bool) :
  Forall (fun x => proper_name x = true) (st_cwd st) ->
  names_ok (st_root st) = true ->
  replacement_ok (Some new_realm) -> replacement_ok new_char ->
  replacement_ok new_account ->
  migrate self old_realm new_realm old_char new_char old_account new_account st
  = (Ret ok, st') ->
  (forall q, apart_from (locate (st_cwd st) (st_working st')) q ->
             get q (st_root st') = get q (st_root st))
  /\ (st_root st' = st_root st
      \/ (st_working st'
          = path_str (copy_path_of self old_realm new_realm old_char new_char
                                   (next_stamp st))
          /\ exists root',
               copytree_loc
                 (locate (st_cwd st) (path_str (wtf_path self)))
                 (locate (st_cwd st)
                         (path_str (copy_path_of self old_realm new_realm old_char
                                                 new_char (next_stamp st))))
                 (st_root st)
               = (Ret tt, root'))).
Proof.
  intros Pc Hn R1 R2 R3 E. rewrite migrate_run in E. cbv zeta in E.
  set (cwd := st_cwd st) in *.
  assert (Hok : state_ok cwd st) by (split; auto).
  pose proof (same_but_log_logged
                (opening_records self old_realm new_realm old_char new_char
                                 old_account new_account) st) as S1.
  set (st1 := logged _ st) in *.
  pose proof (state_ok_same_but_log cwd _ _ S1 Hok) as Hok1.
  assert (R01 : st_root st1 = st_root st) by apply S1.
  destruct (node_at (path_str (wtf_path self)) st1) as [n|].
  2:{ injection E as _ <-. cbn [st_root with_log]. rewrite R01.
      split; [reflexivity|left; reflexivity]. }
  destruct (create_migration_copy self old_realm new_realm old_char new_char st1)
    as [[copy_path|e] st2] eqn:C; [|discriminate].
  destruct (create_migration_copy_confined cwd _ _ _ _ _ _ _ _ Pc Hok1 C)
    as (Hok2 & _ & Hcopy).
  pose proof (same_but_log_logged [(INFO, MsgWorkingOn (st_working st2))] st2) as S3.
  set (st3 := logged _ st2) in *.
  pose proof (state_ok_same_but_log cwd _ _ S3 Hok2) as Hok3.
  set (c := locate cwd (st_working st2)).
  assert (F12 : forall q, apart_from c q -> get q (st_root st2) = get q (st_root st)).
  { intros q Hq. rewrite <- R01. destruct (dry_run self).
    - destruct Hcopy as [_ ->]. reflexivity.
    - destruct Hcopy as [W F]. apply F. subst c. rewrite W in Hq. exact Hq. }
  assert (W3 : st_working st3 = st_working st2) by apply S3.
  assert (R3' : st_root st3 = st_root st2) by apply S3.
  assert (Hw3 : within c (locate cwd (st_working st3)))
    by (rewrite W3; apply within_refl).
  assert (Made : forall stf,
             st_root stf = st_root st2 \/ dry_run self = false ->
             st_working stf = st_working st2 ->
             st_root stf = st_root st
             \/ (st_working stf
                 = path_str (copy_path_of self old_realm new_realm old_char
                                          new_char (next_stamp st))
                 /\ exists root',
                      copytree_loc
                        (locate cwd (path_str (wtf_path self)))
                        (locate cwd
                           (path_str (copy_path_of self old_realm new_realm
                                                   old_char new_char
                                                   (next_stamp st))))
                        (st_root st)
                      = (Ret tt, root'))).
  { intros stf Hr Hwf. destruct (dry_run self) eqn:Dry.
    - left. destruct Hr as [Hr|Hr]; [|discriminate].
      destruct Hcopy as [_ H2]. congruence.
    - right. rewrite create_migration_copy_real in C by exact Dry. cbv zeta in C.
      assert (Hs : next_stamp st1 = next_stamp st).
      { unfold next_stamp. destruct S1 as (_ & _ & -> & -> & _). reflexivity. }
      assert (Hc1 : st_cwd st1 = cwd) by apply S1.
      rewrite Hs, Hc1, R01 in C.
      destruct (copytree_loc _ _ (st_root st)) as [[[]|e] root'] eqn:CT;
        [|discriminate].
      injection C as <- <-. cbn [st_working with_working] in Hwf.
      split; [exact Hwf|]. exists root'. reflexivity. }
  assert (Final : forall stf stl,
             state_ok cwd stf -> confined c st3 stf -> same_but_log stf stl ->
             stl = st' ->
             (forall q, apart_from (locate cwd (st_working st')) q ->
                        get q (st_root st') = get q (st_root st))
             /\ st_working st' = st_working st2).
  { intros stf stl Hokf [Wf Ff] Sl <-.
    destruct Sl as (Rl & _ & _ & _ & _ & _ & Wl).
    split; [|congruence]. intros q Hq. rewrite Rl.
    rewrite Wl, Wf, W3 in Hq. fold c in Hq.
    rewrite Ff, R3' by exact Hq. apply F12, Hq. }
  assert (Dry : forall self0 : WoWUIMigrator,
             dry_run self0 = true \/ dry_run self0 = false)
    by (intros self0; destruct (dry_run self0); auto).
  destruct (rename_folders self _ old_account st3) as [[renamed|e] st4] eqn:RF;
    destruct (rename_folders_confined cwd c Pc self _ old_account st3 st4 _
                (folder_mappings_proper _ _ _ _ _ _ R1 R2 R3) Hok3 Hw3 RF)
      as [Hok4 F34].
  2:{ assert (E' : logged [(ERROR, MsgMigrationFailed e)] st4 = st') by congruence.
      destruct (Final st4 _ Hok4 F34 (same_but_log_logged _ st4) E') as [F W].
      split; [exact F|]. apply Made; [|exact W].
      destruct (dry_run self) eqn:D; [left|right; reflexivity].
      destruct (rename_each_dry self
                  (get_folder_mappings (Some old_realm) (Some new_realm) old_char
                                       new_char old_account new_account)
                  D (processing_order old_account st3) st3)
        as (st4' & E4 & _).
      change (rename_each self
                (get_folder_mappings (Some old_realm) (Some new_realm) old_char
                                     new_char old_account new_account)
                (processing_order old_account st3) st3 = (Raise e, st4)) in RF.
      congruence. }
  assert (Hw4 : within c (locate cwd (st_working st4))).
  { destruct F34 as [-> _]. exact Hw3. }
  assert (Still : dry_run self = true ->
                  forall l5 st5,
                    update_file_contents self
                      (get_content_mappings (Some old_realm) (Some new_realm)
                                            old_char new_char old_account new_account)
                      old_account st4 = (l5, st5) ->
                    st_root st5 = st_root st2).
  { intros D l5 st5 U.
    destruct (rename_each_dry self
                (get_folder_mappings (Some old_realm) (Some new_realm) old_char
                                     new_char old_account new_account)
                D (processing_order old_account st3) st3)
      as (st4' & E4 & R4 & _).
    change (rename_each self
              (get_folder_mappings (Some old_realm) (Some new_realm) old_char
                                   new_char old_account new_account)
              (processing_order old_account st3) st3 = (Ret renamed, st4)) in RF.
    assert (st4' = st4) by congruence. subst st4'.
    rewrite update_file_contents_run in U. injection U as _ <-.
    destruct (run_updates_dry self
                (get_content_mappings (Some old_realm) (Some new_realm) old_char
                                      new_char old_account new_account)
                D (targets_of (get_content_mappings (Some old_realm) (Some new_realm)
                                                    old_char new_char old_account
                                                    new_account)
                              old_account st4) st4)
      as (_ & R5 & _). congruence. }
  destruct (update_file_contents self _ old_account st4) as [[updated|e] st5] eqn:UF;
    destruct (update_file_contents_confined cwd c Pc self _ old_account st4 st5 _
                Hok4 Hw4 UF) as [Hok5 F45];
    pose proof (confined_trans _ _ _ _ F34 F45) as F35.
  - assert (E' : logged (closing_records self (List.length renamed)
                                         (List.length updated) copy_path) st5 = st')
      by congruence.
    destruct (Final st5 _ Hok5 F35 (same_but_log_logged _ st5) E') as [F W].
    split; [exact F|]. apply Made; [|exact W].
    destruct (dry_run self) eqn:D; [left|right; reflexivity].
    rewrite <- E'. destruct (same_but_log_logged
                               (closing_records self (List.length renamed)
                                                (List.length updated) copy_path) st5)
      as (-> & _).
    eapply Still; eauto.
  - assert (E' : logged [(ERROR, MsgMigrationFailed e)] st5 = st') by congruence.
    destruct (Final st5 _ Hok5 F35 (same_but_log_logged _ st5) E') as [F W].
    split; [exact F|]. apply Made; [|exact W].
    destruct (dry_run self) eqn:D; [left|right; reflexivity].
    rewrite <- E'. destruct (same_but_log_logged [(ERROR, MsgMigrationFailed e)] st5)
      as (-> & _).
    eapply Still; eauto.
Qed.

End Isolation.

Lemma graft_occupied (leaf : node) : forall (p : list str) (n c : node),
  get p n = Some c -> exists e, graft p leaf n = Raise e.
Proof.
  induction p as [|x p IH]; intros n c G; [eexists; reflexivity|].
  destruct n as [|es]; [discriminate|]. cbn [get] in G. cbn [graft].
  destruct (assoc x es) as [d|]; [|discriminate].
  destruct (IH d c G) as [e ->]. eexists. reflexivity.
Qed.

(** A tree cannot be copied to its own path. *)
Lemma copytree_loc_same (s : list str) (root root' : node) :
  copytree_loc s s root <> (Ret tt, root').
Proof.
  unfold copytree_loc. destruct (get s root) as [[r w d|es]|] eqn:G; try discriminate.
  rewrite skipn_all. destruct (copy_node (Dir es)) as [cp bad].
  destruct (graft_occupied cp s root _ G) as [e ->]. discriminate.
Qed.

Lemma replacement_no_separator (new : option str) :
  replacement_ok new -> none_or_no_separator new.
Proof.
  destruct new as [[|ch x]|]; [reflexivity| |exact (fun _ => I)].
  intros H. apply proper_name_inv in H. unfold none_or_no_separator, no_separator.
  tauto.
Qed.

(** The working copy is made beside a folder whose path ends in a name. *)
Lemma copy_lies_beside (cwd : list str) (self : WoWUIMigrator)
      (old_realm new_realm : str) (old_char new_char : option str)
      (timestamp : str) (ps : list str) (w : str) :
  root_ok (wtf_path self) -> parts_ok (wtf_path self) ->
  pp_parts (wtf_path self) = ps ++ [w] -> proper_name w = true ->
  no_separator old_realm -> no_separator new_realm ->
  none_or_no_separator old_char -> none_or_no_separator new_char ->
  no_separator timestamp ->
  exists pl x,
    locate cwd (path_str (wtf_path self)) = pl ++ [w]
    /\ locate cwd (path_str (copy_path_of self old_realm new_realm old_char new_char
                                          timestamp))
       = pl ++ [x].
Proof.
  intros Hr Hp Hparts Hw H1 H2 H3 H4 H5.
  destruct (path_parent_child _ _ _ Hparts) as [Epar Echild].
  assert (Hrp : root_ok (path_parent (wtf_path self)))
    by (rewrite Epar; exact Hr).
  assert (Hpp : parts_ok (path_parent (wtf_path self))).
  { rewrite Epar. unfold parts_ok in *. cbn [pp_parts]. rewrite Hparts in Hp.
    apply Forall_app in Hp. tauto. }
  exists (locate cwd (path_str (path_parent (wtf_path self)))).
  eexists. split.
  - rewrite Echild at 1. apply locate_path_child; assumption.
  - unfold copy_path_of.
    pose proof (copy_name_proper _ _ _ _ _ H1 H2 H3 H4 H5) as Hx.
    rewrite path_div_proper by exact Hx.
    apply locate_path_child; assumption.
Qed.

(** When the folder is missing [migrate] logs the error and returns
    [False]. *)
Lemma migrate_missing {db : UnicodeDb} (self : WoWUIMigrator)
      (old_realm new_realm : str)
      (old_char new_char old_account new_account : option str) (st : state) :
  node_at (path_str (wtf_path self)) st = None ->
  exists st',
    migrate self old_realm new_realm old_char new_char old_account new_account st
    = (Ret false, st')
    /\ same_but_log st st'
    /\ last (st_log st') (INFO, MsgStarting)
       = (ERROR, MsgNotFound (path_str (wtf_path self))).
Proof.
  intros Hnone. rewrite migrate_run. cbv zeta.
  pose proof (same_but_log_logged
                (opening_records self old_realm new_realm old_char new_char
                                 old_account new_account) st) as S1.
  set (st1 := logged _ st) in *.
  assert (N1 : node_at (path_str (wtf_path self)) st1 = None).
  { unfold node_at in *. destruct S1 as (-> & -> & _). exact Hnone. }
  rewrite N1. eexists. split; [reflexivity|]. split.
  - eapply same_but_log_trans; [exact S1|apply same_but_log_logged].
  - cbn [logged fold_left st_log with_log]. apply last_last.
Qed.

(** A dry run of [migrate] returns whether the folder exists and
    leaves the tree and the working path. *)
Lemma migrate_dry {db : UnicodeDb} (self : WoWUIMigrator)
      (old_realm new_realm : str)
      (old_char new_char old_account new_account : option str) (st : state) :
  dry_run self = true ->
  exists st',
    migrate self old_realm new_realm old_char new_char old_account new_account st
    = (Ret (match node_at (path_str (wtf_path self)) st with
            | Some _ => true
            | None => false
            end), st')
    /\ st_root st' = st_root st
    /\ st_cwd st' = st_cwd st
    /\ st_working st' = st_working st.
Proof.
  intros Dry. rewrite migrate_run. cbv zeta.
  pose proof (same_but_log_logged
                (opening_records self old_realm new_realm old_char new_char
                                 old_account new_account) st) as S1.
  set (st1 := logged _ st) in *.
  assert (N1 : node_at (path_str (wtf_path self)) st1
               = node_at (path_str (wtf_path self)) st).
  { unfold node_at. destruct S1 as (-> & -> & _). reflexivity. }
  destruct S1 as (R1 & C1 & _ & _ & _ & _ & W1).
  rewrite N1. destruct (node_at (path_str (wtf_path self)) st) as [n|].
  2:{ eexists. split; [reflexivity|].
      destruct (same_but_log_logged
                  [(ERROR, MsgNotFound (path_str (wtf_path self)))] st1)
        as (R & C & _ & _ & _ & _ & W).
      repeat split; congruence. }
  rewrite create_migration_copy_dry by exact Dry.
  set (st2 := with_log _ (with_ticks _ st1)).
  pose proof (same_but_log_logged [(INFO, MsgWorkingOn (st_working st2))] st2)
    as (R3 & C3 & _ & _ & _ & _ & W3).
  set (st3 := logged _ st2) in *.
  set (fm := get_folder_mappings _ _ _ _ _ _).
  set (cm := get_content_mappings _ _ _ _ _ _).
  destruct (rename_each_dry self fm Dry (processing_order old_account st3) st3)
    as (st4 & E4 & R4 & C4 & W4 & _).
  change (rename_folders self fm old_account st3)
    with (rename_each self fm (processing_order old_account st3) st3).
  rewrite E4. rewrite update_file_contents_run.
  destruct (run_updates_dry self cm Dry (targets_of cm old_account st4) st4)
    as (_ & R5 & C5 & W5).
  eexists. split; [reflexivity|].
  match goal with
  | |- st_root (logged ?l ?s) = _ /\ _ =>
      destruct (same_but_log_logged l s) as (R6 & C6 & _ & _ & _ & _ & W6)
  end.
  subst st2. cbn [st_root st_cwd st_working with_log with_ticks] in *.
  repeat split; congruence.
Qed.

(** What a completed [copytree] leaves. *)
Lemma copytree_loc_ret (s d : list str) (root root' : node) :
  copytree_loc s d root = (Ret tt, root') ->
  exists es,
    get s root = Some (Dir es) /\ get d root = None
    /\ get d root' = Some (Dir es)
    /\ forall q, apart_from d q -> get q root' = get q root.
Proof.
  unfold copytree_loc.
  destruct (get s root) as [[r w dt|es]|] eqn:G; try discriminate.
  set (inside := match skipn (List.length s) d with
                 | x :: _ :: _ => _
                 | _ => false
                 end).
  pose proof (copy_node_faithful (Dir es)) as Cp.
  destruct (copy_node (Dir es)) as [cp bad]. cbn [fst snd] in Cp.
  destruct (graft d (if inside then Dir [] else cp) root) as [r1|e] eqn:Gr;
    [|discriminate].
  destruct inside; [discriminate|]. destruct bad; [discriminate|].
  intros H. injection H as <-. rewrite (Cp eq_refl) in Gr. exists es.
  split; [reflexivity|]. split.
  { destruct (get d root) as [c|] eqn:Gd; [|reflexivity].
    destruct (graft_occupied (Dir es) d root c Gd) as [e He].
    rewrite He in Gr. discriminate. }
  split; [eapply get_graft; eauto|].
  intros q Hq. eapply get_graft_apart; eauto.
Qed.

(** ** The mappings *)

Lemma str_eqb_sym_bool (a b : str) : str_eqb a b = str_eqb b a.
Proof.
  destruct (str_eqb a b) eqn:E, (str_eqb b a) eqn:E'; try reflexivity.
  - apply str_eqb_eq in E. subst. rewrite str_eqb_refl in E'. discriminate.
  - apply str_eqb_eq in E'. subst. rewrite str_eqb_refl in E. discriminate.
Qed.

Lemma dict_get_set (m : dict) (k v k' d : str) :
  dict_get (dict_set m k v) k' d = if str_eqb k k' then v else dict_get m k' d.
Proof.
  induction m as [|[a b] m IH]; cbn [dict_set dict_get]; [reflexivity|].
  destruct (str_eqb a k) eqn:E.
  - apply str_eqb_eq in E. subst a. cbn [dict_get].
    destruct (str_eqb k k'); reflexivity.
  - cbn [dict_get]. rewrite IH. destruct (str_eqb a k') eqn:E'; [|reflexivity].
    apply str_eqb_eq in E'. subst a. rewrite str_eqb_sym_bool, E. reflexivity.
Qed.

Lemma dict_get_add_pair (old new : option str) (m : dict) (k d : str) :
  dict_get (add_pair old new m) k d
  = first_given [(old, new)] k (dict_get m k d).
Proof.
  destruct old as [o|], new as [n|]; cbn [add_pair first_given]; try reflexivity.
  destruct (truthy (Some o) && truthy (Some n)); cbn [andb]; [|reflexivity].
  apply dict_get_set.
Qed.

Lemma in_dict_set (m : dict) (k v a b : str) :
  In (a, b) (dict_set m k v) -> (a = k /\ b = v) \/ In (a, b) m.
Proof.
  induction m as [|[x y] m IH]; cbn [dict_set].
  - intros [H|[]]. injection H as <- <-. auto.
  - destruct (str_eqb x k) eqn:E.
    + apply str_eqb_eq in E. subst x. intros [H|H].
      * injection H as <- <-. auto.
      * right. now right.
    + intros [H|H]; [right; now left|].
      destruct (IH H); auto. right. now right.
Qed.

Lemma keys_dict_set (m : dict) (k v : str) :
  keys (dict_set m k v) = if existsb (str_eqb k) (keys m) then keys m
                          else keys m ++ [k].
Proof.
  unfold keys. induction m as [|[x y] m IH]; cbn [dict_set List.map existsb fst];
    [reflexivity|].
  rewrite (str_eqb_sym_bool k x).
  destruct (str_eqb x k) eqn:E; cbn [orb List.map fst]; [reflexivity|].
  rewrite IH. destruct (existsb (str_eqb k) (List.map fst m)); reflexivity.
Qed.

Lemma first_given_cons (p : option str * option str)
      (rest : list (option str * option str)) (k d : str) :
  first_given (p :: rest) k d = first_given [p] k (first_given rest k d).
Proof.
  destruct p as [[o|] [n|]]; reflexivity.
Qed.

(** X1 -- Both mappings hold the same pairs but are filled in different
    orders, and a later pair with the same old name overwrites an
    earlier one: looking a name up in the folder mapping gives the
    character's new name before the realm's before the account's,
    looking it up in the content mapping gives the account's before the
    character's before the realm's; a pair counts only when both of
    its names are given and not empty. *)
Theorem mappings_look_up_the_pair_set_last
        (old_realm new_realm old_char new_char old_account new_account : option str)
        (k default : str) :
  dict_get (get_folder_mappings old_realm new_realm old_char new_char
                                old_account new_account) k default
  = first_given [(old_char, new_char); (old_realm, new_realm);
                 (old_account, new_account)] k default
  /\ dict_get (get_content_mappings old_realm new_realm old_char new_char
                                    old_account new_account) k default
     = first_given [(old_account, new_account); (old_char, new_char);
                    (old_realm, new_realm)] k default.
Proof.
  unfold get_folder_mappings, get_content_mappings. cbv zeta.
  rewrite !dict_get_add_pair.
  split; repeat rewrite (first_given_cons _ (_ :: _)); reflexivity.
Qed.

Lemma add_pair_given (old new : option str) (m : dict) :
  add_pair old new m
  = match given old new with
    | [(o, n)] => dict_set m o n
    | _ => m
    end.
Proof.
  unfold add_pair, given. destruct old as [o|], new as [n|]; try reflexivity.
  destruct (truthy (Some o) && truthy (Some n)); reflexivity.
Qed.

Lemma given_inv (old new : option str) (k v : str) :
  In (k, v) (given old new) ->
  old = Some k /\ new = Some v /\ k <> [] /\ v <> [].
Proof.
  unfold given. destruct old as [o|], new as [n|]; try (intros []).
  destruct (truthy (Some o) && truthy (Some n)) eqn:T; [|intros []].
  intros [H|[]]. injection H as <- <-.
  apply andb_true_iff in T. destruct T as [T1 T2].
  repeat split; intros ->; discriminate.
Qed.

Lemma add_pair_entries (old new : option str) (m : dict) (k v : str) :
  In (k, v) (add_pair old new m) -> In (k, v) (given old new) \/ In (k, v) m.
Proof.
  rewrite add_pair_given. destruct (given old new) as [|[o n] [|? ?]]; auto.
  intros H. apply in_dict_set in H. destruct H as [[-> ->]|H]; auto.
  left. now left.
Qed.

Lemma add_pair_keys_nodup (old new : option str) (m : dict) :
  NoDup (keys m) -> NoDup (keys (add_pair old new m)).
Proof.
  intros H. rewrite add_pair_given. destruct (given old new) as [|[o n] [|? ?]]; auto.
  rewrite keys_dict_set. destruct (existsb (str_eqb o) (keys m)) eqn:E; [exact H|].
  apply NoDup_app; [exact H|repeat constructor; intros []|].
  intros x Hx [Ho|[]]. subst x.
  assert (existsb (str_eqb o) (keys m) = true); [|congruence].
  apply existsb_exists. exists o. split; [exact Hx|apply str_eqb_refl].
Qed.

(** X2 -- Neither mapping ever holds an empty old or new name, nor the
    same old name twice, and every entry is one of the pairs given:
    the realm pair, the character pair or the account pair. *)
Theorem mappings_hold_the_names_given
        (old_realm new_realm old_char new_char old_account new_account : option str)
        (m : dict) :
  m = get_folder_mappings old_realm new_realm old_char new_char
                          old_account new_account
  \/ m = get_content_mappings old_realm new_realm old_char new_char
                              old_account new_account ->
  NoDup (keys m)
  /\ List.length m <= 3
  /\ forall k v,
       In (k, v) m ->
       k <> [] /\ v <> []
       /\ ((old_realm = Some k /\ new_realm = Some v)
           \/ (old_char = Some k /\ new_char = Some v)
           \/ (old_account = Some k /\ new_account = Some v)).
Proof.
  assert (L : forall old new (d : dict),
             List.length (add_pair old new d) <= S (List.length d)).
  { intros old new d. rewrite add_pair_given.
    destruct (given old new) as [|[o n] [|? ?]]; auto.
    clear. induction d as [|[a b] d IH]; cbn [dict_set]; [cbn; lia|].
    destruct (str_eqb a o); cbn [List.length] in *; lia. }
  intros [->| ->]; unfold get_folder_mappings, get_content_mappings; cbv zeta.
  - split; [repeat apply add_pair_keys_nodup; constructor|]. split.
    + pose proof (L old_char new_char
                    (add_pair old_realm new_realm
                              (add_pair old_account new_account []))).
      pose proof (L old_realm new_realm (add_pair old_account new_account [])).
      pose proof (L old_account new_account []). cbn [List.length] in *. lia.
    + intros k v H.
      apply add_pair_entries in H. destruct H as [H|H];
        [apply given_inv in H; tauto|].
      apply add_pair_entries in H. destruct H as [H|H];
        [apply given_inv in H; tauto|].
      apply add_pair_entries in H. destruct H as [H|[]].
      apply given_inv in H; tauto.
  - split; [repeat apply add_pair_keys_nodup; constructor|]. split.
    + pose proof (L old_account new_account
                    (add_pair old_char new_char
                              (add_pair old_realm new_realm []))).
      pose proof (L old_char new_char (add_pair old_realm new_realm [])).
      pose proof (L old_realm new_realm []). cbn [List.length] in *. lia.
    + intros k v H.
      apply add_pair_entries in H. destruct H as [H|H];
        [apply given_inv in H; tauto|].
      apply add_pair_entries in H. destruct H as [H|H];
        [apply given_inv in H; tauto|].
      apply add_pair_entries in H. destruct H as [H|[]].
      apply given_inv in H; tauto.
Qed.

Lemma mappings_hold_the_names_given_witness :
  NoDup (keys (get_content_mappings (Some (lit "OldRealm")) (Some (lit "NewRealm"))
                                    (Some (lit "Char")) (Some []) None None))
  /\ List.length (get_content_mappings (Some (lit "OldRealm")) (Some (lit "NewRealm"))
                                       (Some (lit "Char")) (Some []) None None) <= 3.
Proof.
  destruct (mappings_hold_the_names_given
              (Some (lit "OldRealm")) (Some (lit "NewRealm"))
              (Some (lit "Char")) (Some []) None None _ (or_intror eq_refl))
    as (H1 & H2 & _).
  split; assumption.
Defined.

Lemma dict_set_fresh (m : dict) (k v : str) :
  ~ In k (keys m) -> dict_set m k v = m ++ [(k, v)].
Proof.
  induction m as [|[a b] m IH]; cbn [dict_set keys List.map fst app];
    [reflexivity|].
  intros H. destruct (str_eqb a k) eqn:E.
  - apply str_eqb_eq in E. subst a. destruct H. now left.
  - unfold keys in IH. rewrite IH; [reflexivity|]. intros Hin. apply H. now right.
Qed.

Lemma add_pair_fresh (old new : option str) (m : dict) :
  (forall k v, In (k, v) (given old new) -> ~ In k (keys m)) ->
  add_pair old new m = m ++ given old new.
Proof.
  intros H. rewrite add_pair_given.
  destruct (given old new) as [|[o n] [|? ?]] eqn:G.
  - symmetry. apply app_nil_r.
  - apply dict_set_fresh. apply (H o n). now left.
  - reflexivity || (exfalso; unfold given in G;
                    destruct old, new; try discriminate;
                    destruct (truthy _ && truthy _); discriminate).
Qed.

Lemma given_key (old new : option str) (k : str) :
  In k (keys (given old new)) -> old = Some k.
Proof.
  unfold keys. intros H. apply in_map_iff in H. destruct H as ([a b] & <- & H).
  apply given_inv in H. tauto.
Qed.

(** X3 -- When the old names given differ from one another the two
    mappings hold the same entries in a different order: the folder
    mapping lists account, realm, character, the content mapping realm,
    character, account. *)
Theorem mappings_agree_when_old_names_differ
        (old_realm new_realm old_char new_char old_account new_account : option str) :
  differ old_realm old_char -> differ old_realm old_account ->
  differ old_char old_account ->
  get_folder_mappings old_realm new_realm old_char new_char old_account new_account
  = given old_account new_account ++ given old_realm new_realm
    ++ given old_char new_char
  /\ get_content_mappings old_realm new_realm old_char new_char
                          old_account new_account
     = given old_realm new_realm ++ given old_char new_char
       ++ given old_account new_account
  /\ Permutation
       (get_folder_mappings old_realm new_realm old_char new_char
                            old_account new_account)
       (get_content_mappings old_realm new_realm old_char new_char
                             old_account new_account).
Proof.
  intros D1 D2 D3.
  assert (F : forall a b, differ a b -> forall na nb k v,
               In (k, v) (given a na) -> ~ In k (keys (given b nb))).
  { intros a b D na nb k v H Hk. apply given_inv in H. destruct H as (-> & _).
    apply given_key in Hk. subst b. cbn in D. congruence. }
  assert (Fs : forall a b, differ a b -> differ b a).
  { intros [x|] [y|]; cbn; auto. }
  assert (K : forall x y : dict, keys (x ++ y) = keys x ++ keys y)
    by (intros; apply map_app).
  assert (E1 : get_folder_mappings old_realm new_realm old_char new_char
                                   old_account new_account
               = given old_account new_account ++ given old_realm new_realm
                 ++ given old_char new_char).
  { unfold get_folder_mappings. cbv zeta.
    rewrite (add_pair_fresh old_account new_account []) by (intros ? ? _ []).
    cbn [app].
    rewrite (add_pair_fresh old_realm new_realm)
      by (intros k v H; exact (F _ _ D2 _ _ k v H)).
    rewrite (add_pair_fresh old_char new_char).
    - rewrite <- app_assoc. reflexivity.
    - intros k v H. rewrite K. intros Hin. apply in_app_or in Hin.
      destruct Hin as [Hin|Hin].
      + exact (F _ _ D3 _ _ k v H Hin).
      + exact (F _ _ (Fs _ _ D1) _ _ k v H Hin). }
  assert (E2 : get_content_mappings old_realm new_realm old_char new_char
                                    old_account new_account
               = given old_realm new_realm ++ given old_char new_char
                 ++ given old_account new_account).
  { unfold get_content_mappings. cbv zeta.
    rewrite (add_pair_fresh old_realm new_realm []) by (intros ? ? _ []).
    cbn [app].
    rewrite (add_pair_fresh old_char new_char)
      by (intros k v H; exact (F _ _ (Fs _ _ D1) _ _ k v H)).
    rewrite (add_pair_fresh old_account new_account).
    - rewrite <- app_assoc. reflexivity.
    - intros k v H. rewrite K. intros Hin. apply in_app_or in Hin.
      destruct Hin as [Hin|Hin].
      + exact (F _ _ (Fs _ _ D2) _ _ k v H Hin).
      + exact (F _ _ (Fs _ _ D3) _ _ k v H Hin). }
  split; [exact E1|]. split; [exact E2|].
  rewrite E1, E2. rewrite (app_assoc (given old_realm new_realm)).
  apply Permutation_app_comm.
Qed.

Lemma mappings_agree_when_old_names_differ_witness :
  Permutation
    (get_folder_mappings (Some (lit "OldRealm")) (Some (lit "NewRealm"))
                         (Some (lit "Char")) (Some (lit "Hero"))
                         (Some (lit "ACC")) (Some (lit "ACC2")))
    (get_content_mappings (Some (lit "OldRealm")) (Some (lit "NewRealm"))
                          (Some (lit "Char")) (Some (lit "Hero"))
                          (Some (lit "ACC")) (Some (lit "ACC2"))).
Proof.
  apply (mappings_agree_when_old_names_differ
           (Some (lit "OldRealm")) (Some (lit "NewRealm"))
           (Some (lit "Char")) (Some (lit "Hero"))
           (Some (lit "ACC")) (Some (lit "ACC2")));
    cbn; discriminate.
Defined.

(** ** The copy step *)

Lemma graft_cons (leaf : node) (x : str) (p : list str) (es : list (str * node)) :
  graft (x :: p) leaf (Dir es)
  = match assoc x es with
    | None => Ret (Dir (es ++ [(x, make_path p leaf)]))
    | Some c =>
        match graft p leaf c with
        | Ret c' => Ret (Dir (alter x (fun _ => Some c') es))
        | Raise e => Raise e
        end
    end.
Proof. reflexivity. Qed.

Lemma graft_free (leaf : node) : forall (d : list str) (n : node) es,
  d <> [] -> get (removelast d) n = Some (Dir es) -> get d n = None ->
  exists n', graft d leaf n = Ret n'.
Proof.
  induction d as [|x d IH]; intros n es Hd Gp Gd; [congruence|].
  destruct d as [|y d].
  - cbn in Gp. injection Gp as ->. cbn [get] in Gd. rewrite graft_cons.
    destruct (assoc x es) as [c|]; [discriminate|]. eexists. reflexivity.
  - change (removelast (x :: y :: d)) with (x :: removelast (y :: d)) in Gp.
    destruct n as [|es0]; [discriminate|].
    change (get (x :: removelast (y :: d)) (Dir es0))
      with (match assoc x es0 with
            | Some c => get (removelast (y :: d)) c
            | None => None
            end) in Gp.
    change (get (x :: y :: d) (Dir es0))
      with (match assoc x es0 with
            | Some c => get (y :: d) c
            | None => None
            end) in Gd.
    rewrite graft_cons.
    destruct (assoc x es0) as [c|]; [|discriminate].
    destruct (IH c es ltac:(discriminate) Gp Gd) as [c' ->].
    eexists. reflexivity.
Qed.

Lemma apart_from_sym (p q : list str) : apart_from p q -> apart_from q p.
Proof. unfold apart_from. tauto. Qed.

(** X4 -- A copy that [create_migration_copy] has made is a faithful
    copy beside the original.  When the path given ends in a name, no
    part of it is [..] and the names hold no separator, then a call
    (outside a dry run) that returns has returned the path built from
    the names and the clock and made it the working path; the original
    was a directory and nothing existed at the path of the copy; every
    location below the copy holds the file the original held at the
    same place (the same bytes and permissions), is a directory where
    the original has one and is empty where the original is; the
    original is as it was; and nothing apart from the copy has changed.
    The log file, to which the call appends a record, is left out of
    all three. *)
Theorem copy_is_faithful (path : str) (old_realm new_realm : str)
        (old_char new_char : option str) (st st' : state) (copy_path : str)
        (ps : list str) (w : str) :
  let self := new_migrator path false in
  let cwd := st_cwd st in
  let source := locate cwd (path_str (Path path)) in
  let copy := locate cwd copy_path in
  pp_parts (Path path) = ps ++ [w] -> upward_free (Path path) ->
  no_separator old_realm -> no_separator new_realm ->
  none_or_no_separator old_char -> none_or_no_separator new_char ->
  no_separator (next_stamp st) ->
  create_migration_copy self old_realm new_realm old_char new_char st
  = (Ret copy_path, st') ->
  copy_path
  = path_str (copy_path_of self old_realm new_realm old_char new_char
                           (next_stamp st))
  /\ st_working st' = copy_path
  /\ st_cwd st' = cwd
  /\ (exists es, get source (st_root st) = Some (Dir es))
  /\ get copy (st_root st) = None
  /\ (forall q, source ++ q <> log_file cwd ->
                same_file (get (copy ++ q) (st_root st'))
                          (get (source ++ q) (st_root st)))
  /\ (forall q, within source q -> apart_from (log_file cwd) q ->
                get q (st_root st') = get q (st_root st))
  /\ (forall q, apart_from copy q -> apart_from (log_file cwd) q ->
                get q (st_root st') = get q (st_root st)).
Proof.
  cbv zeta. intros Hparts Hup H1 H2 H3 H4 H5 E.
  set (self := new_migrator path false) in *.
  assert (Pw : proper_name w = true).
  { pose proof (Path_parts path) as P. rewrite Hparts in P.
    apply Forall_app in P. destruct P as [_ P]. inversion P as [|? ? (A & B & C) _].
    unfold upward_free in Hup. rewrite Hparts in Hup.
    apply Forall_app in Hup. destruct Hup as [_ Hup].
    inversion Hup as [|? ? Hw _].
    subst. unfold proper_name. apply str_eqb_neq in B, C, Hw.
    rewrite A, B, C, Hw. reflexivity. }
  destruct (copy_lies_beside (st_cwd st) self old_realm new_realm old_char new_char
              (next_stamp st) ps w (Path_root_ok path) (Path_parts_ok path)
              Hparts Pw H1 H2 H3 H4 H5) as (pl & x & Lo & Lc).
  cbn [wtf_path self new_migrator] in Lo.
  rewrite create_migration_copy_real in E by reflexivity. cbv zeta in E.
  fold self in E. cbn [wtf_path self new_migrator] in E.
  destruct (copytree_loc _ _ (st_root st)) as [[u|e] root'] eqn:C; [|discriminate].
  injection E as <- <-. destruct u.
  destruct (copytree_loc_ret _ _ _ _ C) as (es & Gs & Gn & Gd & F).
  cbn [st_working st_cwd st_root with_working with_root with_log with_ticks].
  assert (Hxw : x <> w).
  { intros ->. rewrite Lo, Lc in *. congruence. }
  assert (Side : apart_from
                   (locate (st_cwd st)
                      (path_str (copy_path_of self old_realm new_realm old_char
                                              new_char (next_stamp st))))
                   (locate (st_cwd st) (path_str (Path path)))).
  { rewrite Lo, Lc. apply apart_from_siblings. exact Hxw. }
  split; [reflexivity|]. split; [reflexivity|]. split; [reflexivity|].
  split; [eauto|]. split; [exact Gn|]. split; [|split].
  - intros q _. rewrite !get_app, Gd, Gs. apply same_file_refl.
  - intros q Hq _. apply F. apply apart_from_sym.
    eapply apart_from_below; [exact Hq|]. apply apart_from_sym, Side.
  - intros q Hq _. apply F, Hq.
Qed.

Lemma copy_is_faithful_witness :
  fst copy_home
  = Ret (lit "/home/u/WTF_migrated_OldRealm_to_NewRealm_Char_to_Hero_20231114_221320")
  /\ get ([lit "home"; lit "u";
           lit "WTF_migrated_OldRealm_to_NewRealm_Char_to_Hero_20231114_221320"]
          ++ [lit "Account"; lit "ACC"; lit "OldRealm"; lit "Char"; lit "layout.txt"])
         (st_root (snd copy_home))
     = Some (text_file "Char")
  /\ get [lit "home"; lit "u"; lit "WTF"] (st_root (snd copy_home))
     = Some character_wtf.
Proof.
  unfold copy_home. cbv zeta.
  set (st := initial_state (new_migrator (lit "/home/u/WTF") false)
                           (home_tree character_wtf) [] still_clock 100).
  set (run := create_migration_copy _ _ _ _ _ st).
  set (name := lit "/home/u/WTF_migrated_OldRealm_to_NewRealm_Char_to_Hero_20231114_221320").
  assert (E : fst run = Ret name) by (vm_compute; reflexivity).
  assert (P : run = (Ret name, snd run))
    by (rewrite <- E; apply surjective_pairing).
  split; [exact E|].
  destruct (copy_is_faithful (lit "/home/u/WTF") (lit "OldRealm") (lit "NewRealm")
              (Some (lit "Char")) (Some (lit "Hero")) st (snd run) name
              [lit "home"; lit "u"] (lit "WTF")
              eq_refl ltac:(repeat constructor; discriminate)
              eq_refl eq_refl eq_refl eq_refl eq_refl P)
    as (_ & _ & _ & _ & _ & Hcopy & Hsrc & _).
  split.
  - specialize (Hcopy [lit "Account"; lit "ACC"; lit "OldRealm"; lit "Char";
                       lit "layout.txt"] ltac:(vm_compute; discriminate)).
    assert (L : locate (st_cwd st) name
                = [lit "home"; lit "u";
                   lit "WTF_migrated_OldRealm_to_NewRealm_Char_to_Hero_20231114_221320"])
      by (vm_compute; reflexivity).
    assert (G : get (locate (st_cwd st) (path_str (Path (lit "/home/u/WTF")))
                     ++ [lit "Account"; lit "ACC"; lit "OldRealm"; lit "Char";
                         lit "layout.txt"]) (st_root st)
                = Some (text_file "Char"))
      by (vm_compute; reflexivity).
    rewrite L, G in Hcopy. unfold same_file, text_file in *.
    destruct (get _ (st_root (snd run))) as [[r w d|es]|]; try contradiction.
    destruct Hcopy as (-> & -> & ->). reflexivity.
  - rewrite (Hsrc [lit "home"; lit "u"; lit "WTF"]).
    + reflexivity.
    + exists []. vm_compute. reflexivity.
    + split; intros [r Hr]; vm_compute in Hr; discriminate.
Defined.

(** ** The renaming pass goes deepest first *)

(** C3 -- The directory-rename pass enumerates the directories of the
    working tree, with their depths, in the state it starts in, and
    only then processes them, sorted by their number of path segments,
    deepest first: the pass is the loop over [processing_order], a
    function of the starting state alone; without an account filter the
    enumeration holds every directory below the working path; the
    order is a permutation of the enumeration, sorted by decreasing
    segment count; no directory taken later in the pass lies below one
    taken earlier; and the loop takes the entries in the order of the
    list, each in the state the rounds before it have left.
    Consequently no round operates on a path that an earlier round has
    invalidated.  The calls of the file system
    fail here only for what the tree holds (a missing entry, an entry
    in the way, a file where a directory is needed; permissions of
    directories are not modelled), so that a round that raised would
    have found its path invalid.  On a tree with proper entry names
    none of which is listed twice in its directory, a working path
    without [..] and new names that are proper names, and whatever the
    round [(p, dp)] of the pass: the rounds before it return; the path
    [p] names a directory still when its round begins; the round
    returns, and outside a dry run, when the new path is free, it
    appends the pair of the old and the new path and the new path
    holds what the old path held (the log file apart, should it lie
    there); the directories yet to come are directories after the
    round; the rounds after it return, and the pass returns the pairs
    of all rounds in their order. *)
Theorem renaming_pass_is_deepest_first :
  (forall self folder_mappings old_account st,
     rename_folders self folder_mappings old_account st
     = rename_each self folder_mappings (processing_order old_account st) st)
  /\ (forall st n names x es,
        node_at (st_working st) st = Some n ->
        get (names ++ [x]) n = Some (Dir es) ->
        In (os_path_join (path_under (st_working st) names) x)
           (List.map fst (processing_order None st)))
  /\ (forall old_account st,
        Permutation (enumerated_dirs old_account st)
                    (processing_order old_account st)
        /\ StronglySorted not_deeper (processing_order old_account st)
        /\ Forall (fun x => snd x = List.length (split_on sep (fst x)))
                  (processing_order old_account st))
  /\ (forall old_account st earlier p dp later,
        processing_order old_account st = earlier ++ (p, dp) :: later ->
        forall q dq, In (q, dq) later -> descends_from q p = false)
  /\ (forall self folder_mappings old_account st earlier p dp later,
        Forall (fun x => proper_name x = true) (st_cwd st) ->
        names_ok (st_root st) = true ->
        distinct_names (st_root st) = true ->
        upward_free (Path (st_working st)) ->
        Forall (fun e => proper_name (snd e) = true) folder_mappings ->
        processing_order old_account st = earlier ++ (p, dp) :: later ->
        exists done st_k es now st_k1 more st',
          rename_each self folder_mappings earlier st = (Ret done, st_k)
          /\ node_at p st_k = Some (Dir es)
          /\ rename_one self folder_mappings p st_k = (Ret now, st_k1)
          /\ (dry_run self = false ->
              forall new_path,
                rename_target folder_mappings p = Some new_path ->
                node_at new_path st_k = None ->
                now = [(p, new_path)]
                /\ forall q,
                     locate (st_cwd st) p ++ q <> log_file (st_cwd st) ->
                     get (locate (st_cwd st) new_path ++ q) (st_root st_k1)
                     = get (locate (st_cwd st) p ++ q) (st_root st_k))
          /\ Forall (fun e => dir_at (st_root st_k1) (place (st_cwd st) e) = true)
                    later
          /\ rename_each self folder_mappings later st_k1 = (Ret more, st')
          /\ rename_folders self folder_mappings old_account st
             = (Ret (done ++ now ++ more), st'))
  /\ (forall self folder_mappings earlier later st,
        rename_each self folder_mappings (earlier ++ later) st
        = (done <- rename_each self folder_mappings earlier ;;
           more <- rename_each self folder_mappings later ;;
           ret (done ++ more)) st).
Proof.
  assert (D : forall old_account st,
             Forall (fun x => snd x = List.length (split_on sep (fst x)))
                    (processing_order old_account st)).
  { intros. eapply Permutation_Forall; [apply sort_deepest_first_perm|].
    apply collect_dirs_depths. }
  split; [|split; [|split; [|split; [|split]]]].
  - intros. unfold rename_folders, processing_order, enumerated_dirs, os_walk,
      bind, gets. reflexivity.
  - intros st n names x es Hn Hg.
    eapply Permutation_in.
    + apply Permutation_map, sort_deepest_first_perm.
    + eapply enumerated_dirs_complete; eauto.
  - intros. split; [apply sort_deepest_first_perm|].
    split; [apply sort_deepest_first_sorted|apply D].
  - intros old_account st earlier p dp later E q dq Hin.
    destruct (descends_from q p) eqn:Hd; [|reflexivity]. exfalso.
    apply descendant_is_deeper in Hd.
    pose proof (sort_deepest_first_sorted (enumerated_dirs old_account st)) as S.
    fold (processing_order old_account st) in S. rewrite E in S.
    apply sorted_later_not_deeper in S.
    rewrite Forall_forall in S. specialize (S _ Hin). unfold not_deeper in S.
    pose proof (D old_account st) as F. rewrite E, Forall_forall in F.
    assert (Hp : snd (p, dp) = List.length (split_on sep (fst (p, dp))))
      by (apply F, in_or_app; right; now left).
    assert (Hq : snd (q, dq) = List.length (split_on sep (fst (q, dq))))
      by (apply F, in_or_app; right; now right).
    simpl in *. lia.
  - intros self folder_mappings old_account st earlier p dp later
           Hcwd Hn Hd _ Hm E.
    destruct (renaming_rounds (st_cwd st) Hcwd self folder_mappings Hm
                old_account st earlier later p dp
                (conj eq_refl Hn) Hd E)
      as (done & st_k & es & now & st_k1 & more & st'
          & E1 & G & E2 & Eff & D3 & E3 & E4).
    exists done, st_k, es, now, st_k1, more, st'.
    repeat (split; [assumption|]). split; [|auto].
    intros Real new_path T Free.
    destruct (Eff Real new_path T Free) as [En Hq]. auto.
  - intros. apply rename_each_seq.
Qed.

Lemma renaming_pass_is_deepest_first_witness :
  processing_order None (state_at small_tree "/WTF")
  = [(lit "/WTF/Account/ACC/OldRealm/Char", 6)]
    ++ (lit "/WTF/Account/ACC/OldRealm", 5)
       :: [(lit "/WTF/Account/ACC", 4); (lit "/WTF/Account", 3)]
  /\ descends_from (lit "/WTF/Account/ACC")
                   (lit "/WTF/Account/ACC/OldRealm") = false
  /\ exists done st_k es now st_k1 more st',
       rename_each (new_migrator (lit "/WTF") false) realm_and_character
                   [(lit "/WTF/Account/ACC/OldRealm/Char", 6)]
                   (state_at small_tree "/WTF")
       = (Ret done, st_k)
       /\ node_at (lit "/WTF/Account/ACC/OldRealm") st_k = Some (Dir es)
       /\ rename_one (new_migrator (lit "/WTF") false) realm_and_character
                     (lit "/WTF/Account/ACC/OldRealm") st_k
          = (Ret now, st_k1)
       /\ (dry_run (new_migrator (lit "/WTF") false) = false ->
           forall new_path,
             rename_target realm_and_character (lit "/WTF/Account/ACC/OldRealm")
             = Some new_path ->
             node_at new_path st_k = None ->
             now = [(lit "/WTF/Account/ACC/OldRealm", new_path)]
             /\ forall q,
                  locate (st_cwd (state_at small_tree "/WTF"))
                         (lit "/WTF/Account/ACC/OldRealm") ++ q
                  <> log_file (st_cwd (state_at small_tree "/WTF")) ->
                  get (locate (st_cwd (state_at small_tree "/WTF")) new_path ++ q)
                      (st_root st_k1)
                  = get (locate (st_cwd (state_at small_tree "/WTF"))
                                (lit "/WTF/Account/ACC/OldRealm") ++ q)
                        (st_root st_k))
       /\ Forall (fun e => dir_at (st_root st_k1)
                                  (place (st_cwd (state_at small_tree "/WTF")) e)
                           = true)
                 [(lit "/WTF/Account/ACC", 4); (lit "/WTF/Account", 3)]
       /\ rename_each (new_migrator (lit "/WTF") false) realm_and_character
                      [(lit "/WTF/Account/ACC", 4); (lit "/WTF/Account", 3)] st_k1
          = (Ret more, st')
       /\ rename_folders (new_migrator (lit "/WTF") false) realm_and_character
                         None (state_at small_tree "/WTF")
          = (Ret (done ++ now ++ more), st').
Proof.
  assert (E : processing_order None (state_at small_tree "/WTF")
              = [(lit "/WTF/Account/ACC/OldRealm/Char", 6)]
                ++ (lit "/WTF/Account/ACC/OldRealm", 5)
                   :: [(lit "/WTF/Account/ACC", 4); (lit "/WTF/Account", 3)])
    by (vm_compute; reflexivity).
  split; [exact E|]. split.
  - apply (proj1 (proj2 (proj2 (proj2 renaming_pass_is_deepest_first)))
             None (state_at small_tree "/WTF") _ _ 5 _ E _ 4).
    left. reflexivity.
  - apply (proj1 (proj2 (proj2 (proj2 (proj2 renaming_pass_is_deepest_first))))
             (new_migrator (lit "/WTF") false) realm_and_character None
             (state_at small_tree "/WTF") _ _ 5 _).
    + constructor.
    + vm_compute; reflexivity.
    + vm_compute; reflexivity.
    + repeat constructor. discriminate.
    + repeat constructor.
    + exact E.
Defined.

(** ** The two passes: what they report and what they leave alone *)

(** X5 -- In a dry run the renaming pass does not raise and changes
    nothing in the tree but the log file.  It returns, in the order of
    the pass, one pair for every enumerated directory whose name is a
    key of the mapping with another, non-empty replacement: the
    directory and the path with the new name in the same parent; the
    same pairs are appended to the change record. *)
Theorem dry_run_lists_planned_renames (self : WoWUIMigrator) (folder_mappings : dict)
        (old_account : option str) (st : state) :
  dry_run self = true ->
  exists st',
    rename_folders self folder_mappings old_account st
    = (Ret (planned_renames folder_mappings (processing_order old_account st)), st')
    /\ (forall q, apart_from (log_file (st_cwd st)) q ->
                  get q (st_root st') = get q (st_root st))
    /\ st_changes st'
       = st_changes st
         ++ List.map (fun p => FolderChange (fst p) (snd p))
                     (planned_renames folder_mappings
                                      (processing_order old_account st))
    /\ forall dir_path new_path,
         In (dir_path, new_path)
            (planned_renames folder_mappings (processing_order old_account st))
         <-> In dir_path (List.map fst (processing_order old_account st))
             /\ exists new_name,
                  find_new_name folder_mappings (os_path_basename dir_path)
                  = Some new_name
                  /\ new_name <> [] /\ new_name <> os_path_basename dir_path
                  /\ new_path = os_path_join (os_path_dirname dir_path) new_name.
Proof.
  intros Dry.
  destruct (rename_each_dry self folder_mappings Dry
              (processing_order old_account st) st) as (st' & E & R & _ & _ & Ch).
  exists st'. split; [exact E|]. split; [intros q _; rewrite R; reflexivity|].
  split; [exact Ch|].
  intros dir_path new_path. unfold planned_renames. rewrite in_flat_map. split.
  - intros ([d depth] & Hin & H). cbn [fst] in H. unfold rename_target in H.
    destruct (find_new_name folder_mappings (os_path_basename d)) as [n|] eqn:F;
      [|destruct H].
    destruct (truthy (Some n) && negb (str_eqb n (os_path_basename d))) eqn:T;
      [|destruct H].
    destruct H as [H|[]]. injection H as <- <-.
    apply andb_true_iff in T. destruct T as [T1 T2].
    apply negb_true_iff, str_eqb_neq in T2.
    split; [apply (in_map fst _ _ Hin)|].
    exists n. repeat split; auto. intros ->. discriminate.
  - intros (Hin & n & F & Hne & Hd & ->). apply in_map_iff in Hin.
    destruct Hin as ([d depth] & <- & Hin). exists (d, depth).
    split; [exact Hin|]. cbn [fst] in *. unfold rename_target. rewrite F.
    apply str_eqb_neq in Hd. rewrite Hd.
    destruct n; [congruence|]. now left.
Qed.

Lemma dry_run_lists_planned_renames_witness :
  fst rename_beside_dry
  = Ret [(lit "/WTF/OldRealm/Char", lit "/WTF/OldRealm/Hero");
         (lit "/WTF/OldRealm", lit "/WTF/NewRealm")]
  /\ get [lit "WTF"; lit "OldRealm"] (st_root (snd rename_beside_dry))
     = Some (Dir [entry "Char" (Dir [])]).
Proof.
  destruct (dry_run_lists_planned_renames
              (new_migrator (lit "/WTF") true) realm_and_character None
              (state_at beside_tree "/WTF") eq_refl) as (st' & E & R & _).
  unfold rename_beside_dry. rewrite E. cbn [fst snd].
  split; [vm_compute; reflexivity|]. rewrite R; [reflexivity|].
  split; intros [r Hr]; vm_compute in Hr; discriminate.
Defined.

(** X6 -- The renaming pass, merges included, changes nothing outside
    the working tree but the log file: when the entries of the tree and
    the replacement names of the mapping are proper names, every
    location apart from the working path and from the log file holds
    after the pass what it held before, whether the pass returns or
    raises. *)
Theorem rename_pass_stays_in_working_tree (self : WoWUIMigrator)
        (folder_mappings : dict) (old_account : option str) (st st' : state)
        (res : outcome (list (str * str))) (q : list str) :
  Forall (fun x => proper_name x = true) (st_cwd st) ->
  names_ok (st_root st) = true ->
  Forall (fun e => proper_name (snd e) = true) folder_mappings ->
  rename_folders self folder_mappings old_account st = (res, st') ->
  apart_from (locate (st_cwd st) (st_working st)) q ->
  apart_from (log_file (st_cwd st)) q ->
  get q (st_root st') = get q (st_root st).
Proof.
  intros Pc Hn Hm E Hq _.
  destruct (rename_folders_confined (st_cwd st) (locate (st_cwd st) (st_working st))
              Pc self folder_mappings old_account st st' res Hm
              (conj eq_refl Hn) (within_refl _) E) as [_ [_ F]].
  apply F, Hq.
Qed.

Lemma rename_pass_stays_in_working_tree_witness :
  get [lit "Kept"] (st_root (snd rename_beside)) = Some kept_folder.
Proof.
  apply (rename_pass_stays_in_working_tree
           (new_migrator (lit "/WTF") false) realm_and_character None
           (state_at beside_tree "/WTF") (snd rename_beside) (fst rename_beside)
           [lit "Kept"] (Forall_nil _) eq_refl).
  - repeat constructor.
  - apply surjective_pairing.
  - apply (apart_from_siblings [] (lit "WTF") (lit "Kept")). discriminate.
  - apply (apart_from_siblings [] (lit "wow_ui_migration.log") (lit "Kept")).
    discriminate.
Defined.

Section RewritePass.
Context {db : UnicodeDb}.

Lemma same_file_entry (a b : option node) : same_file a b -> same_entry a b.
Proof.
  destruct a as [[? ? ?|?]|], b as [[? ? ?|?]|]; simpl; tauto.
Qed.

Lemma same_entry_trans (a b d : option node) :
  same_entry a b -> same_entry b d -> same_entry a d.
Proof.
  destruct a as [[? ? ?|?]|], b as [[? ? ?|?]|], d as [[? ? ?|?]|]; simpl;
    try tauto.
  intros (-> & ->) (-> & ->). auto.
Qed.

(** What the files processed leave of a location: the same file when
    none of them is at the location, and in any case the same kind of
    node with the same permissions. *)
Lemma run_updates_locations (self : WoWUIMigrator) (m : dict) (q : list str) :
  forall (paths : list str) (st : state),
    same_entry (get q (st_root (snd (run_updates self m paths st))))
               (get q (st_root st))
    /\ ((forall fp, In fp paths -> locate (st_cwd st) fp <> q) ->
        same_file (get q (st_root (snd (run_updates self m paths st))))
                  (get q (st_root st))).
Proof.
  induction paths as [|fp paths IH]; intros st.
  - cbn. split; [apply same_file_entry|intros _]; apply same_file_refl.
  - cbn [run_updates].
    pose proof (update_one_root self m fp st) as (C1 & _ & _ & R).
    destruct (update_one_result self m fp st) as [l1 st1]. cbn [fst snd] in *.
    specialize (IH st1). destruct (run_updates self m paths st1) as [l2 st2].
    cbn [fst snd] in *. destruct IH as [IH1 IH2]. rewrite C1 in IH2.
    destruct R as [R|(data & bs & G & _ & R)]; rewrite R in *.
    + split; [exact IH1|]. intros H. apply IH2. intros x Hx. apply H. now right.
    + assert (S : same_entry (get q (put (locate (st_cwd st) fp)
                                        (File true true bs) (st_root st)))
                             (get q (st_root st))).
      { destruct (loc_eq_dec q (locate (st_cwd st) fp)) as [->|Hq].
        - rewrite (get_put_file_same _ _ _ _ _ _ G), G. simpl. auto.
        - apply same_file_entry. eapply put_file_frame; eauto. }
      split; [eapply same_entry_trans; eauto|].
      intros H. eapply same_file_trans.
      * apply IH2. intros x Hx. apply H. now right.
      * eapply put_file_frame; [exact G|]. intros ->. apply (H fp); auto.
        now left.
Qed.

(** X7 -- The rewriting pass reports only files it had to rewrite:
    every path it returns is one of the files of the pass (a file with
    a recognised extension in a directory in scope) that could be read
    in the state the pass started in and whose text the chain of
    substitutions changes.  In a dry run it returns exactly those
    files, in the order of the walk, and changes nothing in the tree
    but the log file. *)
Theorem rewrite_pass_reports_needed_files (self : WoWUIMigrator)
        (content_mappings : dict) (old_account : option str) (st : state) :
  exists updated_files st',
    update_file_contents self content_mappings old_account st
    = (Ret updated_files, st')
    /\ (forall file_path,
          In file_path updated_files ->
          In file_path (targets_of content_mappings old_account st)
          /\ needs_update content_mappings st file_path = true)
    /\ (dry_run self = true ->
        updated_files
        = filter (needs_update content_mappings st)
                 (targets_of content_mappings old_account st)
        /\ forall q, apart_from (log_file (st_cwd st)) q ->
                     get q (st_root st') = get q (st_root st)).
Proof.
  rewrite update_file_contents_run.
  set (paths := targets_of content_mappings old_account st).
  exists (fst (run_updates self content_mappings paths st)),
         (snd (run_updates self content_mappings paths st)).
  split; [reflexivity|]. split.
  - intros fp Hin. split.
    + pose proof (run_updates_facts self content_mappings paths st)
        as (_ & _ & _ & I & _). apply I, Hin.
    + eapply (run_updates_needed self content_mappings st paths st);
        [reflexivity| |exact Hin].
      intros q. left. apply same_file_refl.
  - intros Dry.
    destruct (run_updates_dry self content_mappings Dry paths st) as (L & R & _).
    split; [exact L|]. intros q _. rewrite R. reflexivity.
Qed.

(** X8 -- The rewriting pass creates, removes and renames nothing, and
    writes to its own files only: after the pass every walk of the
    tree lists the same names as before, every location holds the same
    kind of node, with the same permissions if it is a file, and every
    location that is neither the location of one of the files of the
    pass nor the log file holds the file it held before, byte for
    byte. *)
Theorem rewrite_pass_writes_its_files_only (self : WoWUIMigrator)
        (content_mappings : dict) (old_account : option str) (st : state) :
  let st' := snd (update_file_contents self content_mappings old_account st) in
  (forall loc top,
     walk_at loc top (st_root st') = walk_at loc top (st_root st))
  /\ (forall q, same_entry (get q (st_root st')) (get q (st_root st)))
  /\ (forall q,
        (forall file_path,
           In file_path (targets_of content_mappings old_account st) ->
           locate (st_cwd st) file_path <> q) ->
        q <> log_file (st_cwd st) ->
        same_file (get q (st_root st')) (get q (st_root st))).
Proof.
  cbv zeta. rewrite update_file_contents_run. cbn [snd].
  split; [intros; apply run_updates_walk|].
  split; intros q; [apply run_updates_locations|].
  intros H _. apply run_updates_locations, H.
Qed.

(** X9 -- The rewriting pass changes nothing outside the working tree
    but the log file: when the entries of the tree have proper names,
    every location apart from the working path and from the log file
    holds after the pass what it held before. *)
Theorem rewrite_pass_stays_in_working_tree (self : WoWUIMigrator)
        (content_mappings : dict) (old_account : option str) (st : state)
        (q : list str) :
  Forall (fun x => proper_name x = true) (st_cwd st) ->
  names_ok (st_root st) = true ->
  apart_from (locate (st_cwd st) (st_working st)) q ->
  apart_from (log_file (st_cwd st)) q ->
  get q (st_root (snd (update_file_contents self content_mappings old_account st)))
  = get q (st_root st).
Proof.
  intros Pc Hn Hq _.
  destruct (update_file_contents_confined
              (st_cwd st) (locate (st_cwd st) (st_working st)) Pc self
              content_mappings old_account st _ _ (conj eq_refl Hn)
              (within_refl _) (surjective_pairing _)) as [_ [_ F]].
  apply F, Hq.
Qed.

End RewritePass.

Lemma rewrite_pass_stays_in_working_tree_witness :
  fst rewrite_beside = Ret [lit "/WTF/Config.wtf"]
  /\ get [lit "Kept"] (st_root (snd rewrite_beside)) = Some kept_folder.
Proof.
  split; [vm_compute; reflexivity|].
  apply (@rewrite_pass_stays_in_working_tree ascii_db
           (new_migrator (lit "/WTF") false) realm_and_character None
           (state_at beside_tree "/WTF") [lit "Kept"] (Forall_nil _) eq_refl).
  - apply (apart_from_siblings [] (lit "WTF") (lit "Kept")). discriminate.
  - apply (apart_from_siblings [] (lit "wow_ui_migration.log") (lit "Kept")).
    discriminate.
Defined.
(** ** [migrate]: what its runs leave alone *)

(** X10 -- When the WTF folder does not exist, [migrate] makes no copy
    and does not read the clock: however it ends, it has changed
    nothing in the tree but the log file, and neither the working path
    nor the change record; and when it returns, it returns [False],
    the last record it has logged being the error "WTF folder not
    found". *)
Theorem migrate_reports_missing_folder {db : UnicodeDb} (self : WoWUIMigrator)
        (old_realm new_realm : str)
        (old_char new_char old_account new_account : option str)
        (st st' : state) (res : outcome bool) :
  node_at (path_str (wtf_path self)) st = None ->
  migrate self old_realm new_realm old_char new_char old_account new_account st
  = (res, st') ->
  (forall q, apart_from (log_file (st_cwd st)) q ->
             get q (st_root st') = get q (st_root st))
  /\ st_working st' = st_working st
  /\ st_changes st' = st_changes st
  /\ st_ticks st' = st_ticks st
  /\ forall ok,
       res = Ret ok ->
       ok = false
       /\ last (st_log st') (INFO, MsgStarting)
          = (ERROR, MsgNotFound (path_str (wtf_path self))).
Proof.
  intros Hnone E.
  destruct (migrate_missing self old_realm new_realm old_char new_char
              old_account new_account st Hnone) as (st1 & E1 & S & L).
  rewrite E1 in E. injection E as <- <-.
  destruct S as (R & _ & _ & T & _ & Ch & W).
  split; [intros q _; rewrite R; reflexivity|].
  split; [exact W|]. split; [exact Ch|]. split; [exact T|].
  intros ok H. injection H as <-. split; [reflexivity|exact L].
Qed.

Lemma migrate_reports_missing_folder_witness :
  fst migrate_nowhere = Ret false
  /\ get [lit "home"; lit "u"; lit "WTF"] (st_root (snd migrate_nowhere))
     = Some character_wtf.
Proof.
  unfold migrate_nowhere. cbv zeta.
  set (st := initial_state (new_migrator (lit "/home/u/Nowhere") false)
                           (home_tree character_wtf) [] still_clock 100).
  set (run := migrate _ _ _ _ _ _ _ st).
  assert (E : fst run = Ret false) by (vm_compute; reflexivity).
  split; [exact E|].
  destruct (@migrate_reports_missing_folder ascii_db
              (new_migrator (lit "/home/u/Nowhere") false)
              (lit "OldRealm") (lit "NewRealm") (Some (lit "Char"))
              (Some (lit "Hero")) None None st (snd run) (fst run)
              eq_refl (surjective_pairing run)) as (F & _).
  rewrite F; [reflexivity|].
  split; intros [r Hr]; vm_compute in Hr; discriminate.
Defined.

(** X11 -- A dry run of [migrate] changes nothing in the tree but the
    log file, and leaves the working path, however it ends; when it
    returns, it returns [True] if the WTF folder exists and [False] if
    it does not (no part of the path given being [..]). *)
Theorem migrate_dry_run_changes_nothing {db : UnicodeDb} (self : WoWUIMigrator)
        (old_realm new_realm : str)
        (old_char new_char old_account new_account : option str)
        (st st' : state) (res : outcome bool) :
  dry_run self = true ->
  upward_free (wtf_path self) ->
  migrate self old_realm new_realm old_char new_char old_account new_account st
  = (res, st') ->
  (forall q, apart_from (log_file (st_cwd st)) q ->
             get q (st_root st') = get q (st_root st))
  /\ st_cwd st' = st_cwd st
  /\ st_working st' = st_working st
  /\ forall ok,
       res = Ret ok ->
       ok = match node_at (path_str (wtf_path self)) st with
            | Some _ => true
            | None => false
            end.
Proof.
  intros Dry _ E.
  destruct (migrate_dry self old_realm new_realm old_char new_char
              old_account new_account st Dry) as (st1 & E1 & R & C & W).
  rewrite E1 in E. injection E as <- <-.
  split; [intros q _; rewrite R; reflexivity|].
  split; [exact C|]. split; [exact W|].
  intros ok H. injection H as <-. reflexivity.
Qed.

Lemma migrate_dry_run_changes_nothing_witness :
  fst migrate_home_dry = Ret true
  /\ get [lit "home"; lit "u"; lit "WTF"] (st_root (snd migrate_home_dry))
     = Some character_wtf.
Proof.
  unfold migrate_home_dry. cbv zeta.
  set (st := initial_state (new_migrator (lit "/home/u/WTF") true)
                           (home_tree character_wtf) [] still_clock 100).
  set (run := migrate _ _ _ _ _ _ _ st).
  assert (E : fst run = Ret true) by (vm_compute; reflexivity).
  split; [exact E|].
  destruct (@migrate_dry_run_changes_nothing ascii_db
              (new_migrator (lit "/home/u/WTF") true)
              (lit "OldRealm") (lit "NewRealm") (Some (lit "Char"))
              (Some (lit "Hero")) None None st (snd run) (fst run)
              eq_refl ltac:(repeat constructor; discriminate)
              (surjective_pairing run)) as (F & _).
  rewrite F; [reflexivity|].
  split; intros [r Hr]; vm_compute in Hr; discriminate.
Defined.

(** X12 -- Whenever [migrate] returns, everything it has changed lies at
    the working path it ends with, or below, or is the log file: every
    location apart from both holds what it held before.  This needs the
    entries of the tree and the components of the working directory to
    have proper names, no part of the path given to be [..], the old
    names that go into the name of the copy to hold no separator, and
    every new name given to be a proper name (a single path component
    other than [.] and [..]). *)
Theorem migrate_changes_the_working_tree_only {db : UnicodeDb}
        (self : WoWUIMigrator) (old_realm new_realm : str)
        (old_char new_char old_account new_account : option str)
        (st st' : state) (ok : bool) (q : list str) :
  Forall (fun x => proper_name x = true) (st_cwd st) ->
  names_ok (st_root st) = true ->
  upward_free (wtf_path self) ->
  no_separator old_realm -> none_or_no_separator old_char ->
  replacement_ok (Some new_realm) -> replacement_ok new_char ->
  replacement_ok new_account ->
  migrate self old_realm new_realm old_char new_char old_account new_account st
  = (Ret ok, st') ->
  apart_from (locate (st_cwd st) (st_working st')) q ->
  apart_from (log_file (st_cwd st)) q ->
  get q (st_root st') = get q (st_root st).
Proof.
  intros Pc Hn _ _ _ R1 R2 R3 E Hq _.
  destruct (migrate_confined self _ _ _ _ _ _ _ _ _ Pc Hn R1 R2 R3 E) as [F _].
  apply F, Hq.
Qed.

Lemma migrate_changes_the_working_tree_only_witness :
  fst migrate_home = Ret true
  /\ get [lit "home"; lit "u"; lit "WTF"] (st_root (snd migrate_home))
     = Some character_wtf.
Proof.
  unfold migrate_home. cbv zeta.
  set (st := initial_state (new_migrator (lit "/home/u/WTF") false)
                           (home_tree character_wtf) [] still_clock 100).
  set (run := migrate _ _ _ _ _ _ _ st).
  assert (E : fst run = Ret true) by (vm_compute; reflexivity).
  split; [exact E|].
  assert (P : run = (Ret true, snd run))
    by (rewrite <- E; apply surjective_pairing).
  assert (W : locate (st_cwd st) (st_working (snd run))
              = [lit "home"; lit "u"]
                ++ [lit "WTF_migrated_OldRealm_to_NewRealm_Char_to_Hero_20231114_221320"])
    by (vm_compute; reflexivity).
  rewrite (@migrate_changes_the_working_tree_only ascii_db
             (new_migrator (lit "/home/u/WTF") false)
             (lit "OldRealm") (lit "NewRealm") (Some (lit "Char"))
             (Some (lit "Hero")) None None st (snd run) true
             [lit "home"; lit "u"; lit "WTF"]
             (Forall_nil _) eq_refl ltac:(repeat constructor; discriminate)
             eq_refl eq_refl eq_refl eq_refl I P).
  - reflexivity.
  - rewrite W. apply (apart_from_siblings [lit "home"; lit "u"]). discriminate.
  - split; intros [r Hr]; vm_compute in Hr; discriminate.
Defined.

(** X13 -- When the path given ends in a name and no part of it is
    [..], the names given hold no separator, the new names are proper
    names and the entries of the tree have proper names, then a run of
    [migrate] that returns has left the original WTF folder as it was,
    in a dry run and otherwise: every location in the folder, the log
    file apart if it lies there, holds what it held before. *)
Theorem migrate_leaves_the_original_untouched {db : UnicodeDb}
        (path : str) (dry : bool) (old_realm new_realm : str)
        (old_char new_char old_account new_account : option str)
        (st st' : state) (ok : bool) (ps : list str) (w : str) (q : list str) :
  Forall (fun x => proper_name x = true) (st_cwd st) ->
  names_ok (st_root st) = true ->
  pp_parts (Path path) = ps ++ [w] -> upward_free (Path path) ->
  no_separator old_realm -> none_or_no_separator old_char ->
  replacement_ok (Some new_realm) -> replacement_ok new_char ->
  replacement_ok new_account ->
  no_separator (next_stamp st) ->
  migrate (new_migrator path dry) old_realm new_realm old_char new_char
          old_account new_account st = (Ret ok, st') ->
  within (locate (st_cwd st) (path_str (Path path))) q ->
  apart_from (log_file (st_cwd st)) q ->
  get q (st_root st') = get q (st_root st).
Proof.
  intros Pc Hn Hparts Hup H1 H3 R1 R2 R3 H5 E [r ->] _.
  rewrite !get_app.
  enough (G : get (locate (st_cwd st) (path_str (Path path))) (st_root st')
              = get (locate (st_cwd st) (path_str (Path path))) (st_root st))
    by (rewrite G; reflexivity).
  destruct (migrate_confined _ _ _ _ _ _ _ _ _ _ Pc Hn R1 R2 R3 E)
    as [F [Same|(W & root' & CT)]]; [rewrite Same; reflexivity|].
  apply F. rewrite W.
  assert (Pw : proper_name w = true).
  { pose proof (Path_parts path) as P. rewrite Hparts in P.
    apply Forall_app in P. destruct P as [_ P]. inversion P as [|? ? (A & B & C) _].
    unfold upward_free in Hup. rewrite Hparts in Hup.
    apply Forall_app in Hup. destruct Hup as [_ Hup].
    inversion Hup as [|? ? Hw _].
    subst. unfold proper_name. apply str_eqb_neq in B, C, Hw.
    rewrite A, B, C, Hw. reflexivity. }
  destruct (copy_lies_beside (st_cwd st) (new_migrator path dry) old_realm
              new_realm old_char new_char (next_stamp st) ps w
              (Path_root_ok path) (Path_parts_ok path) Hparts Pw H1
              (replacement_no_separator (Some new_realm) R1) H3
              (replacement_no_separator new_char R2) H5)
    as (pl & x & Lo & Lc).
  cbn [wtf_path new_migrator] in *. rewrite Lo, Lc in *.
  apply apart_from_siblings. intros ->.
  exact (copytree_loc_same _ _ _ CT).
Qed.

Lemma migrate_leaves_the_original_untouched_witness :
  get [lit "home"; lit "u"; lit "WTF"; lit "Account"; lit "ACC"]
      (st_root (snd migrate_home))
  = Some (Dir [entry "OldRealm"
                 (Dir [entry "Char"
                         (Dir [entry "layout.txt" (text_file "Char")])])]).
Proof.
  unfold migrate_home. cbv zeta.
  set (st := initial_state (new_migrator (lit "/home/u/WTF") false)
                           (home_tree character_wtf) [] still_clock 100).
  set (run := migrate _ _ _ _ _ _ _ st).
  assert (E : fst run = Ret true) by (vm_compute; reflexivity).
  assert (P : run = (Ret true, snd run))
    by (rewrite <- E; apply surjective_pairing).
  rewrite (@migrate_leaves_the_original_untouched ascii_db
             (lit "/home/u/WTF") false
             (lit "OldRealm") (lit "NewRealm") (Some (lit "Char"))
             (Some (lit "Hero")) None None st (snd run) true
             [lit "home"; lit "u"] (lit "WTF")
             [lit "home"; lit "u"; lit "WTF"; lit "Account"; lit "ACC"]
             (Forall_nil _) eq_refl eq_refl ltac:(repeat constructor; discriminate)
             eq_refl eq_refl eq_refl eq_refl I eq_refl P).
  - reflexivity.
  - exists [lit "Account"; lit "ACC"]. vm_compute. reflexivity.
  - split; intros [r Hr]; vm_compute in Hr; discriminate.
Defined.

(** ** Files: extensions, and what is written and read back *)

(** X14 -- What the rewriting pass writes it reads back: after the text
    [content] has been written to a file that could be read, reading
    the file again (UTF-8, undecodable bytes ignored, universal
    newlines) returns [content] with its line ends normalised, and
    changes nothing. *)
Theorem written_text_reads_back (path content : str) (st st' : state)
        (w : bool) (d : list N) :
  node_at path st = Some (File true w d) ->
  write_text path content st = (Ret tt, st') ->
  read_text path st' = (Ret (universal_newlines content), st').
Proof.
  unfold write_text, read_text, node_at. intros G. rewrite G.
  destruct w; [|discriminate].
  destruct (encode_utf8 content) as [bs|] eqn:E; [|discriminate].
  intros H. injection H as <-. cbn [st_cwd st_root with_root].
  rewrite (get_put_file_same _ _ _ _ _ _ G), (decode_encode _ _ E). reflexivity.
Qed.

Lemma written_text_reads_back_witness :
  fst (bind (write_text (lit "/WTF/Config.wtf") [72; 233; 13; 10; 8364]%N)
            (fun _ => read_text (lit "/WTF/Config.wtf"))
            (state_at small_tree "/WTF"))
  = Ret [72; 233; 10; 8364]%N.
Proof.
  set (st := state_at small_tree "/WTF").
  set (run := write_text (lit "/WTF/Config.wtf") [72; 233; 13; 10; 8364]%N st).
  assert (E : fst run = Ret tt) by (vm_compute; reflexivity).
  assert (P : run = (Ret tt, snd run)) by (rewrite <- E; apply surjective_pairing).
  unfold bind. fold run. rewrite P.
  rewrite (written_text_reads_back (lit "/WTF/Config.wtf") _ st (snd run) true
             (lit "SET realmName OldRealm") eq_refl P).
  reflexivity.
Defined.

Lemma rsplit_last_none_inv (c : N) (s : str) :
  rsplit_last c s = None -> existsb (N.eqb c) s = false.
Proof.
  induction s as [|d s IH]; [reflexivity|]. cbn [rsplit_last existsb].
  destruct (rsplit_last c s) as [[b a]|]; [discriminate|].
  rewrite (N.eqb_sym c d). destruct (N.eqb d c); [discriminate|].
  intros _. apply IH. reflexivity.
Qed.

Lemma rsplit_last_spec (c : N) : forall (s b a : str),
  rsplit_last c s = Some (b, a) ->
  s = b ++ c :: a /\ existsb (N.eqb c) a = false.
Proof.
  induction s as [|d s IH]; intros b a; [discriminate|]. cbn [rsplit_last].
  destruct (rsplit_last c s) as [[b' a']|] eqn:R.
  - intros H. injection H as <- <-. destruct (IH b' a' eq_refl) as [-> Hn].
    split; [reflexivity|exact Hn].
  - destruct (N.eqb d c) eqn:E; [|discriminate].
    intros H. injection H as <- <-. apply N.eqb_eq in E. subst d.
    split; [reflexivity|apply rsplit_last_none_inv, R].
Qed.

Lemma lower_keeps_dot (c : N) : N.eqb dot (ascii_lower c) = N.eqb dot c.
Proof.
  unfold ascii_lower, is_upper, in_range.
  destruct (N.leb 65 c && N.leb c 90) eqn:U; [|reflexivity].
  apply andb_true_iff in U. destruct U as [U1 U2].
  apply N.leb_le in U1, U2.
  transitivity false; [|symmetry]; apply N.eqb_neq; unfold dot; lia.
Qed.

Lemma existsb_dot_lower (e : str) :
  existsb (N.eqb dot) (str_lower e) = existsb (N.eqb dot) e.
Proof.
  unfold str_lower. induction e as [|c e IH]; [reflexivity|].
  cbn [List.map existsb]. rewrite lower_keeps_dot, IH. reflexivity.
Qed.

(** X15 -- A file name (without separator) is taken for a configuration
    file exactly when it is a stem that does not consist of dots only,
    followed by a dot and one of the extensions lua, txt, toc, xml and
    wtf in any letter case: the extension is what follows the last
    dot, and a name such as [.lua] has none. *)
Theorem config_files_by_extension (file_name : str) :
  no_separator file_name ->
  (is_config_file file_name = true
   <-> exists stem ext,
         file_name = stem ++ dot :: ext
         /\ forallb (N.eqb dot) stem = false
         /\ In (str_lower (dot :: ext)) config_extensions).
Proof.
  intros Hn. unfold is_config_file, splitext_ext, os_path_basename.
  rewrite (rsplit_last_none _ _ Hn). split.
  - destruct (rsplit_last dot file_name) as [[b a]|] eqn:R; [|discriminate].
    destruct (forallb (N.eqb dot) b) eqn:F; [discriminate|].
    intros E. apply existsb_exists in E. destruct E as (x & Hin & E).
    apply str_eqb_eq in E. subst x.
    destruct (rsplit_last_spec _ _ _ _ R) as [-> _]. eauto.
  - intros (stem & ext & -> & F & Hin).
    assert (Hd : existsb (N.eqb dot) ext = false).
    { rewrite <- existsb_dot_lower.
      change (str_lower (dot :: ext)) with (dot :: str_lower ext) in Hin.
      unfold config_extensions in Hin. cbn [In] in Hin.
      destruct Hin as [H|[H|[H|[H|[H|[]]]]]];
        apply (f_equal (@tl N)) in H; cbn [tl] in H; rewrite <- H; reflexivity. }
    rewrite (rsplit_last_app _ _ _ Hd), F.
    apply existsb_exists. exists (str_lower (dot :: ext)).
    split; [exact Hin|apply str_eqb_refl].
Qed.

Lemma config_files_by_extension_witness :
  is_config_file (lit "Layout.LUA") = true.
Proof.
  apply (proj2 (config_files_by_extension (lit "Layout.LUA") eq_refl)).
  exists (lit "Layout"), (lit "LUA").
  split; [reflexivity|]. split; [reflexivity|]. left. reflexivity.
Defined.
